(** * Multi-source iterators of torchtnt/utils/data/iterators.py

    A shallow embedding of the four [MultiIterator] implementations
    (round robin, all dataset batches, randomized batch sampler, in order)
    together with their [state_dict] / [load_state_dict] methods and the
    registry that maps a strategy to its iterator, and the properties of
    their stopping mechanisms.

    Modelling conventions.
    - A dataloader is a finite, re-iterable sequence of batches; [iter]
      gives a handle on its first batch and [next] on a handle either
      yields a batch or signals exhaustion.  An exhausted handle stays
      exhausted.
    - A Python [dict] is an association list in insertion order (the order
      [keys()] and [items()] enumerate); its keys are pairwise distinct.
    - A method that mutates [self] is a function from the state before the
      call to an outcome, the state after the call and the list of calls it
      made on the source handles, on [random.choices] and on
      [torch.distributed].
    - Loops and self-recursion that the source does not bound take a fuel
      argument; [OutOfFuel] stands for a computation that has not finished
      within the fuel.
    - A Python [float] is a binary64 number with the arithmetic of the
      processor; an [int] is unbounded.  The global random generator is
      an oracle that gives, draw after draw, a position in the population
      that [random.choices] has accepted. *)

From Stdlib Require Import String List Arith Lia Bool PeanoNat Permutation.
From Stdlib Require Import ZArith.
From Stdlib Require Floats.PrimFloat Floats.SpecFloat Floats.FloatOps.
Import ListNotations.
Local Open Scope string_scope.
Local Open Scope list_scope.
Local Open Scope nat_scope.

(** ** Python values *)

Definition batch := nat.
Definition dataloader := list batch.
Definition iterator := list batch.

(** [iter(dl)] on a re-iterable source. *)
Definition iter (dl : dataloader) : iterator := dl.

Inductive exn : Type :=
| StopIteration
| NotImplementedError
| KeyError
| IndexError
| AssertionError
| ValueError
| OverflowError.

Inductive outcome (A : Type) : Type :=
| Return (a : A)
| Raise (e : exn)
| OutOfFuel.
Arguments Return {A} a.
Arguments Raise {A} e.
Arguments OutOfFuel {A}.

(** ** Numbers *)

Definition float := PrimFloat.float.

(** A weight as a strategy holds it: an [int] or a [float]. *)
Inductive weight : Type :=
| PyInt (z : Z)
| PyFloat (x : float).

(** The float nearest to an [int], ties to even; infinite beyond the
    range of the floats. *)
Definition float_of_int (z : Z) : float :=
  FloatOps.SF2Prim
    (SpecFloat.binary_normalize FloatOps.prec FloatOps.emax z 0 false).

(** [float(x)]: an [int] too large for a float raises OverflowError. *)
Definition to_float (x : weight) : outcome float :=
  match x with
  | PyFloat f => Return f
  | PyInt z =>
      if PrimFloat.is_infinity (float_of_int z) then Raise OverflowError
      else Return (float_of_int z)
  end.

(** Calls made on the collaborators during a method call. *)
Inductive event : Type :=
| EvNext (k : string)       (* next(handle of source k) *)
| EvIter (k : string)       (* iter(individual_dataloaders[k]) after construction *)
| EvNewGroup                (* dist.new_group(backend="gloo", ranks=None) *)
| EvBroadcast (idx : nat)   (* dist.broadcast(key_idx, 0, group) *)
| EvChoices (population : list string) (weights : option (list float)).
                            (* random.choices(population, weights=weights) *)

Definition dict (V : Type) := list (string * V).

Definition keys {V : Type} (d : dict V) : list string := map fst d.

Fixpoint lookup {V : Type} (k : string) (d : dict V) : option V :=
  match d with
  | [] => None
  | (k', v) :: r => if String.eqb k k' then Some v else lookup k r
  end.

(** [d[k] = v] *)
Fixpoint setitem {V : Type} (k : string) (v : V) (d : dict V) : dict V :=
  match d with
  | [] => [(k, v)]
  | (k', v') :: r =>
      if String.eqb k k' then (k, v) :: r else (k', v') :: setitem k v r
  end.

(** [k in l] on a list of strings. *)
Definition mem (k : string) (l : list string) : bool :=
  existsb (String.eqb k) l.

(** [l.index(k)] *)
Fixpoint index (k : string) (l : list string) : option nat :=
  match l with
  | [] => None
  | k' :: r =>
      if String.eqb k k' then Some 0
      else match index k r with Some i => Some (S i) | None => None end
  end.

(** [l[i] = v] on a list, for [i] in range. *)
Fixpoint set_nth {A : Type} (i : nat) (v : A) (l : list A) : list A :=
  match l, i with
  | [], _ => []
  | _ :: r, 0 => v :: r
  | x :: r, S i' => x :: set_nth i' v r
  end.

(** [sorted(keys)]: insertion sort under the order of [str]. *)
Fixpoint insert_sorted (k : string) (l : list string) : list string :=
  match l with
  | [] => [k]
  | k' :: r => if String.leb k k' then k :: l else k' :: insert_sorted k r
  end.

Definition sorted (l : list string) : list string :=
  fold_right insert_sorted [] l.

Inductive StoppingMechanism : Type :=
| ALL_DATASETS_EXHAUSTED
| SMALLEST_DATASET_EXHAUSTED
| RESTART_UNTIL_ALL_DATASETS_EXHAUSTED
| WRAP_AROUND_UNTIL_KILLED.

Definition StoppingMechanism_eqb (a b : StoppingMechanism) : bool :=
  match a, b with
  | ALL_DATASETS_EXHAUSTED, ALL_DATASETS_EXHAUSTED => true
  | SMALLEST_DATASET_EXHAUSTED, SMALLEST_DATASET_EXHAUSTED => true
  | RESTART_UNTIL_ALL_DATASETS_EXHAUSTED,
    RESTART_UNTIL_ALL_DATASETS_EXHAUSTED => true
  | WRAP_AROUND_UNTIL_KILLED, WRAP_AROUND_UNTIL_KILLED => true
  | _, _ => false
  end.

(** [iteration_order or list(keys)]: [None] and the empty list are falsy. *)
Definition order_or_keys (o : option (list string)) (ks : list string)
  : list string :=
  match o with
  | Some (k :: r) => k :: r
  | _ => ks
  end.

(** ** itertools.cycle over a list *)

Record cycle : Type := mkCycle { cyc_saved : list string; cyc_pos : nat }.

Definition cycle_next (c : cycle) : option (string * cycle) :=
  match nth_error (cyc_saved c) (cyc_pos c) with
  | Some k =>
      Some (k, mkCycle (cyc_saved c)
                 (if S (cyc_pos c) =? length (cyc_saved c)
                  then 0 else S (cyc_pos c)))
  | None => None
  end.

(** [x in c] on the iterator [c]: consumes [c] up to and including the
    first element equal to [x]; on an endless cycle without [x] it never
    returns. *)
Fixpoint cycle_contains (fuel : nat) (x : string) (c : cycle)
  : outcome (bool * cycle) :=
  match fuel with
  | 0 => OutOfFuel
  | S f =>
      match cycle_next c with
      | None => Return (false, c)
      | Some (k, c') =>
          if String.eqb k x then Return (true, c')
          else cycle_contains f x c'
      end
  end.

(** ** A run: call [next] until it raises [StopIteration] *)

Inductive run_end : Type :=
| Ended                (* StopIteration *)
| Failed (e : exn)     (* another exception *)
| Unfinished.          (* calls or fuel used up *)

Definition record := dict batch.

Fixpoint collect {S : Type}
  (next : S -> outcome record * S * list event) (calls : nat) (st : S)
  : list record * run_end * S :=
  match calls with
  | 0 => ([], Unfinished, st)
  | S n =>
      match next st with
      | (Return r, st', _) =>
          let '(rs, e, st'') := collect next n st' in (r :: rs, e, st'')
      | (Raise StopIteration, st', _) => ([], Ended, st')
      | (Raise e, st', _) => ([], Failed e, st')
      | (OutOfFuel, st', _) => ([], Unfinished, st')
      end
  end.

(** The outcomes of [n] successive [next] calls, whatever they are. *)
Fixpoint outcomes {S : Type}
  (next : S -> outcome record * S * list event) (n : nat) (st : S)
  : list (outcome record) :=
  match n with
  | 0 => []
  | S n' => let '(r, st', _) := next st in r :: outcomes next n' st'
  end.

(** The calls made on the collaborators during [n] successive [next]. *)
Fixpoint events {S : Type}
  (next : S -> outcome record * S * list event) (n : nat) (st : S)
  : list event :=
  match n with
  | 0 => []
  | S n' => let '(_, st', l) := next st in l ++ events next n' st'
  end.

Definition selected_keys (rs : list record) : list string :=
  flat_map (fun r : record => keys r) rs.

(** ** RoundRobinIterator *)

Record RoundRobin : Type := mkRoundRobin {
  rr_stopping_mechanism : StoppingMechanism;
  rr_iteration_order : option (list string)
}.

Record RoundRobinIterator : Type := mkRoundRobinIterator {
  rr_iteration_strategy : RoundRobin;
  rr_individual_iterators : dict iterator;
  rr_dataloader_cycle : cycle;
  rr_cur_dataloader : string;
  rr_finished_dataloaders : list string
}.

Definition RoundRobinIterator_init
  (individual_dataloaders : dict dataloader) (iteration_strategy : RoundRobin)
  : outcome RoundRobinIterator :=
  if StoppingMechanism_eqb (rr_stopping_mechanism iteration_strategy)
       WRAP_AROUND_UNTIL_KILLED
  then Raise NotImplementedError
  else
    let individual_iterators :=
      map (fun nd : string * dataloader => (fst nd, iter (snd nd)))
        individual_dataloaders in
    let round_robin_order :=
      order_or_keys (rr_iteration_order iteration_strategy)
        (keys individual_iterators) in
    match round_robin_order with
    | [] => Raise IndexError
    | k0 :: _ =>
        Return (mkRoundRobinIterator iteration_strategy individual_iterators
                  (mkCycle round_robin_order 0) k0 [])
    end.

(** [while self.cur_dataloader in self.finished_dataloaders:
       self.cur_dataloader = next(self.dataloader_cycle)] *)
Fixpoint skip_finished (fuel : nat) (finished : list string)
  (cur : string) (c : cycle) : outcome (string * cycle) * (string * cycle) :=
  if mem cur finished then
    match fuel with
    | 0 => (OutOfFuel, (cur, c))
    | S f =>
        match cycle_next c with
        | None => (Raise StopIteration, (cur, c))
        | Some (k, c') => skip_finished f finished k c'
        end
    end
  else (Return (cur, c), (cur, c)).

Definition rr_set_cursor (it : RoundRobinIterator) (kc : string * cycle)
  : RoundRobinIterator :=
  mkRoundRobinIterator (rr_iteration_strategy it) (rr_individual_iterators it)
    (snd kc) (fst kc) (rr_finished_dataloaders it).

(** The [try] block of [__next__], with [again] for [self.__next__()]. *)
Definition rr_draw
  (again : RoundRobinIterator -> outcome record * RoundRobinIterator * list event)
  (it : RoundRobinIterator) : outcome record * RoundRobinIterator * list event :=
  let k := rr_cur_dataloader it in
  match lookup k (rr_individual_iterators it) with
  | None => (Raise KeyError, it, [])
  | Some (b :: rest) =>
      (Return [(k, b)],
       mkRoundRobinIterator (rr_iteration_strategy it)
         (setitem k rest (rr_individual_iterators it))
         (rr_dataloader_cycle it) k (rr_finished_dataloaders it),
       [EvNext k])
  | Some [] =>
      if StoppingMechanism_eqb
           (rr_stopping_mechanism (rr_iteration_strategy it))
           SMALLEST_DATASET_EXHAUSTED
      then (Raise StopIteration, it, [EvNext k])
      else
        let it' :=
          mkRoundRobinIterator (rr_iteration_strategy it)
            (rr_individual_iterators it) (rr_dataloader_cycle it) k
            (rr_finished_dataloaders it ++ [k]) in
        if length (rr_finished_dataloaders it') =?
           length (rr_individual_iterators it')
        then (Raise StopIteration, it', [EvNext k])
        else
          let '(r, it'', l) := again it' in (r, it'', EvNext k :: l)
  end.

Fixpoint rr_next (fuel : nat) (it : RoundRobinIterator)
  : outcome record * RoundRobinIterator * list event :=
  match fuel with
  | 0 => (OutOfFuel, it, [])
  | S f =>
      if length (rr_finished_dataloaders it) =?
         length (rr_individual_iterators it)
      then (Raise StopIteration, it, [])
      else
        match cycle_next (rr_dataloader_cycle it) with
        | None => (Raise StopIteration, it, [])
        | Some kc =>
            match skip_finished f (rr_finished_dataloaders it)
                    (fst kc) (snd kc) with
            | (Return _, kc') => rr_draw (rr_next f) (rr_set_cursor it kc')
            | (Raise e, kc') => (Raise e, rr_set_cursor it kc', [])
            | (OutOfFuel, kc') => (OutOfFuel, rr_set_cursor it kc', [])
            end
        end
  end.

Record RoundRobinState : Type := mkRoundRobinState {
  sd_finished_dataloaders : list string;
  sd_cur_dataloader : string
}.

Definition rr_state_dict (it : RoundRobinIterator) : RoundRobinState :=
  mkRoundRobinState (rr_finished_dataloaders it) (rr_cur_dataloader it).

(** [while self.cur_dataloader != cur_dataloader:
       self.cur_dataloader = next(self.dataloader_cycle)] *)
Fixpoint seek_cursor (fuel : nat) (target cur : string) (c : cycle)
  : outcome (string * cycle) :=
  if String.eqb cur target then Return (cur, c)
  else
    match fuel with
    | 0 => OutOfFuel
    | S f =>
        match cycle_next c with
        | None => Raise StopIteration
        | Some (k, c') => seek_cursor f target k c'
        end
    end.

Definition rr_load_state_dict (fuel : nat) (state_dict : RoundRobinState)
  (it : RoundRobinIterator) : outcome RoundRobinIterator :=
  let it1 :=
    mkRoundRobinIterator (rr_iteration_strategy it)
      (rr_individual_iterators it) (rr_dataloader_cycle it)
      (rr_cur_dataloader it) (sd_finished_dataloaders state_dict) in
  let cur_dataloader := sd_cur_dataloader state_dict in
  match cycle_contains fuel cur_dataloader (rr_dataloader_cycle it1) with
  | OutOfFuel => OutOfFuel
  | Raise e => Raise e
  | Return (false, c) =>
      (* logger.warning(...); return *)
      Return (rr_set_cursor it1 (rr_cur_dataloader it1, c))
  | Return (true, c) =>
      match seek_cursor fuel cur_dataloader (rr_cur_dataloader it1) c with
      | Return kc => Return (rr_set_cursor it1 kc)
      | Raise e => Raise e
      | OutOfFuel => OutOfFuel
      end
  end.

(** ** AllDatasetBatchesIterator *)

Record AllDatasetBatches : Type := mkAllDatasetBatches {
  adb_strategy_stopping_mechanism : StoppingMechanism
}.

Record AllDatasetBatchesIterator : Type := mkAllDatasetBatchesIterator {
  adb_individual_dataloaders : dict dataloader;
  adb_stopping_mechanism : StoppingMechanism;
  adb_individual_iterators : dict iterator;
  adb_iterators_finished : list string
}.

Definition AllDatasetBatchesIterator_init
  (individual_dataloaders : dict dataloader)
  (iteration_strategy : AllDatasetBatches)
  : outcome AllDatasetBatchesIterator :=
  if StoppingMechanism_eqb
       (adb_strategy_stopping_mechanism iteration_strategy)
       WRAP_AROUND_UNTIL_KILLED
  then Raise NotImplementedError
  else
    Return (mkAllDatasetBatchesIterator individual_dataloaders
              (adb_strategy_stopping_mechanism iteration_strategy)
              (map (fun nd : string * dataloader => (fst nd, iter (snd nd)))
                 individual_dataloaders)
              []).

Definition adb_set_iterator (it : AllDatasetBatchesIterator) (k : string)
  (h : iterator) : AllDatasetBatchesIterator :=
  mkAllDatasetBatchesIterator (adb_individual_dataloaders it)
    (adb_stopping_mechanism it)
    (setitem k h (adb_individual_iterators it))
    (adb_iterators_finished it).

Definition adb_set_finished (it : AllDatasetBatchesIterator)
  (fin : list string) : AllDatasetBatchesIterator :=
  mkAllDatasetBatchesIterator (adb_individual_dataloaders it)
    (adb_stopping_mechanism it) (adb_individual_iterators it) fin.

(** The [for iterator in self.individual_iterators] loop over the keys
    that remain, followed by the test on [len(batch_dict)]. *)
Fixpoint adb_for (ks : list string) (it : AllDatasetBatchesIterator)
  (batch_dict : record)
  : outcome record * AllDatasetBatchesIterator * list event :=
  match ks with
  | [] =>
      if length batch_dict =? 0 then (Raise StopIteration, it, [])
      else (Return batch_dict, it, [])
  | k :: ks' =>
      match lookup k (adb_individual_iterators it) with
      | None => (Raise KeyError, it, [])
      | Some (b :: rest) =>
          let '(r, it', l) :=
            adb_for ks' (adb_set_iterator it k rest)
              (setitem k b batch_dict) in
          (r, it', EvNext k :: l)
      | Some [] =>
          match adb_stopping_mechanism it with
          | SMALLEST_DATASET_EXHAUSTED => (Raise StopIteration, it, [EvNext k])
          | RESTART_UNTIL_ALL_DATASETS_EXHAUSTED =>
              let it1 :=
                adb_set_finished it
                  (if mem k (adb_iterators_finished it)
                   then adb_iterators_finished it
                   else adb_iterators_finished it ++ [k]) in
              if length (adb_iterators_finished it1) =?
                 length (adb_individual_iterators it1)
              then (Raise StopIteration, it1, [EvNext k])
              else
                match lookup k (adb_individual_dataloaders it1) with
                | None => (Raise KeyError, it1, [EvNext k])
                | Some dl =>
                    match iter dl with
                    | [] =>
                        (Raise StopIteration, adb_set_iterator it1 k [],
                         [EvNext k; EvIter k; EvNext k])
                    | b :: rest =>
                        let '(r, it', l) :=
                          adb_for ks' (adb_set_iterator it1 k rest)
                            (setitem k b batch_dict) in
                        (r, it', EvNext k :: EvIter k :: EvNext k :: l)
                    end
                end
          | _ =>
              let '(r, it', l) := adb_for ks' it batch_dict in
              (r, it', EvNext k :: l)
          end
      end
  end.

Definition adb_next (it : AllDatasetBatchesIterator)
  : outcome record * AllDatasetBatchesIterator * list event :=
  adb_for (keys (adb_individual_iterators it)) it [].

(** ** RandomizedBatchSamplerIterator *)

Record RandomizedBatchSampler : Type := mkRandomizedBatchSampler {
  rbs_weights : option (dict weight);
  rbs_strategy_stopping_mechanism : StoppingMechanism;
  rbs_strategy_enforce_same_loader_across_ranks : bool
}.

(** What the process finds around it: the outcomes of the global random
    generator, draw after draw, and [torch.distributed]. *)
Record environment : Type := mkEnvironment {
  random_choices : nat -> nat;
  dist_is_available : bool;
  dist_is_initialized : bool;
  dist_new_group : outcome unit;
  dist_broadcast : nat -> nat -> nat
}.

Record RandomizedBatchSamplerIterator : Type :=
  mkRandomizedBatchSamplerIterator {
  rbs_individual_dataloaders : dict dataloader;
  rbs_individual_iterators : dict iterator;
  rbs_iterator_names : list string;
  rbs_iterator_weights : option (list float);
  rbs_iterator_is_exhausted : list bool;
  rbs_stopping_mechanism : StoppingMechanism;
  rbs_enforce_same_loader_across_ranks : bool;
  rbs_iterators_finished : list string;
  rbs_draws : nat   (* how many random draws the instance has made *)
}.

(** [set(names).issubset(weights.keys())] *)
Definition issubset_keys (names : list string) (weights : dict weight)
  : bool :=
  forallb (fun n => match lookup n weights with
                    | Some _ => true
                    | None => false
                    end) names.

(** [[float(weights[name]) for name in names]] *)
Fixpoint weights_of (weights : dict weight) (names : list string)
  : outcome (list float) :=
  match names with
  | [] => Return []
  | n :: r =>
      match lookup n weights with
      | None => Raise KeyError
      | Some x =>
          match to_float x with
          | Return w =>
              match weights_of weights r with
              | Return ws => Return (w :: ws)
              | Raise e => Raise e
              | OutOfFuel => OutOfFuel
              end
          | Raise e => Raise e
          | OutOfFuel => OutOfFuel
          end
      end
  end.

Definition RandomizedBatchSamplerIterator_init (env : environment)
  (individual_dataloaders : dict dataloader)
  (iteration_strategy : RandomizedBatchSampler)
  : outcome RandomizedBatchSamplerIterator * list event :=
  let individual_iterators :=
    map (fun nd : string * dataloader => (fst nd, iter (snd nd)))
      individual_dataloaders in
  let iterator_names := sorted (keys individual_dataloaders) in
  let build (iterator_weights : option (list float)) :=
    let it :=
      mkRandomizedBatchSamplerIterator individual_dataloaders
        individual_iterators iterator_names iterator_weights
        (repeat false (length iterator_names))
        (rbs_strategy_stopping_mechanism iteration_strategy)
        (rbs_strategy_enforce_same_loader_across_ranks iteration_strategy)
        [] 0 in
    if rbs_strategy_enforce_same_loader_across_ranks iteration_strategy
    then
      match dist_new_group env with
      | Return _ => (Return it, [EvNewGroup])
      | Raise e => (Raise e, [EvNewGroup])
      | OutOfFuel => (OutOfFuel, [EvNewGroup])
      end
    else (Return it, []) in
  match rbs_weights iteration_strategy with
  | None => build None
  | Some weights =>
      if issubset_keys iterator_names weights
      then
        match weights_of weights iterator_names with
        | Return ws => build (Some ws)
        | Raise e => (Raise e, [])
        | OutOfFuel => (OutOfFuel, [])
        end
      else (Raise AssertionError, [])
  end.

(** The three tests that open [__next__]. *)
Definition rbs_should_stop (it : RandomizedBatchSamplerIterator) : bool :=
  match rbs_stopping_mechanism it with
  | SMALLEST_DATASET_EXHAUSTED =>
      existsb (fun b : bool => b) (rbs_iterator_is_exhausted it)
  | ALL_DATASETS_EXHAUSTED =>
      forallb (fun b : bool => b) (rbs_iterator_is_exhausted it)
  | RESTART_UNTIL_ALL_DATASETS_EXHAUSTED =>
      length (rbs_iterators_finished it) =?
      length (rbs_individual_iterators it)
  | WRAP_AROUND_UNTIL_KILLED => false
  end.

(** [[x for x, exhausted in zip(xs, flags) if not exhausted]] *)
Definition not_exhausted {A : Type} (xs : list A) (flags : list bool)
  : list A :=
  map fst (filter (fun p : A * bool => negb (snd p)) (combine xs flags)).

(** The population and the weights handed to [random.choices]. *)
Definition rbs_candidates (it : RandomizedBatchSamplerIterator)
  : list string * option (list float) :=
  match rbs_stopping_mechanism it, rbs_iterator_weights it with
  | WRAP_AROUND_UNTIL_KILLED, ws => (rbs_iterator_names it, ws)
  | _, None => (rbs_iterator_names it, None)
  | _, Some ws =>
      (not_exhausted (rbs_iterator_names it) (rbs_iterator_is_exhausted it),
       Some (not_exhausted ws (rbs_iterator_is_exhausted it)))
  end.

(** [list(itertools.accumulate(weights))]: the running totals. *)
Fixpoint accumulate_from (acc : float) (ws : list float) : list float :=
  match ws with
  | [] => []
  | w :: r => PrimFloat.add acc w :: accumulate_from (PrimFloat.add acc w) r
  end.

Definition accumulate (ws : list float) : list float :=
  match ws with
  | [] => []
  | w :: r => w :: accumulate_from w r
  end.

(** [l[-1]] *)
Fixpoint last_item {A : Type} (l : list A) : option A :=
  match l with
  | [] => None
  | [x] => Some x
  | _ :: r => last_item r
  end.

(** [random.choices(population, weights=weights)[0]].  Without weights
    the generator picks one position of the population.  With weights the
    running totals are computed first: they must be as many as the
    population holds names, and their last one, the total, must be
    greater than zero and finite; then a position of the population is
    found by bisection of the running totals at a random point.  Which
    position that is, is left to the generator: the model does not relate
    it to the weights. *)
Definition random_choice (env : environment) (draw : nat)
  (population : list string) (weights : option (list float))
  : outcome string :=
  let pick :=
    match nth_error population
            (random_choices env draw mod length population) with
    | Some k => Return k
    | None => Raise IndexError
    end in
  match weights with
  | None => pick
  | Some ws =>
      let cum_weights := accumulate ws in
      if negb (length cum_weights =? length population)
      then Raise ValueError
      else
        match last_item cum_weights with
        | None => Raise IndexError
        | Some c =>
            let total := PrimFloat.add c PrimFloat.zero in
            if PrimFloat.leb total PrimFloat.zero then Raise ValueError
            else if negb (PrimFloat.is_finite total) then Raise ValueError
            else pick
        end
  end.

Definition rbs_set_iterator (it : RandomizedBatchSamplerIterator)
  (k : string) (h : iterator) : RandomizedBatchSamplerIterator :=
  mkRandomizedBatchSamplerIterator (rbs_individual_dataloaders it)
    (setitem k h (rbs_individual_iterators it))
    (rbs_iterator_names it) (rbs_iterator_weights it)
    (rbs_iterator_is_exhausted it) (rbs_stopping_mechanism it)
    (rbs_enforce_same_loader_across_ranks it)
    (rbs_iterators_finished it) (rbs_draws it).

Definition rbs_set_finished (it : RandomizedBatchSamplerIterator)
  (fin : list string) : RandomizedBatchSamplerIterator :=
  mkRandomizedBatchSamplerIterator (rbs_individual_dataloaders it)
    (rbs_individual_iterators it)
    (rbs_iterator_names it) (rbs_iterator_weights it)
    (rbs_iterator_is_exhausted it) (rbs_stopping_mechanism it)
    (rbs_enforce_same_loader_across_ranks it) fin (rbs_draws it).

Definition rbs_set_exhausted (it : RandomizedBatchSamplerIterator)
  (flags : list bool) : RandomizedBatchSamplerIterator :=
  mkRandomizedBatchSamplerIterator (rbs_individual_dataloaders it)
    (rbs_individual_iterators it)
    (rbs_iterator_names it) (rbs_iterator_weights it)
    flags (rbs_stopping_mechanism it)
    (rbs_enforce_same_loader_across_ranks it)
    (rbs_iterators_finished it) (rbs_draws it).

Definition rbs_tick (it : RandomizedBatchSamplerIterator)
  : RandomizedBatchSamplerIterator :=
  mkRandomizedBatchSamplerIterator (rbs_individual_dataloaders it)
    (rbs_individual_iterators it)
    (rbs_iterator_names it) (rbs_iterator_weights it)
    (rbs_iterator_is_exhausted it) (rbs_stopping_mechanism it)
    (rbs_enforce_same_loader_across_ranks it)
    (rbs_iterators_finished it) (S (rbs_draws it)).

(** From [iterator_names = self._iterator_names] to the key the batch is
    drawn from: the local random choice, then the broadcast of rank 0's
    choice when the ranks are coordinated. *)
Definition rbs_select (env : environment)
  (it : RandomizedBatchSamplerIterator) : outcome string * list event :=
  let iterator_names := fst (rbs_candidates it) in
  let iterator_weights := snd (rbs_candidates it) in
  let asked := EvChoices iterator_names iterator_weights in
  match random_choice env (rbs_draws it) iterator_names iterator_weights with
  | Raise e => (Raise e, [asked])
  | OutOfFuel => (OutOfFuel, [asked])
  | Return selected_key =>
      if rbs_enforce_same_loader_across_ranks it
         && dist_is_available env && dist_is_initialized env
      then
        match index selected_key (rbs_iterator_names it) with
        | None => (Raise KeyError, [asked])
        | Some key_idx =>
            match nth_error (rbs_iterator_names it)
                    (dist_broadcast env (rbs_draws it) key_idx) with
            | None => (Raise IndexError, [asked; EvBroadcast key_idx])
            | Some k => (Return k, [asked; EvBroadcast key_idx])
            end
        end
      else (Return selected_key, [asked])
  end.

(** [iter(self._individual_dataloaders[k])] followed by [next] on it. *)
Definition rbs_restart (it : RandomizedBatchSamplerIterator) (k : string)
  : outcome record * RandomizedBatchSamplerIterator * list event :=
  match lookup k (rbs_individual_dataloaders it) with
  | None => (Raise KeyError, it, [EvNext k])
  | Some dl =>
      match iter dl with
      | [] =>
          (Raise StopIteration, rbs_set_iterator it k [],
           [EvNext k; EvIter k; EvNext k])
      | b :: rest =>
          (Return [(k, b)], rbs_set_iterator it k rest,
           [EvNext k; EvIter k; EvNext k])
      end
  end.

(** The [try] block of [__next__] on the selected key, with [again] for
    [next(self)]. *)
Definition rbs_draw
  (again : RandomizedBatchSamplerIterator ->
           outcome record * RandomizedBatchSamplerIterator * list event)
  (it : RandomizedBatchSamplerIterator) (selected_key : string)
  : outcome record * RandomizedBatchSamplerIterator * list event :=
  match lookup selected_key (rbs_individual_iterators it) with
  | None => (Raise KeyError, it, [])
  | Some (b :: rest) =>
      (Return [(selected_key, b)], rbs_set_iterator it selected_key rest,
       [EvNext selected_key])
  | Some [] =>
      match rbs_stopping_mechanism it with
      | RESTART_UNTIL_ALL_DATASETS_EXHAUSTED =>
          let it1 :=
            rbs_set_finished it
              (if mem selected_key (rbs_iterators_finished it)
               then rbs_iterators_finished it
               else rbs_iterators_finished it ++ [selected_key]) in
          if length (rbs_iterators_finished it1) =?
             length (rbs_individual_iterators it1)
          then (Raise StopIteration, it1, [EvNext selected_key])
          else rbs_restart it1 selected_key
      | WRAP_AROUND_UNTIL_KILLED => rbs_restart it selected_key
      | _ =>
          match index selected_key (rbs_iterator_names it) with
          | None => (Raise ValueError, it, [EvNext selected_key])
          | Some selected_index =>
              let '(r, it', l) :=
                again (rbs_set_exhausted it
                         (set_nth selected_index true
                            (rbs_iterator_is_exhausted it))) in
              (r, it', EvNext selected_key :: l)
          end
      end
  end.

Fixpoint rbs_next (env : environment) (fuel : nat)
  (it : RandomizedBatchSamplerIterator)
  : outcome record * RandomizedBatchSamplerIterator * list event :=
  match fuel with
  | 0 => (OutOfFuel, it, [])
  | S f =>
      if rbs_should_stop it then (Raise StopIteration, it, [])
      else
        match rbs_select env it with
        | (Return selected_key, l0) =>
            let '(r, it', l) :=
              rbs_draw (rbs_next env f) (rbs_tick it) selected_key in
            (r, it', l0 ++ l)
        | (Raise e, l0) => (Raise e, rbs_tick it, l0)
        | (OutOfFuel, l0) => (OutOfFuel, rbs_tick it, l0)
        end
  end.

(** ** InOrderIterator *)

Record InOrder : Type := mkInOrder {
  io_strategy_iteration_order : option (list string)
}.

Record InOrderIterator : Type := mkInOrderIterator {
  io_individual_dataloaders : dict dataloader;
  io_iteration_order : list string;
  io_cur_iter : iterator;
  io_cur_iterator_idx : nat;
  io_cur_iterator : string;
  io_num_iterators : nat;
  io_iterators_finished : nat
}.

Definition InOrderIterator_init (individual_dataloaders : dict dataloader)
  (iteration_strategy : InOrder) : outcome InOrderIterator :=
  let iteration_order :=
    order_or_keys (io_strategy_iteration_order iteration_strategy)
      (keys individual_dataloaders) in
  match iteration_order with
  | [] => Raise IndexError
  | k0 :: _ =>
      match lookup k0 individual_dataloaders with
      | None => Raise KeyError
      | Some dl =>
          Return (mkInOrderIterator individual_dataloaders iteration_order
                    (iter dl) 0 k0 (length iteration_order) 0)
      end
  end.

(** [self.cur_iterator = self.iteration_order[self.iterators_finished]
     self.cur_iter = iter(self.individual_dataloaders[self.cur_iterator])]
    with [idx] for the new [cur_iterator_idx]. *)
Definition io_open (it : InOrderIterator) (idx : nat)
  : outcome InOrderIterator * InOrderIterator * list event :=
  let it1 :=
    mkInOrderIterator (io_individual_dataloaders it) (io_iteration_order it)
      (io_cur_iter it) idx (io_cur_iterator it) (io_num_iterators it)
      (io_iterators_finished it) in
  match nth_error (io_iteration_order it) (io_iterators_finished it) with
  | None => (Raise IndexError, it1, [])
  | Some k =>
      let it2 :=
        mkInOrderIterator (io_individual_dataloaders it)
          (io_iteration_order it) (io_cur_iter it) idx k
          (io_num_iterators it) (io_iterators_finished it) in
      match lookup k (io_individual_dataloaders it) with
      | None => (Raise KeyError, it2, [])
      | Some dl =>
          let it3 :=
            mkInOrderIterator (io_individual_dataloaders it)
              (io_iteration_order it) (iter dl) idx k
              (io_num_iterators it) (io_iterators_finished it) in
          (Return it3, it3, [EvIter k])
      end
  end.

(** The [try] block of [__next__], with [again] for [self.__next__()]. *)
Definition io_draw
  (again : InOrderIterator -> outcome record * InOrderIterator * list event)
  (it : InOrderIterator) : outcome record * InOrderIterator * list event :=
  let k := io_cur_iterator it in
  match io_cur_iter it with
  | b :: rest =>
      (Return [(k, b)],
       mkInOrderIterator (io_individual_dataloaders it)
         (io_iteration_order it) rest (io_cur_iterator_idx it) k
         (io_num_iterators it) (io_iterators_finished it),
       [EvNext k])
  | [] =>
      let it1 :=
        mkInOrderIterator (io_individual_dataloaders it)
          (io_iteration_order it) (io_cur_iter it) (io_cur_iterator_idx it)
          k (io_num_iterators it) (S (io_iterators_finished it)) in
      if io_iterators_finished it1 =? io_num_iterators it1
      then (Raise StopIteration, it1, [EvNext k])
      else
        match io_open it1 (S (io_cur_iterator_idx it1)) with
        | (Return it2, _, l1) =>
            let '(r, it', l) := again it2 in (r, it', EvNext k :: l1 ++ l)
        | (Raise e, it2, l1) => (Raise e, it2, EvNext k :: l1)
        | (OutOfFuel, it2, l1) => (OutOfFuel, it2, EvNext k :: l1)
        end
  end.

Fixpoint io_next (fuel : nat) (it : InOrderIterator)
  : outcome record * InOrderIterator * list event :=
  match fuel with
  | 0 => (OutOfFuel, it, [])
  | S f =>
      if io_iterators_finished it =? io_num_iterators it
      then (Raise StopIteration, it, [])
      else if negb (io_iterators_finished it =? io_cur_iterator_idx it)
      then
        match io_open it (io_iterators_finished it) with
        | (Return it1, _, l1) =>
            let '(r, it', l) := io_draw (io_next f) it1 in (r, it', l1 ++ l)
        | (Raise e, it1, l1) => (Raise e, it1, l1)
        | (OutOfFuel, it1, l1) => (OutOfFuel, it1, l1)
        end
      else io_draw (io_next f) it
  end.

Record InOrderState : Type := mkInOrderState {
  sd_iterators_finished : nat;
  sd_cur_iterator : string
}.

Definition io_state_dict (it : InOrderIterator) : InOrderState :=
  mkInOrderState (io_iterators_finished it) (io_cur_iterator it).

Definition io_load_state_dict (state_dict : InOrderState)
  (it : InOrderIterator) : InOrderIterator :=
  let iterators_finished := sd_iterators_finished state_dict in
  let cur_iterator := sd_cur_iterator state_dict in
  if negb (mem cur_iterator (io_iteration_order it))
     || (length (io_iteration_order it) <? iterators_finished)
  then it   (* logger.warning(...); return *)
  else
    mkInOrderIterator (io_individual_dataloaders it) (io_iteration_order it)
      (io_cur_iter it) (io_cur_iterator_idx it) (io_cur_iterator it)
      (io_num_iterators it) iterators_finished.

(** ** The examples of the docstrings *)

Definition loaders_ab : dict dataloader :=
  [("a", [0]); ("b", [0; 1; 2])].

Definition rr_of (dls : dict dataloader) (s : RoundRobin)
  : RoundRobinIterator :=
  match RoundRobinIterator_init dls s with
  | Return it => it
  | _ => mkRoundRobinIterator s [] (mkCycle [] 0) "" []
  end.

Definition adb_of (dls : dict dataloader) (s : AllDatasetBatches)
  : AllDatasetBatchesIterator :=
  match AllDatasetBatchesIterator_init dls s with
  | Return it => it
  | _ => mkAllDatasetBatchesIterator [] (adb_strategy_stopping_mechanism s) [] []
  end.

Definition rbs_of (env : environment) (dls : dict dataloader)
  (s : RandomizedBatchSampler) : RandomizedBatchSamplerIterator :=
  match fst (RandomizedBatchSamplerIterator_init env dls s) with
  | Return it => it
  | _ =>
      mkRandomizedBatchSamplerIterator [] [] [] None []
        (rbs_strategy_stopping_mechanism s) false [] 0
  end.

Definition io_of (dls : dict dataloader) (s : InOrder) : InOrderIterator :=
  match InOrderIterator_init dls s with
  | Return it => it
  | _ => mkInOrderIterator [] [] [] 0 "" 0 0
  end.

(** The state after [n] successive [next] calls. *)
Fixpoint after {S : Type}
  (next : S -> outcome record * S * list event) (n : nat) (st : S) : S :=
  match n with
  | 0 => st
  | S n' => after next n' (snd (fst (next st)))
  end.

(** A process outside any distributed job: [torch.distributed] is
    available but not initialized, and [new_group] raises as the library
    does without a default process group.  The random generator produces
    the draws [picks], then zeros. *)
Definition local_env (picks : list nat) : environment :=
  mkEnvironment (fun n => nth n picks 0) true false (Raise ValueError)
    (fun _ idx => idx).

(** [self._iterator_is_exhausted[self._iterator_names.index(k)]] *)
Definition rbs_marked_exhausted (it : RandomizedBatchSamplerIterator)
  (k : string) : bool :=
  match index k (rbs_iterator_names it) with
  | Some i => nth i (rbs_iterator_is_exhausted it) false
  | None => false
  end.

(** A sampler over the sources of the docstrings, without and with
    weights, after two [next] calls in which the generator drew [a], [a],
    [a], [b]. *)
Definition sampler_ab (weights : option (dict weight))
  : RandomizedBatchSamplerIterator :=
  after (rbs_next (local_env [0; 0; 0; 1]) 5) 2
    (rbs_of (local_env [0; 0; 0; 1]) loaders_ab
       (mkRandomizedBatchSampler weights ALL_DATASETS_EXHAUSTED false)).

(** ** Runs without fuel *)

(** [next], given enough fuel, gives the result [res]. *)
Definition evals {S : Type}
  (next : nat -> S -> outcome record * S * list event) (st : S)
  (res : outcome record * S * list event) : Prop :=
  exists f0, forall f, f0 <= f -> next f st = res.

(** Calling [next] until StopIteration yields exactly the records [recs],
    given enough fuel and enough calls. *)
Definition runs {S : Type}
  (next : nat -> S -> outcome record * S * list event) (st : S)
  (recs : list record) : Prop :=
  exists n, forall fuel calls,
    n <= fuel -> n <= calls ->
    fst (collect (next fuel) calls st) = (recs, Ended).

(** ** Round robin, round by round *)

Definition dl_of (dls : dict dataloader) (k : string) : dataloader :=
  match lookup k dls with
  | Some dl => dl
  | None => []
  end.

Definition lengths (dls : dict dataloader) : list nat :=
  map (fun nd : string * dataloader => length (snd nd)) dls.

Definition max_length (dls : dict dataloader) : nat := list_max (lengths dls).

Definition total_length (dls : dict dataloader) : nat :=
  list_sum (lengths dls).

(** The record of source [k] in round [j], if the source has a batch of
    index [j]. *)
Definition batch_at (dls : dict dataloader) (j : nat) (k : string)
  : list record :=
  match nth_error (dl_of dls k) j with
  | Some b => [[(k, b)]]
  | None => []
  end.

Definition rr_round (dls : dict dataloader) (j : nat) (ks : list string)
  : list record :=
  flat_map (batch_at dls j) ks.



Definition wrap (n p : nat) : nat := if p =? n then 0 else p.

(** How often [k] has been visited when round [j] has reached the keys
    after [pre]. *)
Definition visits (j : nat) (pre : list string) (k : string) : nat :=
  if mem k pre then S j else j.

(** The iterator stands in round [j] between [pre] and [post]: every
    handle has advanced by the visits of its key, and the finished list
    holds the keys whose visits outnumber their batches. *)
Record rr_at (dls : dict dataloader) (order : list string) (s : RoundRobin)
  (j : nat) (pre post : list string) (it : RoundRobinIterator) : Prop :=
  mk_rr_at {
  at_split : order = pre ++ post;
  at_strategy : rr_iteration_strategy it = s;
  at_cycle :
    rr_dataloader_cycle it = mkCycle order (wrap (length order) (length pre));
  at_length : length (rr_individual_iterators it) = length order;
  at_handles :
    forall k, In k order ->
      lookup k (rr_individual_iterators it)
      = Some (skipn (visits j pre k) (dl_of dls k));
  at_finished_nodup : NoDup (rr_finished_dataloaders it);
  at_finished :
    forall k, In k (rr_finished_dataloaders it) <->
      In k order /\ length (dl_of dls k) < visits j pre k
}.

(** ** The smallest source *)

Definition min_length (dls : dict dataloader) : nat :=
  match lengths dls with
  | [] => 0
  | n :: r => fold_right Nat.min n r
  end.

(** The keys of [ks] that come before the first source without a batch of
    index [j]. *)
Fixpoint first_short (dls : dict dataloader) (j : nat) (ks : list string)
  : list string :=
  match ks with
  | [] => []
  | k :: r =>
      if j <? length (dl_of dls k) then k :: first_short dls j r else []
  end.

(** Round robin until the first visit of a source that has nothing left:
    the full rounds that the smallest source allows, then the keys that
    precede the first smallest source in the cycle. *)
Definition rr_smallest_records (dls : dict dataloader) (order : list string)
  : list record :=
  flat_map (fun j => rr_round dls j order) (seq 0 (min_length dls))
  ++ rr_round dls (min_length dls)
       (first_short dls (min_length dls) order).

Definition rr_smallest_future (dls : dict dataloader) (order : list string)
  (m j : nat) (post : list string) : list record :=
  if j <? m then
    rr_round dls j post
    ++ flat_map (fun j' => rr_round dls j' order) (seq (S j) (m - S j))
    ++ rr_round dls m (first_short dls m order)
  else rr_round dls m (first_short dls m post).

(** ** All dataset batches, call by call *)

(** The handles of the sources [dls] after [c] draws on each. *)
Definition advanced (c : nat) (dls : dict dataloader) : dict iterator :=
  map (fun nd : string * dataloader => (fst nd, skipn c (snd nd))) dls.

(** The record made of the batch of index [j] of every source. *)
Definition row (j : nat) (dls : dict dataloader) : record :=
  map (fun nd : string * dataloader => (fst nd, nth j (snd nd) 0)) dls.

(** One record per index below the length of the smallest source. *)
Definition adb_smallest_records (dls : dict dataloader) : list record :=
  map (fun j => row j dls) (seq 0 (min_length dls)).

Definition adb_const_fuel (_ : nat) := adb_next.

(** ** The randomized sampler *)

(** [random.choices] accepts the weights [ws]: their total is greater
    than zero and finite. *)
Definition weights_accepted (ws : list float) : bool :=
  match last_item (accumulate ws) with
  | None => false
  | Some c =>
      negb (PrimFloat.leb (PrimFloat.add c PrimFloat.zero) PrimFloat.zero)
      && PrimFloat.is_finite (PrimFloat.add c PrimFloat.zero)
  end.

(** [random.choices] accepts the weights that the sampler keeps, if it
    keeps any. *)
Definition rbs_weights_accepted (it : RandomizedBatchSamplerIterator)
  : Prop :=
  forall ws, rbs_iterator_weights it = Some ws -> weights_accepted ws = true.

(** [random.choices] accepts the weights that the sampler keeps, if it
    keeps any, and what is left of them when some of the sources, not
    all, are marked exhausted. *)
Definition rbs_weights_accepted_in_part
  (it : RandomizedBatchSamplerIterator) : Prop :=
  forall ws flags,
    rbs_iterator_weights it = Some ws ->
    length flags = length ws ->
    not_exhausted ws flags <> [] ->
    weights_accepted (not_exhausted ws flags) = true.

(** The sampler keeps one weight per name, if it keeps any. *)
Definition rbs_weights_aligned (it : RandomizedBatchSamplerIterator)
  : Prop :=
  forall ws, rbs_iterator_weights it = Some ws ->
             length ws = length (rbs_iterator_names it).

(** Whatever rank 0 broadcasts is a position in the list of names that
    all ranks share. *)
Definition broadcast_in_range (env : environment) (names : list string)
  : Prop :=
  forall draw idx,
    idx < length names -> dist_broadcast env draw idx < length names.

(** A sampler in which no source is marked exhausted yet. *)
Record rbs_unmarked (env : environment)
  (it : RandomizedBatchSamplerIterator) : Prop := mk_rbs_unmarked {
  um_names : rbs_iterator_names it <> [];
  um_keys :
    forall k, In k (rbs_iterator_names it) ->
              In k (keys (rbs_individual_iterators it));
  um_flags :
    rbs_iterator_is_exhausted it
    = repeat false (length (rbs_iterator_names it));
  um_broadcast : broadcast_in_range env (rbs_iterator_names it);
  um_aligned : rbs_weights_aligned it;
  um_accepted : rbs_weights_accepted it
}.

(** A weighted sampler that selects locally: what a call leaves
    unchanged. *)
Record rbs_weighted_local (env : environment)
  (it : RandomizedBatchSamplerIterator) : Prop := mk_rbs_weighted_local {
  wl_local :
    rbs_enforce_same_loader_across_ranks it
    && dist_is_available env && dist_is_initialized env = false;
  wl_mode : rbs_stopping_mechanism it <> WRAP_AROUND_UNTIL_KILLED;
  wl_weights : rbs_iterator_weights it <> None;
  wl_names : NoDup (rbs_iterator_names it)
}.


(** ** All dataset batches with restarts *)

(** Where the handle of a source of length [len] stands after [j] draws
    when it is re-created each time it is found exhausted. *)
Definition restart_pos (len j : nat) : nat :=
  match j with
  | 0 => 0
  | S j' => S (j' mod len)
  end.

Definition restarted (j : nat) (dls : dict dataloader) : dict iterator :=
  map (fun nd : string * dataloader =>
         (fst nd, skipn (restart_pos (length (snd nd)) j) (snd nd))) dls.

(** The record of call [j]: every source contributes, a source shorter
    than [j] from one of its later passes. *)
Definition restart_row (j : nat) (dls : dict dataloader) : record :=
  map (fun nd : string * dataloader =>
         (fst nd, nth (j mod length (snd nd)) (snd nd) 0)) dls.

(** One record per index below the length of the largest source. *)
Definition adb_restart_records (dls : dict dataloader) : list record :=
  map (fun j => restart_row j dls) (seq 0 (max_length dls)).

(** The finished list when call [j] has passed the keys [pre]: the keys
    that have been found exhausted at least once. *)
Definition adb_finished_at (dls : dict dataloader) (j : nat)
  (pre fin : list string) : Prop :=
  NoDup fin
  /\ forall k, In k fin <->
                In k (keys dls) /\ length (dl_of dls k) < visits j pre k.

(** ** Snapshots *)

(** The cycle has just yielded the key [k]. *)
Definition cursor_at (order : list string) (k : string) (c : cycle)
  : Prop :=
  cyc_saved c = order
  /\ exists i, nth_error order i = Some k
               /\ cyc_pos c = wrap (length order) (S i).

(** What every call of a round-robin iterator leaves unchanged. *)
Record rr_inv (s : RoundRobin) (order : list string)
  (it : RoundRobinIterator) : Prop := mk_rr_inv {
  inv_strategy : rr_iteration_strategy it = s;
  inv_saved : cyc_saved (rr_dataloader_cycle it) = order;
  inv_pos : cyc_pos (rr_dataloader_cycle it) < length order
}.

(** [it] is the state of the iterator [it0] right after one of its calls
    has returned a record. *)
Definition rr_after_record (it0 it : RoundRobinIterator) : Prop :=
  exists fuel n r l,
    rr_next fuel (after (rr_next fuel) n it0) = (Return r, it, l).

(** What every call of an in-order iterator over [dls] leaves unchanged:
    it draws from the source of its cursor, or it has ended. *)
Record io_inv (dls : dict dataloader) (order : list string)
  (it : InOrderIterator) : Prop := mk_io_inv {
  ioinv_dls : io_individual_dataloaders it = dls;
  ioinv_order : io_iteration_order it = order;
  ioinv_num : io_num_iterators it = length order;
  ioinv_cursor :
    (io_cur_iterator_idx it = io_iterators_finished it
     /\ nth_error order (io_iterators_finished it)
        = Some (io_cur_iterator it))
    \/ (io_iterators_finished it = length order
        /\ In (io_cur_iterator it) order)
}.

Definition io_with_dls (it : InOrderIterator) (dls : dict dataloader)
  : InOrderIterator :=
  mkInOrderIterator dls (io_iteration_order it) (io_cur_iter it)
    (io_cur_iterator_idx it) (io_cur_iterator it) (io_num_iterators it)
    (io_iterators_finished it).

(** Two in-order iterators that will behave alike: both have ended, or
    they stand at the same place with the same handle and their sources
    agree on all the keys still to come. *)
Definition io_similar (a b : InOrderIterator) : Prop :=
  (io_iterators_finished a = io_num_iterators a
   /\ io_iterators_finished b = io_num_iterators b)
  \/ (b = io_with_dls a (io_individual_dataloaders b)
      /\ io_cur_iterator_idx a = io_iterators_finished a
      /\ forall j k,
           io_iterators_finished a < j ->
           nth_error (io_iteration_order a) j = Some k ->
           lookup k (io_individual_dataloaders a)
           = lookup k (io_individual_dataloaders b)).

(** The snapshot of a fresh round-robin iterator over the sources of the
    docstrings, restored into another fresh one. *)
Definition rr_restored_at_start : RoundRobinIterator :=
  match rr_load_state_dict 10
          (rr_state_dict
             (rr_of loaders_ab (mkRoundRobin ALL_DATASETS_EXHAUSTED None)))
          (rr_of loaders_ab (mkRoundRobin ALL_DATASETS_EXHAUSTED None)) with
  | Return it => it
  | _ => rr_of loaders_ab (mkRoundRobin ALL_DATASETS_EXHAUSTED None)
  end.

(** The iterators of the docstrings after two calls. *)
Definition rr_ab_after_two : RoundRobinIterator :=
  after (rr_next 10) 2
    (rr_of loaders_ab (mkRoundRobin ALL_DATASETS_EXHAUSTED None)).

Definition io_ab_after_two : InOrderIterator :=
  after (io_next 10) 2 (io_of loaders_ab (mkInOrder None)).

(** ** Runs that end otherwise *)

(** Calling [next] again and again yields exactly the records [recs];
    the call after them ends as [e], given enough fuel and enough calls.
    With [Unfinished] for [e], that call does not return, whatever the
    fuel. *)
Definition run_to {S : Type}
  (next : nat -> S -> outcome record * S * list event) (st : S)
  (recs : list record) (e : run_end) : Prop :=
  exists n, forall fuel calls,
    n <= fuel -> n <= calls ->
    fst (collect (next fuel) calls st) = (recs, e).

(** ** In order, source after source *)

(** One pass over a source: a record per batch. *)
Definition source_records (k : string) (dl : dataloader) : list record :=
  map (fun b : batch => [(k, b)]) dl.

(** The passes over the keys [ks], one after the other, up to the first
    key that is no source. *)
Fixpoint io_run (dls : dict dataloader) (ks : list string)
  : list record * run_end :=
  match ks with
  | [] => ([], Ended)
  | k :: r =>
      match lookup k dls with
      | None => ([], Failed KeyError)
      | Some dl =>
          (source_records k dl ++ fst (io_run dls r), snd (io_run dls r))
      end
  end.

(** The iterators of the docstrings, in order with a repetition. *)
Definition io_aba : InOrderIterator :=
  io_of loaders_ab (mkInOrder (Some ["a"; "b"; "a"])).

(** ** All dataset batches, until the largest source is exhausted *)

(** What the source [nd] puts into the record of call [j]. *)
Definition present (j : nat) (nd : string * dataloader) : record :=
  match nth_error (snd nd) j with
  | Some b => [(fst nd, b)]
  | None => []
  end.

(** The record of call [j]: the batch of index [j] of every source that
    has one, in the order of the sources. *)
Definition row_present (j : nat) (dls : dict dataloader) : record :=
  flat_map (present j) dls.

Definition adb_all_records (dls : dict dataloader) : list record :=
  map (fun j => row_present j dls) (seq 0 (max_length dls)).

(** What the calls of an all-dataset-batches iterator keep: the handles
    and the sources have the same keys, and the finished list holds keys
    of sources, each once. *)
Record adb_wf (it : AllDatasetBatchesIterator) : Prop := mk_adb_wf {
  wf_keys :
    keys (adb_individual_iterators it) = keys (adb_individual_dataloaders it);
  wf_finished_nodup : NoDup (adb_iterators_finished it);
  wf_finished_incl :
    incl (adb_iterators_finished it) (keys (adb_individual_iterators it))
}.

(** The state in which a call that raised StopIteration leaves the
    iterator: there is no source at all, or, mode by mode, the handles
    that made the call end are still exhausted. *)
Definition adb_ended (it : AllDatasetBatchesIterator) : Prop :=
  keys (adb_individual_iterators it) = []
  \/ match adb_stopping_mechanism it with
     | SMALLEST_DATASET_EXHAUSTED =>
         exists k, lookup k (adb_individual_iterators it) = Some []
     | RESTART_UNTIL_ALL_DATASETS_EXHAUSTED =>
         exists k,
           lookup k (adb_individual_iterators it) = Some []
           /\ (length (adb_iterators_finished it)
               = length (adb_individual_iterators it)
               \/ lookup k (adb_individual_dataloaders it) = Some [])
     | _ =>
         forall k, In k (keys (adb_individual_iterators it)) ->
                   lookup k (adb_individual_iterators it) = Some []
     end.

(** A round-robin iterator whose order leaves out the source [c]: over
    the sources of the docstrings and a third one, cycling over [a] and
    [b] only. *)
Definition rr_ab_of_abc : RoundRobinIterator :=
  rr_of [("a", [0]); ("b", [0; 1; 2]); ("c", [7])]
    (mkRoundRobin ALL_DATASETS_EXHAUSTED (Some ["a"; "b"])).

(** ** The randomized sampler that wraps around *)

(** The records of a sampler that re-creates a source each time it is
    found exhausted, for the keys [ks] selected one after the other: the
    selection number [j] of a source of length [len] delivers its batch
    of index [j mod len].  [seen] holds the keys selected before. *)
Fixpoint wrap_records (dls : dict dataloader) (seen ks : list string)
  : list record :=
  match ks with
  | [] => []
  | k :: r =>
      [(k, nth (count_occ string_dec seen k mod length (dl_of dls k))
             (dl_of dls k) 0)]
      :: wrap_records dls (k :: seen) r
  end.

(** A sampler under WRAP_AROUND_UNTIL_KILLED over the non-empty sources
    [dls], after the selections [seen]. *)
Record rbs_wrapping (env : environment) (dls : dict dataloader)
  (seen : list string) (it : RandomizedBatchSamplerIterator) : Prop :=
  mk_rbs_wrapping {
  wr_mode : rbs_stopping_mechanism it = WRAP_AROUND_UNTIL_KILLED;
  wr_dls : rbs_individual_dataloaders it = dls;
  wr_names : rbs_iterator_names it <> [];
  wr_broadcast : broadcast_in_range env (rbs_iterator_names it);
  wr_aligned : rbs_weights_aligned it;
  wr_accepted : rbs_weights_accepted it;
  wr_handles :
    forall k, In k (rbs_iterator_names it) ->
      In k (keys dls)
      /\ dl_of dls k <> []
      /\ lookup k (rbs_individual_iterators it)
         = Some (skipn (restart_pos (length (dl_of dls k))
                          (count_occ string_dec seen k))
                   (dl_of dls k))
}.

(** ** The randomized sampler that restarts its sources *)

(** The finished list [fin] after the selections [seen]: it holds
    sources, each once; a source that has been re-created is in it, and
    a source in it has delivered all its batches. *)
Definition rbs_finished_found (dls : dict dataloader)
  (seen fin : list string) : Prop :=
  NoDup fin
  /\ incl fin (keys dls)
  /\ (forall k, In k (keys dls) ->
                length (dl_of dls k) < count_occ string_dec seen k ->
                In k fin)
  /\ (forall k, In k fin ->
                length (dl_of dls k) <= count_occ string_dec seen k).

(** A sampler under RESTART_UNTIL_ALL_DATASETS_EXHAUSTED over the
    non-empty sources [dls], after the selections [seen], none of which
    has ended the sequence. *)
Record rbs_restarting (env : environment) (dls : dict dataloader)
  (seen : list string) (it : RandomizedBatchSamplerIterator) : Prop :=
  mk_rbs_restarting {
  rs_mode :
    rbs_stopping_mechanism it = RESTART_UNTIL_ALL_DATASETS_EXHAUSTED;
  rs_dls : rbs_individual_dataloaders it = dls;
  rs_names : rbs_iterator_names it <> [];
  rs_broadcast : broadcast_in_range env (rbs_iterator_names it);
  rs_aligned : rbs_weights_aligned it;
  rs_accepted : rbs_weights_accepted it;
  rs_flags :
    rbs_iterator_is_exhausted it
    = repeat false (length (rbs_iterator_names it));
  rs_length : length (rbs_individual_iterators it) = length dls;
  rs_handles :
    forall k, In k (rbs_iterator_names it) ->
      In k (keys dls)
      /\ dl_of dls k <> []
      /\ lookup k (rbs_individual_iterators it)
         = Some (skipn (restart_pos (length (dl_of dls k))
                          (count_occ string_dec seen k))
                   (dl_of dls k));
  rs_finished :
    rbs_finished_found dls seen (rbs_iterators_finished it);
  rs_open : length (rbs_iterators_finished it) <> length dls
}.

(** ** The randomized sampler until all sources are exhausted *)

(** The batches of the source [k] in the records [recs], in order. *)
Definition batches_of (k : string) (recs : list record) : list batch :=
  flat_map (fun r : record =>
              match lookup k r with
              | Some b => [b]
              | None => []
              end) recs.

(** How many sources are not marked exhausted. *)
Definition unmarked (flags : list bool) : nat :=
  length (filter negb flags).

(** A sampler with weights that selects locally under
    ALL_DATASETS_EXHAUSTED: the names are the keys of the handles, and a
    source that is marked exhausted has an exhausted handle. *)
Record rbs_sweeping (env : environment)
  (it : RandomizedBatchSamplerIterator) : Prop := mk_rbs_sweeping {
  sw_mode : rbs_stopping_mechanism it = ALL_DATASETS_EXHAUSTED;
  sw_local :
    rbs_enforce_same_loader_across_ranks it
    && dist_is_available env && dist_is_initialized env = false;
  sw_weights : rbs_iterator_weights it <> None;
  sw_names : NoDup (rbs_iterator_names it);
  sw_keys : NoDup (keys (rbs_individual_iterators it));
  sw_cover :
    forall k, In k (rbs_iterator_names it)
              <-> In k (keys (rbs_individual_iterators it));
  sw_flags :
    length (rbs_iterator_is_exhausted it) = length (rbs_iterator_names it);
  sw_aligned : rbs_weights_aligned it;
  sw_accepted : rbs_weights_accepted_in_part it;
  sw_marked :
    forall k, rbs_marked_exhausted it k = true ->
              lookup k (rbs_individual_iterators it) = Some []
}.

(** No source that the sampler may have to re-create is empty. *)
Definition rbs_restarts_nonempty (it : RandomizedBatchSamplerIterator)
  : Prop :=
  match rbs_stopping_mechanism it with
  | RESTART_UNTIL_ALL_DATASETS_EXHAUSTED | WRAP_AROUND_UNTIL_KILLED =>
      forall k, lookup k (rbs_individual_dataloaders it) <> Some []
  | _ => True
  end.

(** ** DataIterationStrategyRegistry *)

(** The class of a strategy object: one of the dataclasses of the
    module, or a class derived from another one. *)
Inductive strategy_class : Type :=
| DataIterationStrategy_class
| RoundRobin_class
| AllDatasetBatches_class
| RandomizedBatchSampler_class
| InOrder_class
| Derived_class (name : string) (base : strategy_class).

Inductive iterator_class : Type :=
| RoundRobinIterator_class
| AllDatasetBatchesIterator_class
| RandomizedBatchSamplerIterator_class
| InOrderIterator_class.

(** Classes are compared by identity. *)
Fixpoint strategy_class_eqb (a b : strategy_class) : bool :=
  match a, b with
  | DataIterationStrategy_class, DataIterationStrategy_class => true
  | RoundRobin_class, RoundRobin_class => true
  | AllDatasetBatches_class, AllDatasetBatches_class => true
  | RandomizedBatchSampler_class, RandomizedBatchSampler_class => true
  | InOrder_class, InOrder_class => true
  | Derived_class n a', Derived_class m b' =>
      String.eqb n m && strategy_class_eqb a' b'
  | _, _ => false
  end.

Definition REGISTRY : list (strategy_class * iterator_class) :=
  [(RoundRobin_class, RoundRobinIterator_class);
   (AllDatasetBatches_class, AllDatasetBatchesIterator_class);
   (RandomizedBatchSampler_class, RandomizedBatchSamplerIterator_class);
   (InOrder_class, InOrderIterator_class)].

Fixpoint registry_lookup (c : strategy_class)
  (r : list (strategy_class * iterator_class)) : option iterator_class :=
  match r with
  | [] => None
  | (c', i) :: r' =>
      if strategy_class_eqb c c' then Some i else registry_lookup c r'
  end.

(** [DataIterationStrategyRegistry.get], on the class of the strategy. *)
Definition DataIterationStrategyRegistry_get (c : strategy_class)
  : outcome iterator_class :=
  match registry_lookup c REGISTRY with
  | Some i => Return i
  | None => Raise NotImplementedError
  end.

(** ** Ranks that select together *)

(** The keys of the records among outcomes, in order. *)
Definition outcome_keys (os : list (outcome record)) : list string :=
  flat_map (fun o : outcome record =>
              match o with
              | Return r => keys r
              | _ => []
              end) os.

(** The ranks are coordinated: the flag is set and the process group is
    up. *)
Definition coordinated (env : environment)
  (it : RandomizedBatchSamplerIterator) : bool :=
  rbs_enforce_same_loader_across_ranks it
  && dist_is_available env && dist_is_initialized env.

(** The source of the draw [d] on a coordinated rank: the name at the
    position that the broadcast leaves in the tensor, which held the
    position of the local choice. *)
Definition broadcast_key (env : environment) (names : list string)
  (d : nat) : string :=
  nth (dist_broadcast env d (random_choices env d mod length names))
    names "".

(** Two ranks of a job: rank 0, whose generator draws [picks], and
    another rank, which receives the positions rank 0 chose among two
    sources. *)
Definition rank0_env (picks : list nat) : environment :=
  mkEnvironment (fun n => nth n picks 0) true true (Return tt)
    (fun _ idx => idx).

Definition rank1_env (picks picks0 : list nat) : environment :=
  mkEnvironment (fun n => nth n picks 0) true true (Return tt)
    (fun d _ => nth d picks0 0 mod 2).

(** ** What an in-order iterator asks of its sources *)

(** Whatever the number of calls and the fuel, beyond some bound, the
    calls made on the collaborators are [evs]. *)
Definition traces {S : Type}
  (next : nat -> S -> outcome record * S * list event) (st : S)
  (evs : list event) : Prop :=
  exists n, forall fuel calls,
    n <= fuel -> n <= calls -> events (next fuel) calls st = evs.

(** A pass over the source [k] from a handle with [n] batches: [next]
    until the handle signals its exhaustion. *)
Definition pass_events (k : string) (n : nat) : list event :=
  repeat (EvNext k) (S n).

(** Opening the sources of the keys [ks] one after the other, each one
    when the pass over the one before is over. *)
Definition io_events (dls : dict dataloader) (ks : list string)
  : list event :=
  flat_map (fun k => EvIter k :: pass_events k (length (dl_of dls k))) ks.

(** * Properties *)

(** ** Association lists and membership *)

Lemma mem_true_iff (k : string) (l : list string) :
  mem k l = true <-> In k l.
Proof.
  unfold mem. rewrite existsb_exists. split.
  - intros [x [Hin Heq]]. apply String.eqb_eq in Heq. now subst.
  - intros Hin. exists k. split; [assumption | apply String.eqb_refl].
Qed.

Lemma mem_false_iff (k : string) (l : list string) :
  mem k l = false <-> ~ In k l.
Proof.
  rewrite <- mem_true_iff. destruct (mem k l); split; intros H;
    try reflexivity; try discriminate; try (now intros ?).
  exfalso. now apply H.
Qed.

Lemma lookup_None_iff {V : Type} (k : string) (d : dict V) :
  lookup k d = None <-> ~ In k (keys d).
Proof.
  induction d as [|[k' v] d IH]; simpl.
  - tauto.
  - destruct (String.eqb_spec k k') as [->|Hne].
    + split; [discriminate | intros H; exfalso; apply H; now left].
    + rewrite IH. split; intros H; [intros [E|E]; [now subst|tauto] | tauto].
Qed.

Lemma lookup_In {V : Type} (k : string) (d : dict V) :
  In k (keys d) -> exists v, lookup k d = Some v.
Proof.
  intros Hin. destruct (lookup k d) as [v|] eqn:E; [now exists v|].
  apply lookup_None_iff in E. contradiction.
Qed.

Lemma lookup_Some_In {V : Type} (k : string) (d : dict V) (v : V) :
  lookup k d = Some v -> In k (keys d).
Proof.
  intros E. destruct (in_dec string_dec k (keys d)) as [H|H]; [assumption|].
  apply lookup_None_iff in H. congruence.
Qed.

Lemma keys_setitem {V : Type} (k : string) (v : V) (d : dict V) :
  In k (keys d) -> keys (setitem k v d) = keys d.
Proof.
  induction d as [|[k' v'] d IH]; simpl; [tauto|].
  intros Hin. destruct (String.eqb_spec k k') as [->|Hne]; simpl.
  - reflexivity.
  - f_equal. apply IH. destruct Hin as [E|Hin]; [now subst|assumption].
Qed.

Lemma length_setitem {V : Type} (k : string) (v : V) (d : dict V) :
  In k (keys d) -> length (setitem k v d) = length d.
Proof.
  intros Hin. rewrite <- (length_map fst (setitem k v d)).
  fold (keys (setitem k v d)). rewrite keys_setitem by assumption.
  apply length_map.
Qed.

Lemma lookup_setitem {V : Type} (k k' : string) (v : V) (d : dict V) :
  lookup k' (setitem k v d) = if String.eqb k' k then Some v else lookup k' d.
Proof.
  induction d as [|[k0 v0] d IH]; simpl.
  - reflexivity.
  - destruct (String.eqb_spec k k0) as [->|Hne]; simpl.
    + destruct (String.eqb_spec k' k0); reflexivity.
    + rewrite IH. destruct (String.eqb_spec k' k0) as [->|Hne'].
      * destruct (String.eqb_spec k0 k); [now subst|reflexivity].
      * reflexivity.
Qed.

Lemma keys_map_iter (dls : dict dataloader) :
  keys (map (fun nd : string * dataloader => (fst nd, iter (snd nd))) dls)
  = keys dls.
Proof. unfold keys. rewrite map_map. reflexivity. Qed.

Lemma lookup_map_iter (k : string) (dls : dict dataloader) :
  lookup k (map (fun nd : string * dataloader => (fst nd, iter (snd nd))) dls)
  = lookup k dls.
Proof.
  induction dls as [|[k' v] d IH]; simpl; [reflexivity|].
  now rewrite IH.
Qed.

(** ** Construction with WRAP_AROUND_UNTIL_KILLED *)

(** C5. Constructing a round-robin iterator or an all-dataset-batches
    iterator with the stopping mechanism WRAP_AROUND_UNTIL_KILLED raises
    NotImplementedError, whatever the sources and the iteration order: no
    instance exists on which [__next__] could be called. *)
Theorem wrap_around_until_killed_rejected :
  forall (dls : dict dataloader) (order : option (list string)),
    RoundRobinIterator_init dls (mkRoundRobin WRAP_AROUND_UNTIL_KILLED order)
    = Raise NotImplementedError
    /\ AllDatasetBatchesIterator_init dls
         (mkAllDatasetBatches WRAP_AROUND_UNTIL_KILLED)
       = Raise NotImplementedError.
Proof. intros dls order. split; reflexivity. Qed.

(** ** Restoring a round-robin cursor on an unknown key *)

Lemma cycle_next_saved (c c' : cycle) (k : string) :
  cycle_next c = Some (k, c') -> cyc_saved c' = cyc_saved c.
Proof.
  unfold cycle_next. destruct (nth_error _ _); [|discriminate].
  intros E. inversion E. reflexivity.
Qed.

Lemma cycle_next_In (c c' : cycle) (k : string) :
  cycle_next c = Some (k, c') -> In k (cyc_saved c).
Proof.
  unfold cycle_next. destruct (nth_error _ _) eqn:E; [|discriminate].
  intros E'. inversion E'; subst. eapply nth_error_In; eassumption.
Qed.

Lemma cycle_next_in_range (c : cycle) :
  cyc_pos c < length (cyc_saved c) ->
  exists k c', cycle_next c = Some (k, c')
               /\ cyc_pos c' < length (cyc_saved c').
Proof.
  intros Hlt. unfold cycle_next.
  destruct (nth_error (cyc_saved c) (cyc_pos c)) as [k|] eqn:E.
  - eexists. eexists. split; [reflexivity|]. cbn [cyc_pos cyc_saved].
    destruct (Nat.eqb_spec (S (cyc_pos c)) (length (cyc_saved c))); lia.
  - apply nth_error_None in E. lia.
Qed.

Lemma cycle_contains_unknown (fuel : nat) (x : string) (c : cycle) :
  cyc_pos c < length (cyc_saved c) ->
  ~ In x (cyc_saved c) ->
  cycle_contains fuel x c = OutOfFuel.
Proof.
  revert c. induction fuel as [|f IH]; intros c Hlt Hnin; simpl.
  - reflexivity.
  - destruct (cycle_next_in_range c Hlt) as (k & c' & E & Hlt').
    rewrite E. pose proof (cycle_next_In _ _ _ E) as Hk.
    pose proof (cycle_next_saved _ _ _ E) as Hs.
    destruct (String.eqb_spec k x) as [->|Hne]; [contradiction|].
    apply IH; [assumption | now rewrite Hs].
Qed.

Lemma RoundRobinIterator_init_cycle (dls : dict dataloader)
  (s : RoundRobin) (it : RoundRobinIterator) :
  RoundRobinIterator_init dls s = Return it ->
  rr_dataloader_cycle it
  = mkCycle (order_or_keys (rr_iteration_order s) (keys dls)) 0
  /\ order_or_keys (rr_iteration_order s) (keys dls) <> [].
Proof.
  unfold RoundRobinIterator_init.
  destruct (StoppingMechanism_eqb _ _); [discriminate|].
  rewrite keys_map_iter.
  destruct (order_or_keys _ _) as [|k0 r] eqn:E; [discriminate|].
  intros H. inversion H. simpl. split; [reflexivity | discriminate].
Qed.

(** C4. On a freshly constructed round-robin iterator, [load_state_dict]
    with a saved current key that is not in the cycle order does not reach
    its warning: the membership test on the endless cycle keeps consuming
    it, so that no amount of fuel lets the call return. *)
Theorem rr_load_state_dict_unknown_key_never_returns :
  forall (fuel : nat) (dls : dict dataloader) (s : RoundRobin)
         (it : RoundRobinIterator) (sd : RoundRobinState),
    RoundRobinIterator_init dls s = Return it ->
    ~ In (sd_cur_dataloader sd)
         (order_or_keys (rr_iteration_order s) (keys dls)) ->
    rr_load_state_dict fuel sd it = OutOfFuel.
Proof.
  intros fuel dls s it sd Hinit Hnin.
  destruct (RoundRobinIterator_init_cycle _ _ _ Hinit) as [Hc Hne].
  unfold rr_load_state_dict. simpl. rewrite Hc.
  rewrite cycle_contains_unknown; [reflexivity | | assumption].
  simpl. destruct (order_or_keys _ _); [congruence | simpl; lia].
Qed.

Lemma rr_load_state_dict_unknown_key_witness :
  rr_load_state_dict 1000 (mkRoundRobinState [] "c")
    (rr_of loaders_ab (mkRoundRobin ALL_DATASETS_EXHAUSTED None))
  = OutOfFuel.
Proof.
  apply (rr_load_state_dict_unknown_key_never_returns 1000 loaders_ab
           (mkRoundRobin ALL_DATASETS_EXHAUSTED None)).
  - reflexivity.
  - simpl. intros [H|[H|H]]; try discriminate; assumption.
Defined.

(** ** The coordination group of the randomized sampler *)

Lemma rbs_select_local (env : environment)
  (it : RandomizedBatchSamplerIterator) :
  dist_is_initialized env = false ->
  rbs_select env it
  = (random_choice env (rbs_draws it) (fst (rbs_candidates it))
       (snd (rbs_candidates it)),
     [EvChoices (fst (rbs_candidates it)) (snd (rbs_candidates it))]).
Proof.
  intros Hi. unfold rbs_select. rewrite Hi, andb_false_r.
  now destruct (random_choice _ _ _ _).
Qed.

(** C7. With [enforce_same_loader_across_ranks] set, the constructor calls
    [dist.new_group] without asking [dist.is_initialized()] first, also in
    a process where [torch.distributed] is not initialized; when that call
    raises, the constructor raises and no iterator exists.  ([__next__]
    does ask, see [rbs_select_local].) *)
Theorem rbs_init_creates_group_when_uninitialized :
  forall (env : environment) (dls : dict dataloader)
         (m : StoppingMechanism),
    dist_is_initialized env = false ->
    snd (RandomizedBatchSamplerIterator_init env dls
           (mkRandomizedBatchSampler None m true)) = [EvNewGroup]
    /\ (forall e : exn,
          dist_new_group env = Raise e ->
          fst (RandomizedBatchSamplerIterator_init env dls
                 (mkRandomizedBatchSampler None m true)) = Raise e).
Proof.
  intros env dls m _. unfold RandomizedBatchSamplerIterator_init. simpl.
  destruct (dist_new_group env) as [u|e'|]; simpl; split;
    try reflexivity; intros e He; congruence.
Qed.

Lemma rbs_init_creates_group_when_uninitialized_witness :
  snd (RandomizedBatchSamplerIterator_init (local_env []) loaders_ab
         (mkRandomizedBatchSampler None ALL_DATASETS_EXHAUSTED true))
  = [EvNewGroup]
  /\ fst (RandomizedBatchSamplerIterator_init (local_env []) loaders_ab
            (mkRandomizedBatchSampler None ALL_DATASETS_EXHAUSTED true))
     = Raise ValueError.
Proof.
  destruct (rbs_init_creates_group_when_uninitialized (local_env [])
              loaders_ab ALL_DATASETS_EXHAUSTED eq_refl) as [Hl He].
  split; [exact Hl | exact (He ValueError eq_refl)].
Defined.

(** ** End of sequence *)

(** C10. A round-robin iterator under SMALLEST_DATASET_EXHAUSTED keeps no
    trace of the exhaustion that ended the sequence: over [a] of length 1
    and [b] of length 3, the third call raises StopIteration and the
    fourth call returns a batch of [b]. *)
Theorem rr_smallest_resumes_after_stop :
  outcomes (rr_next 10) 6
    (rr_of loaders_ab (mkRoundRobin SMALLEST_DATASET_EXHAUSTED None))
  = [Return [("a", 0)]; Return [("b", 0)]; Raise StopIteration;
     Return [("b", 1)]; Raise StopIteration; Return [("b", 2)]].
Proof. reflexivity. Qed.

(** ** The candidates of the random choice *)

Lemma not_exhausted_incl {A : Type} (xs : list A) (flags : list bool) :
  incl (not_exhausted xs flags) xs.
Proof.
  unfold not_exhausted. revert flags.
  induction xs as [|x xs IH]; intros [|f fs]; simpl;
    try (intros y Hy; contradiction).
  destruct f; simpl.
  - intros y Hy. right. now apply IH in Hy.
  - intros y [Hy|Hy]; [now left | right; now apply IH in Hy].
Qed.

Lemma not_exhausted_unmarked (names : list string) (flags : list bool)
  (k : string) :
  NoDup names ->
  In k (not_exhausted names flags) ->
  match index k names with
  | Some i => nth i flags false
  | None => false
  end = false.
Proof.
  revert flags. induction names as [|n ns IH]; intros flags Hnd Hin.
  - reflexivity.
  - inversion Hnd as [|? ? Hn Hnd']; subst. simpl.
    destruct flags as [|f fs].
    + destruct (String.eqb k n); [reflexivity|].
      destruct (index k ns) as [[|i]|]; reflexivity.
    + unfold not_exhausted in Hin. simpl in Hin.
      destruct (String.eqb_spec k n) as [->|Hne].
      * simpl. destruct f; [|reflexivity]. simpl in Hin.
        exfalso. apply Hn. exact (not_exhausted_incl ns fs n Hin).
      * assert (Hin' : In k (not_exhausted ns fs)).
        { destruct f; simpl in Hin; [exact Hin|].
          destruct Hin as [E|Hin]; [congruence | exact Hin]. }
        specialize (IH fs Hnd' Hin').
        destruct (index k ns) as [i|]; [exact IH | reflexivity].
Qed.

(** ** Runs *)

Section Runs.
Context {St : Type}.
Variable next : nat -> St -> outcome record * St * list event.

Lemma runs_stop (st st' : St) (l : list event) :
  evals next st (Raise StopIteration, st', l) -> runs next st [].
Proof.
  intros [f0 H]. exists (S f0). intros fuel calls Hf Hc.
  destruct calls as [|calls]; [lia|]. simpl.
  rewrite H by lia. reflexivity.
Qed.

Lemma runs_yield (st st' : St) (r : record) (l : list event)
  (recs : list record) :
  evals next st (Return r, st', l) ->
  runs next st' recs ->
  runs next st (r :: recs).
Proof.
  intros [f0 H] [n Hn]. exists (S (f0 + n)). intros fuel calls Hf Hc.
  destruct calls as [|calls]; [lia|]. simpl.
  rewrite H by lia.
  specialize (Hn fuel calls ltac:(lia) ltac:(lia)).
  destruct (collect (next fuel) calls st') as [[rs e] st''].
  simpl in Hn. inversion Hn; subst. reflexivity.
Qed.

Lemma runs_unique (st : St) (recs recs' : list record) :
  runs next st recs -> runs next st recs' -> recs = recs'.
Proof.
  intros [n Hn] [n' Hn'].
  specialize (Hn (n + n') (n + n') ltac:(lia) ltac:(lia)).
  specialize (Hn' (n + n') (n + n') ltac:(lia) ltac:(lia)).
  congruence.
Qed.
End Runs.

(** ** Round robin: fuel *)





(** ** Round robin: one call, case by case *)

Lemma skip_finished_unfinished (f : nat) (fin : list string) (k : string)
  (c : cycle) :
  mem k fin = false ->
  skip_finished f fin k c = (Return (k, c), (k, c)).
Proof. intros H. destruct f; simpl; rewrite H; reflexivity. Qed.

Section RoundRobinCall.
Variables (s : RoundRobin) (its : dict iterator) (c c' : cycle)
          (cur : string) (fin : list string) (k : string).
Hypothesis Hopen : length fin <> length its.
Hypothesis Hcycle : cycle_next c = Some (k, c').

Lemma rr_next_visit (f : nat) :
  mem k fin = false ->
  rr_next (S f) (mkRoundRobinIterator s its c cur fin)
  = rr_draw (rr_next f) (mkRoundRobinIterator s its c' k fin).
Proof.
  intros Hk. simpl. apply Nat.eqb_neq in Hopen. rewrite Hopen, Hcycle.
  simpl. rewrite skip_finished_unfinished by assumption. reflexivity.
Qed.


Lemma rr_evals_yield (b : batch) (rest : iterator) :
  mem k fin = false ->
  lookup k its = Some (b :: rest) ->
  evals rr_next (mkRoundRobinIterator s its c cur fin)
    (Return [(k, b)],
     mkRoundRobinIterator s (setitem k rest its) c' k fin, [EvNext k]).
Proof.
  intros Hk Hl. exists 1. intros f Hle. destruct f; [lia|].
  rewrite rr_next_visit by assumption. unfold rr_draw. simpl.
  rewrite Hl. reflexivity.
Qed.

Lemma rr_evals_exhausted_smallest :
  mem k fin = false ->
  lookup k its = Some [] ->
  rr_stopping_mechanism s = SMALLEST_DATASET_EXHAUSTED ->
  evals rr_next (mkRoundRobinIterator s its c cur fin)
    (Raise StopIteration, mkRoundRobinIterator s its c' k fin, [EvNext k]).
Proof.
  intros Hk Hl Hs. exists 1. intros f Hle. destruct f; [lia|].
  rewrite rr_next_visit by assumption. unfold rr_draw. simpl.
  rewrite Hl, Hs. reflexivity.
Qed.


End RoundRobinCall.


Section RunsTransfer.
Context {St : Type}.
Variable next : nat -> St -> outcome record * St * list event.
Hypothesis next_mono :
  forall f f' st r st' l,
    next f st = (r, st', l) -> r <> OutOfFuel -> f <= f' ->
    next f' st = (r, st', l).

(** A state whose next call ends as the next call of [st1] does, in the
    same state, has the same run. *)
Lemma runs_transfer (st1 st2 : St) (recs : list record) :
  (forall r st' l, r <> OutOfFuel -> evals next st1 (r, st', l) ->
                   exists l', evals next st2 (r, st', l')) ->
  runs next st1 recs ->
  runs next st2 recs.
Proof.
  intros Htr [n Hn].
  destruct n as [|n].
  { specialize (Hn 0 0 (le_n 0) (le_n 0)). simpl in Hn. discriminate. }
  destruct (next (S n) st1) as [[r st'] l] eqn:E1.
  assert (Hr : r <> OutOfFuel).
  { specialize (Hn (S n) (S n) (le_n _) (le_n _)). simpl in Hn.
    rewrite E1 in Hn. intros ->. simpl in Hn. discriminate. }
  assert (Hev : evals next st1 (r, st', l)).
  { exists (S n). intros f Hle. eapply next_mono; eassumption. }
  destruct (Htr r st' l Hr Hev) as [l' [f0 H2]].
  exists (S n + f0). intros fuel calls Hf Hc.
  destruct calls as [|calls]; [lia|].
  specialize (Hn fuel (S calls) ltac:(lia) ltac:(lia)).
  simpl in Hn |- *.
  rewrite (next_mono _ fuel _ _ _ _ E1 Hr ltac:(lia)) in Hn.
  rewrite (H2 fuel ltac:(lia)).
  destruct r as [r0|e|]; [exact Hn | exact Hn | congruence].
Qed.
End RunsTransfer.

(** ** Round robin under ALL_DATASETS_EXHAUSTED, round by round *)

Lemma length_dl_of_le_max (dls : dict dataloader) (k : string) :
  length (dl_of dls k) <= max_length dls.
Proof.
  unfold dl_of, max_length, lengths.
  induction dls as [|[k' dl] d IH]; simpl.
  - lia.
  - destruct (String.eqb k k'); simpl in *; lia.
Qed.





Lemma skipn_nth_error_cons {A : Type} (l : list A) (j : nat) (b : A) :
  nth_error l j = Some b -> skipn j l = b :: skipn (S j) l.
Proof.
  revert j. induction l as [|x l IH]; intros [|j] H; simpl in *;
    try discriminate.
  - now inversion H.
  - now apply IH.
Qed.

Lemma skipn_beyond {A : Type} (l : list A) (j : nat) :
  length l <= j -> skipn j l = [].
Proof. intros H. now apply skipn_all2. Qed.

Lemma mem_app (k : string) (l1 l2 : list string) :
  mem k (l1 ++ l2) = mem k l1 || mem k l2.
Proof. unfold mem. apply existsb_app. Qed.

Lemma visits_snoc (j : nat) (pre : list string) (k k' : string) :
  ~ In k pre ->
  visits j (pre ++ [k]) k'
  = if String.eqb k' k then S j else visits j pre k'.
Proof.
  intros Hk. unfold visits. rewrite mem_app. simpl. rewrite orb_false_r.
  destruct (String.eqb_spec k' k) as [->|Hne].
  - apply mem_false_iff in Hk. rewrite Hk. reflexivity.
  - rewrite orb_false_r. reflexivity.
Qed.

Lemma visits_outside (j : nat) (pre : list string) (k : string) :
  ~ In k pre -> visits j pre k = j.
Proof. intros H. unfold visits. apply mem_false_iff in H. now rewrite H. Qed.

Lemma visits_bounds (j : nat) (pre : list string) (k : string) :
  j <= visits j pre k <= S j.
Proof. unfold visits. destruct (mem k pre); lia. Qed.

Lemma NoDup_app_cons_notin {A : Type} (pre post : list A) (k : A) :
  NoDup (pre ++ k :: post) -> ~ In k pre.
Proof.
  intros H Hin. apply NoDup_remove_2 in H. apply H.
  apply in_or_app. now left.
Qed.

Lemma nth_error_middle {A : Type} (pre post : list A) (k : A) :
  nth_error (pre ++ k :: post) (length pre) = Some k.
Proof.
  rewrite nth_error_app2 by lia. now rewrite Nat.sub_diag.
Qed.

Section RoundRobinRounds.
Variables (dls : dict dataloader) (order : list string) (s : RoundRobin).
Hypothesis Hnd : NoDup order.

Lemma rr_at_cycle_next (j : nat) (pre post : list string) (k : string)
  (it : RoundRobinIterator) :
  rr_at dls order s j pre (k :: post) it ->
  cycle_next (rr_dataloader_cycle it)
  = Some (k, mkCycle order (wrap (length order) (length (pre ++ [k])))).
Proof.
  intros H. rewrite (at_cycle _ _ _ _ _ _ _ H).
  pose proof (at_split _ _ _ _ _ _ _ H) as Hs.
  assert (Hlt : length pre < length order).
  { rewrite Hs, length_app. simpl. lia. }
  unfold cycle_next, wrap. simpl.
  destruct (Nat.eqb_spec (length pre) (length order)) as [E|_]; [lia|].
  rewrite Hs at 1. rewrite nth_error_middle.
  rewrite length_app. simpl. rewrite Nat.add_1_r. reflexivity.
Qed.

Lemma rr_at_roll (j : nat) (it : RoundRobinIterator) :
  rr_at dls order s j order [] it ->
  rr_at dls order s (S j) [] order it.
Proof.
  intros [Hs Hst Hc Hl Hh Hfn Hf].
  assert (Hv : forall k, In k order -> visits j order k = visits (S j) [] k).
  { intros k Hk. unfold visits. apply mem_true_iff in Hk. now rewrite Hk. }
  constructor; try assumption.
  - reflexivity.
  - rewrite Hc. unfold wrap. rewrite Nat.eqb_refl. simpl.
    destruct (length order); reflexivity.
  - intros k Hk. rewrite <- Hv by assumption. now apply Hh.
  - intros k. rewrite Hf. split; intros [Hk Hlt]; split; try assumption.
    + now rewrite <- Hv.
    + now rewrite Hv.
Qed.




(** The three ways in which the cursor passes the key [k]. *)
Section Advance.
Variables (j : nat) (pre post : list string) (k : string)
          (its : dict iterator) (c : cycle) (cur : string)
          (fin : list string).
Hypothesis Hat :
  rr_at dls order s j pre (k :: post)
    (mkRoundRobinIterator s its c cur fin).

Let c' := mkCycle order (wrap (length order) (length (pre ++ [k]))).

Lemma rr_at_notin_pre : ~ In k pre.
Proof.
  pose proof (at_split _ _ _ _ _ _ _ Hat) as Hs. rewrite Hs in Hnd.
  now apply NoDup_app_cons_notin in Hnd.
Qed.

Lemma rr_at_in_order : In k order.
Proof.
  rewrite (at_split _ _ _ _ _ _ _ Hat). apply in_or_app. right. now left.
Qed.

Lemma rr_at_handle :
  lookup k its = Some (skipn j (dl_of dls k)).
Proof.
  pose proof (at_handles _ _ _ _ _ _ _ Hat k rr_at_in_order) as H.
  simpl in H. now rewrite (visits_outside _ _ _ rr_at_notin_pre) in H.
Qed.



Lemma rr_at_yield (b : batch) :
  nth_error (dl_of dls k) j = Some b ->
  rr_at dls order s j (pre ++ [k]) post
    (mkRoundRobinIterator s (setitem k (skipn (S j) (dl_of dls k)) its)
       c' k fin).
Proof.
  intros Hb. pose proof Hat as [Hs Hst Hc Hl Hh Hfn Hf]. simpl in *.
  pose proof rr_at_notin_pre as Hp.
  assert (Hlt : j < length (dl_of dls k)).
  { apply nth_error_Some. congruence. }
  constructor; simpl; try assumption.
  - rewrite Hs, <- app_assoc. reflexivity.
  - reflexivity.
  - rewrite length_setitem; [assumption|].
    eapply lookup_Some_In. apply rr_at_handle.
  - intros k' Hk'. rewrite visits_snoc by assumption.
    rewrite lookup_setitem.
    destruct (String.eqb_spec k' k) as [->|Hne]; [reflexivity|].
    now apply Hh.
  - intros k'. rewrite visits_snoc by assumption. rewrite Hf.
    destruct (String.eqb_spec k' k) as [->|Hne]; [|reflexivity].
    rewrite (visits_outside _ _ _ Hp).
    split; intros [? ?]; split; try assumption; lia.
Qed.

End Advance.
End RoundRobinRounds.


Section RoundRobinAllExhausted.
Variables (dls : dict dataloader) (order : list string) (s : RoundRobin).
Hypothesis Hnd : NoDup order.
Hypothesis Hmode : rr_stopping_mechanism s <> SMALLEST_DATASET_EXHAUSTED.


End RoundRobinAllExhausted.

(** ** Round robin under ALL_DATASETS_EXHAUSTED: the whole run *)

Lemma lookup_NoDup_In {V : Type} (d : dict V) (k : string) (v : V) :
  NoDup (keys d) -> In (k, v) d -> lookup k d = Some v.
Proof.
  induction d as [|[k' v'] d IH]; simpl; intros Hnd Hin; [contradiction|].
  inversion Hnd as [|? ? Hk' Hnd']; subst.
  destruct Hin as [E|Hin].
  - inversion E; subst. now rewrite String.eqb_refl.
  - destruct (String.eqb_spec k k') as [->|Hne]; [|now apply IH].
    exfalso. apply Hk'. unfold keys. change k' with (fst (k', v)).
    now apply in_map.
Qed.

Lemma lengths_by_key (dls : dict dataloader) :
  NoDup (keys dls) ->
  map (fun k => length (dl_of dls k)) (keys dls) = lengths dls.
Proof.
  intros Hnd. unfold keys, lengths. rewrite map_map.
  apply map_ext_in. intros [k dl] Hin. simpl.
  unfold dl_of. now rewrite (lookup_NoDup_In dls k dl Hnd Hin).
Qed.








Lemma RoundRobinIterator_init_at (dls : dict dataloader) (s : RoundRobin)
  (it : RoundRobinIterator) :
  NoDup (keys dls) ->
  Permutation (order_or_keys (rr_iteration_order s) (keys dls)) (keys dls) ->
  RoundRobinIterator_init dls s = Return it ->
  rr_at dls (order_or_keys (rr_iteration_order s) (keys dls)) s 0 []
    (order_or_keys (rr_iteration_order s) (keys dls)) it.
Proof.
  intros Hnd Hp Hinit. unfold RoundRobinIterator_init in Hinit.
  destruct (StoppingMechanism_eqb _ _); [discriminate|].
  rewrite keys_map_iter in Hinit.
  set (order := order_or_keys (rr_iteration_order s) (keys dls)) in *.
  destruct order as [|k0 r] eqn:Eo; [discriminate|].
  inversion Hinit; subst it; clear Hinit. rewrite <- Eo in *.
  constructor; simpl.
  - reflexivity.
  - reflexivity.
  - rewrite Eo. reflexivity.
  - rewrite length_map. apply Permutation_length in Hp.
    unfold keys in Hp. rewrite length_map in Hp. lia.
  - intros k Hk. rewrite lookup_map_iter. unfold dl_of.
    assert (Hin : In k (keys dls)) by (eapply Permutation_in; eassumption).
    destruct (lookup_In k dls Hin) as [dl ->]. reflexivity.
  - constructor.
  - intros k. split; [intros [] | intros [_ H]; unfold visits in H; simpl in H; lia].
Qed.



(** ** Round robin under SMALLEST_DATASET_EXHAUSTED *)

Section RoundRobinSmallest.
Variables (dls : dict dataloader) (order : list string) (s : RoundRobin)
          (m : nat).
Hypothesis Hnd : NoDup order.
Hypothesis Hmode : rr_stopping_mechanism s = SMALLEST_DATASET_EXHAUSTED.
Hypothesis Hmin : forall k, In k order -> m <= length (dl_of dls k).
Hypothesis Hsmallest : exists k, In k order /\ length (dl_of dls k) <= m.

Lemma rr_fit_no_finished (j : nat) (pre post : list string)
  (it : RoundRobinIterator) :
  rr_at dls order s j pre post it ->
  (forall k, In k order -> visits j pre k <= length (dl_of dls k)) ->
  rr_finished_dataloaders it = [].
Proof.
  intros Hat Hfit. destruct (rr_finished_dataloaders it) as [|k fin] eqn:E;
    [reflexivity|].
  exfalso. pose proof (at_finished _ _ _ _ _ _ _ Hat k) as H.
  rewrite E in H. destruct (proj1 H (or_introl eq_refl)) as [Hk Hlt].
  specialize (Hfit k Hk). lia.
Qed.

Lemma rr_open_when_nonempty (j : nat) (pre post : list string) (k : string)
  (it : RoundRobinIterator) :
  rr_at dls order s j pre (k :: post) it ->
  rr_finished_dataloaders it = [] ->
  length (rr_finished_dataloaders it)
  <> length (rr_individual_iterators it).
Proof.
  intros Hat Hfin. rewrite Hfin, (at_length _ _ _ _ _ _ _ Hat).
  rewrite (at_split _ _ _ _ _ _ _ Hat), length_app. simpl. lia.
Qed.

Lemma rr_smallest_last_round :
  forall post pre it,
    rr_at dls order s m pre post it ->
    (forall k, In k order -> visits m pre k <= length (dl_of dls k)) ->
    (exists k, In k post /\ length (dl_of dls k) <= m) ->
    runs rr_next it (rr_round dls m (first_short dls m post)).
Proof.
  induction post as [|k post IH]; intros pre it Hat Hfit [k0 [Hk0 Hlen0]].
  - contradiction.
  - pose proof (rr_fit_no_finished _ _ _ _ Hat Hfit) as Hfin.
    pose proof (rr_open_when_nonempty _ _ _ _ _ Hat Hfin) as Hopen.
    pose proof (rr_at_cycle_next dls order s m pre post k it Hat) as Hcyc.
    destruct it as [s0 its c cur fin]. simpl in Hfin, Hopen, Hcyc.
    assert (Hs0 : s0 = s) by exact (at_strategy _ _ _ _ _ _ _ Hat).
    subst s0 fin.
    pose proof (rr_at_handle dls order s Hnd m pre post k its c cur [] Hat)
      as Hh.
    pose proof (rr_at_notin_pre dls order s Hnd m pre post k its c cur []
                  Hat) as Hpre.
    simpl.
    destruct (Nat.ltb_spec m (length (dl_of dls k))) as [Hlt|Hge].
    + destruct (nth_error (dl_of dls k) m) as [b|] eqn:Hb.
      2:{ apply nth_error_None in Hb. lia. }
      unfold rr_round. simpl. unfold batch_at at 1. rewrite Hb. simpl.
      rewrite (skipn_nth_error_cons _ _ _ Hb) in Hh.
      eapply runs_yield.
      * eapply rr_evals_yield; try eassumption. reflexivity.
      * apply (IH (pre ++ [k])).
        -- exact (rr_at_yield dls order s Hnd m pre post k its c cur []
                    Hat b Hb).
        -- intros k' Hk'. rewrite visits_snoc by assumption.
           destruct (String.eqb_spec k' k) as [->|Hne]; [lia|].
           now apply Hfit.
        -- exists k0. split; [|assumption].
           destruct Hk0 as [<-|Hk0]; [lia|assumption].
    + unfold rr_round. simpl.
      rewrite skipn_beyond in Hh by assumption.
      eapply runs_stop.
      eapply rr_evals_exhausted_smallest; try eassumption. reflexivity.
Qed.

Lemma rr_smallest_future_cons (j : nat) (k : string) (post : list string)
  (b : batch) :
  j < m ->
  nth_error (dl_of dls k) j = Some b ->
  rr_smallest_future dls order m j (k :: post)
  = [(k, b)] :: rr_smallest_future dls order m j post.
Proof.
  intros Hj Hb. unfold rr_smallest_future.
  apply Nat.ltb_lt in Hj. rewrite Hj.
  unfold rr_round. simpl. unfold batch_at at 1. rewrite Hb. reflexivity.
Qed.

Lemma rr_smallest_future_roll (j : nat) :
  j < m ->
  rr_smallest_future dls order m j []
  = rr_smallest_future dls order m (S j) order.
Proof.
  intros Hj. unfold rr_smallest_future.
  pose proof Hj as Hj'. apply Nat.ltb_lt in Hj'. rewrite Hj'. simpl.
  destruct (Nat.ltb_spec (S j) m) as [Hlt|Hge].
  - replace (m - S j) with (S (m - S (S j))) by lia. simpl.
    now rewrite app_assoc.
  - replace (m - S j) with 0 by lia. simpl.
    replace (S j) with m by lia. reflexivity.
Qed.

Lemma rr_smallest_runs_from (d : nat) :
  forall j, m - j <= d -> j <= m ->
  forall post pre it,
    rr_at dls order s j pre post it ->
    (forall k, In k order -> visits j pre k <= length (dl_of dls k)) ->
    runs rr_next it (rr_smallest_future dls order m j post).
Proof.
  induction d as [|d IHd]; intros j Hd Hjm post.
  - intros pre it Hat Hfit. assert (j = m) by lia. subst j.
    unfold rr_smallest_future. rewrite Nat.ltb_irrefl.
    apply (rr_smallest_last_round post pre it Hat Hfit).
    destruct Hsmallest as [k0 [Hk0 Hlen0]]. exists k0. split; [|assumption].
    rewrite (at_split _ _ _ _ _ _ _ Hat) in Hk0.
    apply in_app_or in Hk0. destruct Hk0 as [Hk0|Hk0]; [|assumption].
    exfalso.
    assert (Hko : In k0 order).
    { rewrite (at_split _ _ _ _ _ _ _ Hat). apply in_or_app. now left. }
    specialize (Hfit k0 Hko). unfold visits in Hfit.
    apply mem_true_iff in Hk0. rewrite Hk0 in Hfit. lia.
  - destruct (Nat.eq_dec j m) as [->|Hne].
    { intros pre it Hat Hfit.
      apply (IHd m) with (pre := pre); [lia|lia|assumption|assumption]. }
    assert (Hj : j < m) by lia.
    induction post as [|k post IHpost]; intros pre it Hat Hfit.
    + assert (Hpre : pre = order).
      { rewrite (at_split _ _ _ _ _ _ _ Hat). now rewrite app_nil_r. }
      subst pre. rewrite rr_smallest_future_roll by assumption.
      apply (IHd (S j)) with (pre := []); [lia|lia| |].
      * now apply rr_at_roll.
      * intros k Hk. unfold visits. simpl. specialize (Hmin k Hk). lia.
    + pose proof (rr_fit_no_finished _ _ _ _ Hat Hfit) as Hfin.
      pose proof (rr_open_when_nonempty _ _ _ _ _ Hat Hfin) as Hopen.
      pose proof (rr_at_cycle_next dls order s j pre post k it Hat) as Hcyc.
      destruct it as [s0 its c cur fin]. simpl in Hfin, Hopen, Hcyc.
      assert (Hs0 : s0 = s) by exact (at_strategy _ _ _ _ _ _ _ Hat).
      subst s0 fin.
      pose proof (rr_at_handle dls order s Hnd j pre post k its c cur []
                    Hat) as Hh.
      pose proof (rr_at_notin_pre dls order s Hnd j pre post k its c cur []
                    Hat) as Hpre.
      pose proof (rr_at_in_order dls order s j pre post k its c cur []
                    Hat) as Hko.
      destruct (nth_error (dl_of dls k) j) as [b|] eqn:Hb.
      2:{ apply nth_error_None in Hb. specialize (Hmin k Hko). lia. }
      rewrite (rr_smallest_future_cons j k post b Hj Hb).
      rewrite (skipn_nth_error_cons _ _ _ Hb) in Hh.
      eapply runs_yield.
      * eapply rr_evals_yield; try eassumption. reflexivity.
      * apply (IHpost (pre ++ [k])).
        -- exact (rr_at_yield dls order s Hnd j pre post k its c cur []
                    Hat b Hb).
        -- intros k' Hk'. rewrite visits_snoc by assumption.
           destruct (String.eqb_spec k' k) as [->|Hne'].
           ++ specialize (Hmin k Hko). lia.
           ++ now apply Hfit.
Qed.
End RoundRobinSmallest.

Lemma fold_min_le (r : list nat) (n x : nat) :
  In x (n :: r) -> fold_right Nat.min n r <= x.
Proof.
  induction r as [|y r IH]; simpl; intros H.
  - destruct H as [->|[]]. lia.
  - destruct H as [->|[->|H]].
    + specialize (IH (or_introl eq_refl)). lia.
    + lia.
    + specialize (IH (or_intror H)). lia.
Qed.

Lemma fold_min_In (r : list nat) (n : nat) :
  In (fold_right Nat.min n r) (n :: r).
Proof.
  induction r as [|y r IH]; simpl.
  - now left.
  - destruct (Nat.min_spec y (fold_right Nat.min n r)) as [[_ ->]|[_ ->]].
    + right. now left.
    + destruct IH as [E|H]; [now left | right; now right].
Qed.

Lemma min_length_le (dls : dict dataloader) (k : string) :
  NoDup (keys dls) -> In k (keys dls) ->
  min_length dls <= length (dl_of dls k).
Proof.
  intros Hnd Hk. unfold min_length.
  assert (Hin : In (length (dl_of dls k)) (lengths dls)).
  { rewrite <- lengths_by_key by assumption.
    now apply (in_map (fun k => length (dl_of dls k))). }
  destruct (lengths dls) as [|n r]; [contradiction|].
  now apply fold_min_le.
Qed.

Lemma min_length_attained (dls : dict dataloader) :
  NoDup (keys dls) -> dls <> [] ->
  exists k, In k (keys dls) /\ length (dl_of dls k) = min_length dls.
Proof.
  intros Hnd Hne. unfold min_length.
  pose proof (lengths_by_key dls Hnd) as Hl.
  destruct (lengths dls) as [|n r] eqn:E.
  - destruct dls; [congruence | discriminate].
  - pose proof (fold_min_In r n) as Hin. rewrite <- Hl in Hin.
    apply in_map_iff in Hin. destruct Hin as [k [Hk Hin]].
    exists k. split; assumption.
Qed.

Lemma length_rr_round_full (dls : dict dataloader) (j : nat)
  (ks : list string) :
  (forall k, In k ks -> j < length (dl_of dls k)) ->
  length (rr_round dls j ks) = length ks.
Proof.
  unfold rr_round. induction ks as [|k ks IH]; intros H; simpl.
  - reflexivity.
  - rewrite length_app, IH by (intros k' Hk'; apply H; now right).
    unfold batch_at.
    destruct (nth_error (dl_of dls k) j) eqn:E; [reflexivity|].
    apply nth_error_None in E. specialize (H k (or_introl eq_refl)). lia.
Qed.

Lemma length_full_rounds (dls : dict dataloader) (ks : list string)
  (m : nat) :
  (forall k, In k ks -> m <= length (dl_of dls k)) ->
  length (flat_map (fun j => rr_round dls j ks) (seq 0 m))
  = length ks * m.
Proof.
  intros H. induction m as [|m IH]; [simpl; lia|].
  rewrite seq_S, flat_map_app, length_app. simpl. rewrite app_nil_r.
  rewrite IH by (intros k Hk; specialize (H k Hk); lia).
  rewrite length_rr_round_full by (intros k Hk; specialize (H k Hk); lia).
  lia.
Qed.

Lemma first_short_long (dls : dict dataloader) (j : nat) (ks : list string) :
  forall k, In k (first_short dls j ks) -> j < length (dl_of dls k).
Proof.
  induction ks as [|k0 ks IH]; simpl; intros k Hk; [contradiction|].
  destruct (Nat.ltb_spec j (length (dl_of dls k0))) as [Hlt|Hge];
    [|contradiction].
  destruct Hk as [<-|Hk]; [assumption | now apply IH].
Qed.

Lemma length_rr_smallest_records (dls : dict dataloader)
  (order : list string) :
  (forall k, In k order -> min_length dls <= length (dl_of dls k)) ->
  length (rr_smallest_records dls order)
  = length order * min_length dls
    + length (first_short dls (min_length dls) order).
Proof.
  intros H. unfold rr_smallest_records.
  rewrite length_app, length_full_rounds by assumption.
  rewrite length_rr_round_full by apply first_short_long. reflexivity.
Qed.

Lemma rr_smallest_future_start (dls : dict dataloader)
  (order : list string) :
  rr_smallest_future dls order (min_length dls) 0 order
  = rr_smallest_records dls order.
Proof.
  unfold rr_smallest_future, rr_smallest_records.
  destruct (min_length dls) as [|m]; simpl.
  - reflexivity.
  - rewrite Nat.sub_0_r, app_assoc. reflexivity.
Qed.

Lemma rr_smallest_run (dls : dict dataloader) (order : option (list string))
  (it : RoundRobinIterator) :
  NoDup (keys dls) ->
  Permutation (order_or_keys order (keys dls)) (keys dls) ->
  RoundRobinIterator_init dls (mkRoundRobin SMALLEST_DATASET_EXHAUSTED order)
  = Return it ->
  runs rr_next it (rr_smallest_records dls (order_or_keys order (keys dls)))
  /\ length (rr_smallest_records dls (order_or_keys order (keys dls)))
     = length dls * min_length dls
       + length (first_short dls (min_length dls)
                   (order_or_keys order (keys dls))).
Proof.
  intros Hnd Hp Hinit.
  set (o := order_or_keys order (keys dls)) in *.
  assert (Hndo : NoDup o).
  { eapply Permutation_NoDup; [apply Permutation_sym; eassumption|assumption]. }
  assert (Hmin : forall k, In k o -> min_length dls <= length (dl_of dls k)).
  { intros k Hk. apply min_length_le; [assumption|].
    eapply Permutation_in; eassumption. }
  assert (Hne : dls <> []).
  { intros ->. unfold RoundRobinIterator_init in Hinit. simpl in Hinit.
    subst o. destruct order as [[|? ?]|]; simpl in *;
      try discriminate.
    apply Permutation_length in Hp. discriminate. }
  split.
  - rewrite <- rr_smallest_future_start.
    apply (rr_smallest_runs_from dls o
             (mkRoundRobin SMALLEST_DATASET_EXHAUSTED order)
             (min_length dls) Hndo eq_refl Hmin)
      with (d := min_length dls) (pre := []).
    + destruct (min_length_attained dls Hnd Hne) as [k [Hk Hlen]].
      exists k. split; [|lia].
      eapply Permutation_in; [apply Permutation_sym; eassumption|assumption].
    + lia.
    + lia.
    + now apply (RoundRobinIterator_init_at dls
                   (mkRoundRobin SMALLEST_DATASET_EXHAUSTED order)).
    + intros k Hk. unfold visits. simpl. lia.
  - rewrite length_rr_smallest_records by assumption.
    apply Permutation_length in Hp. unfold keys in Hp.
    rewrite length_map in Hp. fold o in Hp. now rewrite Hp.
Qed.

(** ** Association lists, split around a key *)

Lemma keys_app {V : Type} (d1 d2 : dict V) :
  keys (d1 ++ d2) = keys d1 ++ keys d2.
Proof. unfold keys. apply map_app. Qed.

Lemma lookup_app_notin {V : Type} (d1 d2 : dict V) (k : string) :
  ~ In k (keys d1) -> lookup k (d1 ++ d2) = lookup k d2.
Proof.
  induction d1 as [|[k' v'] d1 IH]; simpl; intros H; [reflexivity|].
  destruct (String.eqb_spec k k') as [->|Hne]; [exfalso; apply H; now left|].
  apply IH. intros Hin. apply H. now right.
Qed.

Lemma lookup_middle {V : Type} (d1 d2 : dict V) (k : string) (v : V) :
  ~ In k (keys d1) -> lookup k (d1 ++ (k, v) :: d2) = Some v.
Proof.
  intros H. rewrite lookup_app_notin by assumption. simpl.
  now rewrite String.eqb_refl.
Qed.

Lemma setitem_app_notin {V : Type} (d1 d2 : dict V) (k : string) (v : V) :
  ~ In k (keys d1) -> setitem k v (d1 ++ d2) = d1 ++ setitem k v d2.
Proof.
  induction d1 as [|[k' v'] d1 IH]; simpl; intros H; [reflexivity|].
  destruct (String.eqb_spec k k') as [->|Hne]; [exfalso; apply H; now left|].
  f_equal. apply IH. intros Hin. apply H. now right.
Qed.

Lemma setitem_middle {V : Type} (d1 d2 : dict V) (k : string) (v v' : V) :
  ~ In k (keys d1) ->
  setitem k v' (d1 ++ (k, v) :: d2) = d1 ++ (k, v') :: d2.
Proof.
  intros H. rewrite setitem_app_notin by assumption. simpl.
  now rewrite String.eqb_refl.
Qed.

Lemma setitem_new {V : Type} (d : dict V) (k : string) (v : V) :
  ~ In k (keys d) -> setitem k v d = d ++ [(k, v)].
Proof.
  intros H. rewrite <- (app_nil_r d) at 1.
  rewrite setitem_app_notin by assumption. reflexivity.
Qed.

Lemma keys_advanced (c : nat) (dls : dict dataloader) :
  keys (advanced c dls) = keys dls.
Proof. unfold keys, advanced. rewrite map_map. reflexivity. Qed.

Lemma keys_row (j : nat) (dls : dict dataloader) :
  keys (row j dls) = keys dls.
Proof. unfold keys, row. rewrite map_map. reflexivity. Qed.

Lemma advanced_app (c : nat) (d1 d2 : dict dataloader) :
  advanced c (d1 ++ d2) = advanced c d1 ++ advanced c d2.
Proof. apply map_app. Qed.

Lemma row_app (j : nat) (d1 d2 : dict dataloader) :
  row j (d1 ++ d2) = row j d1 ++ row j d2.
Proof. apply map_app. Qed.

Lemma advanced_0 (dls : dict dataloader) :
  advanced 0 dls
  = map (fun nd : string * dataloader => (fst nd, iter (snd nd))) dls.
Proof. reflexivity. Qed.

Lemma skipn_cons_nth (l : list batch) (j : nat) (b : batch)
  (rest : list batch) :
  skipn j l = b :: rest -> nth j l 0 = b /\ skipn (S j) l = rest.
Proof.
  revert j. induction l as [|x l IH]; intros [|j] H; simpl in *;
    try discriminate.
  - inversion H. now split.
  - now apply IH.
Qed.

Lemma skipn_nil_length {A : Type} (l : list A) (j : nat) :
  skipn j l = [] -> length l <= j.
Proof.
  intros H. pose proof (length_skipn j l) as Hl. rewrite H in Hl.
  simpl in Hl. lia.
Qed.

(** Rewrite with an equation on a call of [adb_for] that is convertible
    to the call in the goal. *)
Ltac rewrite_adb_for H :=
  match type of H with
  | _ = ?R =>
      match goal with
      | |- context [adb_for ?a ?b ?c] =>
          let H' := fresh in
          assert (H' : adb_for a b c = R) by exact H;
          rewrite H'; clear H'
      end
  end.

(** ** All dataset batches under SMALLEST_DATASET_EXHAUSTED *)

Section AllDatasetBatchesSmallest.
Variables (dls0 : dict dataloader) (fin : list string) (j : nat).

Lemma adb_for_smallest_row :
  forall post pre,
    NoDup (keys (pre ++ post)) ->
    (forall nd, In nd post -> j < length (snd nd)) ->
    exists l,
      adb_for (keys post)
        (mkAllDatasetBatchesIterator dls0 SMALLEST_DATASET_EXHAUSTED
           (advanced (S j) pre ++ advanced j post) fin)
        (row j pre)
      = (if length (row j (pre ++ post)) =? 0
         then Raise StopIteration
         else Return (row j (pre ++ post)),
         mkAllDatasetBatchesIterator dls0 SMALLEST_DATASET_EXHAUSTED
           (advanced (S j) (pre ++ post)) fin,
         l).
Proof.
  induction post as [|[k dl] post IH]; intros pre Hnd Hlong.
  - exists []. simpl. rewrite !app_nil_r.
    destruct (length (row j pre) =? 0); reflexivity.
  - assert (Hk : ~ In k (keys pre)).
    { rewrite keys_app in Hnd. simpl in Hnd.
      now apply NoDup_app_cons_notin in Hnd. }
    assert (Hlt : j < length dl) by exact (Hlong (k, dl) (or_introl eq_refl)).
    destruct (skipn j dl) as [|b rest] eqn:Es.
    { apply skipn_nil_length in Es. lia. }
    destruct (skipn_cons_nth _ _ _ _ Es) as [Hb Hrest].
    destruct (IH (pre ++ [(k, dl)])) as [l Hl].
    + now rewrite <- app_assoc.
    + intros nd Hnd'. apply Hlong. now right.
    + exists (EvNext k :: l). simpl.
      rewrite lookup_app_notin by (now rewrite keys_advanced).
      simpl. rewrite String.eqb_refl, Es.
      unfold adb_set_iterator. simpl.
      rewrite setitem_app_notin by (now rewrite keys_advanced).
      simpl. rewrite String.eqb_refl.
      rewrite setitem_new by (now rewrite keys_row).
      rewrite advanced_app, row_app in Hl.
      change (advanced (S j) [(k, dl)]) with [(k, skipn (S j) dl)] in Hl.
      change (row j [(k, dl)]) with [(k, nth j dl 0)] in Hl.
      rewrite Hb, Hrest, <- !app_assoc in Hl. simpl app in Hl.
      rewrite_adb_for Hl. reflexivity.
Qed.

Lemma adb_for_smallest_stop :
  forall post pre bd,
    NoDup (keys (pre ++ post)) ->
    (exists nd, In nd post /\ length (snd nd) <= j) ->
    fst (fst (adb_for (keys post)
                (mkAllDatasetBatchesIterator dls0
                   SMALLEST_DATASET_EXHAUSTED
                   (advanced (S j) pre ++ advanced j post) fin)
                bd))
    = Raise StopIteration.
Proof.
  induction post as [|[k dl] post IH]; intros pre bd Hnd [nd [Hin Hlen]].
  - contradiction.
  - assert (Hk : ~ In k (keys pre)).
    { rewrite keys_app in Hnd. simpl in Hnd.
      now apply NoDup_app_cons_notin in Hnd. }
    simpl. rewrite lookup_app_notin by (now rewrite keys_advanced).
    simpl. rewrite String.eqb_refl.
    destruct (skipn j dl) as [|b rest] eqn:Es; [reflexivity|].
    destruct (skipn_cons_nth _ _ _ _ Es) as [Hb Hrest].
    unfold adb_set_iterator. simpl.
    rewrite setitem_app_notin by (now rewrite keys_advanced).
    simpl. rewrite String.eqb_refl.
    specialize (IH (pre ++ [(k, dl)]) (setitem k b bd)).
    rewrite advanced_app in IH.
    change (advanced (S j) [(k, dl)]) with [(k, skipn (S j) dl)] in IH.
    rewrite Hrest, <- !app_assoc in IH. simpl app in IH.
    match goal with
    | |- context [adb_for ?a ?b ?c] =>
        assert (Hstop : fst (fst (adb_for a b c)) = Raise StopIteration);
        [ apply IH
        | destruct (adb_for a b c) as [[r it'] l]; simpl in *; exact Hstop ]
    end.
    + assumption.
    + exists nd. split; [|assumption].
      destruct Hin as [<-|Hin]; [|assumption].
      simpl in Hlen. assert (length (skipn j dl) = 0) as Hz.
      { rewrite length_skipn. lia. }
      rewrite Es in Hz. discriminate.
Qed.
End AllDatasetBatchesSmallest.

Lemma adb_evals (it it' : AllDatasetBatchesIterator) (r : outcome record)
  (l : list event) :
  adb_next it = (r, it', l) -> evals adb_const_fuel it (r, it', l).
Proof. intros H. exists 0. intros f _. exact H. Qed.

Lemma min_length_le_In (dls : dict dataloader) (nd : string * dataloader) :
  In nd dls -> min_length dls <= length (snd nd).
Proof.
  intros Hin. unfold min_length.
  assert (H : In (length (snd nd)) (lengths dls)).
  { unfold lengths.
    now apply (in_map (fun nd : string * dataloader => length (snd nd))). }
  destruct (lengths dls) as [|n r]; [contradiction|].
  now apply fold_min_le.
Qed.

Lemma min_length_attained_In (dls : dict dataloader) :
  dls <> [] ->
  exists nd, In nd dls /\ length (snd nd) = min_length dls.
Proof.
  intros Hne. unfold min_length. destruct (lengths dls) as [|n r] eqn:E.
  - destruct dls; [congruence | discriminate].
  - pose proof (fold_min_In r n) as Hin. rewrite <- E in Hin.
    unfold lengths in Hin. apply in_map_iff in Hin.
    destruct Hin as [nd [Hlen Hin]]. exists nd. split; assumption.
Qed.

Lemma adb_smallest_runs_from (dls : dict dataloader) :
  NoDup (keys dls) -> dls <> [] ->
  forall d j,
    j + d = min_length dls ->
    runs adb_const_fuel
      (mkAllDatasetBatchesIterator dls SMALLEST_DATASET_EXHAUSTED
         (advanced j dls) [])
      (map (fun j' => row j' dls) (seq j d)).
Proof.
  intros Hnd Hne. induction d as [|d IH]; intros j Hj.
  - simpl.
    pose proof (adb_for_smallest_stop dls [] j dls [] [] Hnd) as Hstop.
    destruct (min_length_attained_In dls Hne) as [nd [Hin Hlen]].
    assert (Hshort : exists nd, In nd dls /\ length (snd nd) <= j).
    { exists nd. split; [assumption | lia]. }
    specialize (Hstop Hshort). simpl in Hstop.
    destruct (adb_for (keys dls)
                (mkAllDatasetBatchesIterator dls SMALLEST_DATASET_EXHAUSTED
                   (advanced j dls) []) []) as [[r it'] l] eqn:E.
    assert (Hr : fst (fst (r, it', l)) = Raise StopIteration)
      by first [exact Hstop | rewrite <- E; exact Hstop].
    simpl in Hr. subst r.
    eapply runs_stop. apply adb_evals. unfold adb_next. simpl.
    rewrite keys_advanced. exact E.
  - simpl.
    destruct (adb_for_smallest_row dls [] j dls [] Hnd) as [l Hl].
    { intros nd Hin. pose proof (min_length_le_In dls nd Hin) as Hm.
      eapply Nat.lt_le_trans; [|exact Hm]. lia. }
    simpl in Hl.
    assert (Hrow : (length (row j dls) =? 0) = false).
    { apply Nat.eqb_neq. unfold row. rewrite length_map.
      destruct dls; [congruence | simpl; lia]. }
    rewrite Hrow in Hl.
    eapply runs_yield.
    + apply adb_evals. unfold adb_next. simpl. rewrite keys_advanced.
      exact Hl.
    + apply IH. lia.
Qed.

Lemma adb_smallest_run (dls : dict dataloader)
  (it : AllDatasetBatchesIterator) :
  NoDup (keys dls) -> dls <> [] ->
  AllDatasetBatchesIterator_init dls
    (mkAllDatasetBatches SMALLEST_DATASET_EXHAUSTED) = Return it ->
  runs adb_const_fuel it (adb_smallest_records dls)
  /\ length (adb_smallest_records dls) = min_length dls.
Proof.
  intros Hnd Hne Hinit. split.
  - unfold AllDatasetBatchesIterator_init in Hinit. simpl in Hinit.
    inversion Hinit; subst it; clear Hinit. rewrite <- advanced_0.
    now apply adb_smallest_runs_from.
  - unfold adb_smallest_records. now rewrite length_map, length_seq.
Qed.

(** ** The randomized sampler: selection *)

Lemma not_exhausted_repeat_false {A : Type} (xs : list A) :
  not_exhausted xs (repeat false (length xs)) = xs.
Proof.
  unfold not_exhausted. induction xs as [|x xs IH]; simpl; [reflexivity|].
  now rewrite IH.
Qed.

Lemma index_In (k : string) (l : list string) :
  In k l -> exists i, index k l = Some i /\ i < length l.
Proof.
  induction l as [|k' l IH]; simpl; intros H; [contradiction|].
  destruct (String.eqb_spec k k') as [->|Hne].
  - exists 0. split; [reflexivity | lia].
  - destruct H as [E|H]; [congruence|].
    destruct (IH H) as [i [Hi Hlt]]. exists (S i). rewrite Hi.
    split; [reflexivity | lia].
Qed.

Lemma length_accumulate_from (acc : float) (ws : list float) :
  length (accumulate_from acc ws) = length ws.
Proof.
  revert acc. induction ws as [|w ws IH]; intros acc; simpl;
    [reflexivity | now rewrite IH].
Qed.

Lemma length_accumulate (ws : list float) :
  length (accumulate ws) = length ws.
Proof.
  destruct ws as [|w ws]; simpl; [reflexivity|].
  now rewrite length_accumulate_from.
Qed.

Lemma rbs_candidates_unmarked (it : RandomizedBatchSamplerIterator) :
  rbs_iterator_is_exhausted it
  = repeat false (length (rbs_iterator_names it)) ->
  rbs_weights_aligned it ->
  rbs_candidates it = (rbs_iterator_names it, rbs_iterator_weights it).
Proof.
  intros Hf Ha. unfold rbs_candidates.
  destruct (rbs_iterator_weights it) as [ws|] eqn:Ew.
  - specialize (Ha ws Ew).
    destruct (rbs_stopping_mechanism it); try reflexivity;
      rewrite Hf, not_exhausted_repeat_false, <- Ha,
        not_exhausted_repeat_false; reflexivity.
  - destruct (rbs_stopping_mechanism it); reflexivity.
Qed.

(** When [random.choices] accepts its arguments, it returns the name at
    the position the generator picks. *)
Lemma random_choice_In (env : environment) (draw : nat)
  (population : list string) (weights : option (list float)) :
  population <> [] ->
  (forall ws, weights = Some ws ->
              length ws = length population
              /\ weights_accepted ws = true) ->
  exists k,
    random_choice env draw population weights = Return k
    /\ In k population
    /\ nth_error population (random_choices env draw mod length population)
       = Some k.
Proof.
  intros Hne Hw. unfold random_choice.
  assert (Hlt : random_choices env draw mod length population
                < length population).
  { apply Nat.mod_upper_bound. destruct population; [congruence|].
    simpl. lia. }
  destruct (nth_error population _) as [k|] eqn:E.
  2:{ apply nth_error_None in E. lia. }
  exists k. split; [|split; [eapply nth_error_In; eassumption | reflexivity]].
  destruct weights as [ws|]; [|reflexivity].
  destruct (Hw ws eq_refl) as [Hlen Hacc].
  rewrite length_accumulate, Hlen, Nat.eqb_refl. simpl.
  unfold weights_accepted in Hacc.
  destruct (last_item (accumulate ws)) as [c|]; [|discriminate].
  apply andb_true_iff in Hacc. destruct Hacc as [Hpos Hfin].
  apply negb_true_iff in Hpos. rewrite Hpos, Hfin. reflexivity.
Qed.

(** A choice among all the names, with weights that [random.choices]
    accepts, selects one of the names. *)
Lemma rbs_select_names (env : environment)
  (it : RandomizedBatchSamplerIterator) :
  rbs_candidates it = (rbs_iterator_names it, rbs_iterator_weights it) ->
  rbs_iterator_names it <> [] ->
  broadcast_in_range env (rbs_iterator_names it) ->
  rbs_weights_aligned it ->
  rbs_weights_accepted it ->
  exists k l, rbs_select env it = (Return k, l)
              /\ In k (rbs_iterator_names it).
Proof.
  intros Hc Hn Hb Ha Hacc. unfold rbs_select. rewrite Hc. cbn [fst snd].
  destruct (random_choice_In env (rbs_draws it) (rbs_iterator_names it)
              (rbs_iterator_weights it) Hn) as (k & -> & Hin & _).
  { intros ws Hws. split; [now apply Ha | now apply Hacc]. }
  destruct (_ && _ && _).
  - destruct (index_In k _ Hin) as [i [-> Hi]].
    specialize (Hb (rbs_draws it) i Hi).
    destruct (nth_error (rbs_iterator_names it) _) as [k'|] eqn:E.
    + eexists k', _. split; [reflexivity|].
      eapply nth_error_In. eassumption.
    + apply nth_error_None in E. lia.
  - eexists k, _. split; [reflexivity | assumption].
Qed.

Lemma rbs_select_unmarked (env : environment)
  (it : RandomizedBatchSamplerIterator) :
  rbs_unmarked env it ->
  exists k l, rbs_select env it = (Return k, l)
              /\ In k (rbs_iterator_names it).
Proof.
  intros [Hn Hk Hf Hb Ha Hacc].
  apply rbs_select_names; try assumption.
  now apply rbs_candidates_unmarked.
Qed.

(** ** The randomized sampler under SMALLEST_DATASET_EXHAUSTED *)

Lemma lookup_Some_In_pair {V : Type} (k : string) (v : V) (d : dict V) :
  lookup k d = Some v -> In (k, v) d.
Proof.
  induction d as [|[k' v'] d IH]; simpl; [discriminate|].
  destruct (String.eqb_spec k k') as [->|Hne].
  - intros E. inversion E. now left.
  - intros E. right. now apply IH.
Qed.

Lemma In_setitem {V : Type} (k : string) (v : V) (d : dict V)
  (nd : string * V) :
  In nd (setitem k v d) -> nd = (k, v) \/ In nd d.
Proof.
  induction d as [|[k' v'] d IH]; simpl.
  - intros [E|[]]. now left.
  - destruct (String.eqb_spec k k') as [->|Hne]; simpl.
    + intros [E|H]; [now left | right; now right].
    + intros [E|H]; [right; now left|].
      destruct (IH H) as [E|H']; [now left | right; now right].
Qed.

Lemma total_length_setitem (k : string) (b : batch) (rest : iterator)
  (its : dict iterator) :
  lookup k its = Some (b :: rest) ->
  S (total_length (setitem k rest its)) = total_length its.
Proof.
  unfold total_length, lengths.
  induction its as [|[k' h] its IH]; simpl; [discriminate|].
  destruct (String.eqb_spec k k') as [->|Hne]; simpl.
  - intros E. inversion E; subst. simpl. lia.
  - intros E. specialize (IH E). lia.
Qed.

Lemma setitem_nonempty {V : Type} (k : string) (v : V) (d : dict V) :
  setitem k v d <> [].
Proof.
  destruct d as [|[k' v'] d]; simpl; [discriminate|].
  destruct (String.eqb k k'); discriminate.
Qed.

Lemma min_length_setitem (k : string) (b : batch) (rest : iterator)
  (its : dict iterator) :
  lookup k its = Some (b :: rest) ->
  min_length its <= S (min_length (setitem k rest its)).
Proof.
  intros Hl.
  destruct (min_length_attained_In (setitem k rest its)
              (setitem_nonempty k rest its)) as [nd [Hin Hlen]].
  apply In_setitem in Hin. destruct Hin as [->|Hin].
  - apply lookup_Some_In_pair in Hl.
    pose proof (min_length_le_In its _ Hl) as Hm. simpl in *.
    rewrite <- Hlen. exact Hm.
  - pose proof (min_length_le_In its nd Hin) as Hm.
    rewrite <- Hlen. apply Nat.le_trans with (1 := Hm). apply Nat.le_succ_diag_r.
Qed.

Lemma existsb_set_nth_true (i : nat) (flags : list bool) :
  i < length flags ->
  existsb (fun b : bool => b) (set_nth i true flags) = true.
Proof.
  revert i. induction flags as [|f flags IH]; intros [|i] H; simpl in *;
    try lia; try reflexivity.
  rewrite IH by lia. apply orb_true_r.
Qed.

Lemma existsb_repeat_false (n : nat) :
  existsb (fun b : bool => b) (repeat false n) = false.
Proof. induction n; simpl; auto. Qed.

Section SamplerSmallest.
Variable env : environment.

Lemma rbs_smallest_runs_from (n : nat) :
  forall it,
    total_length (rbs_individual_iterators it) = n ->
    rbs_stopping_mechanism it = SMALLEST_DATASET_EXHAUSTED ->
    rbs_unmarked env it ->
    exists recs,
      runs (rbs_next env) it recs
      /\ min_length (rbs_individual_iterators it) <= length recs
      /\ length recs <= total_length (rbs_individual_iterators it).
Proof.
  induction n as [|n IH]; intros it Hn Hmode Hum;
    destruct (rbs_select_unmarked env it Hum) as (k & l0 & Hsel & Hk);
    pose proof Hum as [Hnames Hkeys Hflags Hbc];
    destruct (lookup_In k _ (Hkeys k Hk)) as [h Hh];
    destruct (index_In k _ Hk) as [i [Hi Hlt]];
    (destruct h as [|b rest];
     [ (* the selected source is exhausted: mark, call again, stop *)
       exists []; split;
       [ eapply runs_stop with
           (st' := rbs_set_exhausted (rbs_tick it)
                     (set_nth i true (rbs_iterator_is_exhausted it)))
           (l := l0 ++ [EvNext k]);
         exists 2; intros f Hf; destruct f as [|[|f]]; try lia;
         simpl; unfold rbs_should_stop; rewrite Hmode, Hflags,
           existsb_repeat_false, Hsel;
         unfold rbs_draw; simpl; rewrite Hh, Hmode, Hi; simpl;
         rewrite Hflags, existsb_set_nth_true
           by (now rewrite repeat_length);
         reflexivity
       | split; [|simpl; lia];
         apply lookup_Some_In_pair in Hh;
         exact (min_length_le_In _ _ Hh) ]
     | ]).
  - (* nothing remains, yet a batch is found *)
    pose proof (total_length_setitem k b rest _ Hh) as Ht. lia.
  - pose proof (total_length_setitem k b rest _ Hh) as Ht.
    destruct (IH (rbs_set_iterator (rbs_tick it) k rest)) as
      (recs & Hruns & Hmin & Hmax).
    + simpl. lia.
    + exact Hmode.
    + constructor; simpl; try assumption.
      intros k' Hk'. rewrite keys_setitem; [now apply Hkeys|].
      now apply Hkeys.
    + exists ([(k, b)] :: recs). split; [|split].
      * eapply runs_yield; [|exact Hruns].
        exists 1. intros f Hf. destruct f as [|f]; [lia|].
        simpl. unfold rbs_should_stop. rewrite Hmode, Hflags,
          existsb_repeat_false, Hsel.
        unfold rbs_draw. simpl. rewrite Hh. reflexivity.
      * simpl in Hmin |- *.
        pose proof (min_length_setitem k b rest _ Hh). lia.
      * simpl in Hmax |- *. lia.
Qed.
End SamplerSmallest.

Lemma insert_sorted_perm (k : string) (l : list string) :
  Permutation (insert_sorted k l) (k :: l).
Proof.
  induction l as [|k' l IH]; simpl; [apply Permutation_refl|].
  destruct (String.leb k k'); [apply Permutation_refl|].
  eapply Permutation_trans; [apply perm_skip; exact IH | apply perm_swap].
Qed.

Lemma sorted_perm (l : list string) : Permutation (sorted l) l.
Proof.
  induction l as [|k l IH]; simpl; [apply Permutation_refl|].
  eapply Permutation_trans; [apply insert_sorted_perm|].
  now apply perm_skip.
Qed.

Lemma lengths_map_iter (dls : dict dataloader) :
  lengths (map (fun nd : string * dataloader => (fst nd, iter (snd nd))) dls)
  = lengths dls.
Proof. unfold lengths. rewrite map_map. reflexivity. Qed.

(** ** The weights that a randomized sampler keeps *)

Lemma to_float_raises (x : weight) (e : exn) :
  to_float x = Raise e -> e = OverflowError.
Proof.
  destruct x as [z|f]; simpl; [|discriminate].
  destruct (PrimFloat.is_infinity _); congruence.
Qed.

Lemma to_float_finishes (x : weight) : to_float x <> OutOfFuel.
Proof.
  destruct x as [z|f]; simpl; [|discriminate].
  destruct (PrimFloat.is_infinity _); discriminate.
Qed.

Lemma issubset_keys_true (names : list string) (w : dict weight) :
  issubset_keys names w = true <->
  forall k, In k names -> lookup k w <> None.
Proof.
  unfold issubset_keys. rewrite forallb_forall. split; intros H k Hk.
  - specialize (H k Hk). destruct (lookup k w); congruence.
  - specialize (H k Hk). destruct (lookup k w); congruence.
Qed.

Lemma issubset_keys_false (names : list string) (w : dict weight) :
  issubset_keys names w = false <->
  exists k, In k names /\ lookup k w = None.
Proof.
  unfold issubset_keys. induction names as [|n names IH]; simpl.
  - split; [discriminate | intros (k & [] & _)].
  - destruct (lookup n w) as [x|] eqn:E; simpl.
    + rewrite IH. split; intros (k & Hk & Hn).
      * exists k. split; [now right | assumption].
      * destruct Hk as [<-|Hk]; [congruence|]. now exists k.
    + split; [|reflexivity]. intros _. exists n.
      split; [now left | assumption].
Qed.

Lemma weights_of_Forall2 (w : dict weight) (names : list string)
  (ws : list float) :
  weights_of w names = Return ws <->
  Forall2 (fun k x => exists v, lookup k w = Some v /\ to_float v = Return x)
    names ws.
Proof.
  revert ws. induction names as [|n names IH]; intros ws; simpl.
  - split.
    + intros H. inversion H. constructor.
    + intros H. inversion H. reflexivity.
  - split.
    + destruct (lookup n w) as [v|] eqn:E; [|discriminate].
      destruct (to_float v) as [x|e|] eqn:Ef; try discriminate.
      destruct (weights_of w names) as [ws'|e|]; try discriminate.
      intros H. inversion H; subst. constructor; [now exists v|].
      now apply IH.
    + intros H. inversion H as [|? x ? ws' (v & Hv & Hx) Hrest]; subst.
      rewrite Hv, Hx. apply IH in Hrest. now rewrite Hrest.
Qed.

Lemma weights_of_length (w : dict weight) (names : list string)
  (ws : list float) :
  weights_of w names = Return ws -> length ws = length names.
Proof.
  intros H. apply weights_of_Forall2 in H. symmetry.
  eapply Forall2_length. eassumption.
Qed.

Lemma weights_of_converted (w : dict weight) (names : list string) :
  (forall k, In k names ->
     exists v x, lookup k w = Some v /\ to_float v = Return x) ->
  exists ws, weights_of w names = Return ws.
Proof.
  induction names as [|n names IH]; intros H; simpl.
  - now exists [].
  - destruct (H n (or_introl eq_refl)) as (v & x & -> & ->).
    destruct IH as [ws ->]; [intros k Hk; apply H; now right|].
    now exists (x :: ws).
Qed.

Lemma weights_of_overflow (w : dict weight) (names : list string) :
  (forall k, In k names -> lookup k w <> None) ->
  (exists k v, In k names /\ lookup k w = Some v
               /\ to_float v = Raise OverflowError) ->
  weights_of w names = Raise OverflowError.
Proof.
  induction names as [|n names IH]; intros Hall (k & v & Hk & Hv & Hf).
  - destruct Hk.
  - simpl. destruct (lookup n w) as [x|] eqn:E.
    2:{ exfalso. apply (Hall n); [now left | assumption]. }
    destruct (to_float x) as [y|e|] eqn:Ex.
    + rewrite IH; [reflexivity | intros k' Hk'; apply Hall; now right|].
      destruct Hk as [<-|Hk]; [congruence|]. now exists k, v.
    + now rewrite (to_float_raises x e Ex).
    + exfalso. exact (to_float_finishes x Ex).
Qed.

(** ** The construction of a randomized sampler *)

Lemma RandomizedBatchSamplerIterator_init_fields (env : environment)
  (dls : dict dataloader) (s : RandomizedBatchSampler)
  (it : RandomizedBatchSamplerIterator) (l : list event) :
  RandomizedBatchSamplerIterator_init env dls s = (Return it, l) ->
  rbs_individual_dataloaders it = dls
  /\ rbs_individual_iterators it
     = map (fun nd : string * dataloader => (fst nd, iter (snd nd))) dls
  /\ rbs_iterator_names it = sorted (keys dls)
  /\ rbs_iterator_is_exhausted it
     = repeat false (length (sorted (keys dls)))
  /\ rbs_stopping_mechanism it = rbs_strategy_stopping_mechanism s
  /\ rbs_enforce_same_loader_across_ranks it
     = rbs_strategy_enforce_same_loader_across_ranks s
  /\ rbs_iterators_finished it = []
  /\ (rbs_weights s = None -> rbs_iterator_weights it = None).
Proof.
  unfold RandomizedBatchSamplerIterator_init. intros H.
  destruct (rbs_weights s) as [w|].
  - destruct (issubset_keys _ w); [|discriminate].
    destruct (weights_of w _) as [ws|e|]; try discriminate.
    destruct (rbs_strategy_enforce_same_loader_across_ranks s).
    + destruct (dist_new_group env); inversion H; subst; simpl;
        repeat split; discriminate.
    + inversion H; subst; simpl; repeat split; discriminate.
  - destruct (rbs_strategy_enforce_same_loader_across_ranks s).
    + destruct (dist_new_group env); inversion H; subst; simpl;
        repeat split; reflexivity.
    + inversion H; subst; simpl; repeat split; reflexivity.
Qed.

Lemma RandomizedBatchSamplerIterator_init_weights (env : environment)
  (dls : dict dataloader) (s : RandomizedBatchSampler) (w : dict weight)
  (it : RandomizedBatchSamplerIterator) (l : list event) :
  rbs_weights s = Some w ->
  RandomizedBatchSamplerIterator_init env dls s = (Return it, l) ->
  exists ws,
    rbs_iterator_weights it = Some ws
    /\ weights_of w (sorted (keys dls)) = Return ws.
Proof.
  unfold RandomizedBatchSamplerIterator_init. intros Hw H. rewrite Hw in H.
  destruct (issubset_keys _ w); [|discriminate].
  destruct (weights_of w _) as [ws|e|]; try discriminate.
  exists ws. split; [|reflexivity].
  destruct (rbs_strategy_enforce_same_loader_across_ranks s).
  - destruct (dist_new_group env); inversion H; subst; reflexivity.
  - inversion H; subst; reflexivity.
Qed.

Lemma RandomizedBatchSamplerIterator_init_aligned (env : environment)
  (dls : dict dataloader) (s : RandomizedBatchSampler)
  (it : RandomizedBatchSamplerIterator) (l : list event) :
  RandomizedBatchSamplerIterator_init env dls s = (Return it, l) ->
  rbs_weights_aligned it.
Proof.
  intros Hinit ws Hws.
  destruct (RandomizedBatchSamplerIterator_init_fields _ _ _ _ _ Hinit)
    as (_ & _ & Hn & _ & _ & _ & _ & Hnone).
  destruct (rbs_weights s) as [w|] eqn:Ew.
  - destruct (RandomizedBatchSamplerIterator_init_weights _ _ _ _ _ _
                Ew Hinit) as (ws' & Hws' & Hof).
    rewrite Hws' in Hws. inversion Hws; subst. rewrite Hn.
    eapply weights_of_length. eassumption.
  - rewrite (Hnone eq_refl) in Hws. discriminate.
Qed.

Lemma RandomizedBatchSamplerIterator_init_draws (env : environment)
  (dls : dict dataloader) (s : RandomizedBatchSampler)
  (it : RandomizedBatchSamplerIterator) (l : list event) :
  RandomizedBatchSamplerIterator_init env dls s = (Return it, l) ->
  rbs_draws it = 0.
Proof.
  unfold RandomizedBatchSamplerIterator_init. intros H.
  destruct (rbs_weights s) as [w|];
    [destruct (issubset_keys _ w); [|discriminate];
     destruct (weights_of w _) as [ws|e|]; try discriminate|];
    (destruct (rbs_strategy_enforce_same_loader_across_ranks s);
     [destruct (dist_new_group env)|]; inversion H; reflexivity).
Qed.

Lemma RandomizedBatchSamplerIterator_init_unmarked (env : environment)
  (dls : dict dataloader) (s : RandomizedBatchSampler)
  (it : RandomizedBatchSamplerIterator) (l : list event) :
  dls <> [] ->
  broadcast_in_range env (sorted (keys dls)) ->
  RandomizedBatchSamplerIterator_init env dls s = (Return it, l) ->
  rbs_weights_accepted it ->
  rbs_unmarked env it.
Proof.
  intros Hne Hb Hinit Hacc.
  destruct (RandomizedBatchSamplerIterator_init_fields _ _ _ _ _ Hinit)
    as (Hd & Hi & Hn & Hf & _).
  constructor.
  - rewrite Hn. intros E.
    pose proof (Permutation_length (sorted_perm (keys dls))) as Hl.
    rewrite E in Hl. destruct dls; [congruence | discriminate].
  - intros k Hk. rewrite Hi, keys_map_iter. rewrite Hn in Hk.
    eapply Permutation_in; [apply sorted_perm | exact Hk].
  - now rewrite Hf, Hn.
  - now rewrite Hn.
  - eapply RandomizedBatchSamplerIterator_init_aligned. eassumption.
  - assumption.
Qed.

(** ** The number of records under SMALLEST_DATASET_EXHAUSTED *)

(** C1 (as amended). Under SMALLEST_DATASET_EXHAUSTED over sources with
    distinct keys, at least one of them:
    - the all-dataset-batches iterator produces one record per index below
      the length of the smallest source, each with a batch of every
      source: as many records as the smallest source has batches;
    - the round-robin iterator, when its cycle enumerates the sources,
      produces the full rounds that the smallest source allows and then
      the sources that precede the first smallest one in the cycle:
      [n * m + p] records for [n] sources, smallest length [m] and [p]
      sources ahead of the first smallest one;
    - the randomized sampler, when [random.choices] accepts the weights
      it keeps (if any), whatever the random draws, ends after at least
      as many records as the smallest source has batches and at most as
      many as all the sources have together. *)
Theorem smallest_exhausted_record_counts :
  forall dls : dict dataloader,
    NoDup (keys dls) ->
    dls <> [] ->
    (forall it,
        AllDatasetBatchesIterator_init dls
          (mkAllDatasetBatches SMALLEST_DATASET_EXHAUSTED) = Return it ->
        runs adb_const_fuel it (adb_smallest_records dls)
        /\ length (adb_smallest_records dls) = min_length dls)
    /\ (forall order it,
          Permutation (order_or_keys order (keys dls)) (keys dls) ->
          RoundRobinIterator_init dls
            (mkRoundRobin SMALLEST_DATASET_EXHAUSTED order) = Return it ->
          runs rr_next it
            (rr_smallest_records dls (order_or_keys order (keys dls)))
          /\ length (rr_smallest_records dls
                       (order_or_keys order (keys dls)))
             = length dls * min_length dls
               + length (first_short dls (min_length dls)
                           (order_or_keys order (keys dls))))
    /\ (forall env weights enforce it l,
          broadcast_in_range env (sorted (keys dls)) ->
          RandomizedBatchSamplerIterator_init env dls
            (mkRandomizedBatchSampler weights SMALLEST_DATASET_EXHAUSTED
               enforce) = (Return it, l) ->
          rbs_weights_accepted it ->
          exists recs,
            runs (rbs_next env) it recs
            /\ min_length dls <= length recs
            /\ length recs <= total_length dls).
Proof.
  intros dls Hnd Hne. split; [|split].
  - intros it Hinit. now apply adb_smallest_run.
  - intros order it Hp Hinit. now apply rr_smallest_run.
  - intros env weights enforce it l Hb Hinit Hacc.
    pose proof (RandomizedBatchSamplerIterator_init_unmarked _ _ _ _ _
                  Hne Hb Hinit Hacc) as Hum.
    destruct (RandomizedBatchSamplerIterator_init_fields _ _ _ _ _ Hinit)
      as (_ & Hi & _ & _ & Hm & _).
    destruct (rbs_smallest_runs_from env _ it eq_refl Hm Hum)
      as (recs & Hruns & Hmin & Hmax).
    exists recs. split; [assumption|].
    rewrite Hi in Hmin, Hmax. unfold min_length, total_length in *.
    rewrite lengths_map_iter in Hmin, Hmax. split; assumption.
Qed.

Lemma smallest_exhausted_record_counts_witness :
  runs adb_const_fuel
    (adb_of loaders_ab (mkAllDatasetBatches SMALLEST_DATASET_EXHAUSTED))
    [[("a", 0); ("b", 0)]]
  /\ runs rr_next
       (rr_of loaders_ab (mkRoundRobin SMALLEST_DATASET_EXHAUSTED None))
       [[("a", 0)]; [("b", 0)]]
  /\ exists recs,
       runs (rbs_next (local_env []))
         (rbs_of (local_env []) loaders_ab
            (mkRandomizedBatchSampler
               (Some [("a", PyInt 1); ("b", PyInt 2)])
               SMALLEST_DATASET_EXHAUSTED false))
         recs
       /\ 1 <= length recs /\ length recs <= 4.
Proof.
  destruct (smallest_exhausted_record_counts loaders_ab) as (Ha & Hr & Hs).
  - simpl. repeat constructor; simpl; intuition discriminate.
  - discriminate.
  - split; [|split].
    + exact (proj1 (Ha _ eq_refl)).
    + exact (proj1 (Hr None _ (Permutation_refl _) eq_refl)).
    + apply (Hs (local_env [])
               (Some [("a", PyInt 1); ("b", PyInt 2)]) false _ []).
      * intros draw idx Hidx. exact Hidx.
      * vm_compute. reflexivity.
      * intros ws Hws. vm_compute in Hws. inversion Hws; subst.
        vm_compute. reflexivity.
Defined.

(** C1, counterexample. Over [a] of length 1 and [b] of length 3, whose
    smallest source has one batch: round robin under
    SMALLEST_DATASET_EXHAUSTED produces two records before StopIteration;
    the randomized sampler under SMALLEST_DATASET_EXHAUSTED, when the
    generator picks [b] four times, produces three. *)
Lemma smallest_record_counts_counterexample :
  fst (collect (rr_next 10) 10
         (rr_of loaders_ab (mkRoundRobin SMALLEST_DATASET_EXHAUSTED None)))
  = ([[("a", 0)]; [("b", 0)]], Ended)
  /\ min_length loaders_ab = 1
  /\ length [[("a", 0)]; [("b", 0)]] <> min_length loaders_ab
  /\ fst (collect (rbs_next (local_env [1; 1; 1; 1]) 10) 10
            (rbs_of (local_env [1; 1; 1; 1]) loaders_ab
               (mkRandomizedBatchSampler None SMALLEST_DATASET_EXHAUSTED
                  false)))
     = ([[("b", 0)]; [("b", 1)]; [("b", 2)]], Ended)
  /\ length [[("b", 0)]; [("b", 1)]; [("b", 2)]] <> min_length loaders_ab.
Proof.
  split; [reflexivity|]. split; [reflexivity|].
  split; [simpl; discriminate|]. split; [reflexivity|].
  simpl. discriminate.
Qed.

(** ** Which handles a call queries *)

Lemma skip_finished_unfinished_result (f : nat) (fin : list string)
  (k : string) (c : cycle) (x kc : string * cycle) :
  skip_finished f fin k c = (Return x, kc) -> mem (fst kc) fin = false.
Proof.
  revert k c. induction f as [|f IH]; intros k c; simpl;
    destruct (mem k fin) eqn:E; intros H; try discriminate.
  - inversion H; subst. exact E.
  - destruct (cycle_next c) as [[k1 c1]|]; [|discriminate].
    now apply IH in H.
  - inversion H; subst. exact E.
Qed.

Lemma rr_next_spares_finished (fuel : nat) :
  forall it r it' l,
    rr_next fuel it = (r, it', l) ->
    (forall k, In k (rr_finished_dataloaders it) -> ~ In (EvNext k) l)
    /\ incl (rr_finished_dataloaders it) (rr_finished_dataloaders it').
Proof.
  induction fuel as [|f IH]; intros it r it' l H; simpl in H.
  - inversion H; subst. split; [intros k _ [] | apply incl_refl].
  - destruct (_ =? _).
    { inversion H; subst. split; [intros k _ [] | apply incl_refl]. }
    destruct (cycle_next _) as [kc|].
    2:{ inversion H; subst. split; [intros k _ [] | apply incl_refl]. }
    destruct (skip_finished f _ _ _) as [[x|e|] kc'] eqn:Es.
    + apply skip_finished_unfinished_result in Es.
      apply mem_false_iff in Es.
      unfold rr_draw, rr_set_cursor in H. simpl in H.
      destruct (lookup (fst kc') _) as [[|b rest]|].
      * destruct (StoppingMechanism_eqb _ _).
        { inversion H; subst. simpl. split; [|apply incl_refl].
          intros k Hk [E|[]]. inversion E; subst. contradiction. }
        destruct (_ =? _).
        { inversion H; subst. simpl. split; [|now apply incl_appl, incl_refl].
          intros k Hk [E|[]]. inversion E; subst. contradiction. }
        destruct (rr_next f _) as [[r0 it0] l0] eqn:En.
        inversion H; subst. apply IH in En. simpl in En.
        destruct En as [Hq Hi]. split.
        -- intros k Hk [E|Hin].
           ++ inversion E; subst. contradiction.
           ++ apply (Hq k); [apply in_or_app; now left | assumption].
        -- intros k Hk. apply Hi. apply in_or_app. now left.
      * inversion H; subst. simpl. split; [|apply incl_refl].
        intros k Hk [E|[]]. inversion E; subst. contradiction.
      * inversion H; subst. simpl. split; [intros k _ [] | apply incl_refl].
    + inversion H; subst. simpl. split; [intros k _ [] | apply incl_refl].
    + inversion H; subst. simpl. split; [intros k _ [] | apply incl_refl].
Qed.

Lemma rr_run_spares_finished (fuel n : nat) :
  forall it k,
    In k (rr_finished_dataloaders it) ->
    ~ In (EvNext k) (events (rr_next fuel) n it).
Proof.
  induction n as [|n IH]; intros it k Hk; simpl; [intros []|].
  destruct (rr_next fuel it) as [[r it'] l] eqn:E.
  destruct (rr_next_spares_finished fuel _ _ _ _ E) as [Hq Hi].
  intros Hin. apply in_app_or in Hin. destruct Hin as [Hin|Hin].
  - now apply (Hq k).
  - apply (IH it' k); [now apply Hi | assumption].
Qed.

Lemma keys_setitem_incl {V : Type} (k : string) (v : V) (d : dict V) :
  incl (keys (setitem k v d)) (k :: keys d).
Proof.
  induction d as [|[k' v'] d IH]; simpl.
  - apply incl_refl.
  - destruct (String.eqb_spec k k') as [->|Hne]; simpl.
    + intros x [<-|H]; [now left | right; now right].
    + intros x [<-|H]; [right; now left|].
      apply IH in H. destruct H as [<-|H]; [now left | right; now right].
Qed.

Lemma lookup_setitem_other {V : Type} (k k' : string) (v : V) (d : dict V) :
  k' <> k -> lookup k' (setitem k v d) = lookup k' d.
Proof.
  intros Hne. rewrite lookup_setitem.
  destruct (String.eqb_spec k' k); [contradiction | reflexivity].
Qed.

(** Under ALL_DATASETS_EXHAUSTED the loop of the all-dataset-batches
    iterator queries every key it walks over, keeps no finished list, and
    leaves an exhausted handle exhausted and out of the record. *)
Lemma adb_for_all_exhausted :
  forall ks it bd r it' l,
    adb_stopping_mechanism it = ALL_DATASETS_EXHAUSTED ->
    incl ks (keys (adb_individual_iterators it)) ->
    adb_for ks it bd = (r, it', l) ->
    l = map EvNext ks
    /\ adb_stopping_mechanism it' = ALL_DATASETS_EXHAUSTED
    /\ adb_iterators_finished it' = adb_iterators_finished it
    /\ keys (adb_individual_iterators it')
       = keys (adb_individual_iterators it)
    /\ (forall k,
          lookup k (adb_individual_iterators it) = Some [] ->
          lookup k (adb_individual_iterators it') = Some []
          /\ (~ In k (keys bd) ->
              forall rec, r = Return rec -> ~ In k (keys rec))).
Proof.
  induction ks as [|k0 ks IH]; intros it bd r it' l Hmode Hincl H;
    simpl in H.
  - destruct (length bd =? 0); inversion H; subst;
      repeat split; try reflexivity; try assumption;
      intros Hbd rec E; [discriminate | inversion E; subst; exact Hbd].
  - assert (Hk0 : In k0 (keys (adb_individual_iterators it))).
    { apply Hincl. now left. }
    assert (Hks : incl ks (keys (adb_individual_iterators it))).
    { intros x Hx. apply Hincl. now right. }
    destruct (lookup_In k0 _ Hk0) as [h Hh]. rewrite Hh in H.
    destruct h as [|b rest].
    + rewrite Hmode in H.
      destruct (adb_for ks it bd) as [[r0 it0] l0] eqn:E.
      inversion H; subst.
      destruct (IH _ _ _ _ _ Hmode Hks E) as (Hl & Hm & Hf & Hkeys & Hex).
      subst l0. repeat split; try assumption; now apply Hex.
    + destruct (adb_for ks _ _) as [[r0 it0] l0] eqn:E.
      inversion H; subst.
      apply IH in E; simpl; [| assumption |].
      2:{ rewrite keys_setitem by assumption. exact Hks. }
      simpl in E. destruct E as (Hl & Hm & Hf & Hkeys & Hex).
      subst l0. rewrite keys_setitem in Hkeys by assumption.
      repeat split; try assumption.
      * assert (Hne : k <> k0) by (intros ->; congruence).
        apply Hex. now rewrite lookup_setitem_other.
      * intros Hbd rec Hr.
        assert (Hne : k <> k0) by (intros ->; congruence).
        apply (proj2 (Hex k ltac:(now rewrite lookup_setitem_other)));
          [|assumption].
        intros Hin. apply keys_setitem_incl in Hin.
        destruct Hin as [E|Hin]; [congruence | contradiction].
Qed.

Lemma adb_next_all_exhausted (it it' : AllDatasetBatchesIterator)
  (r : outcome record) (l : list event) :
  adb_stopping_mechanism it = ALL_DATASETS_EXHAUSTED ->
  adb_next it = (r, it', l) ->
  l = map EvNext (keys (adb_individual_iterators it))
  /\ adb_stopping_mechanism it' = ALL_DATASETS_EXHAUSTED
  /\ adb_iterators_finished it' = adb_iterators_finished it
  /\ keys (adb_individual_iterators it') = keys (adb_individual_iterators it)
  /\ (forall k,
        lookup k (adb_individual_iterators it) = Some [] ->
        lookup k (adb_individual_iterators it') = Some []
        /\ forall rec, r = Return rec -> ~ In k (keys rec)).
Proof.
  intros Hmode H. unfold adb_next in H.
  destruct (adb_for_all_exhausted _ _ _ _ _ _ Hmode (incl_refl _) H)
    as (Hl & Hm & Hf & Hk & Hex).
  repeat split; try assumption.
  - now apply Hex.
  - intros rec Hr. apply (proj2 (Hex k H0)); [intros [] | assumption].
Qed.

Lemma adb_run_all_exhausted (n : nat) :
  forall it k,
    adb_stopping_mechanism it = ALL_DATASETS_EXHAUSTED ->
    lookup k (adb_individual_iterators it) = Some [] ->
    events adb_next n it
    = concat (repeat (map EvNext (keys (adb_individual_iterators it))) n)
    /\ adb_iterators_finished (after adb_next n it)
       = adb_iterators_finished it
    /\ (forall rec, In (Return rec) (outcomes adb_next n it) ->
                    ~ In k (keys rec)).
Proof.
  induction n as [|n IH]; intros it k Hmode Hk; simpl.
  - repeat split; try reflexivity. intros rec [].
  - destruct (adb_next it) as [[r it'] l] eqn:E. simpl.
    destruct (adb_next_all_exhausted _ _ _ _ Hmode E)
      as (Hl & Hm & Hf & Hkeys & Hex).
    destruct (Hex k Hk) as [Hk' Hrec].
    destruct (IH it' k Hm Hk') as (He & Hfin & Hout).
    rewrite He, Hkeys, Hl, Hfin, Hf. repeat split; try reflexivity.
    intros rec [Er|Hin]; [now apply Hrec | now apply Hout].
Qed.

Lemma nth_set_nth_true (i i' : nat) (flags : list bool) :
  nth i' flags false = true -> nth i' (set_nth i true flags) false = true.
Proof.
  revert i i'. induction flags as [|f flags IH]; intros [|i] [|i'] H;
    simpl in *; try assumption; try reflexivity.
  now apply IH.
Qed.

Section SamplerQueries.
Variable env : environment.

Lemma random_choice_Return_In (draw : nat) (population : list string)
  (weights : option (list float)) (k : string) :
  random_choice env draw population weights = Return k -> In k population.
Proof.
  unfold random_choice. intros H.
  assert (Hpick : match nth_error population
                          (random_choices env draw mod length population) with
                  | Some k0 => Return k0
                  | None => Raise IndexError
                  end = Return k -> In k population).
  { destruct (nth_error population _) as [k0|] eqn:E; [|discriminate].
    intros E'. inversion E'; subst. eapply nth_error_In. eassumption. }
  destruct weights as [ws|]; [|now apply Hpick].
  destruct (negb _); [discriminate|].
  destruct (last_item _); [|discriminate].
  destruct (PrimFloat.leb _ _); [discriminate|].
  destruct (negb _); [discriminate|]. now apply Hpick.
Qed.

(** With weights, outside WRAP_AROUND_UNTIL_KILLED, no source that is
    marked exhausted is in the population of the random choice. *)
Lemma rbs_candidates_spare_marked (it : RandomizedBatchSamplerIterator)
  (k : string) :
  rbs_stopping_mechanism it <> WRAP_AROUND_UNTIL_KILLED ->
  rbs_iterator_weights it <> None ->
  NoDup (rbs_iterator_names it) ->
  In k (fst (rbs_candidates it)) ->
  rbs_marked_exhausted it k = false.
Proof.
  intros Hmode Hw Hnd Hin. unfold rbs_candidates in Hin.
  destruct (rbs_iterator_weights it) as [ws|]; [|congruence].
  assert (Hin' : In k (not_exhausted (rbs_iterator_names it)
                         (rbs_iterator_is_exhausted it))).
  { destruct (rbs_stopping_mechanism it); simpl in Hin;
      [exact Hin | exact Hin | exact Hin | congruence]. }
  exact (not_exhausted_unmarked _ _ _ Hnd Hin').
Qed.

Lemma rbs_select_weighted_local (it : RandomizedBatchSamplerIterator)
  (k : string) (l : list event) :
  rbs_weighted_local env it ->
  rbs_select env it = (Return k, l) ->
  l = [EvChoices (fst (rbs_candidates it)) (snd (rbs_candidates it))]
  /\ rbs_marked_exhausted it k = false.
Proof.
  intros [Hloc Hmode Hw Hnd] H. unfold rbs_select in H. rewrite Hloc in H.
  destruct (random_choice _ _ _ _) as [k'|e|] eqn:E; try discriminate.
  inversion H; subst. split; [reflexivity|].
  apply random_choice_Return_In in E.
  now apply rbs_candidates_spare_marked.
Qed.

Lemma rbs_next_spares_marked (fuel : nat) :
  forall it r it' l k,
    rbs_weighted_local env it ->
    rbs_marked_exhausted it k = true ->
    rbs_next env fuel it = (r, it', l) ->
    ~ In (EvNext k) l
    /\ rbs_weighted_local env it'
    /\ rbs_marked_exhausted it' k = true.
Proof.
  induction fuel as [|f IH]; intros it r it' l k Hwl Hk H; simpl in H.
  - inversion H; subst. split; [intros [] | split; assumption].
  - destruct (rbs_should_stop it).
    { inversion H; subst. split; [intros [] | split; assumption]. }
    assert (Hwl1 : rbs_weighted_local env (rbs_tick it))
      by (destruct Hwl; now constructor).
    destruct (rbs_select env it) as [[k'|e|] l0] eqn:Es.
    2,3: unfold rbs_select in Es; rewrite (wl_local _ _ Hwl) in Es;
         destruct (random_choice _ _ _ _); inversion Es; subst;
         inversion H; subst;
         (split; [intros [E|[]]; discriminate | split; assumption]).
    destruct (rbs_select_weighted_local it k' l0 Hwl Es) as [-> Hk'].
    destruct (rbs_draw (rbs_next env f) (rbs_tick it) k')
      as [[rd itd] ld] eqn:Ed.
    inversion H; subst. clear H. rename Ed into H.
    enough (G : ~ In (EvNext k) ld
                /\ rbs_weighted_local env it'
                /\ rbs_marked_exhausted it' k = true).
    { destruct G as (G1 & G2 & G3). split; [|split; assumption].
      intros [E|Hin]; [discriminate | contradiction]. }
    assert (Hne : k' <> k) by (intros ->; congruence).
    assert (Hwl2 : forall flags,
               rbs_weighted_local env
                 (rbs_set_exhausted (rbs_tick it) flags))
      by (intros flags; destruct Hwl; now constructor).
    assert (Hk2 : forall i,
               rbs_marked_exhausted
                 (rbs_set_exhausted (rbs_tick it)
                    (set_nth i true (rbs_iterator_is_exhausted it))) k
               = true).
    { intros i. unfold rbs_marked_exhausted in *. simpl.
      destruct (index k _); [|discriminate]. now apply nth_set_nth_true. }
    assert (Hagain : forall i r0 it0 l1,
               rbs_next env f
                 (rbs_set_exhausted (rbs_tick it)
                    (set_nth i true (rbs_iterator_is_exhausted it)))
               = (r0, it0, l1) ->
               ~ In (EvNext k) (EvNext k' :: l1)
               /\ rbs_weighted_local env it0
               /\ rbs_marked_exhausted it0 k = true).
    { intros i r0 it0 l1 En.
      destruct (IH _ _ _ _ k (Hwl2 _) (Hk2 i) En) as (Hq & Hwl' & Hk0).
      split; [|split; assumption].
      intros [E|Hin]; [congruence | contradiction]. }
    unfold rbs_draw in H. simpl in H.
    destruct (lookup k' _) as [[|b rest]|].
    + destruct (rbs_stopping_mechanism it) eqn:Em.
      * destruct (index k' _) as [i|] eqn:Ei.
        -- destruct (rbs_next env f _) as [[r0 it0] l1] eqn:En.
           inversion H; subst. exact (Hagain _ _ _ _ En).
        -- inversion H; subst. split; [|split; assumption].
           intros [E|[]]. congruence.
      * destruct (index k' _) as [i|] eqn:Ei.
        -- destruct (rbs_next env f _) as [[r0 it0] l1] eqn:En.
           inversion H; subst. exact (Hagain _ _ _ _ En).
        -- inversion H; subst. split; [|split; assumption].
           intros [E|[]]. congruence.
      * assert (Hwl3 : forall fin,
                   rbs_weighted_local env
                     (rbs_set_finished (rbs_tick it) fin))
          by (intros fin; destruct Hwl; now constructor).
        destruct (_ =? _).
        -- inversion H; subst. split; [|split; [apply Hwl3 | exact Hk]].
           intros [E|[]]. congruence.
        -- unfold rbs_restart in H. simpl in H.
           destruct (lookup k' _) as [[|b rest]|]; inversion H; subst;
             (split;
              [ simpl; intuition congruence
              | split; [ destruct Hwl; now constructor | exact Hk ] ]).
      * destruct Hwl as [_ Hm _ _]. congruence.
    + inversion H; subst. split; [|split].
      * intros [E|[]]. congruence.
      * destruct Hwl; now constructor.
      * exact Hk.
    + inversion H; subst. split; [intros [] | split; assumption].
Qed.

Lemma rbs_run_spares_marked (fuel n : nat) :
  forall it k,
    rbs_weighted_local env it ->
    rbs_marked_exhausted it k = true ->
    ~ In (EvNext k) (events (rbs_next env fuel) n it).
Proof.
  induction n as [|n IH]; intros it k Hwl Hk; simpl; [intros []|].
  destruct (rbs_next env fuel it) as [[r it'] l] eqn:E.
  destruct (rbs_next_spares_marked fuel _ _ _ _ k Hwl Hk E)
    as (Hq & Hwl' & Hk').
  intros Hin. apply in_app_or in Hin. destruct Hin as [Hin|Hin].
  - contradiction.
  - now apply (IH it' k).
Qed.
End SamplerQueries.

(** ** Finished sources and the handles that are queried *)

(** C2 (as amended).
    - Round robin: once a key is in [finished_dataloaders], no later call
      invokes [next] on its handle.
    - Randomized sampler with weights, selecting locally, outside
      WRAP_AROUND_UNTIL_KILLED: once a source is marked exhausted, no
      later call invokes [next] on its handle.
    - All dataset batches under ALL_DATASETS_EXHAUSTED: no finished flag is
      kept; every call invokes [next] on the handle of every source, in
      order, exhausted or not; a source whose handle is exhausted stays
      out of the record of this call and of every later one. *)
Theorem finished_sources_queries :
  (forall fuel n it k,
      In k (rr_finished_dataloaders it) ->
      ~ In (EvNext k) (events (rr_next fuel) n it))
  /\ (forall env fuel n it k,
        rbs_weighted_local env it ->
        rbs_marked_exhausted it k = true ->
        ~ In (EvNext k) (events (rbs_next env fuel) n it))
  /\ (forall n it k,
        adb_stopping_mechanism it = ALL_DATASETS_EXHAUSTED ->
        lookup k (adb_individual_iterators it) = Some [] ->
        events adb_next n it
        = concat (repeat (map EvNext (keys (adb_individual_iterators it))) n)
        /\ adb_iterators_finished (after adb_next n it)
           = adb_iterators_finished it
        /\ (forall rec, In (Return rec) (outcomes adb_next n it) ->
                        ~ In k (keys rec))).
Proof.
  split; [|split].
  - intros fuel n it k. apply rr_run_spares_finished.
  - intros env fuel n it k. apply rbs_run_spares_marked.
  - intros n it k. apply adb_run_all_exhausted.
Qed.

Lemma finished_sources_queries_witness :
  ~ In (EvNext "a")
      (events (rr_next 10) 5
         (after (rr_next 10) 3
            (rr_of loaders_ab (mkRoundRobin ALL_DATASETS_EXHAUSTED None))))
  /\ ~ In (EvNext "a")
         (events (rbs_next (local_env [0; 0; 0; 1]) 5) 5
            (sampler_ab (Some [("a", PyInt 1); ("b", PyInt 2)])))
  /\ events adb_next 2
       (after adb_next 1
          (adb_of loaders_ab (mkAllDatasetBatches ALL_DATASETS_EXHAUSTED)))
     = [EvNext "a"; EvNext "b"; EvNext "a"; EvNext "b"].
Proof.
  destruct finished_sources_queries as (Hrr & Hrbs & Hadb).
  split; [|split].
  - apply Hrr. simpl. now left.
  - apply Hrbs; [|reflexivity].
    constructor; try (vm_compute; discriminate).
    + reflexivity.
    + vm_compute. repeat constructor; simpl; intuition discriminate.
  - exact (proj1 (Hadb 2
                    (after adb_next 1
                       (adb_of loaders_ab
                          (mkAllDatasetBatches ALL_DATASETS_EXHAUSTED)))
                    "a" eq_refl eq_refl)).
Defined.

(** C2, counterexample. All dataset batches under ALL_DATASETS_EXHAUSTED
    over [a] of length 1 and [b] of length 3: the second call absorbs the
    exhaustion of [a], the finished list stays empty, and the third call
    invokes [next] on the handle of [a] again. *)
Lemma adb_requeries_exhausted_counterexample :
  lookup "a"
    (adb_individual_iterators
       (after adb_next 2
          (adb_of loaders_ab (mkAllDatasetBatches ALL_DATASETS_EXHAUSTED))))
  = Some []
  /\ adb_iterators_finished
       (after adb_next 2
          (adb_of loaders_ab (mkAllDatasetBatches ALL_DATASETS_EXHAUSTED)))
     = []
  /\ In (EvNext "a")
       (events adb_next 1
          (after adb_next 2
             (adb_of loaders_ab
                (mkAllDatasetBatches ALL_DATASETS_EXHAUSTED)))).
Proof. repeat split. simpl. now left. Qed.

(** ** The population of the random choice *)





Section SamplerChoices.
Variable env : environment.



End SamplerChoices.




(** ** All dataset batches under RESTART_UNTIL_ALL_DATASETS_EXHAUSTED *)

Lemma mod_succ_small (a len : nat) :
  S (a mod len) < len -> S a mod len = S (a mod len).
Proof.
  intros H. symmetry. apply (Nat.mod_unique (S a) len (a / len)).
  - exact H.
  - pose proof (Nat.div_mod_eq a len). lia.
Qed.

Lemma mod_succ_wrap (a len : nat) :
  S (a mod len) = len -> S a mod len = 0.
Proof.
  intros H. symmetry. apply (Nat.mod_unique (S a) len (S (a / len))).
  - lia.
  - pose proof (Nat.div_mod_eq a len). nia.
Qed.

Lemma restart_pos_inside (len j : nat) :
  restart_pos len j < len ->
  j mod len = restart_pos len j /\ j <> len.
Proof.
  destruct j as [|j]; simpl; intros H.
  - split; [|lia]. apply Nat.mod_small. exact H.
  - split; [now apply mod_succ_small|].
    intros E. subst len.
    assert (j < S j) as Hlt by lia.
    rewrite (Nat.mod_small j (S j) Hlt) in H. lia.
Qed.

Lemma restart_pos_end (len j : nat) :
  0 < len ->
  restart_pos len j = len ->
  j mod len = 0 /\ len <= j.
Proof.
  destruct j as [|j]; simpl; intros Hpos H; [lia|].
  split; [now apply mod_succ_wrap|].
  pose proof (Nat.Div0.mod_le j len). lia.
Qed.

Lemma restart_pos_le (len j : nat) : 0 < len -> restart_pos len j <= len.
Proof.
  intros H. destruct j as [|j]; simpl; [lia|].
  pose proof (Nat.mod_upper_bound j len ltac:(lia)). lia.
Qed.

Lemma list_max_In (l : list nat) : l <> [] -> In (list_max l) l.
Proof.
  induction l as [|x l IH]; [congruence|]. intros _.
  destruct l as [|y l].
  - simpl. left. lia.
  - specialize (IH ltac:(discriminate)).
    change (list_max (x :: y :: l)) with (Nat.max x (list_max (y :: l))).
    destruct (Nat.max_spec x (list_max (y :: l))) as [[_ E]|[_ E]];
      rewrite E; [now right | now left].
Qed.

Lemma max_length_attained (dls : dict dataloader) :
  NoDup (keys dls) -> dls <> [] ->
  exists k, In k (keys dls) /\ length (dl_of dls k) = max_length dls.
Proof.
  intros Hnd Hne. unfold max_length.
  pose proof (lengths_by_key dls Hnd) as Hl.
  assert (Hn : lengths dls <> []) by (destruct dls; [congruence|discriminate]).
  pose proof (list_max_In _ Hn) as Hin. rewrite <- Hl in Hin at 2.
  apply in_map_iff in Hin. destruct Hin as [k [Hk Hin]].
  exists k. split; assumption.
Qed.

Lemma keys_restarted (j : nat) (dls : dict dataloader) :
  keys (restarted j dls) = keys dls.
Proof. unfold keys, restarted. rewrite map_map. reflexivity. Qed.

Lemma length_restarted (j : nat) (dls : dict dataloader) :
  length (restarted j dls) = length dls.
Proof. apply length_map. Qed.

Lemma keys_restart_row (j : nat) (dls : dict dataloader) :
  keys (restart_row j dls) = keys dls.
Proof. unfold keys, restart_row. rewrite map_map. reflexivity. Qed.

Lemma restarted_app (j : nat) (d1 d2 : dict dataloader) :
  restarted j (d1 ++ d2) = restarted j d1 ++ restarted j d2.
Proof. apply map_app. Qed.

Lemma restart_row_app (j : nat) (d1 d2 : dict dataloader) :
  restart_row j (d1 ++ d2) = restart_row j d1 ++ restart_row j d2.
Proof. apply map_app. Qed.

Lemma restarted_0 (dls : dict dataloader) :
  restarted 0 dls
  = map (fun nd : string * dataloader => (fst nd, iter (snd nd))) dls.
Proof. reflexivity. Qed.

Lemma skipn_nth_cons (l : list batch) (j : nat) :
  j < length l -> skipn j l = nth j l 0 :: skipn (S j) l.
Proof.
  revert j. induction l as [|x l IH]; intros [|j] H; simpl in *; try lia.
  - reflexivity.
  - apply IH. lia.
Qed.

Lemma adb_for_draw (dls : dict dataloader) (m : StoppingMechanism)
  (its : dict iterator) (fin : list string) (k : string) (ks : list string)
  (bd : record) (b : batch) (rest : iterator) :
  lookup k its = Some (b :: rest) ->
  adb_for (k :: ks) (mkAllDatasetBatchesIterator dls m its fin) bd
  = let '(r, it', l) :=
      adb_for ks (mkAllDatasetBatchesIterator dls m (setitem k rest its) fin)
        (setitem k b bd) in
    (r, it', EvNext k :: l).
Proof. intros H. simpl. rewrite H. reflexivity. Qed.

Lemma adb_for_restart_again (dls : dict dataloader) (its : dict iterator)
  (fin : list string) (k : string) (ks : list string) (bd : record)
  (b : batch) (rest : iterator) :
  lookup k its = Some [] ->
  length (if mem k fin then fin else fin ++ [k]) <> length its ->
  lookup k dls = Some (b :: rest) ->
  adb_for (k :: ks)
    (mkAllDatasetBatchesIterator dls RESTART_UNTIL_ALL_DATASETS_EXHAUSTED
       its fin) bd
  = let '(r, it', l) :=
      adb_for ks
        (mkAllDatasetBatchesIterator dls RESTART_UNTIL_ALL_DATASETS_EXHAUSTED
           (setitem k rest its) (if mem k fin then fin else fin ++ [k]))
        (setitem k b bd) in
    (r, it', EvNext k :: EvIter k :: EvNext k :: l).
Proof.
  intros H Hlen Hdl. simpl. rewrite H. simpl.
  apply Nat.eqb_neq in Hlen. rewrite Hlen, Hdl. reflexivity.
Qed.

Lemma adb_for_restart_stop (dls : dict dataloader) (its : dict iterator)
  (fin : list string) (k : string) (ks : list string) (bd : record) :
  lookup k its = Some [] ->
  length (if mem k fin then fin else fin ++ [k]) = length its ->
  adb_for (k :: ks)
    (mkAllDatasetBatchesIterator dls RESTART_UNTIL_ALL_DATASETS_EXHAUSTED
       its fin) bd
  = (Raise StopIteration,
     mkAllDatasetBatchesIterator dls RESTART_UNTIL_ALL_DATASETS_EXHAUSTED
       its (if mem k fin then fin else fin ++ [k]),
     [EvNext k]).
Proof.
  intros H Hlen. simpl. rewrite H. simpl.
  apply Nat.eqb_eq in Hlen. rewrite Hlen. reflexivity.
Qed.

Section AllDatasetBatchesRestart.
Variable dls : dict dataloader.
Hypothesis Hnd : NoDup (keys dls).
Hypothesis Hfull : forall nd, In nd dls -> 0 < length (snd nd).

Lemma adb_finished_pass (j : nat) (pre post : dict dataloader) (k : string)
  (dl : dataloader) (fin : list string) :
  dls = pre ++ (k, dl) :: post ->
  adb_finished_at dls j (keys pre) fin ->
  length dl <> j ->
  adb_finished_at dls j (keys (pre ++ [(k, dl)])) fin.
Proof.
  intros Hs [Hfn Hf] Hne.
  assert (Hk : ~ In k (keys pre)).
  { rewrite Hs, keys_app in Hnd. simpl in Hnd.
    now apply NoDup_app_cons_notin in Hnd. }
  assert (Hdl : dl_of dls k = dl).
  { unfold dl_of. rewrite (lookup_NoDup_In dls k dl Hnd); [reflexivity|].
    rewrite Hs. apply in_or_app. right. now left. }
  split; [assumption|]. intros x. rewrite Hf, keys_app. simpl.
  rewrite visits_snoc by assumption.
  destruct (String.eqb_spec x k) as [->|Hx]; [|reflexivity].
  rewrite (visits_outside _ _ _ Hk), Hdl.
  split; intros [? ?]; split; try assumption; lia.
Qed.

Lemma adb_finished_mark (j : nat) (pre post : dict dataloader) (k : string)
  (dl : dataloader) (fin : list string) :
  dls = pre ++ (k, dl) :: post ->
  adb_finished_at dls j (keys pre) fin ->
  length dl <= j ->
  adb_finished_at dls j (keys (pre ++ [(k, dl)]))
    (if mem k fin then fin else fin ++ [k]).
Proof.
  intros Hs [Hfn Hf] Hle.
  assert (Hk : ~ In k (keys pre)).
  { rewrite Hs, keys_app in Hnd. simpl in Hnd.
    now apply NoDup_app_cons_notin in Hnd. }
  assert (Hin : In k (keys dls)).
  { rewrite Hs, keys_app. apply in_or_app. right. now left. }
  assert (Hdl : dl_of dls k = dl).
  { unfold dl_of. rewrite (lookup_NoDup_In dls k dl Hnd); [reflexivity|].
    rewrite Hs. apply in_or_app. right. now left. }
  split.
  - destruct (mem k fin) eqn:Em; [assumption|].
    apply mem_false_iff in Em.
    apply NoDup_app; [assumption | repeat constructor; now intros ? | ].
    intros x Hx [<-|[]]. contradiction.
  - intros x. rewrite keys_app. simpl. rewrite visits_snoc by assumption.
    destruct (String.eqb_spec x k) as [->|Hx].
    + rewrite Hdl. split; [intros _; split; [assumption|lia]|intros _].
      destruct (mem k fin) eqn:Em; [now apply mem_true_iff|].
      apply in_or_app. right. now left.
    + rewrite <- Hf. destruct (mem k fin); [reflexivity|].
      rewrite in_app_iff. simpl. intuition congruence.
Qed.

Lemma adb_finished_open (j : nat) (pre fin : list string) :
  dls <> [] ->
  S j <= max_length dls ->
  adb_finished_at dls j pre fin ->
  length fin <> length dls.
Proof.
  intros Hne Hj [Hfn Hf].
  destruct (max_length_attained dls Hnd Hne) as [k [Hk Hlen]].
  assert (Hnk : ~ In k fin).
  { intros Hin. apply Hf in Hin. destruct Hin as [_ Hlt].
    pose proof (visits_bounds j pre k). lia. }
  assert (Hle : length (k :: fin) <= length (keys dls)).
  { apply NoDup_incl_length; [now constructor|].
    intros x [<-|Hx]; [assumption | now apply Hf in Hx]. }
  unfold keys in Hle. rewrite length_map in Hle. simpl in Hle. lia.
Qed.
End AllDatasetBatchesRestart.

Section AllDatasetBatchesRestartRun.
Variable dls : dict dataloader.
Hypothesis Hnd : NoDup (keys dls).
Hypothesis Hfull : forall nd, In nd dls -> 0 < length (snd nd).
Hypothesis Hne : dls <> [].

Lemma adb_restart_head (j : nat) (pre post : dict dataloader) (k : string)
  (dl : dataloader) :
  dls = pre ++ (k, dl) :: post ->
  ~ In k (keys pre)
  /\ 0 < length dl
  /\ lookup k dls = Some dl
  /\ lookup k (restarted (S j) pre ++ restarted j ((k, dl) :: post))
     = Some (skipn (restart_pos (length dl) j) dl).
Proof.
  intros Hs.
  assert (Hk : ~ In k (keys pre)).
  { rewrite Hs, keys_app in Hnd. simpl in Hnd.
    now apply NoDup_app_cons_notin in Hnd. }
  assert (Hin : In (k, dl) dls).
  { rewrite Hs. apply in_or_app. right. now left. }
  repeat split.
  - exact Hk.
  - exact (Hfull (k, dl) Hin).
  - now apply lookup_NoDup_In.
  - change (restarted j ((k, dl) :: post))
      with ((k, skipn (restart_pos (length dl) j) dl) :: restarted j post).
    apply lookup_middle. now rewrite keys_restarted.
Qed.

Lemma adb_restart_handles (j : nat) (pre post : dict dataloader) (k : string)
  (dl : dataloader) (rest : iterator) :
  ~ In k (keys pre) ->
  rest = skipn (restart_pos (length dl) (S j)) dl ->
  setitem k rest (restarted (S j) pre ++ restarted j ((k, dl) :: post))
  = restarted (S j) (pre ++ [(k, dl)]) ++ restarted j post.
Proof.
  intros Hk ->.
  change (restarted j ((k, dl) :: post))
    with ((k, skipn (restart_pos (length dl) j) dl) :: restarted j post).
  rewrite setitem_middle by (now rewrite keys_restarted).
  rewrite restarted_app, <- app_assoc. reflexivity.
Qed.

Lemma adb_restart_dict (j : nat) (pre : dict dataloader) (k : string)
  (dl : dataloader) (b : batch) :
  ~ In k (keys pre) ->
  b = nth (j mod length dl) dl 0 ->
  setitem k b (restart_row j pre) = restart_row j (pre ++ [(k, dl)]).
Proof.
  intros Hk ->. rewrite setitem_new by (now rewrite keys_restart_row).
  now rewrite restart_row_app.
Qed.

(** What the head source contributes in call [j], and its handle after. *)
Lemma adb_restart_pass (j : nat) (dl : dataloader) :
  0 < length dl ->
  restart_pos (length dl) j < length dl ->
  skipn (restart_pos (length dl) j) dl
  = nth (j mod length dl) dl 0 :: skipn (restart_pos (length dl) (S j)) dl.
Proof.
  intros Hpos Hin.
  destruct (restart_pos_inside _ _ Hin) as [Hmod _].
  rewrite (skipn_nth_cons dl _ Hin). simpl restart_pos. now rewrite Hmod.
Qed.

Lemma adb_restart_fresh (j : nat) (dl : dataloader) :
  0 < length dl ->
  restart_pos (length dl) j = length dl ->
  skipn (restart_pos (length dl) j) dl = []
  /\ dl = nth (j mod length dl) dl 0
          :: skipn (restart_pos (length dl) (S j)) dl.
Proof.
  intros Hpos Hend.
  destruct (restart_pos_end _ _ Hpos Hend) as [Hmod _].
  split; [rewrite Hend; apply skipn_all|].
  simpl restart_pos. rewrite Hmod.
  destruct dl as [|b rest]; [simpl in Hpos; lia | reflexivity].
Qed.

Lemma adb_for_restart_row (j : nat) :
  S j <= max_length dls ->
  forall post pre fin,
    dls = pre ++ post ->
    adb_finished_at dls j (keys pre) fin ->
    exists fin' l,
      adb_for (keys post)
        (mkAllDatasetBatchesIterator dls RESTART_UNTIL_ALL_DATASETS_EXHAUSTED
           (restarted (S j) pre ++ restarted j post) fin)
        (restart_row j pre)
      = (if length (restart_row j dls) =? 0
         then Raise StopIteration
         else Return (restart_row j dls),
         mkAllDatasetBatchesIterator dls RESTART_UNTIL_ALL_DATASETS_EXHAUSTED
           (restarted (S j) dls) fin',
         l)
      /\ adb_finished_at dls j (keys dls) fin'.
Proof.
  intros Hj. induction post as [|[k dl] post IH]; intros pre fin Hs Hfin.
  - rewrite app_nil_r in Hs. subst pre. exists fin, []. split; [|exact Hfin].
    simpl. rewrite app_nil_r.
    destruct (length (restart_row j dls) =? 0); reflexivity.
  - destruct (adb_restart_head j pre post k dl Hs) as (Hk & Hpos & Hdl & Hh).
    assert (Hs' : dls = (pre ++ [(k, dl)]) ++ post)
      by (now rewrite <- app_assoc).
    pose proof (restart_pos_le (length dl) j Hpos) as Hle.
    change (keys ((k, dl) :: post)) with (k :: keys post).
    destruct (Nat.eq_dec (restart_pos (length dl) j) (length dl))
      as [Hend|Hmid].
    + (* found exhausted: recorded as finished, re-created, drawn from *)
      destruct (adb_restart_fresh j dl Hpos Hend) as [Hnil Hfresh].
      destruct (restart_pos_end _ _ Hpos Hend) as [_ Hlen].
      pose proof (adb_finished_mark dls Hnd j pre post k dl fin Hs Hfin Hlen)
        as Hfin'.
      rewrite Hnil in Hh. rewrite Hfresh in Hdl.
      destruct (IH (pre ++ [(k, dl)]) _ Hs' Hfin') as (fin' & l & Hrun & Hf').
      exists fin', (EvNext k :: EvIter k :: EvNext k :: l).
      split; [|exact Hf'].
      assert (Hopen : length (if mem k fin then fin else fin ++ [k])
                      <> length (restarted (S j) pre
                                 ++ restarted j ((k, dl) :: post))).
      { rewrite length_app, !length_restarted, <- length_app, <- Hs.
        exact (adb_finished_open dls Hnd j _ _ Hne Hj Hfin'). }
      rewrite (adb_for_restart_again _ _ _ _ (keys post) (restart_row j pre)
                 _ _ Hh Hopen Hdl).
      rewrite (adb_restart_handles j pre post k dl _ Hk eq_refl).
      rewrite (adb_restart_dict j pre k dl _ Hk eq_refl).
      rewrite_adb_for Hrun. reflexivity.
    + (* a batch is left *)
      assert (Hin : restart_pos (length dl) j < length dl) by lia.
      destruct (restart_pos_inside _ _ Hin) as [_ Hnj].
      pose proof (adb_finished_pass dls Hnd j pre post k dl fin Hs Hfin
                    (not_eq_sym Hnj))
        as Hfin'.
      rewrite (adb_restart_pass j dl Hpos Hin) in Hh.
      destruct (IH (pre ++ [(k, dl)]) _ Hs' Hfin') as (fin' & l & Hrun & Hf').
      exists fin', (EvNext k :: l). split; [|exact Hf'].
      rewrite (adb_for_draw _ _ _ _ _ _ _ _ _ Hh).
      rewrite (adb_restart_handles j pre post k dl _ Hk eq_refl).
      rewrite (adb_restart_dict j pre k dl _ Hk eq_refl).
      rewrite_adb_for Hrun. reflexivity.
Qed.

Lemma adb_for_restart_end :
  forall post pre fin bd,
    dls = pre ++ post ->
    adb_finished_at dls (max_length dls) (keys pre) fin ->
    length fin <> length dls ->
    fst (fst (adb_for (keys post)
                (mkAllDatasetBatchesIterator dls
                   RESTART_UNTIL_ALL_DATASETS_EXHAUSTED
                   (restarted (S (max_length dls)) pre
                    ++ restarted (max_length dls) post) fin)
                bd))
    = Raise StopIteration.
Proof.
  set (j := max_length dls).
  induction post as [|[k dl] post IH]; intros pre fin bd Hs Hfin Hopen.
  - exfalso. apply Hopen. rewrite app_nil_r in Hs. subst pre.
    destruct Hfin as [Hfn Hf].
    rewrite <- (length_map fst dls). fold (keys dls).
    apply Nat.le_antisymm.
    + apply NoDup_incl_length; [assumption|].
      intros x Hx. now apply Hf in Hx.
    + apply NoDup_incl_length; [assumption|].
      intros x Hx. apply Hf. split; [assumption|].
      pose proof (length_dl_of_le_max dls x). unfold visits.
      apply mem_true_iff in Hx. rewrite Hx. fold j in H. lia.
  - destruct (adb_restart_head j pre post k dl Hs) as (Hk & Hpos & Hdl & Hh).
    assert (Hs' : dls = (pre ++ [(k, dl)]) ++ post)
      by (now rewrite <- app_assoc).
    pose proof (restart_pos_le (length dl) j Hpos) as Hle.
    change (keys ((k, dl) :: post)) with (k :: keys post).
    destruct (Nat.eq_dec (restart_pos (length dl) j) (length dl))
      as [Hend|Hmid].
    + destruct (adb_restart_fresh j dl Hpos Hend) as [Hnil Hfresh].
      destruct (restart_pos_end _ _ Hpos Hend) as [_ Hlen].
      pose proof (adb_finished_mark dls Hnd j pre post k dl fin Hs Hfin Hlen)
        as Hfin'.
      rewrite Hnil in Hh. rewrite Hfresh in Hdl.
      assert (Hits : length (restarted (S j) pre
                             ++ restarted j ((k, dl) :: post))
                     = length dls).
      { rewrite length_app, !length_restarted, <- length_app, <- Hs. reflexivity. }
      destruct (Nat.eq_dec
                  (length (if mem k fin then fin else fin ++ [k]))
                  (length dls)) as [Hall|Hmore].
      * rewrite (adb_for_restart_stop _ _ _ _ _ _ Hh); [reflexivity|].
        now rewrite Hits.
      * assert (Hopen' : length (if mem k fin then fin else fin ++ [k])
                         <> length (restarted (S j) pre
                                    ++ restarted j ((k, dl) :: post)))
          by (now rewrite Hits).
        rewrite (adb_for_restart_again _ _ _ _ (keys post) bd
                   _ _ Hh Hopen' Hdl).
        rewrite (adb_restart_handles j pre post k dl _ Hk eq_refl).
        specialize (IH (pre ++ [(k, dl)]) _
                      (setitem k (nth (j mod length dl) dl 0) bd)
                      Hs' Hfin' Hmore).
        match goal with
        | |- context [adb_for ?a ?b ?c] =>
            assert (Hr : fst (fst (adb_for a b c)) = Raise StopIteration)
              by exact IH;
            destruct (adb_for a b c) as [[r it'] l]; exact Hr
        end.
    + assert (Hin : restart_pos (length dl) j < length dl) by lia.
      destruct (restart_pos_inside _ _ Hin) as [_ Hnj].
      pose proof (adb_finished_pass dls Hnd j pre post k dl fin Hs Hfin
                    (not_eq_sym Hnj))
        as Hfin'.
      rewrite (adb_restart_pass j dl Hpos Hin) in Hh.
      rewrite (adb_for_draw _ _ _ _ _ _ _ _ _ Hh).
      rewrite (adb_restart_handles j pre post k dl _ Hk eq_refl).
      specialize (IH (pre ++ [(k, dl)]) _
                    (setitem k (nth (j mod length dl) dl 0) bd)
                    Hs' Hfin' Hopen).
      match goal with
      | |- context [adb_for ?a ?b ?c] =>
          assert (Hr : fst (fst (adb_for a b c)) = Raise StopIteration)
            by exact IH;
          destruct (adb_for a b c) as [[r it'] l]; exact Hr
      end.
Qed.
End AllDatasetBatchesRestartRun.

Lemma adb_finished_open_start (dls : dict dataloader) (j : nat)
  (fin : list string) :
  NoDup (keys dls) -> dls <> [] ->
  j <= max_length dls ->
  adb_finished_at dls j [] fin ->
  length fin <> length dls.
Proof.
  intros Hnd Hne Hj [Hfn Hf].
  destruct (max_length_attained dls Hnd Hne) as [k [Hk Hlen]].
  assert (Hnk : ~ In k fin).
  { intros Hin. apply Hf in Hin. destruct Hin as [_ Hlt].
    unfold visits in Hlt. simpl in Hlt. lia. }
  assert (Hle : length (k :: fin) <= length (keys dls)).
  { apply NoDup_incl_length; [now constructor|].
    intros x [<-|Hx]; [assumption | now apply Hf in Hx]. }
  unfold keys in Hle. rewrite length_map in Hle. simpl in Hle. lia.
Qed.

Lemma adb_finished_roll (dls : dict dataloader) (j : nat)
  (fin : list string) :
  adb_finished_at dls j (keys dls) fin ->
  adb_finished_at dls (S j) [] fin.
Proof.
  intros [Hfn Hf]. split; [assumption|]. intros k. rewrite Hf.
  split; intros [Hk Hlt]; split; try assumption;
    unfold visits in *; simpl in *;
    apply mem_true_iff in Hk; rewrite Hk in *; assumption.
Qed.

Lemma adb_restart_runs_from (dls : dict dataloader) :
  NoDup (keys dls) ->
  (forall nd, In nd dls -> 0 < length (snd nd)) ->
  dls <> [] ->
  forall d j fin,
    j + d = max_length dls ->
    adb_finished_at dls j [] fin ->
    runs adb_const_fuel
      (mkAllDatasetBatchesIterator dls RESTART_UNTIL_ALL_DATASETS_EXHAUSTED
         (restarted j dls) fin)
      (map (fun j' => restart_row j' dls) (seq j d)).
Proof.
  intros Hnd Hfull Hne. induction d as [|d IH]; intros j fin Hj Hfin.
  - simpl. assert (j = max_length dls) by lia. subst j.
    pose proof (adb_for_restart_end dls Hnd Hfull dls [] fin [] eq_refl Hfin
                  (adb_finished_open_start dls _ fin Hnd Hne (le_n _) Hfin))
      as Hstop.
    simpl in Hstop.
    destruct (adb_for (keys dls)
                (mkAllDatasetBatchesIterator dls
                   RESTART_UNTIL_ALL_DATASETS_EXHAUSTED
                   (restarted (max_length dls) dls) fin) [])
      as [[r it'] l] eqn:E.
    assert (Hr : fst (fst (r, it', l)) = Raise StopIteration)
      by first [exact Hstop | rewrite <- E; exact Hstop].
    simpl in Hr. subst r.
    eapply runs_stop. apply adb_evals. unfold adb_next. simpl.
    rewrite keys_restarted. exact E.
  - simpl.
    destruct (adb_for_restart_row dls Hnd Hfull Hne j ltac:(lia) dls [] fin
                eq_refl Hfin) as (fin' & l & Hrun & Hfin').
    simpl in Hrun.
    assert (Hrow : (length (restart_row j dls) =? 0) = false).
    { apply Nat.eqb_neq. unfold restart_row. rewrite length_map.
      destruct dls; [congruence | simpl; lia]. }
    rewrite Hrow in Hrun.
    eapply runs_yield.
    + apply adb_evals. unfold adb_next. simpl. rewrite keys_restarted.
      exact Hrun.
    + apply IH; [lia | now apply adb_finished_roll].
Qed.

Lemma adb_restart_run (dls : dict dataloader)
  (it : AllDatasetBatchesIterator) :
  NoDup (keys dls) ->
  (forall nd, In nd dls -> 0 < length (snd nd)) ->
  dls <> [] ->
  AllDatasetBatchesIterator_init dls
    (mkAllDatasetBatches RESTART_UNTIL_ALL_DATASETS_EXHAUSTED) = Return it ->
  runs adb_const_fuel it (adb_restart_records dls)
  /\ length (adb_restart_records dls) = max_length dls
  /\ (forall r, In r (adb_restart_records dls) -> keys r = keys dls).
Proof.
  intros Hnd Hfull Hne Hinit. split; [|split].
  - unfold AllDatasetBatchesIterator_init in Hinit. simpl in Hinit.
    inversion Hinit; subst it; clear Hinit. rewrite <- restarted_0.
    apply adb_restart_runs_from; try assumption; [lia|].
    split; [constructor|]. intros k. split; [intros []|].
    intros [_ H]. unfold visits in H. simpl in H. lia.
  - unfold adb_restart_records. now rewrite length_map, length_seq.
  - intros r Hr. unfold adb_restart_records in Hr.
    apply in_map_iff in Hr. destruct Hr as [j [<- _]].
    apply keys_restart_row.
Qed.

(** ** The randomized sampler under RESTART_UNTIL_ALL_DATASETS_EXHAUSTED *)

Lemma dl_of_lookup (dls : dict dataloader) (k : string) :
  dl_of dls k <> [] -> lookup k dls = Some (dl_of dls k).
Proof. unfold dl_of. destruct (lookup k dls); congruence. Qed.

Lemma dl_of_nonempty (dls : dict dataloader) (k : string) :
  (forall nd, In nd dls -> snd nd <> []) ->
  In k (keys dls) -> dl_of dls k <> [].
Proof.
  intros Hall Hk. destruct (lookup_In k dls Hk) as [dl Hdl].
  unfold dl_of. rewrite Hdl.
  exact (Hall (k, dl) (lookup_Some_In_pair _ _ _ Hdl)).
Qed.

Lemma rbs_ended_forever (env : environment) (fuel n : nat)
  (it : RandomizedBatchSamplerIterator) :
  rbs_should_stop it = true ->
  outcomes (rbs_next env (S fuel)) n it = repeat (Raise StopIteration) n
  /\ events (rbs_next env (S fuel)) n it = []
  /\ after (rbs_next env (S fuel)) n it = it.
Proof.
  intros H.
  assert (E : rbs_next env (S fuel) it = (Raise StopIteration, it, []))
    by (simpl; now rewrite H).
  induction n as [|n IH]; [repeat split|].
  destruct IH as (IH1 & IH2 & IH3).
  cbn [outcomes events after]. rewrite E.
  cbn [fst snd]. rewrite IH1, IH2, IH3. repeat split.
Qed.

Lemma count_occ_middle (l1 l2 : list string) (k x : string) :
  count_occ string_dec (l1 ++ k :: l2) x
  = count_occ string_dec (k :: l1 ++ l2) x.
Proof.
  rewrite count_occ_app. simpl.
  destruct (string_dec k x); rewrite count_occ_app; lia.
Qed.

Lemma rbs_finished_found_counts (dls : dict dataloader)
  (seen seen' fin : list string) :
  (forall k, count_occ string_dec seen k = count_occ string_dec seen' k) ->
  rbs_finished_found dls seen fin -> rbs_finished_found dls seen' fin.
Proof.
  intros E (H1 & H2 & H3 & H4). split; [|split; [|split]]; try assumption.
  - intros k Hk Hc. rewrite <- E in Hc. now apply H3.
  - intros k Hk. rewrite <- E. now apply H4.
Qed.

(** The selected source still has a batch: the finished list stays. *)
Lemma rbs_finished_pass (dls : dict dataloader) (seen fin : list string)
  (k : string) :
  rbs_finished_found dls seen fin ->
  restart_pos (length (dl_of dls k)) (count_occ string_dec seen k)
  < length (dl_of dls k) ->
  rbs_finished_found dls (k :: seen) fin.
Proof.
  intros (H1 & H2 & H3 & H4) Hlt.
  split; [|split; [|split]]; try assumption.
  - intros k' Hk' Hc. destruct (string_dec k k') as [<-|Hne].
    + rewrite count_occ_cons_eq in Hc by reflexivity.
      destruct (restart_pos_inside _ _ Hlt) as [_ Hneq].
      apply H3; [assumption | lia].
    + rewrite count_occ_cons_neq in Hc by assumption. now apply H3.
  - intros k' Hk'. specialize (H4 k' Hk').
    destruct (string_dec k k') as [<-|Hne].
    + rewrite count_occ_cons_eq by reflexivity. lia.
    + now rewrite count_occ_cons_neq by assumption.
Qed.

(** The selected source is found exhausted: it joins the finished list,
    unless it is there already. *)
Lemma rbs_finished_add (dls : dict dataloader) (seen fin : list string)
  (k : string) :
  rbs_finished_found dls seen fin ->
  In k (keys dls) ->
  length (dl_of dls k) <= count_occ string_dec seen k ->
  rbs_finished_found dls seen (if mem k fin then fin else fin ++ [k])
  /\ rbs_finished_found dls (k :: seen)
       (if mem k fin then fin else fin ++ [k]).
Proof.
  intros (H1 & H2 & H3 & H4) Hk Hc.
  assert (Hin : In k (if mem k fin then fin else fin ++ [k])).
  { destruct (mem k fin) eqn:E; [now apply mem_true_iff|].
    apply in_or_app. right. now left. }
  assert (Hsub : forall x, In x fin ->
                           In x (if mem k fin then fin else fin ++ [k])).
  { intros x Hx. destruct (mem k fin); [assumption|].
    apply in_or_app. now left. }
  assert (Hsup : forall x, In x (if mem k fin then fin else fin ++ [k]) ->
                           In x fin \/ x = k).
  { intros x Hx. destruct (mem k fin); [now left|].
    apply in_app_or in Hx. destruct Hx as [Hx|[<-|[]]]; [now left | now right]. }
  assert (Hnd : NoDup (if mem k fin then fin else fin ++ [k])).
  { destruct (mem k fin) eqn:E; [assumption|].
    apply mem_false_iff in E.
    apply NoDup_app; [assumption | repeat constructor; intros []|].
    intros y Hy [<-|[]]. contradiction. }
  assert (Hincl : incl (if mem k fin then fin else fin ++ [k]) (keys dls)).
  { intros x Hx. destruct (Hsup x Hx) as [Hx'| ->];
      [now apply H2 | assumption]. }
  split.
  - split; [|split; [|split]]; try assumption.
    + intros k' Hk' Hc'. apply Hsub. now apply H3.
    + intros k' Hk'. destruct (Hsup k' Hk') as [Hx| ->];
        [now apply H4 | assumption].
  - split; [|split; [|split]]; try assumption.
    + intros k' Hk' Hc'. destruct (string_dec k k') as [<-|Hne];
        [assumption|].
      rewrite count_occ_cons_neq in Hc' by assumption.
      apply Hsub. now apply H3.
    + intros k' Hk'. destruct (string_dec k k') as [<-|Hne].
      * rewrite count_occ_cons_eq by reflexivity. lia.
      * rewrite count_occ_cons_neq by assumption.
        destruct (Hsup k' Hk') as [Hx| ->]; [now apply H4 | congruence].
Qed.

(** One call of a sampler that restarts its sources, on the key it
    selects: it returns a batch of that source, re-created if its handle
    was exhausted, or it ends the sequence, when that source was the last
    one still to be found exhausted. *)
Lemma rbs_restart_call_key (env : environment) (dls : dict dataloader)
  (seen : list string) (it : RandomizedBatchSamplerIterator) (f : nat)
  (k : string) (l0 : list event) :
  rbs_restarting env dls seen it ->
  rbs_select env it = (Return k, l0) ->
  In k (rbs_iterator_names it) ->
  In k (keys dls)
  /\ ((exists it' l,
         rbs_next env (S f) it
         = (Return [(k, nth (count_occ string_dec seen k
                             mod length (dl_of dls k)) (dl_of dls k) 0)],
            it', l)
         /\ rbs_restarting env dls (k :: seen) it')
      \/ (exists it' l,
            rbs_next env (S f) it = (Raise StopIteration, it', l)
            /\ rbs_should_stop it' = true
            /\ rbs_finished_found dls seen (rbs_iterators_finished it')
            /\ length (rbs_iterators_finished it') = length dls)).
Proof.
  intros [Hmode Hdls Hnames Hbc Hal Hacc Hflags Hlen Hh Hfin Hopen] Hsel Hk.
  destruct (Hh k Hk) as (Hkd & Hne & Hl).
  split; [assumption|].
  pose proof (dl_of_lookup dls k Hne) as Hdl.
  pose proof (rbs_finished_pass dls seen _ k Hfin) as Hpass.
  pose proof (rbs_finished_add dls seen _ k Hfin Hkd) as Hadd.
  remember (dl_of dls k) as dl eqn:Edl.
  remember (count_occ string_dec seen k) as c eqn:Ec.
  remember (if mem k (rbs_iterators_finished it)
            then rbs_iterators_finished it
            else rbs_iterators_finished it ++ [k]) as fin' eqn:Efin.
  assert (Hpos : 0 < length dl) by (destruct dl; [congruence | simpl; lia]).
  assert (Hhandles :
            forall rest,
              rest = skipn (S (c mod length dl)) dl ->
              forall k', In k' (rbs_iterator_names it) ->
                In k' (keys dls)
                /\ dl_of dls k' <> []
                /\ lookup k' (setitem k rest (rbs_individual_iterators it))
                   = Some (skipn (restart_pos (length (dl_of dls k'))
                                    (count_occ string_dec (k :: seen) k'))
                             (dl_of dls k'))).
  { intros rest Hrest k' Hk'. destruct (Hh k' Hk') as (H1 & H2 & H3).
    split; [assumption|]. split; [assumption|].
    destruct (string_dec k' k) as [->|Hneq].
    - rewrite lookup_setitem, String.eqb_refl.
      rewrite count_occ_cons_eq by reflexivity.
      rewrite <- Edl, <- Ec, Hrest. reflexivity.
    - rewrite lookup_setitem_other by assumption.
      rewrite count_occ_cons_neq by congruence. exact H3. }
  assert (Hkeys : In k (keys (rbs_individual_iterators it)))
    by (eapply lookup_Some_In; eassumption).
  assert (E0 : (length (rbs_iterators_finished it)
                =? length (rbs_individual_iterators it)) = false)
    by (apply Nat.eqb_neq; rewrite Hlen; exact Hopen).
  assert (Hcall :
            rbs_next env (S f) it
            = let '(r, it', l) :=
                match skipn (restart_pos (length dl) c) dl with
                | b :: rest =>
                    (Return [(k, b)], rbs_set_iterator (rbs_tick it) k rest,
                     [EvNext k])
                | [] =>
                    if length fin' =? length (rbs_individual_iterators it)
                    then (Raise StopIteration,
                          rbs_set_finished (rbs_tick it) fin', [EvNext k])
                    else rbs_restart (rbs_set_finished (rbs_tick it) fin') k
                end in
              (r, it', l0 ++ l)).
  { simpl rbs_next. unfold rbs_should_stop. rewrite Hmode, E0, Hsel.
    unfold rbs_draw. cbn [rbs_tick rbs_individual_iterators
                           rbs_stopping_mechanism rbs_iterators_finished
                           rbs_set_finished].
    rewrite Hl, Hmode, <- Efin.
    destruct (skipn (restart_pos (length dl) c) dl); reflexivity. }
  rewrite Hcall. clear Hcall.
  destruct (skipn (restart_pos (length dl) c) dl) as [|b rest] eqn:Es.
  - (* the handle is exhausted *)
    apply skipn_nil_length in Es.
    pose proof (restart_pos_le (length dl) c Hpos) as Hle.
    destruct (restart_pos_end (length dl) c Hpos ltac:(lia)) as [Hmod Hc].
    destruct (Hadd Hc) as [Hf1 Hf2].
    destruct (length fin' =? length (rbs_individual_iterators it)) eqn:Efull.
    + right. eexists. eexists. split; [reflexivity|].
      apply Nat.eqb_eq in Efull.
      split; [|split; [exact Hf1|]].
      * unfold rbs_should_stop. cbn. rewrite Hmode. now apply Nat.eqb_eq.
      * cbn. now rewrite Efull.
    + left. apply Nat.eqb_neq in Efull.
      unfold rbs_restart.
      cbn [rbs_tick rbs_set_finished rbs_individual_dataloaders].
      rewrite Hdls, Hdl. unfold iter. rewrite Hmod in *.
      destruct dl as [|b rest]; [congruence|].
      eexists. eexists. split; [reflexivity|].
      constructor; cbn; try assumption.
      * now rewrite length_setitem.
      * now apply (Hhandles rest).
      * now rewrite <- Hlen.
  - destruct (skipn_cons_nth _ _ _ _ Es) as [Hb Hrest].
    assert (Hlt : restart_pos (length dl) c < length dl).
    { assert (length (skipn (restart_pos (length dl) c) dl) <> 0)
        by (rewrite Es; discriminate).
      rewrite length_skipn in H. lia. }
    destruct (restart_pos_inside _ _ Hlt) as [Hmod _].
    left. eexists. eexists. split.
    + rewrite Hmod, Hb. reflexivity.
    + constructor; cbn; try assumption.
      * now rewrite length_setitem.
      * apply (Hhandles rest). rewrite Hmod. now symmetry.
      * now apply Hpass.
Qed.

Lemma rbs_restart_outcomes (env : environment) (dls : dict dataloader)
  (fuel n : nat) :
  forall seen it,
    rbs_restarting env dls seen it ->
    exists ks,
      length ks <= n
      /\ incl ks (keys dls)
      /\ outcomes (rbs_next env (S fuel)) n it
         = map Return (wrap_records dls seen ks)
           ++ repeat (Raise StopIteration) (n - length ks)
      /\ rbs_finished_found dls (ks ++ seen)
           (rbs_iterators_finished (after (rbs_next env (S fuel)) n it))
      /\ (length ks < n <->
          length (rbs_iterators_finished
                    (after (rbs_next env (S fuel)) n it)) = length dls).
Proof.
  induction n as [|n IH]; intros seen it Hr.
  - exists []. split; [simpl; lia|]. split; [intros x []|].
    split; [reflexivity|]. split; [exact (rs_finished _ _ _ _ Hr)|].
    simpl. split; [lia|]. intros E. exfalso.
    exact (rs_open _ _ _ _ Hr E).
  - destruct (rbs_select_names env it) as (k & l0 & Hsel & Hk);
      [ apply rbs_candidates_unmarked;
        [exact (rs_flags _ _ _ _ Hr) | exact (rs_aligned _ _ _ _ Hr)]
      | exact (rs_names _ _ _ _ Hr) | exact (rs_broadcast _ _ _ _ Hr)
      | exact (rs_aligned _ _ _ _ Hr) | exact (rs_accepted _ _ _ _ Hr) |].
    destruct (rbs_restart_call_key env dls seen it fuel k l0 Hr Hsel Hk)
      as [Hkd [(it' & l & Hcall & Hr')
              | (it' & l & Hcall & Hstop & Hfin & Hfull)]].
    + destruct (IH (k :: seen) it' Hr')
        as (ks & Hlen & Hincl & Hout & Hf & Hend).
      exists (k :: ks). cbn [outcomes after]. rewrite Hcall. cbn [fst snd].
      split; [simpl; lia|]. split.
      { intros x [<-|Hx]; [assumption | now apply Hincl]. }
      split.
      { cbn [wrap_records map app length Nat.sub]. now rewrite Hout. }
      split.
      { eapply rbs_finished_found_counts; [|exact Hf].
        intros x. apply count_occ_middle. }
      cbn [length]. rewrite <- Hend. lia.
    + destruct (rbs_ended_forever env fuel n it' Hstop) as (Ho & _ & Ha).
      exists []. cbn [outcomes after]. rewrite Hcall. cbn [fst snd].
      rewrite Ho, Ha.
      split; [simpl; lia|]. split; [intros x []|].
      split; [reflexivity|]. split; [exact Hfin|].
      simpl. split; [intros _; exact Hfull | intros _; lia].
Qed.

Lemma RandomizedBatchSamplerIterator_init_restarting (env : environment)
  (dls : dict dataloader) (s : RandomizedBatchSampler)
  (it : RandomizedBatchSamplerIterator) (l : list event) :
  RandomizedBatchSamplerIterator_init env dls s = (Return it, l) ->
  rbs_strategy_stopping_mechanism s
  = RESTART_UNTIL_ALL_DATASETS_EXHAUSTED ->
  dls <> [] ->
  (forall nd, In nd dls -> snd nd <> []) ->
  broadcast_in_range env (sorted (keys dls)) ->
  rbs_weights_accepted it ->
  rbs_restarting env dls [] it.
Proof.
  intros Hinit Hmode Hne Hfull Hb Hacc.
  destruct (RandomizedBatchSamplerIterator_init_fields _ _ _ _ _ Hinit)
    as (Hd & Hi & Hn & Hf & Hm & _ & Hfin & _).
  constructor.
  - congruence.
  - assumption.
  - rewrite Hn. intros E.
    pose proof (Permutation_length (sorted_perm (keys dls))) as Hl.
    rewrite E in Hl. destruct dls; [congruence | discriminate].
  - now rewrite Hn.
  - eapply RandomizedBatchSamplerIterator_init_aligned. eassumption.
  - assumption.
  - now rewrite Hf, Hn.
  - now rewrite Hi, length_map.
  - intros k Hk. rewrite Hn in Hk.
    assert (Hkd : In k (keys dls))
      by (eapply Permutation_in; [apply sorted_perm | exact Hk]).
    pose proof (dl_of_nonempty dls k Hfull Hkd) as Hne'.
    split; [assumption|]. split; [assumption|].
    rewrite Hi, lookup_map_iter. simpl. now apply dl_of_lookup.
  - rewrite Hfin. split; [constructor|]. split; [intros x []|].
    split; [intros k _ Hc; simpl in Hc; lia | intros k []].
  - rewrite Hfin. destruct dls; [congruence | discriminate].
Qed.

(** ** Restarting sources *)

(** C3 (as amended). Under RESTART_UNTIL_ALL_DATASETS_EXHAUSTED a source
    is re-created every time it is found exhausted, as long as some source
    has not been found exhausted yet; the finished list records the
    sources found exhausted at least once, and the sequence ends when it
    holds them all.
    - All dataset batches over non-empty sources with distinct keys: as
      many records as the largest source has batches, each with one batch
      of every source; in record [j] a source of length [len] contributes
      its batch of index [j mod len].
    - Randomized sampler over non-empty sources with distinct keys, when
      [random.choices] accepts the weights it keeps (if any): whatever
      the random draws, the calls return one record each, in which the
      selection number [j] of a source of length [len] delivers its batch
      of index [j mod len], up to the call that raises StopIteration, if
      there is one, and every later call raises StopIteration.  The
      finished list holds every source that has been re-created, and only
      sources that have delivered all their batches; a call has raised
      StopIteration exactly when the finished list holds every source. *)
Theorem restart_until_all_exhausted :
  (forall dls it,
      NoDup (keys dls) ->
      (forall nd, In nd dls -> 0 < length (snd nd)) ->
      dls <> [] ->
      AllDatasetBatchesIterator_init dls
        (mkAllDatasetBatches RESTART_UNTIL_ALL_DATASETS_EXHAUSTED)
      = Return it ->
      runs adb_const_fuel it (adb_restart_records dls)
      /\ length (adb_restart_records dls) = max_length dls
      /\ (forall r, In r (adb_restart_records dls) -> keys r = keys dls))
  /\ (forall env dls weights enforce it l,
        NoDup (keys dls) ->
        (forall nd, In nd dls -> snd nd <> []) ->
        dls <> [] ->
        broadcast_in_range env (sorted (keys dls)) ->
        RandomizedBatchSamplerIterator_init env dls
          (mkRandomizedBatchSampler weights
             RESTART_UNTIL_ALL_DATASETS_EXHAUSTED enforce)
        = (Return it, l) ->
        rbs_weights_accepted it ->
        forall fuel n,
          exists ks,
            length ks <= n
            /\ incl ks (keys dls)
            /\ outcomes (rbs_next env (S fuel)) n it
               = map Return (wrap_records dls [] ks)
                 ++ repeat (Raise StopIteration) (n - length ks)
            /\ rbs_finished_found dls ks
                 (rbs_iterators_finished
                    (after (rbs_next env (S fuel)) n it))
            /\ (length ks < n <->
                forall k, In k (keys dls) ->
                          In k (rbs_iterators_finished
                                  (after (rbs_next env (S fuel)) n it)))).
Proof.
  split.
  - intros dls it. apply adb_restart_run.
  - intros env dls weights enforce it l Hnd Hfull Hne Hb Hinit Hacc fuel n.
    pose proof (RandomizedBatchSamplerIterator_init_restarting env dls _ it l
                  Hinit eq_refl Hne Hfull Hb Hacc) as Hr.
    destruct (rbs_restart_outcomes env dls fuel n [] it Hr)
      as (ks & Hlen & Hincl & Hout & Hf & Hend).
    rewrite app_nil_r in Hf.
    exists ks. split; [assumption|]. split; [assumption|].
    split; [assumption|]. split; [assumption|].
    destruct Hf as (Hf1 & Hf2 & _).
    rewrite Hend. split.
    + intros Hl. apply (NoDup_length_incl Hf1); [|assumption].
      apply Nat.eq_le_incl. unfold keys. rewrite length_map.
      symmetry. exact Hl.
    + intros Hall.
      pose proof (NoDup_incl_length Hnd Hall) as H1.
      pose proof (NoDup_incl_length Hf1 Hf2) as H2.
      unfold keys in H1, H2. rewrite length_map in H1, H2.
      apply Nat.le_antisymm; [exact H2 | exact H1].
Qed.

Lemma restart_until_all_exhausted_witness :
  runs adb_const_fuel
    (adb_of loaders_ab
       (mkAllDatasetBatches RESTART_UNTIL_ALL_DATASETS_EXHAUSTED))
    [[("a", 0); ("b", 0)]; [("a", 0); ("b", 1)]; [("a", 0); ("b", 2)]]
  /\ (exists ks,
        length ks <= 8
        /\ outcomes (rbs_next (local_env [0; 0; 0; 1; 1; 1; 1]) 1) 8
             (rbs_of (local_env [0; 0; 0; 1; 1; 1; 1]) loaders_ab
                (mkRandomizedBatchSampler None
                   RESTART_UNTIL_ALL_DATASETS_EXHAUSTED false))
           = map Return (wrap_records loaders_ab [] ks)
             ++ repeat (Raise StopIteration) (8 - length ks))
  /\ outcomes (rbs_next (local_env [0; 0; 0; 1; 1; 1; 1]) 1) 8
       (rbs_of (local_env [0; 0; 0; 1; 1; 1; 1]) loaders_ab
          (mkRandomizedBatchSampler None
             RESTART_UNTIL_ALL_DATASETS_EXHAUSTED false))
     = [Return [("a", 0)]; Return [("a", 0)]; Return [("a", 0)];
        Return [("b", 0)]; Return [("b", 1)]; Return [("b", 2)];
        Raise StopIteration; Raise StopIteration].
Proof.
  destruct restart_until_all_exhausted as [Hadb Hrbs]. split; [|split].
  - apply (Hadb loaders_ab).
    + simpl. repeat constructor; simpl; intuition discriminate.
    + intros nd [<-|[<-|[]]]; simpl; lia.
    + discriminate.
    + reflexivity.
  - destruct (Hrbs (local_env [0; 0; 0; 1; 1; 1; 1]) loaders_ab None false
                (rbs_of (local_env [0; 0; 0; 1; 1; 1; 1]) loaders_ab
                   (mkRandomizedBatchSampler None
                      RESTART_UNTIL_ALL_DATASETS_EXHAUSTED false)) [])
      with (fuel := 0) (n := 8) as (ks & Hlen & _ & Hout & _).
    + simpl. repeat constructor; simpl; intuition discriminate.
    + intros nd [<-|[<-|[]]]; discriminate.
    + discriminate.
    + intros draw idx Hidx. exact Hidx.
    + reflexivity.
    + intros ws Hws. discriminate.
    + exists ks. split; assumption.
  - reflexivity.
Defined.

(** C3, counterexample. All dataset batches under
    RESTART_UNTIL_ALL_DATASETS_EXHAUSTED over [a] of length 1 and [b] of
    length 3: [a] is re-created in the second call and again in the third,
    and its batch is in all three records. *)
Lemma adb_restarts_again_counterexample :
  fst (collect adb_next 10
         (adb_of loaders_ab
            (mkAllDatasetBatches RESTART_UNTIL_ALL_DATASETS_EXHAUSTED)))
  = ([[("a", 0); ("b", 0)]; [("a", 0); ("b", 1)]; [("a", 0); ("b", 2)]],
     Ended)
  /\ events adb_next 3
       (adb_of loaders_ab
          (mkAllDatasetBatches RESTART_UNTIL_ALL_DATASETS_EXHAUSTED))
     = [EvNext "a"; EvNext "b";
        EvNext "a"; EvIter "a"; EvNext "a"; EvNext "b";
        EvNext "a"; EvIter "a"; EvNext "a"; EvNext "b"].
Proof. split; reflexivity. Qed.

(** ** Snapshots of a round-robin iterator *)

Lemma wrap_lt (n i : nat) : i < n -> wrap n (S i) < n.
Proof.
  intros H. unfold wrap. destruct (Nat.eqb_spec (S i) n); lia.
Qed.

Lemma cursor_at_inv (order : list string) (k : string) (c : cycle) :
  cursor_at order k c ->
  cyc_saved c = order /\ cyc_pos c < length order.
Proof.
  intros [Hs [i [Hi Hp]]]. split; [assumption|].
  rewrite Hp. apply wrap_lt. apply nth_error_Some. congruence.
Qed.

Lemma cycle_next_cursor (order : list string) (c : cycle) :
  cyc_saved c = order ->
  cyc_pos c < length order ->
  exists k c', cycle_next c = Some (k, c') /\ cursor_at order k c'.
Proof.
  intros Hs Hp. unfold cycle_next. rewrite Hs.
  destruct (nth_error order (cyc_pos c)) as [k|] eqn:E.
  - exists k. eexists. split; [reflexivity|].
    split; [reflexivity|]. exists (cyc_pos c). split; [assumption|].
    reflexivity.
  - apply nth_error_None in E. lia.
Qed.

Lemma skip_finished_cursor (order : list string) (f : nat)
  (fin : list string) :
  forall k c res kc',
    cursor_at order k c ->
    skip_finished f fin k c = (res, kc') ->
    cursor_at order (fst kc') (snd kc').
Proof.
  induction f as [|f IH]; intros k c res kc' Hc H; simpl in H.
  - destruct (mem k fin); inversion H; subst; exact Hc.
  - destruct (mem k fin); [|inversion H; subst; exact Hc].
    destruct (cursor_at_inv _ _ _ Hc) as [Hs Hp].
    destruct (cycle_next_cursor order c Hs Hp) as (k1 & c1 & E & Hc1).
    rewrite E in H. eapply IH; eassumption.
Qed.

Lemma rr_next_preserves (s : RoundRobin) (order : list string) (fuel : nat) :
  forall it r it' l,
    rr_inv s order it ->
    rr_next fuel it = (r, it', l) ->
    rr_inv s order it'
    /\ keys (rr_individual_iterators it') = keys (rr_individual_iterators it)
    /\ (forall rec, r = Return rec ->
          cursor_at order (rr_cur_dataloader it') (rr_dataloader_cycle it')).
Proof.
  induction fuel as [|f IH]; intros it r it' l Hinv H; simpl in H.
  - inversion H; subst. repeat split; try apply Hinv. discriminate.
  - destruct (_ =? _).
    { inversion H; subst. repeat split; try apply Hinv. discriminate. }
    destruct Hinv as [Hst Hs Hp].
    destruct (cycle_next_cursor order _ Hs Hp) as (k0 & c0 & E & Hc0).
    rewrite E in H. simpl in H.
    destruct (skip_finished f _ k0 c0) as [res kc'] eqn:Es.
    pose proof (skip_finished_cursor order f _ _ _ _ _ Hc0 Es) as Hc.
    destruct (cursor_at_inv _ _ _ Hc) as [Hs' Hp'].
    destruct res as [x|e|].
    + unfold rr_draw, rr_set_cursor in H. simpl in H.
      destruct (lookup (fst kc') _) as [[|b rest]|] eqn:El.
      * destruct (StoppingMechanism_eqb _ _).
        { inversion H; subst. simpl. repeat split; simpl; try assumption; try reflexivity.
          discriminate. }
        destruct (_ =? _).
        { inversion H; subst. simpl. repeat split; simpl; try assumption; try reflexivity.
          discriminate. }
        destruct (rr_next f _) as [[r0 it0] l0] eqn:En.
        inversion H; subst.
        apply IH in En; [exact En|].
        constructor; simpl; first [assumption | reflexivity].
      * inversion H; subst. simpl.
        split; [constructor; simpl; first [assumption | reflexivity]|].
        split; [|intros rec _; exact Hc].
        apply keys_setitem. eapply lookup_Some_In. eassumption.
      * inversion H; subst. simpl. repeat split; simpl; try assumption; try reflexivity.
        discriminate.
    + inversion H; subst. simpl. repeat split; simpl; try assumption; try reflexivity. discriminate.
    + inversion H; subst. simpl. repeat split; simpl; try assumption; try reflexivity. discriminate.
Qed.

Lemma rr_after_preserves (s : RoundRobin) (order : list string)
  (fuel n : nat) :
  forall it,
    rr_inv s order it ->
    rr_inv s order (after (rr_next fuel) n it)
    /\ keys (rr_individual_iterators (after (rr_next fuel) n it))
       = keys (rr_individual_iterators it).
Proof.
  induction n as [|n IH]; intros it Hinv; simpl.
  - split; [assumption | reflexivity].
  - destruct (rr_next fuel it) as [[r it'] l] eqn:E. simpl.
    destruct (rr_next_preserves s order fuel _ _ _ _ Hinv E) as (Hi & Hk & _).
    destruct (IH it' Hi) as [Hi' Hk']. split; [assumption|congruence].
Qed.

Lemma wrap_distance (n p i d : nat) :
  p < n -> i < n -> p <> i ->
  (if p <=? i then i - p else n - p + i) = S d ->
  (if wrap n (S p) <=? i then i - wrap n (S p) else n - wrap n (S p) + i)
  = d.
Proof.
  intros Hp Hi Hpi. unfold wrap.
  destruct (Nat.eqb_spec (S p) n); destruct (Nat.leb_spec p i);
    destruct (Nat.leb_spec 0 i); destruct (Nat.leb_spec (S p) i); lia.
Qed.

(** The membership test on the cycle stops behind the first occurrence of
    the key. *)
Lemma cycle_contains_finds (order : list string) (x : string) (i : nat) :
  NoDup order ->
  nth_error order i = Some x ->
  forall d p f,
    p < length order ->
    (if p <=? i then i - p else length order - p + i) = d ->
    cycle_contains (S d + f) x (mkCycle order p)
    = Return (true, mkCycle order (wrap (length order) (S i))).
Proof.
  intros Hnd Hi.
  assert (Hilt : i < length order) by (apply nth_error_Some; congruence).
  induction d as [|d IH]; intros p f Hp Hd.
  - assert (p = i).
    { destruct (p <=? i) eqn:E;
        [apply Nat.leb_le in E | apply Nat.leb_gt in E]; lia. }
    subst p.
    simpl. unfold cycle_next. simpl. rewrite Hi, String.eqb_refl.
    reflexivity.
  - assert (Hpi : p <> i).
    { destruct (p <=? i) eqn:E;
        [apply Nat.leb_le in E | apply Nat.leb_gt in E]; lia. }
    change (S (S d) + f) with (S (S d + f)).
    simpl cycle_contains at 1. unfold cycle_next at 1. simpl.
    destruct (nth_error order p) as [k|] eqn:Ek.
    2:{ apply nth_error_None in Ek. lia. }
    destruct (String.eqb_spec k x) as [->|Hne].
    { exfalso. apply Hpi.
      exact (proj1 (NoDup_nth_error order) Hnd p i Hp (eq_trans Ek (eq_sym Hi))). }
    fold (wrap (length order) (S p)). apply IH.
    + now apply wrap_lt.
    + now apply wrap_distance.
Qed.

Lemma seek_cursor_as_contains (f : nat) :
  forall x cur c,
    cur <> x ->
    seek_cursor (S f) x cur c
    = match cycle_contains (S f) x c with
      | Return (true, c') => Return (x, c')
      | Return (false, _) => Raise StopIteration
      | Raise e => Raise e
      | OutOfFuel => OutOfFuel
      end.
Proof.
  induction f as [|f IH]; intros x cur c Hne.
  - simpl. destruct (String.eqb_spec cur x) as [E|_]; [contradiction|].
    destruct (cycle_next c) as [[k c']|]; [|reflexivity].
    destruct (String.eqb_spec k x) as [->|_]; reflexivity.
  - change (seek_cursor (S (S f)) x cur c)
      with (if String.eqb cur x then Return (cur, c)
            else match cycle_next c with
                 | None => Raise StopIteration
                 | Some (k, c') => seek_cursor (S f) x k c'
                 end).
    change (cycle_contains (S (S f)) x c)
      with (match cycle_next c with
            | None => Return (false, c)
            | Some (k, c') =>
                if String.eqb k x then Return (true, c')
                else cycle_contains (S f) x c'
            end).
    destruct (String.eqb_spec cur x) as [E|_]; [contradiction|].
    destruct (cycle_next c) as [[k c']|]; [|reflexivity].
    destruct (String.eqb_spec k x) as [->|Hk].
    + simpl. now rewrite String.eqb_refl.
    + now apply IH.
Qed.

Lemma map_iter_id (d : dict iterator) :
  map (fun nd : string * dataloader => (fst nd, iter (snd nd))) d = d.
Proof.
  induction d as [|[k h] d IH]; simpl; [reflexivity|]. now rewrite IH.
Qed.

Lemma RoundRobinIterator_init_inv (dls : dict dataloader) (s : RoundRobin)
  (it : RoundRobinIterator) :
  RoundRobinIterator_init dls s = Return it ->
  rr_inv s (order_or_keys (rr_iteration_order s) (keys dls)) it
  /\ keys (rr_individual_iterators it) = keys dls
  /\ exists k0 r,
       order_or_keys (rr_iteration_order s) (keys dls) = k0 :: r
       /\ it = mkRoundRobinIterator s
                 (map (fun nd : string * dataloader =>
                         (fst nd, iter (snd nd))) dls)
                 (mkCycle (k0 :: r) 0) k0 [].
Proof.
  unfold RoundRobinIterator_init.
  destruct (StoppingMechanism_eqb _ _); [discriminate|].
  rewrite keys_map_iter.
  destruct (order_or_keys _ _) as [|k0 r] eqn:E; [discriminate|].
  intros H. inversion H; subst it; clear H. split; [|split].
  - constructor; simpl; [reflexivity | reflexivity | lia].
  - simpl. apply keys_map_iter.
  - exists k0, r. split; reflexivity.
Qed.

Lemma rr_load_state_dict_after_record (dls : dict dataloader)
  (s : RoundRobin) (it0 it itf : RoundRobinIterator) :
  NoDup (order_or_keys (rr_iteration_order s) (keys dls)) ->
  RoundRobinIterator_init dls s = Return it0 ->
  rr_after_record it0 it ->
  RoundRobinIterator_init (rr_individual_iterators it) s = Return itf ->
  exists f0, forall f,
    f0 <= f -> rr_load_state_dict f (rr_state_dict it) itf = Return it.
Proof.
  intros Hnd Hinit (fuel & n & r & l & Hlast) Hfresh.
  set (order := order_or_keys (rr_iteration_order s) (keys dls)) in *.
  destruct (RoundRobinIterator_init_inv _ _ _ Hinit) as (Hinv0 & Hk0 & _).
  fold order in Hinv0.
  destruct (rr_after_preserves s order fuel n it0 Hinv0) as [Hinv1 Hk1].
  destruct (rr_next_preserves s order fuel _ _ _ _ Hinv1 Hlast)
    as (Hinv & Hk & Hcur).
  specialize (Hcur r eq_refl).
  destruct (RoundRobinIterator_init_inv _ _ _ Hfresh)
    as (_ & _ & k0 & rest & Ho & ->).
  assert (Hkeys : keys (rr_individual_iterators it) = keys dls) by congruence.
  assert (Ho' : order = k0 :: rest).
  { unfold order. etransitivity; [|exact Ho]. f_equal. symmetry.
    exact Hkeys. }
  clear Ho. rename Ho' into Ho.
  rewrite map_iter_id.
  destruct it as [s' its c k fin]. simpl in *.
  destruct Hinv as [Hs _ _]. simpl in Hs. subst s'.
  destruct Hcur as [Hsaved (i & Hi & Hpos)].
  destruct c as [saved pos]. simpl in *. subst saved pos.
  assert (Hilt : i < length order) by (apply nth_error_Some; congruence).
  exists (S (S (2 * length order))). intros f Hf.
  unfold rr_load_state_dict, rr_state_dict. simpl.
  rewrite <- Ho.
  replace f with (S i + (f - S i)) at 1 by lia.
  rewrite (cycle_contains_finds order k i Hnd Hi i 0 (f - S i));
    [|lia|simpl; lia].
  destruct (String.eqb_spec k0 k) as [->|Hne].
  - (* the saved key is the first of the cycle *)
    assert (f = S (f - 1)) as -> by lia. simpl.
    rewrite String.eqb_refl. reflexivity.
  - assert (f = S (f - 1)) as -> by lia.
    rewrite seek_cursor_as_contains by assumption.
    set (p := wrap (length order) (S i)).
    set (d := if p <=? i then i - p else length order - p + i).
    assert (Hp : p < length order) by (now apply wrap_lt).
    assert (Hd : d <= 2 * length order).
    { unfold d. destruct (p <=? i); lia. }
    replace (S (f - 1)) with (S d + (f - 1 - d)) by lia.
    rewrite (cycle_contains_finds order k i Hnd Hi d p (f - 1 - d) Hp eq_refl).
    reflexivity.
Qed.

(** ** Snapshots of an in-order iterator *)

Lemma io_next_ended (fuel : nat) (it : InOrderIterator) :
  io_iterators_finished it = io_num_iterators it ->
  io_next (S fuel) it = (Raise StopIteration, it, []).
Proof. intros H. simpl. apply Nat.eqb_eq in H. now rewrite H. Qed.

Section InOrderDraw.
Variables (again : InOrderIterator ->
                   outcome record * InOrderIterator * list event)
          (dls : dict dataloader) (order : list string) (idx : nat)
          (k : string) (num fin : nat).

Lemma io_draw_batch (b : batch) (rest : iterator) :
  io_draw again (mkInOrderIterator dls order (b :: rest) idx k num fin)
  = (Return [(k, b)], mkInOrderIterator dls order rest idx k num fin,
     [EvNext k]).
Proof. reflexivity. Qed.

Lemma io_draw_last :
  S fin = num ->
  io_draw again (mkInOrderIterator dls order [] idx k num fin)
  = (Raise StopIteration, mkInOrderIterator dls order [] idx k num (S fin),
     [EvNext k]).
Proof.
  intros H. unfold io_draw. cbn [io_cur_iter io_cur_iterator
    io_iterators_finished io_num_iterators].
  apply Nat.eqb_eq in H. rewrite H. reflexivity.
Qed.

Lemma io_draw_open (k' : string) (dl : dataloader) :
  S fin <> num ->
  nth_error order (S fin) = Some k' ->
  lookup k' dls = Some dl ->
  io_draw again (mkInOrderIterator dls order [] idx k num fin)
  = let '(r, it', l) :=
      again (mkInOrderIterator dls order (iter dl) (S idx) k' num (S fin)) in
    (r, it', EvNext k :: [EvIter k'] ++ l).
Proof.
  intros H Hk Hl. unfold io_draw. cbn [io_cur_iter io_cur_iterator
    io_iterators_finished io_num_iterators].
  apply Nat.eqb_neq in H. rewrite H. unfold io_open.
  cbn [io_iteration_order io_iterators_finished io_individual_dataloaders
       io_cur_iterator_idx io_cur_iter io_cur_iterator io_num_iterators].
  rewrite Hk, Hl. reflexivity.
Qed.

Lemma io_draw_key_error (k' : string) :
  S fin <> num ->
  nth_error order (S fin) = Some k' ->
  lookup k' dls = None ->
  io_draw again (mkInOrderIterator dls order [] idx k num fin)
  = (Raise KeyError, mkInOrderIterator dls order [] (S idx) k' num (S fin),
     [EvNext k]).
Proof.
  intros H Hk Hl. unfold io_draw. cbn [io_cur_iter io_cur_iterator
    io_iterators_finished io_num_iterators].
  apply Nat.eqb_neq in H. rewrite H. unfold io_open.
  cbn [io_iteration_order io_iterators_finished io_individual_dataloaders
       io_cur_iterator_idx io_cur_iter io_cur_iterator io_num_iterators].
  rewrite Hk, Hl. reflexivity.
Qed.

Lemma io_draw_index_error :
  S fin <> num ->
  nth_error order (S fin) = None ->
  io_draw again (mkInOrderIterator dls order [] idx k num fin)
  = (Raise IndexError, mkInOrderIterator dls order [] (S idx) k num (S fin),
     [EvNext k]).
Proof.
  intros H Hk. unfold io_draw. cbn [io_cur_iter io_cur_iterator
    io_iterators_finished io_num_iterators].
  apply Nat.eqb_neq in H. rewrite H. unfold io_open.
  cbn [io_iteration_order io_iterators_finished io_individual_dataloaders
       io_cur_iterator_idx io_cur_iter io_cur_iterator io_num_iterators].
  rewrite Hk. reflexivity.
Qed.
End InOrderDraw.

Lemma io_next_settled (f : nat) (dls : dict dataloader) (order : list string)
  (h : iterator) (k : string) (num fin : nat) :
  fin <> num ->
  io_next (S f) (mkInOrderIterator dls order h fin k num fin)
  = io_draw (io_next f) (mkInOrderIterator dls order h fin k num fin).
Proof.
  intros H. simpl. apply Nat.eqb_neq in H. rewrite H, Nat.eqb_refl.
  reflexivity.
Qed.

Lemma io_similar_same (dlsa dlsb : dict dataloader) (order : list string)
  (h : iterator) (k : string) (num fin : nat) :
  (forall j k',
      fin < j -> nth_error order j = Some k' ->
      lookup k' dlsa = lookup k' dlsb) ->
  io_similar (mkInOrderIterator dlsa order h fin k num fin)
    (mkInOrderIterator dlsb order h fin k num fin).
Proof.
  intros H. right. simpl. split; [reflexivity|]. split; [reflexivity|].
  exact H.
Qed.

Lemma io_next_similar (fuel : nat) :
  forall a b,
    io_similar a b ->
    fst (fst (io_next fuel a)) = fst (fst (io_next fuel b))
    /\ io_similar (snd (fst (io_next fuel a))) (snd (fst (io_next fuel b))).
Proof.
  induction fuel as [|f IH]; intros a b Hsim.
  - simpl. split; [reflexivity | assumption].
  - destruct Hsim as [[Ha Hb]|(Hb & Hset & Hagree)].
    + rewrite (io_next_ended f a Ha), (io_next_ended f b Hb). simpl.
      split; [reflexivity | left; split; assumption].
    + destruct a as [dlsa order h idx k num fin].
      destruct b as [dlsb orderb hb idxb kb numb finb].
      unfold io_with_dls in Hb. simpl in Hb, Hset, Hagree.
      inversion Hb; subst; clear Hb.
      destruct (Nat.eq_dec fin num) as [E|E].
      { rewrite !io_next_ended by exact E. simpl.
        split; [reflexivity | left; split; assumption]. }
      rewrite !io_next_settled by exact E.
      destruct h as [|x rest].
      * destruct (Nat.eq_dec (S fin) num) as [E1|E1].
        { rewrite !io_draw_last by exact E1. simpl.
          split; [reflexivity | left; split; assumption]. }
        assert (Hlater : forall j k',
                   S fin < j -> nth_error order j = Some k' ->
                   lookup k' dlsa = lookup k' dlsb).
        { intros j k' Hj. apply Hagree. lia. }
        destruct (nth_error order (S fin)) as [k'|] eqn:Ek.
        -- pose proof (Hagree (S fin) k' (Nat.lt_succ_diag_r fin) Ek) as Hl.
           destruct (lookup k' dlsa) as [dl|] eqn:El.
           ++ rewrite (io_draw_open _ dlsa _ _ _ _ _ k' dl E1 Ek El).
              rewrite (io_draw_open _ dlsb _ _ _ _ _ k' dl E1 Ek (eq_sym Hl)).
              specialize (IH _ _ (io_similar_same dlsa dlsb order (iter dl)
                                    k' num (S fin) Hlater)).
              destruct (io_next f (mkInOrderIterator dlsa _ _ _ _ _ _))
                as [[ra a'] la].
              destruct (io_next f (mkInOrderIterator dlsb _ _ _ _ _ _))
                as [[rb b'] lb].
              exact IH.
           ++ rewrite (io_draw_key_error _ dlsa _ _ _ _ _ k' E1 Ek El).
              rewrite (io_draw_key_error _ dlsb _ _ _ _ _ k' E1 Ek
                         (eq_sym Hl)).
              simpl. split; [reflexivity|]. now apply io_similar_same.
        -- rewrite !io_draw_index_error by assumption. simpl.
           split; [reflexivity|]. now apply io_similar_same.
      * rewrite !io_draw_batch. simpl. split; [reflexivity|].
        now apply io_similar_same.
Qed.

Lemma io_outcomes_similar (fuel n : nat) :
  forall a b,
    io_similar a b ->
    outcomes (io_next fuel) n a = outcomes (io_next fuel) n b.
Proof.
  induction n as [|n IH]; intros a b Hsim; simpl; [reflexivity|].
  destruct (io_next_similar fuel a b Hsim) as [Hr Hs].
  destruct (io_next fuel a) as [[ra a'] la].
  destruct (io_next fuel b) as [[rb b'] lb].
  simpl in *. subst rb. f_equal. now apply IH.
Qed.

Lemma InOrderIterator_init_inv (dls : dict dataloader) (s : InOrder)
  (it : InOrderIterator) :
  InOrderIterator_init dls s = Return it ->
  exists k0 r dl0,
    order_or_keys (io_strategy_iteration_order s) (keys dls) = k0 :: r
    /\ lookup k0 dls = Some dl0
    /\ it = mkInOrderIterator dls (k0 :: r) (iter dl0) 0 k0
              (length (k0 :: r)) 0.
Proof.
  unfold InOrderIterator_init.
  destruct (order_or_keys _ _) as [|k0 r]; [discriminate|].
  destruct (lookup k0 dls) as [dl0|] eqn:E; [|discriminate].
  intros H. inversion H; subst. exists k0, r, dl0. repeat split.
  exact E.
Qed.

Lemma io_next_inv (dls : dict dataloader) (order : list string)
  (fuel : nat) :
  forall it,
    io_inv dls order it ->
    io_inv dls order (snd (fst (io_next fuel it))).
Proof.
  induction fuel as [|f IH]; intros it Hinv; [exact Hinv|].
  destruct it as [dls' order' h idx k num fin].
  destruct Hinv as [Hd Ho Hn Hc]. simpl in Hd, Ho, Hn, Hc. subst dls' order' num.
  destruct (Nat.eq_dec fin (length order)) as [E|E].
  { rewrite io_next_ended by exact E. simpl. constructor; simpl; auto. }
  destruct Hc as [[Hidx Hk]|[Hf _]]; [|contradiction]. subst idx.
  rewrite io_next_settled by exact E.
  assert (Hlt : fin < length order) by (apply nth_error_Some; congruence).
  destruct h as [|x rest].
  - destruct (Nat.eq_dec (S fin) (length order)) as [E1|E1].
    { rewrite io_draw_last by exact E1. simpl.
      constructor; simpl; auto. right. split; [assumption|].
      eapply nth_error_In. eassumption. }
    destruct (nth_error order (S fin)) as [k'|] eqn:Ek.
    2:{ apply nth_error_None in Ek. lia. }
    destruct (lookup k' dls) as [dl|] eqn:El.
    + rewrite (io_draw_open _ dls _ _ _ _ _ k' dl E1 Ek El).
      specialize (IH (mkInOrderIterator dls order (iter dl) (S fin) k'
                        (length order) (S fin))).
      destruct (io_next f _) as [[r a'] l]. simpl in *. apply IH.
      constructor; simpl; auto.
    + rewrite (io_draw_key_error _ dls _ _ _ _ _ k' E1 Ek El). simpl.
      constructor; simpl; auto.
  - rewrite io_draw_batch. simpl. constructor; simpl; auto.
Qed.

Lemma io_after_inv (dls : dict dataloader) (order : list string)
  (fuel n : nat) :
  forall it,
    io_inv dls order it -> io_inv dls order (after (io_next fuel) n it).
Proof.
  induction n as [|n IH]; intros it Hinv; simpl; [assumption|].
  apply IH. now apply io_next_inv.
Qed.

Lemma io_outcomes_no_fuel {St : Type}
  (next : nat -> St -> outcome record * St * list event) (n : nat) :
  (forall st, next 0 st = (OutOfFuel, st, [])) ->
  forall st, outcomes (next 0) n st = repeat OutOfFuel n.
Proof.
  intros H. induction n as [|n IH]; intros st; simpl; [reflexivity|].
  rewrite H. now rewrite IH.
Qed.

(** The first call after a restore re-creates the handle of the saved
    position and goes on as the iterator that stands there. *)
Lemma io_next_reopen (f : nat) (dls : dict dataloader) (order : list string)
  (h0 : iterator) (idx : nat) (k0 k : string) (num fin : nat)
  (dl : dataloader) :
  fin <> num -> fin <> idx ->
  nth_error order fin = Some k ->
  lookup k dls = Some dl ->
  io_next (S f) (mkInOrderIterator dls order h0 idx k0 num fin)
  = let '(r, it', l) :=
      io_next (S f) (mkInOrderIterator dls order (iter dl) fin k num fin) in
    (r, it', [EvIter k] ++ l).
Proof.
  intros Hn Hi Hk Hl. rewrite (io_next_settled f dls order (iter dl) k num fin Hn).
  simpl io_next at 1.
  apply Nat.eqb_neq in Hn. apply Nat.eqb_neq in Hi.
  cbn [io_iterators_finished io_num_iterators io_cur_iterator_idx].
  rewrite Hn, Hi. simpl negb. cbv iota. unfold io_open.
  cbn [io_iteration_order io_iterators_finished io_individual_dataloaders
       io_cur_iterator_idx io_cur_iter io_cur_iterator io_num_iterators].
  rewrite Hk, Hl. reflexivity.
Qed.

Lemma io_outcomes_reopen (fuel n : nat) (dls : dict dataloader)
  (order : list string) (h0 : iterator) (idx : nat) (k0 k : string)
  (num fin : nat) (dl : dataloader) :
  fin <> num -> fin <> idx ->
  nth_error order fin = Some k ->
  lookup k dls = Some dl ->
  outcomes (io_next fuel) n (mkInOrderIterator dls order h0 idx k0 num fin)
  = outcomes (io_next fuel) n
      (mkInOrderIterator dls order (iter dl) fin k num fin).
Proof.
  intros Hn Hi Hk Hl. destruct fuel as [|f].
  - rewrite !io_outcomes_no_fuel by reflexivity. reflexivity.
  - destruct n as [|n]; [reflexivity|].
    change (outcomes (io_next (S f)) (S n)
              (mkInOrderIterator dls order h0 idx k0 num fin))
      with (let '(r, st', _) :=
              io_next (S f) (mkInOrderIterator dls order h0 idx k0 num fin) in
            r :: outcomes (io_next (S f)) n st').
    change (outcomes (io_next (S f)) (S n)
              (mkInOrderIterator dls order (iter dl) fin k num fin))
      with (let '(r, st', _) :=
              io_next (S f)
                (mkInOrderIterator dls order (iter dl) fin k num fin) in
            r :: outcomes (io_next (S f)) n st').
    rewrite (io_next_reopen f dls order h0 idx k0 k num fin dl Hn Hi Hk Hl).
    destruct (io_next (S f) (mkInOrderIterator dls order (iter dl) fin k
                               num fin)) as [[r it'] l].
    reflexivity.
Qed.

Lemma io_load_state_dict_positioned (dls : dict dataloader) (s : InOrder)
  (it itf : InOrderIterator) :
  NoDup (order_or_keys (io_strategy_iteration_order s) (keys dls)) ->
  incl (order_or_keys (io_strategy_iteration_order s) (keys dls))
    (keys dls) ->
  io_inv dls (order_or_keys (io_strategy_iteration_order s) (keys dls)) it ->
  InOrderIterator_init
    (setitem (io_cur_iterator it) (io_cur_iter it) dls) s = Return itf ->
  forall fuel n,
    outcomes (io_next fuel) n (io_load_state_dict (io_state_dict it) itf)
    = outcomes (io_next fuel) n it.
Proof.
  set (order := order_or_keys (io_strategy_iteration_order s) (keys dls)).
  intros Hnd Hincl Hinv Hfresh fuel n.
  destruct it as [dls' order' h idx k num fin].
  destruct Hinv as [Hd Ho Hn Hc]. simpl in Hd, Ho, Hn, Hc, Hfresh.
  subst dls' order' num.
  assert (Hk : In k order).
  { destruct Hc as [[_ Hk]|[_ Hk]]; [|assumption].
    eapply nth_error_In. eassumption. }
  assert (Hkeys : keys (setitem k h dls) = keys dls).
  { apply keys_setitem. now apply Hincl. }
  destruct (InOrderIterator_init_inv _ _ _ Hfresh)
    as (k0 & r & dl0 & Ho & Hl0 & ->).
  assert (Ho' : order = k0 :: r).
  { unfold order. etransitivity; [|exact Ho]. f_equal. symmetry.
    exact Hkeys. }
  clear Ho. rewrite <- Ho' in *.
  assert (Hfin : fin <= length order).
  { destruct Hc as [[_ Hc]|[Hc _]]; [|lia].
    assert (fin < length order) by (apply nth_error_Some; congruence). lia. }
  unfold io_load_state_dict, io_state_dict. simpl.
  apply mem_true_iff in Hk. rewrite Hk. simpl.
  destruct (Nat.ltb_spec (length order) fin) as [Hlt|_]; [lia|].
  assert (Hagree : forall j k',
             fin < j -> nth_error order j = Some k' ->
             lookup k' dls = lookup k' (setitem k h dls)).
  { intros j k' Hj Hk'. destruct Hc as [[_ Hc]|[Hc _]].
    - rewrite lookup_setitem_other; [reflexivity|]. intros ->.
      assert (Hjl : j < length order) by (apply nth_error_Some; congruence).
      pose proof (proj1 (NoDup_nth_error order) Hnd j fin Hjl
                    (eq_trans Hk' (eq_sym Hc))). lia.
    - assert (j < length order) by (apply nth_error_Some; congruence). lia. }
  destruct Hc as [[Hidx Hc]|[Hc _]].
  - subst idx. destruct fin as [|f1].
    + (* nothing finished yet: the fresh handle is the positioned source *)
      rewrite Ho' in Hc. simpl in Hc. inversion Hc; subst k0.
      rewrite lookup_setitem, String.eqb_refl in Hl0. inversion Hl0; subst dl0.
      symmetry. apply io_outcomes_similar. unfold iter.
      now apply io_similar_same.
    + rewrite (io_outcomes_reopen fuel n _ order _ 0 k0 k _ (S f1) h).
      * symmetry. apply io_outcomes_similar. unfold iter.
        now apply io_similar_same.
      * assert (S f1 < length order) by (apply nth_error_Some; congruence).
        lia.
      * discriminate.
      * exact Hc.
      * rewrite lookup_setitem, String.eqb_refl. reflexivity.
  - symmetry. apply io_outcomes_similar. left. simpl. split; assumption.
Qed.

Lemma InOrderIterator_init_io_inv (dls : dict dataloader) (s : InOrder)
  (it : InOrderIterator) :
  InOrderIterator_init dls s = Return it ->
  io_inv dls (order_or_keys (io_strategy_iteration_order s) (keys dls)) it.
Proof.
  intros H.
  destruct (InOrderIterator_init_inv _ _ _ H) as (k0 & r & dl0 & Ho & _ & ->).
  rewrite Ho. constructor; simpl; auto.
Qed.

(** ** Restoring a snapshot *)

(** The snapshot records the cursor, not how far each source has been
    read; take the fresh iterator over the sources as the original left
    them, and a cycle (or iteration) order without repeated key.
    - Round robin: restoring the snapshot taken right after a record was
      produced gives back the very state of the original, hence the same
      remaining sequence.
    - In order: restoring the snapshot taken after any number of calls,
      none included, gives an iterator whose calls have the same
      outcomes, one by one, as those of the original. *)
Theorem snapshot_restore_positioned :
  (forall dls s it0 it itf,
      NoDup (order_or_keys (rr_iteration_order s) (keys dls)) ->
      RoundRobinIterator_init dls s = Return it0 ->
      rr_after_record it0 it ->
      RoundRobinIterator_init (rr_individual_iterators it) s = Return itf ->
      exists f0, forall f,
        f0 <= f -> rr_load_state_dict f (rr_state_dict it) itf = Return it)
  /\ (forall dls s it0 fuel0 n0 itf,
        NoDup (order_or_keys (io_strategy_iteration_order s) (keys dls)) ->
        incl (order_or_keys (io_strategy_iteration_order s) (keys dls))
          (keys dls) ->
        InOrderIterator_init dls s = Return it0 ->
        InOrderIterator_init
          (setitem (io_cur_iterator (after (io_next fuel0) n0 it0))
             (io_cur_iter (after (io_next fuel0) n0 it0)) dls) s
        = Return itf ->
        forall fuel n,
          outcomes (io_next fuel) n
            (io_load_state_dict
               (io_state_dict (after (io_next fuel0) n0 it0)) itf)
          = outcomes (io_next fuel) n (after (io_next fuel0) n0 it0)).
Proof.
  split.
  - intros dls s it0 it itf. apply rr_load_state_dict_after_record.
  - intros dls s it0 fuel0 n0 itf Hnd Hincl Hinit Hfresh.
    apply (io_load_state_dict_positioned dls s); try assumption.
    apply io_after_inv. now apply InOrderIterator_init_io_inv.
Qed.

Lemma snapshot_restore_positioned_witness :
  (exists f0, forall f,
      f0 <= f ->
      rr_load_state_dict f (rr_state_dict rr_ab_after_two)
        (rr_of (rr_individual_iterators rr_ab_after_two)
           (mkRoundRobin ALL_DATASETS_EXHAUSTED None))
      = Return rr_ab_after_two)
  /\ (forall fuel n,
        outcomes (io_next fuel) n
          (io_load_state_dict (io_state_dict io_ab_after_two)
             (io_of (setitem (io_cur_iterator io_ab_after_two)
                       (io_cur_iter io_ab_after_two) loaders_ab)
                (mkInOrder None)))
        = outcomes (io_next fuel) n io_ab_after_two).
Proof.
  destruct snapshot_restore_positioned as [Hrr Hio]. split.
  - apply (Hrr loaders_ab (mkRoundRobin ALL_DATASETS_EXHAUSTED None)
             (rr_of loaders_ab (mkRoundRobin ALL_DATASETS_EXHAUSTED None))).
    + simpl. repeat constructor; simpl; intuition discriminate.
    + reflexivity.
    + exists 10, 1. eexists. eexists. reflexivity.
    + reflexivity.
  - apply (Hio loaders_ab (mkInOrder None)
             (io_of loaders_ab (mkInOrder None)) 10 2).
    + simpl. repeat constructor; simpl; intuition discriminate.
    + simpl. apply incl_refl.
    + reflexivity.
    + reflexivity.
Defined.

(** The snapshot of a freshly constructed round-robin iterator over [a]
    and [b], restored into another fresh one: the original goes on with
    a, b, b, b, the restored one with b, a, b, b. *)
Lemma rr_restore_at_start_sequences :
  rr_load_state_dict 10
    (rr_state_dict
       (rr_of loaders_ab (mkRoundRobin ALL_DATASETS_EXHAUSTED None)))
    (rr_of loaders_ab (mkRoundRobin ALL_DATASETS_EXHAUSTED None))
  = Return rr_restored_at_start
  /\ selected_keys
       (fst (fst (collect (rr_next 10) 10
                    (rr_of loaders_ab
                       (mkRoundRobin ALL_DATASETS_EXHAUSTED None)))))
     = ["a"; "b"; "b"; "b"]
  /\ selected_keys
       (fst (fst (collect (rr_next 10) 10 rr_restored_at_start)))
     = ["b"; "a"; "b"; "b"].
Proof. repeat split. Qed.

(** C8. Restoring the snapshot of a round-robin iterator that has made
    no call yet, into a freshly constructed iterator over the same
    sources, moves the cycle past its first key.  When the cycle begins
    with two different keys, of sources that hold a batch, the first call
    of the original returns the first batch of the first source of the
    cycle, and the first call of the restored iterator the first batch of
    the second one: the restored iterator does not produce the sequence
    of the original.  (A snapshot taken after a record is restored to the
    state of the original, and an in-order iterator is restored rightly
    from its snapshot before any call as well: see
    [snapshot_restore_positioned].) *)
Theorem rr_restore_at_start_skips_first_source :
  forall (dls : dict dataloader) (s : RoundRobin)
         (it0 itf : RoundRobinIterator) (k0 k1 : string) (r : list string)
         (b0 b1 : batch) (rest0 rest1 : list batch),
    RoundRobinIterator_init dls s = Return it0 ->
    RoundRobinIterator_init dls s = Return itf ->
    order_or_keys (rr_iteration_order s) (keys dls) = k0 :: k1 :: r ->
    k0 <> k1 ->
    lookup k0 dls = Some (b0 :: rest0) ->
    lookup k1 dls = Some (b1 :: rest1) ->
    exists itr,
      (forall f,
          rr_load_state_dict (S f) (rr_state_dict it0) itf = Return itr)
      /\ (forall f, fst (fst (rr_next (S f) it0)) = Return [(k0, b0)])
      /\ (forall f, fst (fst (rr_next (S f) itr)) = Return [(k1, b1)])
      /\ [(k0, b0)] <> [(k1, b1)].
Proof.
  intros dls s it0 itf k0 k1 r b0 b1 rest0 rest1 Hinit Hf Ho Hne H0 H1.
  rewrite Hinit in Hf. inversion Hf; subst itf. clear Hf.
  unfold RoundRobinIterator_init in Hinit.
  destruct (StoppingMechanism_eqb _ _); [discriminate|].
  rewrite keys_map_iter, Ho in Hinit. inversion Hinit; subst it0.
  clear Hinit.
  assert (Hlen : (length (@nil string)
                  =? length (map (fun nd : string * dataloader =>
                                    (fst nd, iter (snd nd))) dls)) = false).
  { destruct dls; [discriminate | reflexivity]. }
  simpl in Hlen.
  eexists. split; [intros f | split; [intros f | split; [intros f|]]].
  - unfold rr_load_state_dict. simpl. rewrite String.eqb_refl.
    reflexivity.
  - simpl. rewrite Hlen.
    destruct f; simpl; unfold rr_draw; simpl;
      rewrite lookup_map_iter, H0; reflexivity.
  - simpl. rewrite Hlen.
    destruct f; simpl; unfold rr_draw; simpl;
      rewrite lookup_map_iter, H1; reflexivity.
  - intros E. inversion E. contradiction.
Qed.

Lemma rr_restore_at_start_skips_first_source_witness :
  exists itr,
    (forall f,
        rr_load_state_dict (S f)
          (rr_state_dict
             (rr_of loaders_ab (mkRoundRobin ALL_DATASETS_EXHAUSTED None)))
          (rr_of loaders_ab (mkRoundRobin ALL_DATASETS_EXHAUSTED None))
        = Return itr)
    /\ (forall f,
          fst (fst (rr_next (S f)
                      (rr_of loaders_ab
                         (mkRoundRobin ALL_DATASETS_EXHAUSTED None))))
          = Return [("a", 0)])
    /\ (forall f, fst (fst (rr_next (S f) itr)) = Return [("b", 0)])
    /\ [("a", 0)] <> [("b", 0)].
Proof.
  apply (rr_restore_at_start_skips_first_source loaders_ab
           (mkRoundRobin ALL_DATASETS_EXHAUSTED None) _ _ "a" "b" []
           0 0 [] [1; 2]); try reflexivity.
  discriminate.
Defined.

(** * Further properties *)

(** ** Runs that end otherwise *)

Section RunTo.
Context {St : Type}.
Variable next : nat -> St -> outcome record * St * list event.

Lemma run_to_raise (st st' : St) (e : exn) (l : list event) :
  evals next st (Raise e, st', l) ->
  run_to next st []
    (match e with StopIteration => Ended | _ => Failed e end).
Proof.
  intros [f0 H]. exists (S f0). intros fuel calls Hf Hc.
  destruct calls as [|calls]; [lia|]. simpl.
  rewrite H by lia. destruct e; reflexivity.
Qed.

Lemma run_to_yield (st st' : St) (r : record) (l : list event)
  (recs : list record) (e : run_end) :
  evals next st (Return r, st', l) ->
  run_to next st' recs e ->
  run_to next st (r :: recs) e.
Proof.
  intros [f0 H] [n Hn]. exists (S (f0 + n)). intros fuel calls Hf Hc.
  destruct calls as [|calls]; [lia|]. simpl.
  rewrite H by lia.
  specialize (Hn fuel calls ltac:(lia) ltac:(lia)).
  destruct (collect (next fuel) calls st') as [[rs e'] st''].
  simpl in Hn. inversion Hn; subst. reflexivity.
Qed.

Hypothesis next_mono :
  forall f f' st r st' l,
    next f st = (r, st', l) -> r <> OutOfFuel -> f <= f' ->
    next f' st = (r, st', l).

(** A state whose next call ends as the next call of [st1] does, in the
    same state, has the same run. *)
Lemma run_to_transfer (st1 st2 : St) (recs : list record) (e : run_end) :
  e <> Unfinished ->
  (forall r st' l, r <> OutOfFuel -> evals next st1 (r, st', l) ->
                   exists l', evals next st2 (r, st', l')) ->
  run_to next st1 recs e ->
  run_to next st2 recs e.
Proof.
  intros He Htr [n Hn].
  destruct n as [|n].
  { specialize (Hn 0 0 (le_n 0) (le_n 0)). simpl in Hn.
    inversion Hn; subst. congruence. }
  destruct (next (S n) st1) as [[r st'] l] eqn:E1.
  assert (Hr : r <> OutOfFuel).
  { specialize (Hn (S n) (S n) (le_n _) (le_n _)). simpl in Hn.
    rewrite E1 in Hn. intros ->. simpl in Hn. inversion Hn; subst.
    congruence. }
  assert (Hev : evals next st1 (r, st', l)).
  { exists (S n). intros f Hle. eapply next_mono; eassumption. }
  destruct (Htr r st' l Hr Hev) as [l' [f0 H2]].
  exists (S n + f0). intros fuel calls Hf Hc.
  destruct calls as [|calls]; [lia|].
  specialize (Hn fuel (S calls) ltac:(lia) ltac:(lia)).
  simpl in Hn |- *.
  rewrite (next_mono _ fuel _ _ _ _ E1 Hr ltac:(lia)) in Hn.
  rewrite (H2 fuel ltac:(lia)).
  destruct r as [r0|e0|]; [exact Hn | exact Hn | congruence].
Qed.
End RunTo.

(** ** In order *)

Lemma io_draw_mono
  (again again' : InOrderIterator ->
                  outcome record * InOrderIterator * list event)
  (it it' : InOrderIterator) (r : outcome record) (l : list event) :
  (forall x r0 x' l0, again x = (r0, x', l0) -> r0 <> OutOfFuel ->
                      again' x = (r0, x', l0)) ->
  io_draw again it = (r, it', l) ->
  r <> OutOfFuel ->
  io_draw again' it = (r, it', l).
Proof.
  intros Hag H Hne. unfold io_draw in *.
  destruct (io_cur_iter it); [|assumption].
  destruct (_ =? _); [assumption|].
  destruct (io_open _ _) as [[[x| |] x2] l1]; try assumption.
  destruct (again x) as [[r0 x'] l0] eqn:E.
  inversion H; subst.
  rewrite (Hag _ _ _ _ E Hne). reflexivity.
Qed.

Lemma io_next_mono (f f' : nat) (st : InOrderIterator)
  (r : outcome record) (st' : InOrderIterator) (l : list event) :
  io_next f st = (r, st', l) -> r <> OutOfFuel -> f <= f' ->
  io_next f' st = (r, st', l).
Proof.
  revert f' st r st' l.
  induction f as [|f IH]; intros f' st r st' l H Hne Hle.
  - simpl in H. inversion H; subst. congruence.
  - destruct f' as [|f']; [lia|]. simpl in *.
    destruct (_ =? _); [assumption|].
    assert (Hag : forall x r0 x' l0,
               io_next f x = (r0, x', l0) -> r0 <> OutOfFuel ->
               io_next f' x = (r0, x', l0)).
    { intros x r0 x' l0 Hx Hr0. apply IH; [assumption|assumption|lia]. }
    destruct (negb _).
    + destruct (io_open _ _) as [[[x| |] x2] l1]; try assumption.
      destruct (io_draw (io_next f) x) as [[r0 x'] l0] eqn:E.
      inversion H; subst.
      rewrite (io_draw_mono _ _ _ _ _ _ Hag E Hne). reflexivity.
    + eapply io_draw_mono; eassumption.
Qed.

Lemma length_app_cons_neq {A : Type} (pre post : list A) (k : A) :
  length pre <> length (pre ++ k :: post).
Proof. rewrite length_app. simpl. lia. Qed.

(** The run of an in-order iterator that stands on the key after [pre],
    with the handle [h] on its source. *)
Lemma io_run_from (dls : dict dataloader) (order : list string) :
  forall post pre k h,
    order = pre ++ k :: post ->
    run_to io_next
      (mkInOrderIterator dls order h (length pre) k (length order)
         (length pre))
      (source_records k h ++ fst (io_run dls post))
      (snd (io_run dls post)).
Proof.
  induction post as [|k' post IH]; intros pre k h Ho.
  - induction h as [|b rest IHh].
    + simpl.
      apply (run_to_raise io_next _
               (mkInOrderIterator dls order [] (length pre) k (length order)
                  (S (length pre))) StopIteration [EvNext k]).
      exists 1. intros f Hf. destruct f as [|f]; [lia|].
      rewrite io_next_settled
        by (rewrite Ho; apply length_app_cons_neq).
      apply io_draw_last. rewrite Ho, length_app. simpl. lia.
    + simpl. eapply run_to_yield; [|exact IHh].
      exists 1. intros f Hf. destruct f as [|f]; [lia|].
      rewrite io_next_settled
        by (rewrite Ho; apply length_app_cons_neq).
      apply io_draw_batch.
  - assert (Hk' : nth_error order (S (length pre)) = Some k').
    { rewrite Ho. replace (pre ++ k :: k' :: post)
        with ((pre ++ [k]) ++ k' :: post) by now rewrite <- app_assoc.
      replace (S (length pre)) with (length (pre ++ [k]))
        by (rewrite length_app; simpl; lia).
      apply nth_error_middle. }
    assert (Hn : S (length pre) <> length order).
    { rewrite Ho, length_app. simpl. lia. }
    induction h as [|b rest IHh].
    + simpl. destruct (lookup k' dls) as [dl|] eqn:El.
      * specialize (IH (pre ++ [k]) k' (iter dl)).
        rewrite length_app in IH. simpl in IH.
        replace (length pre + 1) with (S (length pre)) in IH by lia.
        eapply (run_to_transfer io_next io_next_mono);
          [| | apply IH; rewrite Ho, <- app_assoc; reflexivity].
        { destruct (io_run dls post) as [rs [| |]] eqn:E; simpl;
            try discriminate.
          clear - E. exfalso. revert rs E.
          induction post as [|x post IHp]; intros rs E; simpl in E;
            [discriminate|].
          destruct (lookup x dls); [|discriminate].
          inversion E. destruct (io_run dls post) as [rs' e'].
          simpl in *. subst e'. eapply IHp. reflexivity. }
        intros r st' l Hr [f0 Hev]. eexists. exists (S f0).
        intros f Hf. destruct f as [|f]; [lia|].
        rewrite io_next_settled
          by (rewrite Ho; apply length_app_cons_neq).
        rewrite (io_draw_open _ dls order _ k _ _ k' dl Hn Hk' El).
        rewrite (Hev f) by lia. reflexivity.
      * apply (run_to_raise io_next _
                 (mkInOrderIterator dls order [] (S (length pre)) k'
                    (length order) (S (length pre))) KeyError [EvNext k]).
        exists 1. intros f Hf. destruct f as [|f]; [lia|].
        rewrite io_next_settled
          by (rewrite Ho; apply length_app_cons_neq).
        now apply io_draw_key_error.
    + simpl. eapply run_to_yield; [|exact IHh].
      exists 1. intros f Hf. destruct f as [|f]; [lia|].
      rewrite io_next_settled
        by (rewrite Ho; apply length_app_cons_neq).
      apply io_draw_batch.
Qed.

Lemma io_run_app (dls : dict dataloader) (pre rest : list string) :
  incl pre (keys dls) ->
  io_run dls (pre ++ rest)
  = (flat_map (fun k => source_records k (dl_of dls k)) pre
     ++ fst (io_run dls rest),
     snd (io_run dls rest)).
Proof.
  induction pre as [|k pre IH]; intros Hincl; simpl.
  - now destruct (io_run dls rest).
  - destruct (lookup_In k dls (Hincl k (or_introl eq_refl))) as [dl Hdl].
    unfold dl_of. rewrite Hdl, IH by (intros x Hx; apply Hincl; now right).
    simpl. now rewrite app_assoc.
Qed.

Lemma InOrderIterator_init_run (dls : dict dataloader) (s : InOrder)
  (it : InOrderIterator) :
  InOrderIterator_init dls s = Return it ->
  run_to io_next it
    (fst (io_run dls
            (order_or_keys (io_strategy_iteration_order s) (keys dls))))
    (snd (io_run dls
            (order_or_keys (io_strategy_iteration_order s) (keys dls)))).
Proof.
  intros H.
  destruct (InOrderIterator_init_inv _ _ _ H) as (k0 & r & dl0 & Ho & Hl & ->).
  rewrite Ho. simpl io_run. rewrite Hl. simpl fst. simpl snd.
  exact (io_run_from dls (k0 :: r) r [] k0 (iter dl0) eq_refl).
Qed.

Lemma length_source_records (k : string) (dl : dataloader) :
  length (source_records k dl) = length dl.
Proof. apply length_map. Qed.

Lemma length_passes (dls : dict dataloader) (ks : list string) :
  length (flat_map (fun k => source_records k (dl_of dls k)) ks)
  = list_sum (map (fun k => length (dl_of dls k)) ks).
Proof.
  induction ks as [|k ks IH]; simpl; [reflexivity|].
  now rewrite length_app, length_source_records, IH.
Qed.

Lemma io_draw_stop_finished
  (again : InOrderIterator -> outcome record * InOrderIterator * list event)
  (it it' : InOrderIterator) (l : list event) :
  (forall x x' l0, again x = (Raise StopIteration, x', l0) ->
                   io_iterators_finished x' = io_num_iterators x') ->
  io_draw again it = (Raise StopIteration, it', l) ->
  io_iterators_finished it' = io_num_iterators it'.
Proof.
  intros Hag H. unfold io_draw in H.
  destruct (io_cur_iter it); [|discriminate].
  destruct (_ =? _) eqn:E.
  - inversion H; subst. now apply Nat.eqb_eq in E.
  - unfold io_open in H.
    cbn [io_iteration_order io_iterators_finished io_individual_dataloaders
         io_cur_iterator_idx io_cur_iter io_cur_iterator io_num_iterators]
      in H.
    destruct (nth_error _ _); [|discriminate].
    destruct (lookup _ _); [|discriminate].
    destruct (again _) as [[r0 x'] l0] eqn:Ea.
    inversion H; subst. eapply Hag. eassumption.
Qed.

Lemma io_next_stop_finished (fuel : nat) :
  forall it it' l,
    io_next fuel it = (Raise StopIteration, it', l) ->
    io_iterators_finished it' = io_num_iterators it'.
Proof.
  induction fuel as [|f IH]; intros it it' l H; [discriminate|].
  simpl in H.
  destruct (_ =? _) eqn:E.
  { inversion H; subst. now apply Nat.eqb_eq in E. }
  destruct (negb _).
  - unfold io_open in H.
    destruct (nth_error _ _); [|discriminate].
    destruct (lookup _ _); [|discriminate].
    destruct (io_draw _ _) as [[r0 x'] l0] eqn:Ed.
    inversion H; subst.
    eapply io_draw_stop_finished; [|exact Ed]. exact IH.
  - eapply io_draw_stop_finished; [|exact H]. exact IH.
Qed.

Lemma io_ended_forever (fuel n : nat) (it : InOrderIterator) :
  io_iterators_finished it = io_num_iterators it ->
  outcomes (io_next (S fuel)) n it = repeat (Raise StopIteration) n
  /\ events (io_next (S fuel)) n it = []
  /\ after (io_next (S fuel)) n it = it.
Proof.
  intros H. induction n as [|n IH]; [repeat split|].
  destruct IH as (IH1 & IH2 & IH3).
  cbn [outcomes events after]. rewrite (io_next_ended fuel it H).
  cbn [fst snd]. rewrite IH1, IH2, IH3. repeat split.
Qed.

(** X1. An in-order iterator whose order names sources only delivers,
    before StopIteration, one pass over the source of each key of the
    order, the passes following the order; a key that is repeated in the
    order has its source read again from its first batch.  The number of
    records is the sum of the lengths of the sources along the order. *)
Theorem io_passes_in_order :
  forall (dls : dict dataloader) (s : InOrder) (it : InOrderIterator),
    InOrderIterator_init dls s = Return it ->
    incl (order_or_keys (io_strategy_iteration_order s) (keys dls))
      (keys dls) ->
    runs io_next it
      (flat_map (fun k => source_records k (dl_of dls k))
         (order_or_keys (io_strategy_iteration_order s) (keys dls)))
    /\ length
         (flat_map (fun k => source_records k (dl_of dls k))
            (order_or_keys (io_strategy_iteration_order s) (keys dls)))
       = list_sum
           (map (fun k => length (dl_of dls k))
              (order_or_keys (io_strategy_iteration_order s) (keys dls))).
Proof.
  intros dls s it Hinit Hincl. split; [|apply length_passes].
  pose proof (InOrderIterator_init_run dls s it Hinit) as Hrun.
  rewrite <- (app_nil_r (order_or_keys _ _)) in Hrun.
  rewrite io_run_app in Hrun by assumption. simpl in Hrun.
  rewrite !app_nil_r in Hrun. exact Hrun.
Qed.

Lemma io_passes_in_order_witness :
  runs io_next io_aba
    [[("a", 0)]; [("b", 0)]; [("b", 1)]; [("b", 2)]; [("a", 0)]].
Proof.
  refine (proj1 (io_passes_in_order loaders_ab
                   (mkInOrder (Some ["a"; "b"; "a"])) io_aba eq_refl _)).
  intros k Hk. simpl in *. intuition.
Defined.

(** X2. An in-order iterator whose order names, after keys of sources, a
    key that is no source is constructed all the same; it delivers the
    passes over the sources that precede that key, and the call that
    should open the missing source raises KeyError. *)
Theorem io_unknown_key_raises :
  forall (dls : dict dataloader) (s : InOrder) (it : InOrderIterator)
         (pre post : list string) (bad : string),
    InOrderIterator_init dls s = Return it ->
    order_or_keys (io_strategy_iteration_order s) (keys dls)
    = pre ++ bad :: post ->
    incl pre (keys dls) ->
    ~ In bad (keys dls) ->
    run_to io_next it
      (flat_map (fun k => source_records k (dl_of dls k)) pre)
      (Failed KeyError).
Proof.
  intros dls s it pre post bad Hinit Ho Hincl Hbad.
  pose proof (InOrderIterator_init_run dls s it Hinit) as Hrun.
  rewrite Ho, io_run_app in Hrun by assumption. simpl in Hrun.
  apply lookup_None_iff in Hbad. rewrite Hbad in Hrun. simpl in Hrun.
  rewrite app_nil_r in Hrun. exact Hrun.
Qed.

Lemma io_unknown_key_raises_witness :
  run_to io_next (io_of loaders_ab (mkInOrder (Some ["b"; "c"; "a"])))
    [[("b", 0)]; [("b", 1)]; [("b", 2)]] (Failed KeyError).
Proof.
  refine (io_unknown_key_raises loaders_ab (mkInOrder (Some ["b"; "c"; "a"]))
            _ ["b"] ["a"] "c" eq_refl eq_refl _ _).
  - intros k Hk. simpl in *. intuition.
  - simpl. intuition discriminate.
Defined.

(** X3. The end of an in-order iterator is final: once a call has raised
    StopIteration, every later call raises StopIteration, calls no source
    and leaves the iterator as it is. *)
Theorem io_end_is_final :
  forall (fuel : nat) (it it' : InOrderIterator) (l : list event),
    io_next fuel it = (Raise StopIteration, it', l) ->
    forall fuel' n,
      outcomes (io_next (S fuel')) n it' = repeat (Raise StopIteration) n
      /\ events (io_next (S fuel')) n it' = []
      /\ after (io_next (S fuel')) n it' = it'.
Proof.
  intros fuel it it' l H fuel' n. apply io_ended_forever.
  eapply io_next_stop_finished. eassumption.
Qed.

Lemma io_end_is_final_witness :
  outcomes (io_next 1) 3 (after (io_next 10) 6 io_aba)
  = [Raise StopIteration; Raise StopIteration; Raise StopIteration]
  /\ events (io_next 1) 3 (after (io_next 10) 6 io_aba) = [].
Proof.
  destruct (io_end_is_final 10 (after (io_next 10) 5 io_aba)
              (after (io_next 10) 6 io_aba) [EvNext "a"] eq_refl 0 3)
    as (H1 & H2 & _).
  split; [exact H1 | exact H2].
Defined.

(** ** All dataset batches under ALL_DATASETS_EXHAUSTED *)

Lemma keys_present (j : nat) (nd : string * dataloader) :
  incl (keys (present j nd)) [fst nd].
Proof.
  unfold present. destruct (nth_error _ _); simpl; intros x Hx;
    [assumption | contradiction].
Qed.

Lemma keys_row_present (j : nat) (dls : dict dataloader) :
  incl (keys (row_present j dls)) (keys dls).
Proof.
  induction dls as [|nd dls IH]; simpl; [intros x []|].
  unfold row_present in *. simpl. rewrite keys_app.
  intros x Hx. apply in_app_or in Hx. destruct Hx as [Hx|Hx].
  - apply keys_present in Hx. simpl in Hx. destruct Hx as [<-|[]].
    now left.
  - right. now apply IH.
Qed.

Lemma row_present_app (j : nat) (d1 d2 : dict dataloader) :
  row_present j (d1 ++ d2) = row_present j d1 ++ row_present j d2.
Proof. apply flat_map_app. Qed.

Lemma skipn_nth_error_nil {A : Type} (l : list A) (j : nat) :
  skipn j l = [] -> nth_error l j = None /\ skipn (S j) l = [].
Proof.
  intros H. apply skipn_nil_length in H. split.
  - now apply nth_error_None.
  - apply skipn_all2. lia.
Qed.

Lemma skipn_nth_error_cons_batch (l : list batch) (j : nat) (b : batch)
  (rest : list batch) :
  skipn j l = b :: rest -> nth_error l j = Some b /\ skipn (S j) l = rest.
Proof.
  revert j. induction l as [|x l IH]; intros [|j] H; simpl in *;
    try discriminate.
  - inversion H. now split.
  - now apply IH.
Qed.

Section AllDatasetBatchesAll.
Variables (dls0 : dict dataloader) (fin : list string) (j : nat).

(** One call under ALL_DATASETS_EXHAUSTED, from the sources [post] on. *)
Lemma adb_for_all_row :
  forall post pre,
    NoDup (keys (pre ++ post)) ->
    adb_for (keys post)
      (mkAllDatasetBatchesIterator dls0 ALL_DATASETS_EXHAUSTED
         (advanced (S j) pre ++ advanced j post) fin)
      (row_present j pre)
    = (if length (row_present j (pre ++ post)) =? 0
       then Raise StopIteration
       else Return (row_present j (pre ++ post)),
       mkAllDatasetBatchesIterator dls0 ALL_DATASETS_EXHAUSTED
         (advanced (S j) (pre ++ post)) fin,
       map EvNext (keys post)).
Proof.
  induction post as [|[k dl] post IH]; intros pre Hnd.
  - simpl. rewrite !app_nil_r.
    destruct (length (row_present j pre) =? 0); reflexivity.
  - assert (Hk : ~ In k (keys pre)).
    { rewrite keys_app in Hnd. simpl in Hnd.
      now apply NoDup_app_cons_notin in Hnd. }
    specialize (IH (pre ++ [(k, dl)])).
    rewrite <- app_assoc in IH. specialize (IH Hnd).
    rewrite advanced_app, row_present_app, <- !app_assoc in IH.
    change (advanced (S j) [(k, dl)]) with [(k, skipn (S j) dl)] in IH.
    change (row_present j [(k, dl)]) with (present j (k, dl) ++ []) in IH.
    rewrite app_nil_r in IH.
    change ([(k, skipn (S j) dl)] ++ advanced j post)
      with ((k, skipn (S j) dl) :: advanced j post) in IH.
    change ([(k, dl)] ++ post) with ((k, dl) :: post) in IH.
    simpl. rewrite lookup_app_notin by (now rewrite keys_advanced).
    simpl. rewrite String.eqb_refl.
    destruct (skipn j dl) as [|b rest] eqn:Es.
    + destruct (skipn_nth_error_nil _ _ Es) as [Hb Hrest].
      unfold present in IH. cbn [fst snd] in IH.
      rewrite Hb, Hrest, app_nil_r in IH.
      rewrite_adb_for IH. reflexivity.
    + destruct (skipn_nth_error_cons_batch _ _ _ _ Es) as [Hb Hrest].
      unfold adb_set_iterator. simpl.
      rewrite setitem_app_notin by (now rewrite keys_advanced).
      simpl. rewrite String.eqb_refl.
      rewrite setitem_new
        by (intros Hin; apply keys_row_present in Hin; contradiction).
      unfold present in IH. cbn [fst snd] in IH.
      rewrite Hb, Hrest in IH.
      rewrite_adb_for IH. reflexivity.
Qed.
End AllDatasetBatchesAll.

Lemma length_row_present (j : nat) (dls : dict dataloader) :
  length (row_present j dls) = 0 <-> max_length dls <= j.
Proof.
  unfold max_length, lengths, row_present.
  induction dls as [|[k dl] dls IH]; simpl.
  - split; intros; lia.
  - rewrite length_app. unfold present at 1. simpl.
    destruct (nth_error dl j) as [b|] eqn:E; simpl.
    + assert (j < length dl) by (apply nth_error_Some; congruence).
      split; intros; lia.
    + apply nth_error_None in E. rewrite IH. split; intros; lia.
Qed.

Lemma lookup_row_present (j : nat) (dls : dict dataloader) (k : string) :
  NoDup (keys dls) ->
  lookup k (row_present j dls) = nth_error (dl_of dls k) j.
Proof.
  unfold dl_of, row_present.
  induction dls as [|[k' dl] dls IH]; intros Hnd; simpl.
  - now destruct j.
  - inversion Hnd as [|? ? Hk' Hnd']; subst.
    unfold present at 1. simpl.
    destruct (String.eqb_spec k k') as [->|Hne].
    + destruct (nth_error dl j) as [b|]; simpl.
      * now rewrite String.eqb_refl.
      * apply lookup_None_iff. intros Hin.
        apply (keys_row_present j dls) in Hin. contradiction.
    + destruct (nth_error dl j) as [b|]; simpl.
      * apply String.eqb_neq in Hne. rewrite Hne. now apply IH.
      * now apply IH.
Qed.

Lemma adb_all_runs_from (dls : dict dataloader) :
  NoDup (keys dls) ->
  forall d j,
    j + d = max_length dls ->
    runs adb_const_fuel
      (mkAllDatasetBatchesIterator dls ALL_DATASETS_EXHAUSTED
         (advanced j dls) [])
      (map (fun j' => row_present j' dls) (seq j d)).
Proof.
  intros Hnd. induction d as [|d IH]; intros j Hj.
  - pose proof (adb_for_all_row dls [] j dls [] Hnd) as H. simpl in H.
    assert (Hz : length (row_present j dls) = 0)
      by (apply length_row_present; lia).
    rewrite Hz in H. simpl in H.
    eapply runs_stop. apply adb_evals. unfold adb_next. simpl.
    rewrite keys_advanced. exact H.
  - pose proof (adb_for_all_row dls [] j dls [] Hnd) as H. simpl in H.
    assert (Hz : (length (row_present j dls) =? 0) = false).
    { apply Nat.eqb_neq. rewrite length_row_present. lia. }
    rewrite Hz in H. simpl.
    eapply runs_yield.
    + apply adb_evals. unfold adb_next. simpl. rewrite keys_advanced.
      exact H.
    + apply IH. lia.
Qed.

Lemma dl_of_cons_other (k k' : string) (dl : dataloader)
  (dls : dict dataloader) :
  k <> k' -> dl_of ((k', dl) :: dls) k = dl_of dls k.
Proof.
  intros Hne. unfold dl_of. simpl. apply String.eqb_neq in Hne.
  now rewrite Hne.
Qed.

Lemma keys_row_present_filter (j : nat) (dls : dict dataloader) :
  NoDup (keys dls) ->
  keys (row_present j dls)
  = filter (fun k => j <? length (dl_of dls k)) (keys dls).
Proof.
  unfold row_present.
  induction dls as [|[k dl] dls IH]; intros Hnd; simpl; [reflexivity|].
  inversion Hnd as [|? ? Hk Hnd']; subst.
  rewrite keys_app, IH by assumption.
  assert (Hd : dl_of ((k, dl) :: dls) k = dl).
  { unfold dl_of. simpl. now rewrite String.eqb_refl. }
  rewrite Hd.
  assert (Hf : filter (fun k0 => j <? length (dl_of ((k, dl) :: dls) k0))
                 (keys dls)
               = filter (fun k0 => j <? length (dl_of dls k0)) (keys dls)).
  { apply filter_ext_in. intros x Hx. rewrite dl_of_cons_other; [reflexivity|].
    intros ->. contradiction. }
  rewrite Hf. unfold present. simpl.
  destruct (nth_error dl j) as [b|] eqn:E.
  - assert (Hlt : j < length dl) by (apply nth_error_Some; congruence).
    apply Nat.ltb_lt in Hlt. rewrite Hlt. reflexivity.
  - apply nth_error_None in E.
    destruct (Nat.ltb_spec j (length dl)); [lia | reflexivity].
Qed.

(** X4. All dataset batches under ALL_DATASETS_EXHAUSTED, over sources
    with distinct keys: the run has as many records as the largest source
    has batches; the record of call [j] holds the batch of index [j] of
    exactly the sources that have one, in the order of the sources.  (Over
    no source at all the first call raises StopIteration.) *)
Theorem adb_all_exhausted_rows :
  forall (dls : dict dataloader) (it : AllDatasetBatchesIterator),
    NoDup (keys dls) ->
    AllDatasetBatchesIterator_init dls
      (mkAllDatasetBatches ALL_DATASETS_EXHAUSTED) = Return it ->
    runs adb_const_fuel it (adb_all_records dls)
    /\ length (adb_all_records dls) = max_length dls
    /\ (forall j,
          keys (row_present j dls)
          = filter (fun k => j <? length (dl_of dls k)) (keys dls))
    /\ (forall j k,
          lookup k (row_present j dls) = nth_error (dl_of dls k) j).
Proof.
  intros dls it Hnd Hinit. split; [|split; [|split]].
  - unfold AllDatasetBatchesIterator_init in Hinit. simpl in Hinit.
    inversion Hinit; subst it; clear Hinit. rewrite <- advanced_0.
    now apply adb_all_runs_from.
  - unfold adb_all_records. now rewrite length_map, length_seq.
  - intros j. now apply keys_row_present_filter.
  - intros j k. now apply lookup_row_present.
Qed.

Lemma adb_all_exhausted_rows_witness :
  runs adb_const_fuel
    (adb_of loaders_ab (mkAllDatasetBatches ALL_DATASETS_EXHAUSTED))
    [[("a", 0); ("b", 0)]; [("b", 1)]; [("b", 2)]].
Proof.
  refine (proj1 (adb_all_exhausted_rows loaders_ab _ _ eq_refl)).
  simpl. repeat constructor; simpl; intuition discriminate.
Defined.

(** ** All dataset batches: the end *)

Lemma adb_wf_set_iterator (it : AllDatasetBatchesIterator) (k : string)
  (h : iterator) :
  adb_wf it -> In k (keys (adb_individual_iterators it)) ->
  adb_wf (adb_set_iterator it k h).
Proof.
  intros [Hk Hn Hi] Hin. constructor; simpl.
  - now rewrite keys_setitem.
  - assumption.
  - now rewrite keys_setitem.
Qed.

Lemma adb_wf_mark (it : AllDatasetBatchesIterator) (k : string) :
  adb_wf it -> In k (keys (adb_individual_iterators it)) ->
  adb_wf (adb_set_finished it
            (if mem k (adb_iterators_finished it)
             then adb_iterators_finished it
             else adb_iterators_finished it ++ [k])).
Proof.
  intros [Hk Hn Hi] Hin. constructor; simpl; [assumption| |].
  - destruct (mem k _) eqn:E; [assumption|].
    apply mem_false_iff in E. apply NoDup_app; [assumption| |].
    + constructor; [intros []|constructor].
    + intros x Hx [<-|[]]. contradiction.
  - destruct (mem k _); [assumption|].
    intros x Hx. apply in_app_or in Hx. destruct Hx as [Hx|[<-|[]]];
      [now apply Hi | assumption].
Qed.

Ltac adb_wf_finish H :=
  let H1 := fresh in let H2 := fresh in let H3 := fresh in
  let H4 := fresh in
  destruct H as (H1 & H2 & H3 & H4);
  simpl in H2, H3, H4;
  split; [exact H1|];
  split; [first [exact H2 | congruence]|];
  split; [first [exact H3 | congruence]|];
  first [exact H4 | congruence | rewrite H4; simpl; now apply keys_setitem].

Ltac adb_wf_here Hwf :=
  split; [exact Hwf|]; split; [first [reflexivity | assumption]|];
  split; reflexivity.

Lemma adb_for_wf :
  forall ks it bd r it' l,
    adb_wf it ->
    incl ks (keys (adb_individual_iterators it)) ->
    adb_for ks it bd = (r, it', l) ->
    adb_wf it'
    /\ adb_stopping_mechanism it' = adb_stopping_mechanism it
    /\ adb_individual_dataloaders it' = adb_individual_dataloaders it
    /\ keys (adb_individual_iterators it')
       = keys (adb_individual_iterators it).
Proof.
  induction ks as [|k ks IH]; intros it bd r it' l Hwf Hincl H; simpl in H.
  - destruct (length bd =? 0); inversion H; subst; adb_wf_here Hwf.
  - assert (Hk : In k (keys (adb_individual_iterators it)))
      by (apply Hincl; now left).
    assert (Hks : incl ks (keys (adb_individual_iterators it)))
      by (intros x Hx; apply Hincl; now right).
    destruct (lookup k (adb_individual_iterators it)) as [[|b rest]|] eqn:El.
    + destruct (adb_stopping_mechanism it) eqn:Em.
      * destruct (adb_for ks it bd) as [[r0 it0] l0] eqn:E.
        inversion H; subst. apply IH in E; try assumption.
        adb_wf_finish E.
      * inversion H; subst. adb_wf_here Hwf.
      * pose proof (adb_wf_mark it k Hwf Hk) as Hwf1.
        set (it1 := adb_set_finished it _) in *.
        destruct (_ =? _).
        { inversion H; subst. adb_wf_here Hwf1. }
        destruct (lookup k (adb_individual_dataloaders it)) as [dl|].
        2:{ inversion H; subst. adb_wf_here Hwf1. }
        pose proof (adb_wf_set_iterator it1 k [] Hwf1 Hk) as Hwf2.
        destruct (iter dl) as [|b rest].
        { inversion H; subst. split; [exact Hwf2|].
          split; [assumption|]. split; [reflexivity|].
          simpl. now apply keys_setitem. }
        destruct (adb_for ks _ _) as [[r0 it0] l0] eqn:E.
        inversion H; subst. apply IH in E.
        -- subst it1. adb_wf_finish E.
        -- now apply adb_wf_set_iterator.
        -- simpl. now rewrite keys_setitem.
      * destruct (adb_for ks it bd) as [[r0 it0] l0] eqn:E.
        inversion H; subst. apply IH in E; try assumption.
        adb_wf_finish E.
    + destruct (adb_for ks _ _) as [[r0 it0] l0] eqn:E.
      inversion H; subst. apply IH in E.
      * adb_wf_finish E.
      * now apply adb_wf_set_iterator.
      * simpl. now rewrite keys_setitem.
    + inversion H; subst. adb_wf_here Hwf.
Qed.

(** Where a call that raised StopIteration has left the iterator. *)
Lemma adb_for_stop :
  forall ks it bd it' l,
    adb_wf it ->
    incl ks (keys (adb_individual_iterators it)) ->
    adb_for ks it bd = (Raise StopIteration, it', l) ->
    (ks = [] /\ bd = [] /\ it' = it)
    \/ match adb_stopping_mechanism it with
       | SMALLEST_DATASET_EXHAUSTED =>
           exists k, lookup k (adb_individual_iterators it') = Some []
       | RESTART_UNTIL_ALL_DATASETS_EXHAUSTED =>
           exists k,
             lookup k (adb_individual_iterators it') = Some []
             /\ (length (adb_iterators_finished it')
                 = length (adb_individual_iterators it')
                 \/ lookup k (adb_individual_dataloaders it') = Some [])
       | _ =>
           bd = [] /\ it' = it
           /\ forall k, In k ks ->
                        lookup k (adb_individual_iterators it) = Some []
       end.
Proof.
  induction ks as [|k ks IH]; intros it bd it' l Hwf Hincl H; simpl in H.
  - left. destruct bd; [|discriminate]. simpl in H. inversion H. auto.
  - right.
    assert (Hk : In k (keys (adb_individual_iterators it)))
      by (apply Hincl; now left).
    assert (Hks : incl ks (keys (adb_individual_iterators it)))
      by (intros x Hx; apply Hincl; now right).
    destruct (lookup k (adb_individual_iterators it)) as [[|b rest]|] eqn:El.
    + destruct (adb_stopping_mechanism it) eqn:Em.
      * destruct (adb_for ks it bd) as [[r0 it0] l0] eqn:E.
        inversion H; subst. apply IH in E; try assumption.
        rewrite Em in E.
        destruct E as [(-> & -> & ->)|(-> & -> & Hall)].
        -- repeat split. intros x [<-|[]]. assumption.
        -- repeat split. intros x [<-|Hx]; [assumption | now apply Hall].
      * inversion H; subst. now exists k.
      * pose proof (adb_wf_mark it k Hwf Hk) as Hwf1.
        set (it1 := adb_set_finished it _) in *.
        destruct (_ =? _) eqn:Efull.
        { inversion H; subst. exists k. split; [exact El|].
          left. now apply Nat.eqb_eq in Efull. }
        destruct (lookup k (adb_individual_dataloaders it)) as [dl|] eqn:Ed;
          [|discriminate].
        destruct (iter dl) as [|b rest] eqn:Ei.
        { inversion H; subst. exists k. simpl. split.
          - now rewrite lookup_setitem, String.eqb_refl.
          - right. unfold iter in Ei. now subst dl. }
        destruct (adb_for ks _ _) as [[r0 it0] l0] eqn:E.
        inversion H; subst. apply IH in E.
        -- simpl in E. rewrite Em in E.
           destruct E as [(_ & Hbd & _)|E]; [|exact E].
           exfalso. eapply setitem_nonempty. exact Hbd.
        -- now apply adb_wf_set_iterator.
        -- simpl. now rewrite keys_setitem.
      * destruct (adb_for ks it bd) as [[r0 it0] l0] eqn:E.
        inversion H; subst. apply IH in E; try assumption.
        rewrite Em in E.
        destruct E as [(-> & -> & ->)|(-> & -> & Hall)].
        -- repeat split. intros x [<-|[]]. assumption.
        -- repeat split. intros x [<-|Hx]; [assumption | now apply Hall].
    + destruct (adb_for ks _ _) as [[r0 it0] l0] eqn:E.
      inversion H; subst. apply IH in E.
      * simpl in E.
        destruct E as [(_ & Hbd & _)|E].
        { exfalso. eapply setitem_nonempty. exact Hbd. }
        destruct (adb_stopping_mechanism it); try exact E;
          destruct E as (Hbd & _); exfalso;
          eapply setitem_nonempty; exact Hbd.
      * now apply adb_wf_set_iterator.
      * simpl. now rewrite keys_setitem.
    + discriminate.
Qed.

Lemma adb_for_all_empty :
  forall ks it,
    adb_stopping_mechanism it <> SMALLEST_DATASET_EXHAUSTED ->
    adb_stopping_mechanism it <> RESTART_UNTIL_ALL_DATASETS_EXHAUSTED ->
    (forall k, In k ks -> lookup k (adb_individual_iterators it) = Some []) ->
    adb_for ks it [] = (Raise StopIteration, it, map EvNext ks).
Proof.
  induction ks as [|k ks IH]; intros it Hs Hr Hall; simpl; [reflexivity|].
  rewrite (Hall k (or_introl eq_refl)).
  rewrite IH by (try assumption; intros x Hx; apply Hall; now right).
  destruct (adb_stopping_mechanism it); congruence.
Qed.

Lemma adb_for_smallest_ended :
  forall ks it bd k,
    incl ks (keys (adb_individual_iterators it)) ->
    adb_stopping_mechanism it = SMALLEST_DATASET_EXHAUSTED ->
    In k ks ->
    lookup k (adb_individual_iterators it) = Some [] ->
    fst (fst (adb_for ks it bd)) = Raise StopIteration.
Proof.
  induction ks as [|k0 ks IH]; intros it bd k Hincl Hm Hin Hk; [contradiction|].
  simpl.
  assert (Hk0 : In k0 (keys (adb_individual_iterators it)))
    by (apply Hincl; now left).
  destruct (lookup_In k0 _ Hk0) as [h Hh]. rewrite Hh.
  destruct h as [|b rest]; [now rewrite Hm|].
  assert (Hne : k <> k0) by (intros ->; congruence).
  destruct Hin as [E|Hin]; [congruence|].
  specialize (IH (adb_set_iterator it k0 rest) (setitem k0 b bd) k).
  destruct (adb_for ks _ _) as [[r0 it0] l0]. simpl in *. apply IH.
  - rewrite keys_setitem by assumption.
    intros x Hx. apply Hincl. now right.
  - assumption.
  - assumption.
  - now rewrite lookup_setitem_other.
Qed.

Lemma adb_full_finished (it : AllDatasetBatchesIterator) (k : string) :
  adb_wf it ->
  length (adb_iterators_finished it) = length (adb_individual_iterators it) ->
  In k (keys (adb_individual_iterators it)) ->
  mem k (adb_iterators_finished it) = true.
Proof.
  intros [_ Hn Hi] Hlen Hk. apply mem_true_iff.
  refine (NoDup_length_incl Hn _ Hi k Hk).
  unfold keys. rewrite length_map. lia.
Qed.

Lemma adb_for_restart_ended :
  forall ks it bd k,
    adb_wf it ->
    incl ks (keys (adb_individual_iterators it)) ->
    adb_stopping_mechanism it = RESTART_UNTIL_ALL_DATASETS_EXHAUSTED ->
    In k ks ->
    lookup k (adb_individual_iterators it) = Some [] ->
    length (adb_iterators_finished it) = length (adb_individual_iterators it)
    \/ lookup k (adb_individual_dataloaders it) = Some [] ->
    fst (fst (adb_for ks it bd)) = Raise StopIteration.
Proof.
  induction ks as [|k0 ks IH]; intros it bd k Hwf Hincl Hm Hin Hk Hend;
    [contradiction|].
  simpl.
  assert (Hk0 : In k0 (keys (adb_individual_iterators it)))
    by (apply Hincl; now left).
  assert (Hks : incl ks (keys (adb_individual_iterators it)))
    by (intros x Hx; apply Hincl; now right).
  destruct (lookup_In k0 _ Hk0) as [h Hh]. rewrite Hh.
  destruct h as [|b rest].
  - rewrite Hm.
    pose proof (adb_wf_mark it k0 Hwf Hk0) as Hwf1.
    set (it1 := adb_set_finished it _) in *.
    destruct (_ =? _) eqn:Efull; [reflexivity|].
    assert (Hnf : length (adb_iterators_finished it)
                  <> length (adb_individual_iterators it)).
    { intros Hlen. pose proof (adb_full_finished it k0 Hwf Hlen Hk0) as Hmem.
      subst it1. simpl in Efull. rewrite Hmem in Efull.
      apply Nat.eqb_neq in Efull. contradiction. }
    destruct Hend as [Hfull|Hdl]; [contradiction|].
    assert (Hd0 : In k0 (keys (adb_individual_dataloaders it)))
      by (rewrite <- (wf_keys it Hwf); exact Hk0).
    destruct (lookup_In k0 _ Hd0) as [dl Hdl0].
    subst it1. simpl. rewrite Hdl0.
    destruct (iter dl) as [|b rest] eqn:Ei; [reflexivity|].
    assert (Hne : k <> k0).
    { intros ->. unfold iter in Ei. congruence. }
    destruct Hin as [E|Hin]; [congruence|].
    set (it1 := adb_set_finished it _) in *.
    specialize (IH (adb_set_iterator it1 k0 rest) (setitem k0 b bd) k).
    destruct (adb_for ks _ _) as [[r0 it0] l0]. simpl in *. apply IH.
    + now apply adb_wf_set_iterator.
    + now rewrite keys_setitem.
    + assumption.
    + assumption.
    + now rewrite lookup_setitem_other.
    + now right.
  - assert (Hne : k <> k0) by (intros ->; congruence).
    destruct Hin as [E|Hin]; [congruence|].
    specialize (IH (adb_set_iterator it k0 rest) (setitem k0 b bd) k).
    destruct (adb_for ks _ _) as [[r0 it0] l0]. simpl in *. apply IH.
    + now apply adb_wf_set_iterator.
    + now rewrite keys_setitem.
    + assumption.
    + assumption.
    + now rewrite lookup_setitem_other.
    + rewrite length_setitem by assumption. exact Hend.
Qed.

Lemma adb_next_stop_ended (it it' : AllDatasetBatchesIterator)
  (l : list event) :
  adb_wf it ->
  adb_next it = (Raise StopIteration, it', l) ->
  adb_wf it' /\ adb_ended it'.
Proof.
  intros Hwf H. unfold adb_next in H.
  destruct (adb_for_wf _ _ _ _ _ _ Hwf (incl_refl _) H)
    as (Hwf' & Hm & Hd & Hkeys).
  split; [assumption|].
  destruct (adb_for_stop _ _ _ _ _ Hwf (incl_refl _) H)
    as [(Hnil & _ & ->)|Hend].
  - now left.
  - right. rewrite Hm.
    destruct (adb_stopping_mechanism it); try exact Hend;
      destruct Hend as (_ & -> & Hall); exact Hall.
Qed.

Lemma adb_ended_next (it : AllDatasetBatchesIterator) :
  adb_wf it -> adb_ended it ->
  fst (fst (adb_next it)) = Raise StopIteration.
Proof.
  intros Hwf [Hnil|Hend]; unfold adb_next.
  - rewrite Hnil. reflexivity.
  - destruct (adb_stopping_mechanism it) eqn:Em.
    + rewrite adb_for_all_empty; [reflexivity | congruence | congruence
                                  | assumption].
    + destruct Hend as [k Hk].
      apply (adb_for_smallest_ended _ _ _ k); try assumption.
      * apply incl_refl.
      * eapply lookup_Some_In. eassumption.
    + destruct Hend as (k & Hk & Hend).
      apply (adb_for_restart_ended _ _ _ k); try assumption.
      * apply incl_refl.
      * eapply lookup_Some_In. eassumption.
    + rewrite adb_for_all_empty; [reflexivity | congruence | congruence
                                  | assumption].
Qed.

Lemma adb_ended_forever (n : nat) :
  forall it,
    adb_wf it -> adb_ended it ->
    outcomes adb_next n it = repeat (Raise StopIteration) n.
Proof.
  induction n as [|n IH]; intros it Hwf Hend; [reflexivity|].
  pose proof (adb_ended_next it Hwf Hend) as Hs.
  cbn [outcomes repeat].
  destruct (adb_next it) as [[r it'] l] eqn:E. simpl in Hs. subst r.
  destruct (adb_next_stop_ended _ _ _ Hwf E) as [Hwf' Hend'].
  now rewrite IH.
Qed.

Lemma AllDatasetBatchesIterator_init_wf (dls : dict dataloader)
  (s : AllDatasetBatches) (it : AllDatasetBatchesIterator) :
  AllDatasetBatchesIterator_init dls s = Return it -> adb_wf it.
Proof.
  unfold AllDatasetBatchesIterator_init.
  destruct (StoppingMechanism_eqb _ _); [discriminate|].
  intros H. inversion H; subst. constructor; simpl.
  - apply keys_map_iter.
  - constructor.
  - intros x [].
Qed.

Lemma adb_after_wf (n : nat) :
  forall it, adb_wf it -> adb_wf (after adb_next n it).
Proof.
  induction n as [|n IH]; intros it Hwf; simpl; [assumption|].
  apply IH. destruct (adb_next it) as [[r it'] l] eqn:E. simpl.
  unfold adb_next in E.
  now destruct (adb_for_wf _ _ _ _ _ _ Hwf (incl_refl _) E).
Qed.

(** X5. The end of an all-dataset-batches iterator is final in every
    stopping mechanism: once a call has raised StopIteration, every later
    call raises StopIteration. *)
Theorem adb_end_is_final :
  forall (dls : dict dataloader) (s : AllDatasetBatches)
         (it0 it' : AllDatasetBatchesIterator) (n : nat) (l : list event),
    AllDatasetBatchesIterator_init dls s = Return it0 ->
    adb_next (after adb_next n it0) = (Raise StopIteration, it', l) ->
    forall m, outcomes adb_next m it' = repeat (Raise StopIteration) m.
Proof.
  intros dls s it0 it' n l Hinit H m.
  pose proof (adb_after_wf n it0 (AllDatasetBatchesIterator_init_wf _ _ _ Hinit))
    as Hwf.
  destruct (adb_next_stop_ended _ _ _ Hwf H) as [Hwf' Hend].
  now apply adb_ended_forever.
Qed.

Lemma adb_end_is_final_witness :
  outcomes adb_next 3
    (after adb_next 2
       (adb_of loaders_ab (mkAllDatasetBatches SMALLEST_DATASET_EXHAUSTED)))
  = [Raise StopIteration; Raise StopIteration; Raise StopIteration].
Proof.
  exact (adb_end_is_final loaders_ab
           (mkAllDatasetBatches SMALLEST_DATASET_EXHAUSTED) _ _ 1
           [EvNext "a"] eq_refl eq_refl 3).
Defined.

(** ** All dataset batches: what the last call costs *)

Section AllDatasetBatchesDiscard.
Variables (dls0 : dict dataloader) (fin : list string) (j : nat)
          (k : string) (dl : dataloader) (post : dict dataloader).
Hypothesis Hshort : length dl <= j.

(** The call that finds the source [k] exhausted, after the sources
    [pre] that still have a batch. *)
Lemma adb_for_smallest_discard :
  forall pre pre0 bd,
    NoDup (keys (pre0 ++ pre ++ (k, dl) :: post)) ->
    (forall nd, In nd pre -> j < length (snd nd)) ->
    adb_for (keys (pre ++ (k, dl) :: post))
      (mkAllDatasetBatchesIterator dls0 SMALLEST_DATASET_EXHAUSTED
         (advanced (S j) pre0 ++ advanced j (pre ++ (k, dl) :: post)) fin)
      bd
    = (Raise StopIteration,
       mkAllDatasetBatchesIterator dls0 SMALLEST_DATASET_EXHAUSTED
         (advanced (S j) (pre0 ++ pre) ++ advanced j ((k, dl) :: post)) fin,
       map EvNext (keys pre) ++ [EvNext k]).
Proof.
  induction pre as [|[k1 dl1] pre IH]; intros pre0 bd Hnd Hlong.
  - assert (Hk : ~ In k (keys pre0)).
    { simpl in Hnd. rewrite keys_app in Hnd. simpl in Hnd.
      now apply NoDup_app_cons_notin in Hnd. }
    simpl. rewrite lookup_app_notin by (now rewrite keys_advanced).
    simpl. rewrite String.eqb_refl.
    rewrite skipn_all2 by exact Hshort. now rewrite app_nil_r.
  - assert (Hk1 : ~ In k1 (keys pre0)).
    { simpl in Hnd. rewrite keys_app in Hnd. simpl in Hnd.
      now apply NoDup_app_cons_notin in Hnd. }
    assert (Hlt : j < length dl1)
      by exact (Hlong (k1, dl1) (or_introl eq_refl)).
    destruct (skipn j dl1) as [|b rest] eqn:Es.
    { apply skipn_nil_length in Es. lia. }
    destruct (skipn_cons_nth _ _ _ _ Es) as [Hb Hrest].
    specialize (IH (pre0 ++ [(k1, dl1)]) (setitem k1 b bd)).
    rewrite <- !app_assoc in IH. simpl app in IH.
    specialize (IH Hnd (fun nd H => Hlong nd (or_intror H))).
    rewrite advanced_app in IH.
    change (advanced (S j) [(k1, dl1)]) with [(k1, skipn (S j) dl1)] in IH.
    rewrite Hrest, <- !app_assoc in IH. simpl app in IH.
    simpl. rewrite lookup_app_notin by (now rewrite keys_advanced).
    simpl. rewrite String.eqb_refl, Es.
    unfold adb_set_iterator. simpl.
    rewrite setitem_app_notin by (now rewrite keys_advanced).
    simpl. rewrite String.eqb_refl.
    rewrite_adb_for IH. reflexivity.
Qed.
End AllDatasetBatchesDiscard.

Lemma adb_smallest_after (dls : dict dataloader) (m : nat) :
  NoDup (keys dls) ->
  (forall nd, In nd dls -> m <= length (snd nd)) ->
  forall d j,
    j + d <= m ->
    after adb_next d
      (mkAllDatasetBatchesIterator dls SMALLEST_DATASET_EXHAUSTED
         (advanced j dls) [])
    = mkAllDatasetBatchesIterator dls SMALLEST_DATASET_EXHAUSTED
        (advanced (j + d) dls) [].
Proof.
  intros Hnd Hlong. induction d as [|d IH]; intros j Hj; simpl.
  - now rewrite Nat.add_0_r.
  - destruct (adb_for_smallest_row dls [] j dls [] Hnd) as [l Hl].
    { intros nd Hin. specialize (Hlong nd Hin).
      eapply Nat.lt_le_trans; [|exact Hlong]. lia. }
    simpl in Hl. unfold adb_next at 2. simpl. rewrite keys_advanced.
    rewrite_adb_for Hl. simpl. rewrite IH by lia. f_equal. f_equal. lia.
Qed.

Lemma min_length_first_smallest (pre post : dict dataloader) (k : string)
  (dl : dataloader) :
  (forall nd, In nd pre -> length dl < length (snd nd)) ->
  (forall nd, In nd post -> length dl <= length (snd nd)) ->
  min_length (pre ++ (k, dl) :: post) = length dl.
Proof.
  intros Hpre Hpost. apply Nat.le_antisymm.
  - apply (min_length_le_In _ (k, dl)). apply in_or_app. right. now left.
  - destruct (min_length_attained_In (pre ++ (k, dl) :: post))
      as [nd [Hin Hlen]].
    { destruct pre; discriminate. }
    rewrite <- Hlen. apply in_app_or in Hin.
    destruct Hin as [Hin|[<-|Hin]].
    + apply Nat.lt_le_incl. now apply Hpre.
    + apply le_n.
    + now apply Hpost.
Qed.

(** X6. All dataset batches under SMALLEST_DATASET_EXHAUSTED, with
    [(k, dl)] the first smallest source: the records hold the batches of
    index below the length of [dl] only, and the call that ends the run
    has drawn the batch of that index from every source that precedes [k]
    in the order of the sources.  That call invokes [next] on the sources
    before [k] and on [k], raises StopIteration, and leaves the handles of
    the former one batch further than those of the others: the batches it
    drew are in no record. *)
Theorem adb_smallest_last_call_discards :
  forall (dls pre post : dict dataloader) (k : string) (dl : dataloader)
         (it : AllDatasetBatchesIterator),
    NoDup (keys dls) ->
    dls = pre ++ (k, dl) :: post ->
    (forall nd, In nd pre -> length dl < length (snd nd)) ->
    (forall nd, In nd post -> length dl <= length (snd nd)) ->
    AllDatasetBatchesIterator_init dls
      (mkAllDatasetBatches SMALLEST_DATASET_EXHAUSTED) = Return it ->
    runs adb_const_fuel it (map (fun j => row j dls) (seq 0 (length dl)))
    /\ adb_next (after adb_next (length dl) it)
       = (Raise StopIteration,
          mkAllDatasetBatchesIterator dls SMALLEST_DATASET_EXHAUSTED
            (advanced (S (length dl)) pre
             ++ advanced (length dl) ((k, dl) :: post)) [],
          map EvNext (keys pre) ++ [EvNext k]).
Proof.
  intros dls pre post k dl it Hnd Hdls Hpre Hpost Hinit. split.
  - assert (Hne : dls <> []) by (subst dls; destruct pre; discriminate).
    pose proof (proj1 (adb_smallest_run dls it Hnd Hne Hinit)) as Hruns.
    unfold adb_smallest_records in Hruns.
    assert (Hmin : min_length dls = length dl)
      by (rewrite Hdls; now apply min_length_first_smallest).
    now rewrite Hmin in Hruns.
  - unfold AllDatasetBatchesIterator_init in Hinit. simpl in Hinit.
    inversion Hinit; subst it; clear Hinit. rewrite <- advanced_0.
    rewrite (adb_smallest_after dls (length dl) Hnd) by
      first [lia
            | intros nd Hin; rewrite Hdls in Hin; apply in_app_or in Hin;
              destruct Hin as [Hin|[<-|Hin]];
              [apply Hpre in Hin; lia | simpl; lia | now apply Hpost]].
    simpl. unfold adb_next. simpl. rewrite keys_advanced. subst dls.
    apply (adb_for_smallest_discard (pre ++ (k, dl) :: post) [] (length dl)
             k dl post (le_n _) pre [] []); assumption.
Qed.

Lemma adb_smallest_last_call_discards_witness :
  adb_next
    (after adb_next 1
       (adb_of [("b", [0; 1; 2]); ("a", [0])]
          (mkAllDatasetBatches SMALLEST_DATASET_EXHAUSTED)))
  = (Raise StopIteration,
     mkAllDatasetBatchesIterator [("b", [0; 1; 2]); ("a", [0])]
       SMALLEST_DATASET_EXHAUSTED [("b", [2]); ("a", [])] [],
     [EvNext "b"; EvNext "a"]).
Proof.
  refine (proj2 (adb_smallest_last_call_discards
                   [("b", [0; 1; 2]); ("a", [0])]
                   [("b", [0; 1; 2])] [] "a" [0] _ _ eq_refl _ _ eq_refl)).
  - simpl. repeat constructor; simpl; intuition discriminate.
  - intros nd [<-|[]]. simpl. lia.
  - intros nd [].
Defined.

(** X7. A source that is empty from the start ends an
    all-dataset-batches iterator under SMALLEST_DATASET_EXHAUSTED or
    RESTART_UNTIL_ALL_DATASETS_EXHAUSTED at once: the first call raises
    StopIteration, and so does every later call, however many batches the
    other sources hold. *)
Theorem adb_empty_source_ends_at_once :
  forall (dls : dict dataloader) (s : AllDatasetBatches)
         (it : AllDatasetBatchesIterator) (k : string),
    adb_strategy_stopping_mechanism s = SMALLEST_DATASET_EXHAUSTED
    \/ adb_strategy_stopping_mechanism s
       = RESTART_UNTIL_ALL_DATASETS_EXHAUSTED ->
    lookup k dls = Some [] ->
    AllDatasetBatchesIterator_init dls s = Return it ->
    runs adb_const_fuel it []
    /\ forall n, outcomes adb_next n it = repeat (Raise StopIteration) n.
Proof.
  intros dls s it k Hm Hk Hinit.
  pose proof (AllDatasetBatchesIterator_init_wf _ _ _ Hinit) as Hwf.
  assert (Hend : adb_ended it).
  { unfold AllDatasetBatchesIterator_init in Hinit.
    destruct (StoppingMechanism_eqb _ _); [discriminate|].
    inversion Hinit; subst it; clear Hinit. right. simpl.
    assert (Hh : lookup k (map (fun nd : string * dataloader =>
                                  (fst nd, iter (snd nd))) dls) = Some []).
    { rewrite map_iter_id. exact Hk. }
    destruct Hm as [-> | ->]; exists k; [exact Hh|].
    split; [exact Hh | now right]. }
  split; [|intros n; now apply adb_ended_forever].
  pose proof (adb_ended_next it Hwf Hend) as Hs.
  destruct (adb_next it) as [[r it'] l] eqn:E. simpl in Hs. subst r.
  eapply runs_stop. apply adb_evals. exact E.
Qed.

Lemma adb_empty_source_ends_at_once_witness :
  runs adb_const_fuel
    (adb_of [("b", [0; 1; 2]); ("e", [])]
       (mkAllDatasetBatches RESTART_UNTIL_ALL_DATASETS_EXHAUSTED)) [].
Proof.
  refine (proj1 (adb_empty_source_ends_at_once
                   [("b", [0; 1; 2]); ("e", [])]
                   (mkAllDatasetBatches RESTART_UNTIL_ALL_DATASETS_EXHAUSTED)
                   _ "e" _ eq_refl eq_refl)).
  now right.
Defined.

(** ** Round robin: the end *)

Lemma skip_finished_no_raise (order : list string) (f : nat)
  (fin : list string) :
  forall k c e kc',
    cursor_at order k c ->
    skip_finished f fin k c <> (Raise e, kc').
Proof.
  induction f as [|f IH]; intros k c e kc' Hc; simpl.
  - destruct (mem k fin); discriminate.
  - destruct (mem k fin); [|discriminate].
    destruct (cursor_at_inv _ _ _ Hc) as [Hs Hp].
    destruct (cycle_next_cursor order c Hs Hp) as (k1 & c1 & E & Hc1).
    rewrite E. now apply IH.
Qed.

Lemma rr_next_stop_full (s : RoundRobin) (order : list string)
  (fuel : nat) :
  rr_stopping_mechanism s <> SMALLEST_DATASET_EXHAUSTED ->
  forall it it' l,
    rr_inv s order it ->
    rr_next fuel it = (Raise StopIteration, it', l) ->
    length (rr_finished_dataloaders it')
    = length (rr_individual_iterators it').
Proof.
  intros Hmode.
  induction fuel as [|f IH]; intros it it' l Hinv H; [discriminate|].
  simpl in H.
  destruct (_ =? _) eqn:Efull.
  { inversion H; subst. now apply Nat.eqb_eq in Efull. }
  clear Efull.
  destruct Hinv as [Hst Hs Hp].
  destruct (cycle_next_cursor order _ Hs Hp) as (k0 & c0 & E & Hc0).
  rewrite E in H. simpl in H.
  destruct (skip_finished f _ k0 c0) as [res kc'] eqn:Es.
  pose proof (skip_finished_cursor order f _ _ _ _ _ Hc0 Es) as Hc.
  destruct (cursor_at_inv _ _ _ Hc) as [Hs' Hp'].
  destruct res as [x|e|].
  - unfold rr_draw, rr_set_cursor in H. simpl in H.
    destruct (lookup (fst kc') _) as [[|b rest]|]; try discriminate.
    rewrite Hst in H.
    destruct (StoppingMechanism_eqb _ _) eqn:Em.
    { destruct (rr_stopping_mechanism s); simpl in Em; congruence. }
    destruct (_ =? _) eqn:Efull'.
    { inversion H; subst. simpl. now apply Nat.eqb_eq in Efull'. }
    destruct (rr_next f _) as [[r0 it0] l0] eqn:En.
    inversion H; subst.
    eapply IH; [|exact En].
    constructor; simpl; first [assumption | reflexivity].
  - exfalso. exact (skip_finished_no_raise _ f _ _ _ _ _ Hc0 Es).
  - discriminate.
Qed.

Lemma rr_ended_forever (fuel n : nat) (it : RoundRobinIterator) :
  length (rr_finished_dataloaders it) = length (rr_individual_iterators it) ->
  outcomes (rr_next (S fuel)) n it = repeat (Raise StopIteration) n
  /\ events (rr_next (S fuel)) n it = []
  /\ after (rr_next (S fuel)) n it = it.
Proof.
  intros H. apply Nat.eqb_eq in H.
  induction n as [|n IH]; [repeat split|].
  destruct IH as (IH1 & IH2 & IH3).
  assert (E : rr_next (S fuel) it = (Raise StopIteration, it, []))
    by (simpl; now rewrite H).
  cbn [outcomes events after]. rewrite E.
  cbn [fst snd]. rewrite IH1, IH2, IH3. repeat split.
Qed.

(** X8. Outside SMALLEST_DATASET_EXHAUSTED the end of a round-robin
    iterator is final: once a call has raised StopIteration, every later
    call raises StopIteration, calls no source and leaves the iterator as
    it is. *)
Theorem rr_end_is_final :
  forall (dls : dict dataloader) (s : RoundRobin)
         (it0 it' : RoundRobinIterator) (fuel0 fuel n : nat)
         (l : list event),
    rr_stopping_mechanism s <> SMALLEST_DATASET_EXHAUSTED ->
    RoundRobinIterator_init dls s = Return it0 ->
    rr_next fuel (after (rr_next fuel0) n it0)
    = (Raise StopIteration, it', l) ->
    forall fuel' m,
      outcomes (rr_next (S fuel')) m it' = repeat (Raise StopIteration) m
      /\ events (rr_next (S fuel')) m it' = []
      /\ after (rr_next (S fuel')) m it' = it'.
Proof.
  intros dls s it0 it' fuel0 fuel n l Hmode Hinit H fuel' m.
  apply rr_ended_forever.
  destruct (RoundRobinIterator_init_inv _ _ _ Hinit) as (Hinv & _ & _).
  eapply (rr_next_stop_full s _ fuel Hmode); [|exact H].
  exact (proj1 (rr_after_preserves s _ fuel0 n it0 Hinv)).
Qed.

Lemma rr_end_is_final_witness :
  outcomes (rr_next 1) 3
    (after (rr_next 10) 5
       (rr_of loaders_ab (mkRoundRobin ALL_DATASETS_EXHAUSTED None)))
  = [Raise StopIteration; Raise StopIteration; Raise StopIteration].
Proof.
  refine (proj1 (rr_end_is_final loaders_ab
                   (mkRoundRobin ALL_DATASETS_EXHAUSTED None) _ _ 10 10 4
                   [EvNext "b"] _ eq_refl eq_refl 0 3)).
  simpl. discriminate.
Defined.

(** ** Round robin: an order that leaves out a source *)

Lemma rr_finished_short (its : dict iterator) (saved fin : list string)
  (k0 : string) :
  NoDup fin -> incl fin saved -> incl saved (keys its) ->
  In k0 (keys its) -> ~ In k0 saved ->
  length fin <> length its.
Proof.
  intros Hnd Hfs Hsk Hk0 Hn0.
  assert (Hnd' : NoDup (k0 :: fin)).
  { constructor; [|assumption]. intros Hin. apply Hn0. now apply Hfs. }
  assert (Hincl : incl (k0 :: fin) (keys its)).
  { intros x [<-|Hx]; [assumption|]. apply Hsk. now apply Hfs. }
  pose proof (NoDup_incl_length Hnd' Hincl) as Hlen.
  unfold keys in Hlen. rewrite length_map in Hlen. simpl in Hlen. lia.
Qed.

Lemma skip_finished_result (f : nat) (fin : list string) :
  forall k c x kc',
    In k (cyc_saved c) ->
    cyc_pos c < length (cyc_saved c) ->
    skip_finished f fin k c = (Return x, kc') ->
    mem (fst kc') fin = false
    /\ In (fst kc') (cyc_saved c)
    /\ cyc_saved (snd kc') = cyc_saved c
    /\ cyc_pos (snd kc') < length (cyc_saved (snd kc')).
Proof.
  induction f as [|f IH]; intros k c x kc' Hk Hp H; simpl in H.
  - destruct (mem k fin) eqn:E; [discriminate|].
    inversion H; subst. simpl. auto.
  - destruct (mem k fin) eqn:E.
    + destruct (cycle_next_in_range c Hp) as (k1 & c1 & E1 & Hp1).
      rewrite E1 in H. apply IH in H; [|
        rewrite (cycle_next_saved _ _ _ E1); eapply cycle_next_In;
        eassumption | assumption].
      rewrite (cycle_next_saved _ _ _ E1) in H. exact H.
    + inversion H; subst. simpl. auto.
Qed.

(** A round-robin iterator whose cycle leaves out a source, outside
    SMALLEST_DATASET_EXHAUSTED, spins once every source named in the
    cycle is finished or exhausted. *)
Lemma rr_cycle_without_source_spins :
  forall (fuel : nat) (it : RoundRobinIterator) (k0 : string),
    rr_stopping_mechanism (rr_iteration_strategy it)
    <> SMALLEST_DATASET_EXHAUSTED ->
    cyc_pos (rr_dataloader_cycle it)
    < length (cyc_saved (rr_dataloader_cycle it)) ->
    incl (cyc_saved (rr_dataloader_cycle it))
      (keys (rr_individual_iterators it)) ->
    In k0 (keys (rr_individual_iterators it)) ->
    ~ In k0 (cyc_saved (rr_dataloader_cycle it)) ->
    NoDup (rr_finished_dataloaders it) ->
    incl (rr_finished_dataloaders it) (cyc_saved (rr_dataloader_cycle it)) ->
    (forall k, In k (cyc_saved (rr_dataloader_cycle it)) ->
               In k (rr_finished_dataloaders it)
               \/ lookup k (rr_individual_iterators it) = Some []) ->
    fst (fst (rr_next fuel it)) = OutOfFuel.
Proof.
  induction fuel as [|f IH];
    intros it k0 Hmode Hp Hsk Hk0 Hn0 Hnd Hfs Hall; [reflexivity|].
  destruct it as [s its c cur fin]. simpl in *.
  pose proof (rr_finished_short its (cyc_saved c) fin k0 Hnd Hfs Hsk Hk0 Hn0)
    as Hlen.
  apply Nat.eqb_neq in Hlen. rewrite Hlen.
  destruct (cycle_next_in_range c Hp) as (k1 & c1 & E & Hp1).
  rewrite E. simpl.
  pose proof (cycle_next_saved _ _ _ E) as Hs1.
  destruct (skip_finished f fin k1 c1) as [[x|e|] kc'] eqn:Es;
    [|exfalso|reflexivity].
  - destruct (skip_finished_result f fin k1 c1 x kc') as (Hm & Hin & Hs & Hp');
      [rewrite Hs1; eapply cycle_next_In; eassumption | assumption
      | assumption |].
    rewrite Hs1 in Hin. rewrite Hs1 in Hs.
    unfold rr_draw, rr_set_cursor. simpl.
    apply mem_false_iff in Hm.
    destruct (Hall _ Hin) as [Hf|Hl]; [contradiction|]. rewrite Hl.
    destruct (StoppingMechanism_eqb _ _) eqn:Em.
    { destruct (rr_stopping_mechanism s); simpl in Em; congruence. }
    assert (Hnd' : NoDup (fin ++ [fst kc'])).
    { apply NoDup_app; [assumption | repeat constructor; intros []|].
      intros y Hy [<-|[]]. contradiction. }
    assert (Hfs' : incl (fin ++ [fst kc']) (cyc_saved c)).
    { intros y Hy. apply in_app_or in Hy.
      destruct Hy as [Hy|[<-|[]]]; [now apply Hfs | assumption]. }
    pose proof (rr_finished_short its (cyc_saved c) _ k0 Hnd' Hfs' Hsk Hk0 Hn0)
      as Hlen'.
    apply Nat.eqb_neq in Hlen'. rewrite Hlen'.
    specialize (IH (mkRoundRobinIterator s its (snd kc') (fst kc')
                      (fin ++ [fst kc'])) k0).
    destruct (rr_next f _) as [[r0 it0] l0]. simpl in *. apply IH;
      try assumption; try (rewrite Hs; assumption).
    intros y Hy. rewrite Hs in Hy. destruct (Hall y Hy) as [Hy'|Hy'];
      [left; apply in_or_app; now left | now right].
  - destruct (cycle_next_cursor (cyc_saved c1) c1 eq_refl Hp1)
      as (k2 & c2 & E2 & Hc2).
    clear - Es E Hp Hs1 Hp1.
    assert (Hcur : cursor_at (cyc_saved c) k1 c1).
    { split; [assumption|]. unfold cycle_next in E.
      destruct (nth_error (cyc_saved c) (cyc_pos c)) as [k|] eqn:En;
        [|discriminate].
      inversion E; subst. exists (cyc_pos c). split; [assumption|].
      reflexivity. }
    exact (skip_finished_no_raise _ f _ _ _ _ _ Hcur Es).
Qed.

(** X9. A round-robin iterator whose cycle leaves out a source, outside
    SMALLEST_DATASET_EXHAUSTED, when every source named in the cycle is
    finished or exhausted: [next] neither raises StopIteration nor
    returns.  The finished list never gets as long as the number of
    sources, and the loop that skips finished keys goes round the cycle
    for ever. *)
Theorem rr_order_without_source_never_ends :
  forall (fuel : nat) (it : RoundRobinIterator) (k0 : string),
    rr_stopping_mechanism (rr_iteration_strategy it)
    <> SMALLEST_DATASET_EXHAUSTED ->
    cyc_pos (rr_dataloader_cycle it)
    < length (cyc_saved (rr_dataloader_cycle it)) ->
    incl (cyc_saved (rr_dataloader_cycle it))
      (keys (rr_individual_iterators it)) ->
    In k0 (keys (rr_individual_iterators it)) ->
    ~ In k0 (cyc_saved (rr_dataloader_cycle it)) ->
    NoDup (rr_finished_dataloaders it) ->
    incl (rr_finished_dataloaders it) (cyc_saved (rr_dataloader_cycle it)) ->
    (forall k, In k (cyc_saved (rr_dataloader_cycle it)) ->
               In k (rr_finished_dataloaders it)
               \/ lookup k (rr_individual_iterators it) = Some []) ->
    fst (fst (rr_next fuel it)) = OutOfFuel.
Proof. exact rr_cycle_without_source_spins. Qed.

Lemma rr_order_without_source_never_ends_witness :
  outcomes (rr_next 10) 4 rr_ab_of_abc
  = [Return [("a", 0)]; Return [("b", 0)]; Return [("b", 1)];
     Return [("b", 2)]]
  /\ fst (fst (rr_next 1000 (after (rr_next 10) 4 rr_ab_of_abc)))
     = OutOfFuel.
Proof.
  split; [reflexivity|].
  apply (rr_order_without_source_never_ends 1000 _ "c").
  - vm_compute. discriminate.
  - vm_compute. lia.
  - vm_compute. intuition.
  - vm_compute. intuition.
  - vm_compute. intuition discriminate.
  - vm_compute. repeat constructor. intuition.
  - vm_compute. intuition.
  - intros k Hk. vm_compute in Hk.
    destruct Hk as [<-|[<-|[]]]; [left; vm_compute; now left | now right].
Defined.


(** ** Round robin: an order that names a key that is no source *)

Lemma cycle_next_at (order : list string) (p : nat) (k : string) :
  nth_error order p = Some k ->
  S p <> length order ->
  cycle_next (mkCycle order p) = Some (k, mkCycle order (S p)).
Proof.
  intros Hk Hp. unfold cycle_next. cbn [cyc_saved cyc_pos]. rewrite Hk.
  apply Nat.eqb_neq in Hp. now rewrite Hp.
Qed.

Lemma rr_unknown_key_from (dls : dict dataloader) (s : RoundRobin)
  (order post : list string) (bad : string) :
  forall rest done its cur,
    order = done ++ rest ++ bad :: post ->
    NoDup rest ->
    its <> [] ->
    ~ In bad (keys its) ->
    (forall k, In k rest ->
       exists b r, lookup k its = Some (b :: r)
                   /\ batch_at dls 0 k = [[(k, b)]]) ->
    run_to rr_next
      (mkRoundRobinIterator s its (mkCycle order (length done)) cur [])
      (rr_round dls 0 rest) (Failed KeyError).
Proof.
  induction rest as [|k rest IH]; intros done its cur Ho Hnd Hne Hbad Hall.
  - simpl in Ho.
    assert (Hopen : length (@nil string) <> length its)
      by (destruct its; [congruence | discriminate]).
    destruct (cycle_next_cursor order (mkCycle order (length done)) eq_refl)
      as (k1 & c1 & E & _).
    { simpl. rewrite Ho, length_app. simpl. lia. }
    assert (Hk1 : k1 = bad).
    { unfold cycle_next in E. simpl in E. rewrite Ho in E.
      rewrite nth_error_middle in E. now inversion E. }
    subst k1.
    apply (run_to_raise rr_next _
             (mkRoundRobinIterator s its c1 bad []) KeyError []).
    exists 1. intros f Hf. destruct f as [|f]; [lia|].
    rewrite (rr_next_visit s its _ c1 cur [] bad Hopen E f eq_refl).
    unfold rr_draw. simpl.
    apply lookup_None_iff in Hbad.
    match goal with
    | |- context [@lookup ?V bad its] =>
        assert (Hl0 : @lookup V bad its = None) by exact Hbad; rewrite Hl0
    end.
    reflexivity.
  - assert (Hopen : length (@nil string) <> length its)
      by (destruct its; [congruence | discriminate]).
    destruct (Hall k (or_introl eq_refl)) as (b & r & Hl & Hb).
    assert (E : cycle_next (mkCycle order (length done))
                = Some (k, mkCycle order (S (length done)))).
    { apply cycle_next_at.
      - rewrite Ho. apply nth_error_middle.
      - rewrite Ho, !length_app. simpl. lia. }
    simpl. rewrite Hb. simpl.
    eapply run_to_yield.
    + exact (rr_evals_yield s its _ _ cur [] k Hopen E b r eq_refl Hl).
    + inversion Hnd as [|? ? Hk Hnd']; subst.
      specialize (IH (done ++ [k]) (setitem k r its) k).
      rewrite length_app in IH. simpl in IH.
      replace (length done + 1) with (S (length done)) in IH by lia.
      apply IH.
      * now rewrite <- app_assoc.
      * assumption.
      * apply setitem_nonempty.
      * rewrite keys_setitem by (eapply lookup_Some_In; eassumption).
        assumption.
      * intros k' Hk'. destruct (Hall k' (or_intror Hk')) as (b' & r' & Hl' & Hb').
        exists b', r'. split; [|assumption].
        rewrite lookup_setitem_other; [assumption|].
        intros ->. contradiction.
Qed.

(** X10. The constructor of a round-robin iterator does not look at the
    keys of the iteration order.  When the order names, after distinct
    keys of sources that hold a batch, a key that is no source, the
    iterator delivers the first batch of each of those sources, and the
    call in which the cycle reaches the missing key raises KeyError. *)
Theorem rr_unknown_key_in_order_raises :
  forall (dls : dict dataloader) (s : RoundRobin) (it : RoundRobinIterator)
         (pre post : list string) (bad : string),
    RoundRobinIterator_init dls s = Return it ->
    dls <> [] ->
    order_or_keys (rr_iteration_order s) (keys dls) = pre ++ bad :: post ->
    NoDup pre ->
    (forall k, In k pre -> exists b rest, lookup k dls = Some (b :: rest)) ->
    ~ In bad (keys dls) ->
    run_to rr_next it (rr_round dls 0 pre) (Failed KeyError).
Proof.
  intros dls s it pre post bad Hinit Hne Ho Hnd Hall Hbad.
  destruct (RoundRobinIterator_init_inv _ _ _ Hinit)
    as (_ & _ & k0 & r & Ho' & ->).
  rewrite <- Ho', Ho.
  apply (rr_unknown_key_from dls s (pre ++ bad :: post) post bad pre []
           _ k0 eq_refl Hnd).
  - destruct dls; [congruence | discriminate].
  - now rewrite keys_map_iter.
  - intros k Hk. destruct (Hall k Hk) as (b & rest & Hl).
    exists b, rest. split.
    + rewrite map_iter_id. exact Hl.
    + unfold batch_at, dl_of. rewrite Hl. reflexivity.
Qed.

Lemma rr_unknown_key_in_order_raises_witness :
  run_to rr_next
    (rr_of loaders_ab
       (mkRoundRobin ALL_DATASETS_EXHAUSTED (Some ["b"; "c"; "a"])))
    [[("b", 0)]] (Failed KeyError).
Proof.
  refine (rr_unknown_key_in_order_raises loaders_ab
            (mkRoundRobin ALL_DATASETS_EXHAUSTED (Some ["b"; "c"; "a"]))
            _ ["b"] ["a"] "c" eq_refl _ eq_refl _ _ _).
  - discriminate.
  - repeat constructor. intros [].
  - intros k [<-|[]]. now exists 0, [1; 2].
  - simpl. intuition discriminate.
Defined.

(** ** The randomized sampler under WRAP_AROUND_UNTIL_KILLED *)

(** One call of a sampler that wraps around, on the key it selects. *)
Lemma rbs_wrap_call_key (env : environment) (dls : dict dataloader)
  (seen : list string) (it : RandomizedBatchSamplerIterator) (f : nat)
  (k : string) (l0 : list event) :
  rbs_wrapping env dls seen it ->
  rbs_select env it = (Return k, l0) ->
  In k (rbs_iterator_names it) ->
  exists it' l,
    In k (keys dls)
    /\ rbs_next env (S f) it
       = (Return [(k, nth (count_occ string_dec seen k
                           mod length (dl_of dls k)) (dl_of dls k) 0)],
          it', l)
    /\ rbs_wrapping env dls (k :: seen) it'
    /\ rbs_draws it' = S (rbs_draws it)
    /\ rbs_iterator_names it' = rbs_iterator_names it
    /\ rbs_enforce_same_loader_across_ranks it'
       = rbs_enforce_same_loader_across_ranks it.
Proof.
  intros [Hmode Hdls Hnames Hbc Hal Hacc Hh] Hsel Hk.
  destruct (Hh k Hk) as (Hkd & Hne & Hl).
  pose proof (dl_of_lookup dls k Hne) as Hdl.
  remember (dl_of dls k) as dl eqn:Edl.
  remember (count_occ string_dec seen k) as c eqn:Ec.
  assert (Hpos : 0 < length dl) by (destruct dl; [congruence | simpl; lia]).
  assert (Hothers :
            forall h k', In k' (rbs_iterator_names it) ->
              In k' (keys dls)
              /\ dl_of dls k' <> []
              /\ (k' <> k ->
                  lookup k' (setitem k h (rbs_individual_iterators it))
                  = Some (skipn (restart_pos (length (dl_of dls k'))
                                   (count_occ string_dec (k :: seen) k'))
                            (dl_of dls k')))).
  { intros h k' Hk'. destruct (Hh k' Hk') as (H1 & H2 & H3).
    split; [assumption|]. split; [assumption|]. intros Hneq.
    rewrite lookup_setitem_other by assumption.
    rewrite count_occ_cons_neq by congruence. exact H3. }
  assert (Hmine :
            forall rest,
              rest = skipn (S (c mod length dl)) dl ->
              lookup k (setitem k rest (rbs_individual_iterators it))
              = Some (skipn (restart_pos (length (dl_of dls k))
                               (count_occ string_dec (k :: seen) k))
                        (dl_of dls k))).
  { intros rest ->. rewrite lookup_setitem, String.eqb_refl.
    rewrite count_occ_cons_eq by reflexivity.
    rewrite <- Edl, <- Ec. reflexivity. }
  assert (Hnext :
            forall rest,
              rest = skipn (S (c mod length dl)) dl ->
              rbs_wrapping env dls (k :: seen)
                (rbs_set_iterator (rbs_tick it) k rest)).
  { intros rest Hrest. constructor; simpl; try assumption.
    intros k' Hk'. destruct (Hothers rest k' Hk') as (H1 & H2 & H3).
    split; [assumption|]. split; [assumption|].
    destruct (string_dec k' k) as [->|Hneq]; [now apply Hmine | now apply H3]. }
  assert (Hcall :
            rbs_next env (S f) it
            = let '(r, it', l) :=
                match skipn (restart_pos (length dl) c) dl with
                | b :: rest =>
                    (Return [(k, b)], rbs_set_iterator (rbs_tick it) k rest,
                     [EvNext k])
                | [] => rbs_restart (rbs_tick it) k
                end in
              (r, it', l0 ++ l)).
  { simpl rbs_next. unfold rbs_should_stop. rewrite Hmode, Hsel.
    unfold rbs_draw. cbn [rbs_tick rbs_individual_iterators
                           rbs_stopping_mechanism].
    rewrite Hl, Hmode.
    destruct (skipn (restart_pos (length dl) c) dl); reflexivity. }
  rewrite Hcall. clear Hcall.
  destruct (skipn (restart_pos (length dl) c) dl) as [|b rest] eqn:Es.
  - (* the handle is exhausted: the source is re-created *)
    apply skipn_nil_length in Es.
    pose proof (restart_pos_le (length dl) c Hpos) as Hle.
    destruct (restart_pos_end (length dl) c Hpos ltac:(lia)) as [Hmod _].
    unfold rbs_restart. cbn [rbs_tick rbs_individual_dataloaders].
    rewrite Hdls, Hdl. unfold iter. rewrite Hmod in *.
    destruct dl as [|b rest]; [congruence|].
    eexists. eexists. split; [assumption|]. split; [reflexivity|].
    split; [now apply (Hnext rest)|]. repeat split.
  - destruct (skipn_cons_nth _ _ _ _ Es) as [Hb Hrest].
    assert (Hlt : restart_pos (length dl) c < length dl).
    { assert (length (skipn (restart_pos (length dl) c) dl) <> 0)
        by (rewrite Es; discriminate).
      rewrite length_skipn in H. lia. }
    destruct (restart_pos_inside _ _ Hlt) as [Hmod _].
    eexists. eexists. split; [assumption|]. split.
    + rewrite Hmod, Hb. reflexivity.
    + split; [apply (Hnext rest); rewrite Hmod; now symmetry|].
      repeat split.
Qed.

Lemma rbs_wrap_call (env : environment) (dls : dict dataloader)
  (seen : list string) (it : RandomizedBatchSamplerIterator) (f : nat) :
  rbs_wrapping env dls seen it ->
  exists k it' l,
    In k (keys dls)
    /\ rbs_next env (S f) it
       = (Return [(k, nth (count_occ string_dec seen k
                           mod length (dl_of dls k)) (dl_of dls k) 0)],
          it', l)
    /\ rbs_wrapping env dls (k :: seen) it'.
Proof.
  intros Hw.
  destruct (rbs_select_names env it) as (k & l0 & Hsel & Hk);
    [ unfold rbs_candidates; now rewrite (wr_mode _ _ _ _ Hw)
    | exact (wr_names _ _ _ _ Hw) | exact (wr_broadcast _ _ _ _ Hw)
    | exact (wr_aligned _ _ _ _ Hw) | exact (wr_accepted _ _ _ _ Hw) |].
  destruct (rbs_wrap_call_key env dls seen it f k l0 Hw Hsel Hk)
    as (it' & l & H1 & H2 & H3 & _).
  exists k, it', l. split; [assumption|]. split; assumption.
Qed.

Lemma rbs_wrap_outcomes (env : environment) (dls : dict dataloader)
  (fuel n : nat) :
  forall seen it,
    rbs_wrapping env dls seen it ->
    exists ks,
      length ks = n
      /\ incl ks (keys dls)
      /\ outcomes (rbs_next env (S fuel)) n it
         = map Return (wrap_records dls seen ks).
Proof.
  induction n as [|n IH]; intros seen it Hw.
  - exists []. repeat split. intros x [].
  - destruct (rbs_wrap_call env dls seen it fuel Hw)
      as (k & it' & l & Hk & Hcall & Hw').
    destruct (IH (k :: seen) it' Hw') as (ks & Hlen & Hincl & Hout).
    exists (k :: ks). split; [simpl; lia|]. split.
    + intros x [<-|Hx]; [assumption | now apply Hincl].
    + cbn [outcomes]. rewrite Hcall. cbn [wrap_records map].
      now rewrite Hout.
Qed.

Lemma RandomizedBatchSamplerIterator_init_wrapping (env : environment)
  (dls : dict dataloader) (s : RandomizedBatchSampler)
  (it : RandomizedBatchSamplerIterator) (l : list event) :
  RandomizedBatchSamplerIterator_init env dls s = (Return it, l) ->
  rbs_strategy_stopping_mechanism s = WRAP_AROUND_UNTIL_KILLED ->
  dls <> [] ->
  (forall nd, In nd dls -> snd nd <> []) ->
  broadcast_in_range env (sorted (keys dls)) ->
  rbs_weights_accepted it ->
  rbs_wrapping env dls [] it.
Proof.
  intros Hinit Hmode Hne Hfull Hb Hacc.
  destruct (RandomizedBatchSamplerIterator_init_fields _ _ _ _ _ Hinit)
    as (Hd & Hi & Hn & Hf & Hm & _).
  constructor.
  - congruence.
  - assumption.
  - rewrite Hn. intros E.
    pose proof (Permutation_length (sorted_perm (keys dls))) as Hl.
    rewrite E in Hl. destruct dls; [congruence | discriminate].
  - now rewrite Hn.
  - eapply RandomizedBatchSamplerIterator_init_aligned. eassumption.
  - assumption.
  - intros k Hk. rewrite Hn in Hk.
    assert (Hkd : In k (keys dls))
      by (eapply Permutation_in; [apply sorted_perm | exact Hk]).
    pose proof (dl_of_nonempty dls k Hfull Hkd) as Hne'.
    split; [assumption|]. split; [assumption|].
    rewrite Hi, map_iter_id. simpl. now apply dl_of_lookup.
Qed.

(** X11. A randomized sampler under WRAP_AROUND_UNTIL_KILLED over
    non-empty sources, when [random.choices] accepts the weights it keeps
    (if any: their total, in floating point, is greater than zero and
    finite), never ends: whatever the random draws (and whatever rank 0
    broadcasts, when the ranks are coordinated), every call returns a
    record with one batch, and a source found exhausted is re-created on
    the spot, so that the selection number [j] of a source of length
    [len] delivers its batch of index [j mod len]. *)
Theorem rbs_wrap_around_never_ends :
  forall (env : environment) (dls : dict dataloader)
         (s : RandomizedBatchSampler) (it : RandomizedBatchSamplerIterator)
         (l : list event),
    RandomizedBatchSamplerIterator_init env dls s = (Return it, l) ->
    rbs_strategy_stopping_mechanism s = WRAP_AROUND_UNTIL_KILLED ->
    rbs_weights_accepted it ->
    dls <> [] ->
    (forall nd, In nd dls -> snd nd <> []) ->
    broadcast_in_range env (sorted (keys dls)) ->
    forall fuel n,
      exists ks,
        length ks = n
        /\ incl ks (keys dls)
        /\ outcomes (rbs_next env (S fuel)) n it
           = map Return (wrap_records dls [] ks).
Proof.
  intros env dls s it l Hinit Hmode Hacc Hne Hfull Hb fuel n.
  apply rbs_wrap_outcomes.
  eapply RandomizedBatchSamplerIterator_init_wrapping; eassumption.
Qed.

Lemma rbs_wrap_around_never_ends_witness :
  exists ks,
    length ks = 6
    /\ incl ks ["a"; "b"]
    /\ outcomes (rbs_next (local_env [0; 1; 0; 1; 1; 1]) 1) 6
         (rbs_of (local_env [0; 1; 0; 1; 1; 1]) loaders_ab
            (mkRandomizedBatchSampler
               (Some [("a", PyInt 1); ("b", PyFloat PrimFloat.one)])
               WRAP_AROUND_UNTIL_KILLED false))
       = map Return (wrap_records loaders_ab [] ks).
Proof.
  refine (rbs_wrap_around_never_ends (local_env [0; 1; 0; 1; 1; 1])
            loaders_ab
            (mkRandomizedBatchSampler
               (Some [("a", PyInt 1); ("b", PyFloat PrimFloat.one)])
               WRAP_AROUND_UNTIL_KILLED false)
            _ [] _ eq_refl _ _ _ _ 0 6).
  - vm_compute. reflexivity.
  - intros ws Hws. vm_compute in Hws. inversion Hws; subst.
    vm_compute. reflexivity.
  - discriminate.
  - intros nd [<-|[<-|[]]]; discriminate.
  - intros d i Hi. exact Hi.
Defined.

(** ** The randomized sampler: fuel *)

Lemma rbs_draw_mono
  (again again' : RandomizedBatchSamplerIterator ->
                  outcome record * RandomizedBatchSamplerIterator
                  * list event)
  (it it' : RandomizedBatchSamplerIterator) (k : string)
  (r : outcome record) (l : list event) :
  (forall x r0 x' l0, again x = (r0, x', l0) -> r0 <> OutOfFuel ->
                      again' x = (r0, x', l0)) ->
  rbs_draw again it k = (r, it', l) ->
  r <> OutOfFuel ->
  rbs_draw again' it k = (r, it', l).
Proof.
  intros Hag H Hne. unfold rbs_draw in *.
  destruct (lookup _ _) as [[|b rest]|]; try assumption.
  destruct (rbs_stopping_mechanism it); try assumption;
    (destruct (index _ _); [|assumption];
     destruct (again _) as [[r0 x'] l0] eqn:E;
     inversion H; subst;
     rewrite (Hag _ _ _ _ E Hne); reflexivity).
Qed.

Lemma rbs_next_mono (env : environment) (f f' : nat)
  (st : RandomizedBatchSamplerIterator) (r : outcome record)
  (st' : RandomizedBatchSamplerIterator) (l : list event) :
  rbs_next env f st = (r, st', l) -> r <> OutOfFuel -> f <= f' ->
  rbs_next env f' st = (r, st', l).
Proof.
  revert f' st r st' l.
  induction f as [|f IH]; intros f' st r st' l H Hne Hle.
  - simpl in H. inversion H; subst. congruence.
  - destruct f' as [|f']; [lia|]. simpl in *.
    destruct (rbs_should_stop st); [assumption|].
    destruct (rbs_select env st) as [[k|e|] l0]; try assumption.
    assert (Hag : forall x r0 x' l0,
               rbs_next env f x = (r0, x', l0) -> r0 <> OutOfFuel ->
               rbs_next env f' x = (r0, x', l0)).
    { intros x r0 x' l1 Hx Hr0. apply IH; [assumption|assumption|lia]. }
    destruct (rbs_draw (rbs_next env f) _ k) as [[r0 x'] l1] eqn:E.
    inversion H; subst.
    rewrite (rbs_draw_mono _ _ _ _ _ _ _ Hag E Hne). reflexivity.
Qed.

(** ** The randomized sampler under ALL_DATASETS_EXHAUSTED, with weights *)

Lemma forallb_nth (flags : list bool) (i : nat) :
  forallb (fun b : bool => b) flags = true ->
  i < length flags -> nth i flags false = true.
Proof.
  revert i. induction flags as [|f flags IH]; intros i H Hi; simpl in *;
    [lia|].
  apply andb_true_iff in H. destruct H as [Hf H].
  destruct i as [|i]; [assumption | apply IH; [assumption | lia]].
Qed.

Lemma not_exhausted_nonempty (names : list string) (flags : list bool) :
  length flags = length names ->
  forallb (fun b : bool => b) flags = false ->
  not_exhausted names flags <> [].
Proof.
  unfold not_exhausted. revert flags.
  induction names as [|n names IH]; intros [|f flags] Hlen H; simpl in *;
    try discriminate.
  destruct f; simpl in *; [|discriminate].
  apply IH; [lia | assumption].
Qed.

Lemma length_set_nth {A : Type} (i : nat) (v : A) (l : list A) :
  length (set_nth i v l) = length l.
Proof.
  revert i. induction l as [|x l IH]; intros [|i]; simpl; auto.
Qed.

Lemma unmarked_set_nth (i : nat) (flags : list bool) :
  i < length flags ->
  nth i flags false = false ->
  S (unmarked (set_nth i true flags)) = unmarked flags.
Proof.
  unfold unmarked. revert i.
  induction flags as [|f flags IH]; intros [|i] Hi H; simpl in *; try lia.
  - subst f. reflexivity.
  - destruct f; simpl; rewrite <- (IH i) by (assumption || lia); reflexivity.
Qed.

Lemma nth_set_nth_inv (i i' : nat) (flags : list bool) :
  nth i' (set_nth i true flags) false = true ->
  i' = i \/ nth i' flags false = true.
Proof.
  revert i i'. induction flags as [|f flags IH]; intros [|i] [|i'] H;
    simpl in *; auto.
  destruct (IH _ _ H) as [->|H']; auto.
Qed.

Lemma index_nth_error (k : string) (l : list string) (i : nat) :
  index k l = Some i -> nth_error l i = Some k.
Proof.
  revert i. induction l as [|k' l IH]; intros i H; simpl in H;
    [discriminate|].
  destruct (String.eqb_spec k k') as [->|Hne].
  - inversion H. reflexivity.
  - destruct (index k l) as [j|]; [|discriminate].
    inversion H. simpl. now apply IH.
Qed.

Lemma total_length_all_empty (d : dict iterator) :
  NoDup (keys d) ->
  (forall k, In k (keys d) -> lookup k d = Some []) ->
  total_length d = 0.
Proof.
  unfold total_length, lengths.
  induction d as [|[k h] d IH]; intros Hnd Hall; simpl; [reflexivity|].
  inversion Hnd as [|? ? Hk Hnd']; subst.
  pose proof (Hall k (or_introl eq_refl)) as Hh. simpl in Hh.
  rewrite String.eqb_refl in Hh. inversion Hh; subst. simpl.
  apply IH; [assumption|]. intros k' Hk'.
  specialize (Hall k' (or_intror Hk')). simpl in Hall.
  destruct (String.eqb_spec k' k) as [E|Hne]; [|assumption].
  subst k'. contradiction.
Qed.

Lemma batches_of_cons_same (k : string) (b : batch) (recs : list record) :
  batches_of k ([(k, b)] :: recs) = b :: batches_of k recs.
Proof. unfold batches_of. simpl. now rewrite String.eqb_refl. Qed.

Lemma batches_of_cons_other (k k' : string) (b : batch)
  (recs : list record) :
  k' <> k -> batches_of k' ([(k, b)] :: recs) = batches_of k' recs.
Proof.
  intros Hne. unfold batches_of. simpl.
  apply String.eqb_neq in Hne. now rewrite Hne.
Qed.

Lemma length_not_exhausted {A B : Type} (xs : list A) (ys : list B)
  (flags : list bool) :
  length xs = length ys ->
  length (not_exhausted xs flags) = length (not_exhausted ys flags).
Proof.
  unfold not_exhausted. revert ys flags.
  induction xs as [|x xs IH]; intros [|y ys] flags H; try discriminate;
    [reflexivity|].
  destruct flags as [|f fs]; [reflexivity|]. simpl in *.
  destruct f; simpl; [|f_equal]; apply IH; lia.
Qed.

Section SamplerSweep.
Variable env : environment.

Lemma rbs_sweep_select (it : RandomizedBatchSamplerIterator) :
  rbs_sweeping env it ->
  rbs_should_stop it = false ->
  exists k i l0,
    rbs_select env it = (Return k, l0)
    /\ In k (rbs_iterator_names it)
    /\ index k (rbs_iterator_names it) = Some i
    /\ i < length (rbs_iterator_names it)
    /\ nth i (rbs_iterator_is_exhausted it) false = false.
Proof.
  intros [Hmode Hloc Hw Hnd Hkeys Hcov Hlen Hal Hacc Hmk] Hstop.
  unfold rbs_should_stop in Hstop. rewrite Hmode in Hstop.
  unfold rbs_select. rewrite Hloc.
  destruct (rbs_iterator_weights it) as [ws|] eqn:Ew; [|congruence].
  assert (Hc : rbs_candidates it
               = (not_exhausted (rbs_iterator_names it)
                    (rbs_iterator_is_exhausted it),
                  Some (not_exhausted ws (rbs_iterator_is_exhausted it)))).
  { unfold rbs_candidates. rewrite Hmode, Ew. reflexivity. }
  rewrite Hc. cbn [fst snd].
  pose proof (not_exhausted_nonempty _ _ Hlen Hstop) as Hne.
  pose proof (length_not_exhausted ws (rbs_iterator_names it)
                (rbs_iterator_is_exhausted it) (Hal ws Ew)) as Hl2.
  destruct (random_choice_In env (rbs_draws it) _
              (Some (not_exhausted ws (rbs_iterator_is_exhausted it))) Hne)
    as (k & -> & Hin & _).
  { intros ws' E. inversion E; subst. split; [assumption|].
    apply (Hacc ws _ Ew).
    - rewrite Hlen. symmetry. now apply Hal.
    - intros E0. rewrite E0 in Hl2. simpl in Hl2.
      destruct (not_exhausted (rbs_iterator_names it) _);
        [congruence | discriminate]. }
  pose proof (not_exhausted_incl _ _ _ Hin) as Hk.
  pose proof (not_exhausted_unmarked _ _ _ Hnd Hin) as Hum.
  destruct (index_In k _ Hk) as [i [Hi Hlt]]. rewrite Hi in Hum.
  exists k, i. eexists. repeat split; assumption.
Qed.

Lemma rbs_sweep_runs_from (n : nat) :
  forall it,
    total_length (rbs_individual_iterators it)
    + unmarked (rbs_iterator_is_exhausted it) < n ->
    rbs_sweeping env it ->
    exists recs,
      runs (rbs_next env) it recs
      /\ length recs = total_length (rbs_individual_iterators it)
      /\ (forall k, In k (rbs_iterator_names it) ->
            lookup k (rbs_individual_iterators it)
            = Some (batches_of k recs))
      /\ Forall (fun r : record => length r = 1) recs.
Proof.
  induction n as [|n IH]; intros it Hn Hsw; [lia|].
  destruct (rbs_should_stop it) eqn:Hstop.
  - (* every source is marked exhausted *)
    pose proof Hsw as [Hmode Hloc Hw Hnd Hkeys Hcov Hlen Hal Hacc Hmk].
    assert (Hall : forall k, In k (rbs_iterator_names it) ->
                     lookup k (rbs_individual_iterators it) = Some []).
    { intros k Hk. apply Hmk. unfold rbs_marked_exhausted.
      destruct (index_In k _ Hk) as [i [-> Hi]].
      unfold rbs_should_stop in Hstop. rewrite Hmode in Hstop.
      apply forallb_nth; [assumption | lia]. }
    exists []. split; [|split; [|split]].
    + eapply runs_stop with (st' := it) (l := []).
      exists 1. intros f Hf. destruct f as [|f]; [lia|].
      simpl. now rewrite Hstop.
    + simpl. symmetry. apply total_length_all_empty; [assumption|].
      intros k Hk. apply Hall. now apply Hcov.
    + intros k Hk. simpl. now apply Hall.
    + constructor.
  - destruct (rbs_sweep_select it Hsw Hstop)
      as (k & i & l0 & Hsel & Hk & Hi & Hlt & Hflag).
    pose proof Hsw as [Hmode Hloc Hw Hnd Hkeys Hcov Hlen Hal Hacc Hmk].
    assert (Hkk : In k (keys (rbs_individual_iterators it)))
      by now apply Hcov.
    destruct (lookup_In k _ Hkk) as [h Hh].
    destruct h as [|b rest].
    + (* the selected source is exhausted: mark it, select again *)
      set (it1 := rbs_set_exhausted (rbs_tick it)
                    (set_nth i true (rbs_iterator_is_exhausted it))).
      assert (Hsw1 : rbs_sweeping env it1).
      { constructor; simpl; try assumption.
        - now rewrite length_set_nth.
        - intros k' Hk'. unfold rbs_marked_exhausted in Hk'. simpl in Hk'.
          destruct (index k' (rbs_iterator_names it)) as [i'|] eqn:Ei';
            [|discriminate].
          destruct (nth_set_nth_inv _ _ _ Hk') as [->|Hold].
          + apply index_nth_error in Ei'. apply index_nth_error in Hi.
            assert (k' = k) by congruence. now subst.
          + apply Hmk. unfold rbs_marked_exhausted. now rewrite Ei'. }
      destruct (IH it1) as (recs & Hruns & Hlenr & Hb & Hone).
      { simpl.
        pose proof (unmarked_set_nth i (rbs_iterator_is_exhausted it)
                      ltac:(lia) Hflag). lia. }
      { exact Hsw1. }
      exists recs. split; [|split; [|split]]; try assumption.
      eapply (runs_transfer (rbs_next env) (rbs_next_mono env));
        [|exact Hruns].
      intros r st' l Hr [f0 Hev]. eexists. exists (S f0).
      intros f Hf. destruct f as [|f]; [lia|].
      simpl. rewrite Hstop, Hsel. unfold rbs_draw. simpl.
      rewrite Hh, Hmode, Hi. fold it1. rewrite (Hev f) by lia.
      reflexivity.
    + pose proof (total_length_setitem k b rest _ Hh) as Ht.
      set (it1 := rbs_set_iterator (rbs_tick it) k rest).
      assert (Hsw1 : rbs_sweeping env it1).
      { constructor; simpl; try assumption.
        - now rewrite keys_setitem.
        - intros k'. rewrite keys_setitem by assumption. apply Hcov.
        - intros k' Hk'.
          assert (Hne : k' <> k).
          { intros ->. unfold rbs_marked_exhausted in Hk'. simpl in Hk'.
            rewrite Hi in Hk'. congruence. }
          rewrite lookup_setitem_other by assumption.
          now apply Hmk. }
      destruct (IH it1) as (recs & Hruns & Hlenr & Hb & Hone).
      { simpl. lia. }
      { exact Hsw1. }
      exists ([(k, b)] :: recs). split; [|split; [|split]].
      * eapply runs_yield; [|exact Hruns].
        exists 1. intros f Hf. destruct f as [|f]; [lia|].
        simpl. rewrite Hstop, Hsel. unfold rbs_draw. simpl.
        rewrite Hh. reflexivity.
      * simpl in Hlenr |- *. lia.
      * intros k' Hk'. specialize (Hb k' Hk'). simpl in Hb.
        destruct (string_dec k' k) as [->|Hne].
        -- rewrite batches_of_cons_same, Hh.
           rewrite lookup_setitem, String.eqb_refl in Hb.
           injection Hb as Hb. now rewrite <- Hb.
        -- rewrite batches_of_cons_other by assumption.
           now rewrite lookup_setitem_other in Hb.
      * constructor; [reflexivity | assumption].
Qed.
End SamplerSweep.

Lemma RandomizedBatchSamplerIterator_init_sweeping (env : environment)
  (dls : dict dataloader) (s : RandomizedBatchSampler) (w : dict weight)
  (it : RandomizedBatchSamplerIterator) (l : list event) :
  NoDup (keys dls) ->
  rbs_weights s = Some w ->
  rbs_strategy_stopping_mechanism s = ALL_DATASETS_EXHAUSTED ->
  rbs_strategy_enforce_same_loader_across_ranks s
  && dist_is_available env && dist_is_initialized env = false ->
  RandomizedBatchSamplerIterator_init env dls s = (Return it, l) ->
  rbs_weights_accepted_in_part it ->
  rbs_sweeping env it.
Proof.
  intros Hnd Hw Hmode Hloc Hinit Hacc.
  destruct (RandomizedBatchSamplerIterator_init_fields _ _ _ _ _ Hinit)
    as (Hd & Hi & Hn & Hf & Hm & He & _).
  destruct (RandomizedBatchSamplerIterator_init_weights _ _ _ _ _ _ Hw Hinit)
    as (ws & Hws & _).
  constructor.
  - congruence.
  - now rewrite He.
  - congruence.
  - rewrite Hn. eapply Permutation_NoDup;
      [apply Permutation_sym, sorted_perm | assumption].
  - now rewrite Hi, keys_map_iter.
  - intros k. rewrite Hn, Hi, keys_map_iter. split; intros Hk.
    + eapply Permutation_in; [apply sorted_perm | exact Hk].
    + eapply Permutation_in; [apply Permutation_sym, sorted_perm | exact Hk].
  - now rewrite Hf, Hn, repeat_length.
  - eapply RandomizedBatchSamplerIterator_init_aligned. eassumption.
  - assumption.
  - intros k Hk. unfold rbs_marked_exhausted in Hk. rewrite Hf in Hk.
    destruct (index k _) as [i|]; [|discriminate].
    rewrite nth_repeat in Hk. discriminate.
Qed.

(** X12. A randomized sampler with weights that selects locally under
    ALL_DATASETS_EXHAUSTED, over sources with distinct keys, when
    [random.choices] accepts the weights it keeps and what is left of
    them when some sources are marked exhausted (the total, in floating
    point, is each time greater than zero and finite): whatever the
    random draws, the run ends, and it has delivered every batch of every
    source exactly once, one batch per record, the batches of each source
    in the order of the source.  (A source found exhausted is marked and
    leaves the population of the later draws, with its weight.) *)
Theorem rbs_weighted_all_exhausted_delivers_all :
  forall (env : environment) (dls : dict dataloader) (w : dict weight)
         (enforce : bool) (it : RandomizedBatchSamplerIterator)
         (l : list event),
    NoDup (keys dls) ->
    enforce && dist_is_available env && dist_is_initialized env = false ->
    RandomizedBatchSamplerIterator_init env dls
      (mkRandomizedBatchSampler (Some w) ALL_DATASETS_EXHAUSTED enforce)
    = (Return it, l) ->
    rbs_weights_accepted_in_part it ->
    exists recs,
      runs (rbs_next env) it recs
      /\ length recs = total_length dls
      /\ (forall k, In k (keys dls) -> batches_of k recs = dl_of dls k)
      /\ Forall (fun r : record => length r = 1) recs.
Proof.
  intros env dls w enforce it l Hnd Hloc Hinit Hacc.
  pose proof (RandomizedBatchSamplerIterator_init_sweeping env dls
                (mkRandomizedBatchSampler (Some w) ALL_DATASETS_EXHAUSTED
                   enforce) w it l Hnd eq_refl eq_refl Hloc Hinit Hacc)
    as Hsw.
  destruct (RandomizedBatchSamplerIterator_init_fields _ _ _ _ _ Hinit)
    as (Hd & Hi & Hn & _).
  destruct (rbs_sweep_runs_from env _ it (Nat.lt_succ_diag_r _) Hsw)
    as (recs & Hruns & Hlen & Hb & Hone).
  exists recs. split; [assumption|]. split; [|split; [|assumption]].
  - rewrite Hlen, Hi. unfold total_length. now rewrite lengths_map_iter.
  - intros k Hk.
    assert (Hkn : In k (rbs_iterator_names it)).
    { rewrite Hn. eapply Permutation_in;
        [apply Permutation_sym, sorted_perm | exact Hk]. }
    specialize (Hb k Hkn). rewrite Hi, map_iter_id in Hb.
    assert (E : lookup k dls = Some (batches_of k recs)) by exact Hb.
    unfold dl_of. now rewrite E.
Qed.

Lemma rbs_weighted_all_exhausted_delivers_all_witness :
  exists recs,
    runs (rbs_next (local_env [1; 0; 0; 0]))
      (rbs_of (local_env [1; 0; 0; 0]) loaders_ab
         (mkRandomizedBatchSampler
            (Some [("a", PyInt 1); ("b", PyInt 2)])
            ALL_DATASETS_EXHAUSTED false)) recs
    /\ length recs = 4
    /\ batches_of "a" recs = [0]
    /\ batches_of "b" recs = [0; 1; 2].
Proof.
  destruct (rbs_weighted_all_exhausted_delivers_all (local_env [1; 0; 0; 0])
              loaders_ab [("a", PyInt 1); ("b", PyInt 2)] false
              (rbs_of (local_env [1; 0; 0; 0]) loaders_ab
                 (mkRandomizedBatchSampler
                    (Some [("a", PyInt 1); ("b", PyInt 2)])
                    ALL_DATASETS_EXHAUSTED false)) [])
    as (recs & Hruns & Hlen & Hb & _).
  - simpl. repeat constructor; simpl; intuition discriminate.
  - reflexivity.
  - vm_compute. reflexivity.
  - intros ws flags Hws Hlen Hne. vm_compute in Hws.
    inversion Hws; subst. clear Hws.
    destruct flags as [|b1 [|b2 [|b3 flags]]]; try discriminate.
    destruct b1, b2; try (exfalso; apply Hne; reflexivity);
      vm_compute; reflexivity.
  - exists recs. split; [assumption|]. split; [assumption|]. split.
    + apply (Hb "a"). simpl. now left.
    + apply (Hb "b"). simpl. right. now left.
Defined.

(** ** The randomized sampler: the end *)

Lemma rbs_restart_no_stop (it it' : RandomizedBatchSamplerIterator)
  (k : string) (l : list event) :
  (forall k, lookup k (rbs_individual_dataloaders it) <> Some []) ->
  rbs_restart it k <> (Raise StopIteration, it', l).
Proof.
  intros Hne. unfold rbs_restart.
  destruct (lookup k (rbs_individual_dataloaders it)) as [[|b rest]|] eqn:E;
    try discriminate.
  exfalso. exact (Hne k E).
Qed.

Lemma random_choice_raises (env : environment) (draw : nat)
  (population : list string) (weights : option (list float)) (e : exn) :
  random_choice env draw population weights = Raise e ->
  e = IndexError \/ e = ValueError.
Proof.
  unfold random_choice. intros H.
  assert (Hpick : match nth_error population
                          (random_choices env draw mod length population) with
                  | Some k0 => Return k0
                  | None => Raise IndexError
                  end = Raise e -> e = IndexError \/ e = ValueError).
  { destruct (nth_error population _); [discriminate|].
    intros E. inversion E. now left. }
  destruct weights as [ws|]; [|now apply Hpick].
  destruct (negb _); [inversion H; now right|].
  destruct (last_item _); [|inversion H; now left].
  destruct (PrimFloat.leb _ _); [inversion H; now right|].
  destruct (negb _); [inversion H; now right|]. now apply Hpick.
Qed.

Lemma rbs_next_stop_state (env : environment) (fuel : nat) :
  forall it it' l,
    rbs_restarts_nonempty it ->
    rbs_next env fuel it = (Raise StopIteration, it', l) ->
    rbs_should_stop it' = true.
Proof.
  induction fuel as [|f IH]; intros it it' l Hsafe H; [discriminate|].
  simpl in H.
  destruct (rbs_should_stop it) eqn:Hstop.
  { inversion H; subst. exact Hstop. }
  destruct (rbs_select env it) as [[k|e|] l0] eqn:Es; try discriminate.
  - destruct (rbs_draw _ _ k) as [[r0 x'] l1] eqn:Ed.
    inversion H; subst. clear H.
    unfold rbs_draw in Ed. simpl in Ed.
    destruct (lookup k _) as [[|b rest]|]; try discriminate.
    unfold rbs_restarts_nonempty in Hsafe.
    destruct (rbs_stopping_mechanism it) eqn:Em.
    + destruct (index k _); [|discriminate].
      destruct (rbs_next env f _) as [[r1 x1] l2] eqn:En.
      inversion Ed; subst.
      eapply IH; [|exact En]. unfold rbs_restarts_nonempty. simpl.
      now rewrite Em.
    + destruct (index k _); [|discriminate].
      destruct (rbs_next env f _) as [[r1 x1] l2] eqn:En.
      inversion Ed; subst.
      eapply IH; [|exact En]. unfold rbs_restarts_nonempty. simpl.
      now rewrite Em.
    + destruct (_ =? _) eqn:Efull.
      * inversion Ed; subst. unfold rbs_should_stop. simpl.
        rewrite Em. exact Efull.
      * exfalso. eapply rbs_restart_no_stop; [|exact Ed]. exact Hsafe.
    + exfalso. eapply rbs_restart_no_stop; [|exact Ed]. exact Hsafe.
  - exfalso. inversion H; subst. unfold rbs_select in Es.
    destruct (random_choice _ _ _ _) as [k|e|] eqn:Er.
    + destruct (_ && _ && _); [|discriminate].
      destruct (index _ _); [|discriminate].
      destruct (nth_error _ _); discriminate.
    + inversion Es; subst.
      destruct (random_choice_raises _ _ _ _ _ Er); discriminate.
    + discriminate.
Qed.

(** X13. The end of a randomized sampler is final, provided no source
    that the stopping mechanism may re-create is empty: once a call has
    raised StopIteration, every later call raises StopIteration, draws no
    random number, calls no source and leaves the sampler as it is. *)
Theorem rbs_end_is_final :
  forall (env : environment) (fuel : nat)
         (it it' : RandomizedBatchSamplerIterator) (l : list event),
    rbs_restarts_nonempty it ->
    rbs_next env fuel it = (Raise StopIteration, it', l) ->
    forall fuel' n,
      outcomes (rbs_next env (S fuel')) n it'
      = repeat (Raise StopIteration) n
      /\ events (rbs_next env (S fuel')) n it' = []
      /\ after (rbs_next env (S fuel')) n it' = it'.
Proof.
  intros env fuel it it' l Hsafe H fuel' n. apply rbs_ended_forever.
  eapply rbs_next_stop_state; eassumption.
Qed.

Lemma rbs_end_is_final_witness :
  outcomes (rbs_next (local_env [0; 0; 1]) 1) 2
    (after (rbs_next (local_env [0; 0; 1]) 5) 2
       (rbs_of (local_env [0; 0; 1]) loaders_ab
          (mkRandomizedBatchSampler None SMALLEST_DATASET_EXHAUSTED false)))
  = [Raise StopIteration; Raise StopIteration].
Proof.
  refine (proj1 (rbs_end_is_final (local_env [0; 0; 1]) 5
                   (after (rbs_next (local_env [0; 0; 1]) 5) 1
                      (rbs_of (local_env [0; 0; 1]) loaders_ab
                         (mkRandomizedBatchSampler None
                            SMALLEST_DATASET_EXHAUSTED false)))
                   _ _ _ eq_refl 0 2)).
  exact I.
Defined.

(** ** The randomized sampler: construction *)

(** X14. The constructor of a randomized sampler with weights raises
    AssertionError, before any weight is converted and any process group
    is created, when a source has no weight.  When every source has a
    weight, the weights of the sources are converted with [float]: the
    constructor raises OverflowError when one of them is an [int] too
    large for a float; otherwise the list of weights it keeps is aligned
    with the sorted names of the sources, each name with the float made
    of the weight given under it.  Weights given under keys that are no
    source are ignored. *)
Theorem rbs_init_weights_by_name :
  forall (env : environment) (dls : dict dataloader)
         (s : RandomizedBatchSampler) (w : dict weight),
    rbs_weights s = Some w ->
    ((exists k, In k (keys dls) /\ lookup k w = None) ->
     RandomizedBatchSamplerIterator_init env dls s
     = (Raise AssertionError, []))
    /\ ((forall k, In k (keys dls) -> lookup k w <> None) ->
        (exists k v, In k (keys dls) /\ lookup k w = Some v
                     /\ to_float v = Raise OverflowError) ->
        RandomizedBatchSamplerIterator_init env dls s
        = (Raise OverflowError, []))
    /\ (forall it l,
          RandomizedBatchSamplerIterator_init env dls s = (Return it, l) ->
          exists ws,
            rbs_iterator_weights it = Some ws
            /\ Forall2 (fun k x => exists v, lookup k w = Some v
                                             /\ to_float v = Return x)
                 (rbs_iterator_names it) ws)
    /\ ((forall k, In k (keys dls) ->
           exists v x, lookup k w = Some v /\ to_float v = Return x) ->
        rbs_strategy_enforce_same_loader_across_ranks s = false ->
        exists it,
          RandomizedBatchSamplerIterator_init env dls s = (Return it, [])).
Proof.
  intros env dls s w Hw.
  assert (Hin : forall k, In k (sorted (keys dls)) <-> In k (keys dls)).
  { intros k. split; intros Hk.
    - eapply Permutation_in; [apply sorted_perm | exact Hk].
    - eapply Permutation_in; [apply Permutation_sym, sorted_perm | exact Hk]. }
  split; [|split; [|split]].
  - intros (k & Hk & Hn).
    assert (Hsub : issubset_keys (sorted (keys dls)) w = false).
    { apply issubset_keys_false. exists k. split; [now apply Hin | assumption]. }
    unfold RandomizedBatchSamplerIterator_init. now rewrite Hw, Hsub.
  - intros Hall (k & v & Hk & Hv & Hf).
    assert (Hsub : issubset_keys (sorted (keys dls)) w = true).
    { apply issubset_keys_true. intros k' Hk'. apply Hall. now apply Hin. }
    assert (Hof : weights_of w (sorted (keys dls)) = Raise OverflowError).
    { apply weights_of_overflow.
      - intros k' Hk'. apply Hall. now apply Hin.
      - exists k, v. split; [now apply Hin | split; assumption]. }
    unfold RandomizedBatchSamplerIterator_init. now rewrite Hw, Hsub, Hof.
  - intros it l Hinit.
    destruct (RandomizedBatchSamplerIterator_init_weights _ _ _ _ _ _ Hw Hinit)
      as (ws & Hws & Hof).
    destruct (RandomizedBatchSamplerIterator_init_fields _ _ _ _ _ Hinit)
      as (_ & _ & Hn & _).
    exists ws. split; [assumption|]. rewrite Hn.
    now apply weights_of_Forall2.
  - intros Hall He.
    assert (Hsub : issubset_keys (sorted (keys dls)) w = true).
    { apply issubset_keys_true. intros k Hk.
      destruct (Hall k (proj1 (Hin k) Hk)) as (v & x & Hv & _). congruence. }
    destruct (weights_of_converted w (sorted (keys dls))) as [ws Hof].
    { intros k Hk. apply Hall. now apply Hin. }
    unfold RandomizedBatchSamplerIterator_init. rewrite Hw, Hsub, Hof, He.
    eexists. reflexivity.
Qed.

Lemma rbs_init_weights_by_name_witness :
  RandomizedBatchSamplerIterator_init (local_env []) loaders_ab
    (mkRandomizedBatchSampler (Some [("b", PyInt 2)])
       ALL_DATASETS_EXHAUSTED true)
  = (Raise AssertionError, [])
  /\ RandomizedBatchSamplerIterator_init (local_env []) loaders_ab
       (mkRandomizedBatchSampler
          (Some [("a", PyInt (10 ^ 400)); ("b", PyInt 2)])
          ALL_DATASETS_EXHAUSTED false)
     = (Raise OverflowError, [])
  /\ exists it,
       RandomizedBatchSamplerIterator_init (local_env [])
         [("b", [0; 1; 2]); ("a", [0])]
         (mkRandomizedBatchSampler
            (Some [("z", PyInt 9); ("b", PyInt 2); ("a", PyInt 1)])
            ALL_DATASETS_EXHAUSTED false)
       = (Return it, [])
       /\ rbs_iterator_names it = ["a"; "b"]
       /\ rbs_iterator_weights it = Some [PrimFloat.one; PrimFloat.two].
Proof.
  split; [|split].
  - apply (proj1 (rbs_init_weights_by_name (local_env []) loaders_ab
                    (mkRandomizedBatchSampler (Some [("b", PyInt 2)])
                       ALL_DATASETS_EXHAUSTED true) [("b", PyInt 2)]
                    eq_refl)).
    exists "a". split; [now left | reflexivity].
  - apply (proj1 (proj2 (rbs_init_weights_by_name (local_env []) loaders_ab
                    (mkRandomizedBatchSampler
                       (Some [("a", PyInt (10 ^ 400)); ("b", PyInt 2)])
                       ALL_DATASETS_EXHAUSTED false)
                    [("a", PyInt (10 ^ 400)); ("b", PyInt 2)] eq_refl))).
    + intros k [<-|[<-|[]]]; discriminate.
    + exists "a", (PyInt (10 ^ 400)). split; [now left|].
      split; [reflexivity|]. vm_compute. reflexivity.
  - destruct (proj2 (proj2 (proj2 (rbs_init_weights_by_name (local_env [])
                    [("b", [0; 1; 2]); ("a", [0])]
                    (mkRandomizedBatchSampler
                       (Some [("z", PyInt 9); ("b", PyInt 2); ("a", PyInt 1)])
                       ALL_DATASETS_EXHAUSTED false)
                    [("z", PyInt 9); ("b", PyInt 2); ("a", PyInt 1)]
                    eq_refl))))
      as [it Hit].
    + intros k [<-|[<-|[]]]; eexists; eexists;
        (split; [reflexivity | vm_compute; reflexivity]).
    + reflexivity.
    + exists it. split; [exact Hit|].
      vm_compute in Hit. inversion Hit; subst. split; reflexivity.
Defined.

(** ** The names of a randomized sampler *)

Lemma ascii_compare_lt_trans (a b c : Ascii.ascii) :
  Ascii.compare a b = Lt -> Ascii.compare b c = Lt ->
  Ascii.compare a c = Lt.
Proof.
  unfold Ascii.compare. rewrite !BinNat.N.compare_lt_iff.
  apply BinNat.N.lt_trans.
Qed.

Lemma string_compare_lt_trans :
  forall a b c : string,
    String.compare a b = Lt -> String.compare b c = Lt ->
    String.compare a c = Lt.
Proof.
  induction a as [|x a IH]; intros [|y b] [|z c] Hab Hbc; simpl in *;
    try discriminate; try reflexivity.
  destruct (Ascii.compare x y) eqn:Exy; try discriminate;
    destruct (Ascii.compare y z) eqn:Eyz; try discriminate.
  - apply Ascii.compare_eq_iff in Exy, Eyz. subst.
    assert (E : Ascii.compare z z = Eq)
      by (unfold Ascii.compare; apply BinNat.N.compare_refl).
    rewrite E. now apply (IH b).
  - apply Ascii.compare_eq_iff in Exy. subst. now rewrite Eyz.
  - apply Ascii.compare_eq_iff in Eyz. subst. now rewrite Exy.
  - now rewrite (ascii_compare_lt_trans x y z Exy Eyz).
Qed.

Lemma string_compare_refl (a : string) : String.compare a a = Eq.
Proof.
  induction a as [|x a IH]; simpl; [reflexivity|].
  assert (E : Ascii.compare x x = Eq)
    by (unfold Ascii.compare; apply BinNat.N.compare_refl).
  now rewrite E.
Qed.

Lemma string_leb_trans (a b c : string) :
  String.leb a b = true -> String.leb b c = true -> String.leb a c = true.
Proof.
  unfold String.leb.
  destruct (String.compare a b) eqn:Eab; try discriminate;
    destruct (String.compare b c) eqn:Ebc; try discriminate; intros _ _.
  - apply String.compare_eq_iff in Eab, Ebc. subst.
    now rewrite string_compare_refl.
  - apply String.compare_eq_iff in Eab. subst. now rewrite Ebc.
  - apply String.compare_eq_iff in Ebc. subst. now rewrite Eab.
  - now rewrite (string_compare_lt_trans a b c Eab Ebc).
Qed.

Lemma insert_sorted_comm (a b : string) (l : list string) :
  insert_sorted a (insert_sorted b l) = insert_sorted b (insert_sorted a l).
Proof.
  induction l as [|x l IH]; simpl.
  - destruct (String.leb a b) eqn:Eab, (String.leb b a) eqn:Eba;
      try reflexivity.
    + now rewrite (String.leb_antisym a b Eab Eba).
    + destruct (String.leb_total a b); congruence.
  - destruct (String.leb b x) eqn:Ebx, (String.leb a x) eqn:Eax; simpl.
    + destruct (String.leb a b) eqn:Eab, (String.leb b a) eqn:Eba;
        rewrite ?Ebx, ?Eax; try reflexivity.
      * now rewrite (String.leb_antisym a b Eab Eba).
      * destruct (String.leb_total a b); congruence.
    + destruct (String.leb a b) eqn:Eab.
      * rewrite (string_leb_trans a b x Eab Ebx) in Eax. discriminate.
      * now rewrite Eax, Ebx.
    + destruct (String.leb b a) eqn:Eba.
      * rewrite (string_leb_trans b a x Eba Eax) in Ebx. discriminate.
      * now rewrite Eax, Ebx.
    + now rewrite Eax, Ebx, IH.
Qed.

Lemma sorted_Permutation (l l' : list string) :
  Permutation l l' -> sorted l = sorted l'.
Proof.
  induction 1; simpl.
  - reflexivity.
  - now rewrite IHPermutation.
  - apply insert_sorted_comm.
  - congruence.
Qed.

Lemma insert_sorted_ascending (k : string) (l : list string) :
  (forall i j x y, i < j -> nth_error l i = Some x ->
                   nth_error l j = Some y -> String.leb x y = true) ->
  forall i j x y,
    i < j -> nth_error (insert_sorted k l) i = Some x ->
    nth_error (insert_sorted k l) j = Some y -> String.leb x y = true.
Proof.
  induction l as [|z l IH]; intros Hl i j x y Hij Hx Hy; simpl in *.
  - destruct i, j; try lia; destruct j; discriminate.
  - destruct (String.leb k z) eqn:Ekz.
    + destruct i as [|i]; destruct j as [|j]; try lia; simpl in *.
      * inversion Hx; subst x.
        destruct j as [|j]; simpl in Hy.
        -- inversion Hy; subst. exact Ekz.
        -- apply (string_leb_trans k z y Ekz).
           apply (Hl 0 (S j) z y); [lia | reflexivity | exact Hy].
      * apply (Hl i j x y); [lia | assumption | assumption].
    + assert (Hzk : String.leb z k = true)
        by (destruct (String.leb_total k z); congruence).
      assert (Hl' : forall i j x y, i < j -> nth_error l i = Some x ->
                      nth_error l j = Some y -> String.leb x y = true).
      { intros i' j' x' y' Hij' Hx' Hy'.
        apply (Hl (S i') (S j') x' y'); [lia | assumption | assumption]. }
      destruct i as [|i]; destruct j as [|j]; try lia; simpl in *.
      * inversion Hx; subst x.
        apply nth_error_In in Hy.
        apply (Permutation_in _ (insert_sorted_perm k l)) in Hy.
        destruct Hy as [<-|Hy]; [assumption|].
        apply In_nth_error in Hy. destruct Hy as [n Hn].
        apply (Hl 0 (S n) z y); [lia | reflexivity | exact Hn].
      * apply (IH Hl' i j x y); [lia | assumption | assumption].
Qed.

Lemma sorted_ascending (l : list string) :
  forall i j x y,
    i < j -> nth_error (sorted l) i = Some x ->
    nth_error (sorted l) j = Some y -> String.leb x y = true.
Proof.
  induction l as [|k l IH]; simpl.
  - intros [|i] j x y _ H; discriminate.
  - now apply insert_sorted_ascending.
Qed.

(** X15. The names of a randomized sampler, which give the positions
    that the ranks exchange, are the keys of the sources in ascending
    order: they do not depend on the order in which the sources were put
    into the mapping, so that samplers built over the same keys agree on
    the name at every position. *)
Theorem rbs_names_sorted :
  forall (env1 env2 : environment) (dls1 dls2 : dict dataloader)
         (s1 s2 : RandomizedBatchSampler)
         (it1 it2 : RandomizedBatchSamplerIterator) (l1 l2 : list event),
    Permutation (keys dls1) (keys dls2) ->
    RandomizedBatchSamplerIterator_init env1 dls1 s1 = (Return it1, l1) ->
    RandomizedBatchSamplerIterator_init env2 dls2 s2 = (Return it2, l2) ->
    rbs_iterator_names it1 = rbs_iterator_names it2
    /\ Permutation (rbs_iterator_names it1) (keys dls1)
    /\ forall i j x y,
         i < j ->
         nth_error (rbs_iterator_names it1) i = Some x ->
         nth_error (rbs_iterator_names it1) j = Some y ->
         String.leb x y = true.
Proof.
  intros env1 env2 dls1 dls2 s1 s2 it1 it2 l1 l2 Hp H1 H2.
  destruct (RandomizedBatchSamplerIterator_init_fields _ _ _ _ _ H1)
    as (_ & _ & Hn1 & _).
  destruct (RandomizedBatchSamplerIterator_init_fields _ _ _ _ _ H2)
    as (_ & _ & Hn2 & _).
  rewrite Hn1, Hn2. split; [|split].
  - now apply sorted_Permutation.
  - apply sorted_perm.
  - apply sorted_ascending.
Qed.

Lemma rbs_names_sorted_witness :
  rbs_iterator_names
    (rbs_of (local_env []) [("b", [0; 1; 2]); ("a", [0])]
       (mkRandomizedBatchSampler None ALL_DATASETS_EXHAUSTED false))
  = rbs_iterator_names
      (rbs_of (local_env [1]) loaders_ab
         (mkRandomizedBatchSampler None SMALLEST_DATASET_EXHAUSTED false)).
Proof.
  refine (proj1 (rbs_names_sorted (local_env []) (local_env [1])
                   [("b", [0; 1; 2]); ("a", [0])] loaders_ab
                   (mkRandomizedBatchSampler None ALL_DATASETS_EXHAUSTED false)
                   (mkRandomizedBatchSampler None SMALLEST_DATASET_EXHAUSTED
                      false) _ _ [] [] _ eq_refl eq_refl)).
  simpl. apply perm_swap.
Defined.

(** ** The registry of iterators *)

(** X16. The registry answers by the exact class of the strategy: each
    of the four strategy classes of the module gets its own iterator
    class, and every other class, the base class DataIterationStrategy as
    well as any class derived from a registered strategy class, gets
    NotImplementedError. *)
Theorem registry_get_by_exact_class :
  forall c : strategy_class,
    (DataIterationStrategyRegistry_get c = Raise NotImplementedError
     <-> ~ In c [RoundRobin_class; AllDatasetBatches_class;
                 RandomizedBatchSampler_class; InOrder_class])
    /\ (forall n base, c = Derived_class n base ->
          DataIterationStrategyRegistry_get c = Raise NotImplementedError)
    /\ (forall c' i,
          DataIterationStrategyRegistry_get c = Return i ->
          DataIterationStrategyRegistry_get c' = Return i -> c = c').
Proof.
  intros c. split; [|split].
  - destruct c; unfold DataIterationStrategyRegistry_get; simpl;
      split; intros H;
      try reflexivity; try discriminate;
      try (exfalso; apply H; tauto);
      intros Hin; repeat (destruct Hin as [Hin|Hin]; try discriminate);
      contradiction.
  - intros n base ->. reflexivity.
  - intros c' i H H'.
    destruct c; try discriminate; destruct c'; try discriminate;
      try reflexivity;
      unfold DataIterationStrategyRegistry_get in *; simpl in *;
      congruence.
Qed.

(** ** Over no source at all *)

(** X17. Constructed over an empty mapping (and no iteration order):
    the round-robin and the in-order iterator cannot be constructed,
    their constructors raise IndexError on the first key of the order;
    the all-dataset-batches iterator is constructed and its first call
    raises StopIteration; the randomized sampler is constructed, and its
    first call raises StopIteration under ALL_DATASETS_EXHAUSTED and
    RESTART_UNTIL_ALL_DATASETS_EXHAUSTED, but IndexError (a choice in an
    empty population) under the two other mechanisms. *)
Theorem empty_mapping_of_sources :
  forall (m : StoppingMechanism) (order : option (list string))
         (env : environment) (w : option (dict weight)),
    order = None \/ order = Some [] ->
    (m <> WRAP_AROUND_UNTIL_KILLED ->
     RoundRobinIterator_init [] (mkRoundRobin m order) = Raise IndexError)
    /\ InOrderIterator_init [] (mkInOrder order) = Raise IndexError
    /\ (m <> WRAP_AROUND_UNTIL_KILLED ->
        exists it,
          AllDatasetBatchesIterator_init [] (mkAllDatasetBatches m)
          = Return it
          /\ adb_next it = (Raise StopIteration, it, []))
    /\ exists it,
         RandomizedBatchSamplerIterator_init env []
           (mkRandomizedBatchSampler w m false) = (Return it, [])
         /\ forall fuel,
              fst (fst (rbs_next env (S fuel) it))
              = match m with
                | ALL_DATASETS_EXHAUSTED
                | RESTART_UNTIL_ALL_DATASETS_EXHAUSTED => Raise StopIteration
                | _ => Raise IndexError
                end.
Proof.
  intros m order env w Ho. split; [|split; [|split]].
  - intros Hm. destruct Ho as [-> | ->]; destruct m; try reflexivity;
      congruence.
  - destruct Ho as [-> | ->]; reflexivity.
  - intros Hm. destruct m; try congruence; eexists; split; reflexivity.
  - destruct w as [w|]; destruct m; eexists; (split; [reflexivity|]);
      intros fuel; try reflexivity;
      simpl; unfold rbs_select, rbs_candidates, random_choice; simpl;
      destruct (random_choices env 0); reflexivity.
Qed.

Lemma empty_mapping_of_sources_witness :
  RoundRobinIterator_init [] (mkRoundRobin ALL_DATASETS_EXHAUSTED None)
  = Raise IndexError
  /\ InOrderIterator_init [] (mkInOrder None) = Raise IndexError.
Proof.
  destruct (empty_mapping_of_sources ALL_DATASETS_EXHAUSTED None
              (local_env []) None (or_introl eq_refl)) as (Hrr & Hio & _).
  split; [apply Hrr; discriminate | exact Hio].
Defined.

(** ** Ranks that select together *)

Lemma index_of_nth_error (l : list string) (i : nat) (k : string) :
  NoDup l -> nth_error l i = Some k -> index k l = Some i.
Proof.
  revert i. induction l as [|x l IH]; intros i Hnd H.
  - destruct i; discriminate.
  - inversion Hnd as [|? ? Hx Hnd']; subst. destruct i as [|i]; simpl in *.
    + inversion H; subst. now rewrite String.eqb_refl.
    + destruct (String.eqb_spec k x) as [->|Hne].
      * exfalso. apply Hx. eapply nth_error_In. eassumption.
      * now rewrite (IH i Hnd' H).
Qed.

Lemma rbs_select_coordinated (env : environment)
  (it : RandomizedBatchSamplerIterator) :
  coordinated env it = true ->
  rbs_candidates it = (rbs_iterator_names it, rbs_iterator_weights it) ->
  rbs_iterator_names it <> [] ->
  NoDup (rbs_iterator_names it) ->
  broadcast_in_range env (rbs_iterator_names it) ->
  rbs_weights_aligned it ->
  rbs_weights_accepted it ->
  rbs_select env it
  = (Return (broadcast_key env (rbs_iterator_names it) (rbs_draws it)),
     [EvChoices (rbs_iterator_names it) (rbs_iterator_weights it);
      EvBroadcast
        (random_choices env (rbs_draws it)
         mod length (rbs_iterator_names it))])
  /\ In (broadcast_key env (rbs_iterator_names it) (rbs_draws it))
       (rbs_iterator_names it).
Proof.
  intros Hco Hc Hn Hnd Hb Hal Hacc. unfold rbs_select, broadcast_key.
  unfold coordinated in Hco. rewrite Hc, Hco. cbn [fst snd].
  destruct (random_choice_In env (rbs_draws it) (rbs_iterator_names it)
              (rbs_iterator_weights it) Hn) as (k0 & -> & _ & E0).
  { intros ws Hws. split; [now apply Hal | now apply Hacc]. }
  set (names := rbs_iterator_names it) in *.
  set (i := random_choices env (rbs_draws it) mod length names) in *.
  assert (Hi : i < length names).
  { apply Nat.mod_upper_bound. destruct names; [congruence | discriminate]. }
  rewrite (index_of_nth_error names i k0 Hnd E0).
  pose proof (Hb (rbs_draws it) i Hi) as Hj.
  destruct (nth_error names (dist_broadcast env (rbs_draws it) i))
    as [k|] eqn:E.
  2:{ apply nth_error_None in E. lia. }
  rewrite (nth_error_nth _ _ _ E). split; [reflexivity|].
  eapply nth_error_In. eassumption.
Qed.

Lemma rbs_coordinated_keys (env : environment) (dls : dict dataloader)
  (names : list string) (fuel n : nat) :
  NoDup names ->
  forall seen it,
    rbs_wrapping env dls seen it ->
    coordinated env it = true ->
    rbs_iterator_names it = names ->
    outcome_keys (outcomes (rbs_next env (S fuel)) n it)
    = map (broadcast_key env names) (seq (rbs_draws it) n).
Proof.
  intros Hnd. induction n as [|n IH]; intros seen it Hw Hco Hn;
    [reflexivity|].
  destruct (rbs_select_coordinated env it Hco) as [Hsel Hk].
  - unfold rbs_candidates. now rewrite (wr_mode _ _ _ _ Hw).
  - exact (wr_names _ _ _ _ Hw).
  - now rewrite Hn.
  - exact (wr_broadcast _ _ _ _ Hw).
  - exact (wr_aligned _ _ _ _ Hw).
  - exact (wr_accepted _ _ _ _ Hw).
  - destruct (rbs_wrap_call_key env dls seen it fuel _ _ Hw Hsel Hk)
      as (it' & l & _ & Hcall & Hw' & Hd & Hn' & He).
    cbn [outcomes seq map]. rewrite Hcall.
    cbn [outcome_keys flat_map]. fold (outcome_keys
      (outcomes (rbs_next env (S fuel)) n it')).
    rewrite (IH (_ :: seen) it' Hw').
    + rewrite Hd, Hn. reflexivity.
    + unfold coordinated in *. now rewrite He.
    + congruence.
Qed.

(** X18. Two ranks whose samplers are coordinated under
    WRAP_AROUND_UNTIL_KILLED over non-empty sources with the same keys,
    when [random.choices] accepts on each rank the weights the sampler
    keeps (if any): when the broadcast leaves on rank 0 the
    position of its own choice and delivers that position to the other
    rank, both ranks draw, call after call, from the source of the same
    name, the one rank 0 chose, whatever the generator of the other rank
    chose and in whatever order the two mappings were built. *)
Theorem rbs_coordinated_ranks_agree :
  forall (env0 env1 : environment) (dls0 dls1 : dict dataloader)
         (w0 w1 : option (dict weight))
         (it0 it1 : RandomizedBatchSamplerIterator) (l0 l1 : list event),
    NoDup (keys dls0) ->
    Permutation (keys dls0) (keys dls1) ->
    dls0 <> [] ->
    (forall nd, In nd dls0 -> snd nd <> []) ->
    (forall nd, In nd dls1 -> snd nd <> []) ->
    dist_is_available env0 && dist_is_initialized env0 = true ->
    dist_is_available env1 && dist_is_initialized env1 = true ->
    (forall d i, dist_broadcast env0 d i = i) ->
    (forall d i,
        dist_broadcast env1 d i
        = random_choices env0 d mod length (keys dls0)) ->
    RandomizedBatchSamplerIterator_init env0 dls0
      (mkRandomizedBatchSampler w0 WRAP_AROUND_UNTIL_KILLED true)
    = (Return it0, l0) ->
    RandomizedBatchSamplerIterator_init env1 dls1
      (mkRandomizedBatchSampler w1 WRAP_AROUND_UNTIL_KILLED true)
    = (Return it1, l1) ->
    rbs_weights_accepted it0 ->
    rbs_weights_accepted it1 ->
    forall fuel n,
      outcome_keys (outcomes (rbs_next env0 (S fuel)) n it0)
      = map (fun d => nth (random_choices env0 d mod length (keys dls0))
                        (sorted (keys dls0)) "")
          (seq 0 n)
      /\ outcome_keys (outcomes (rbs_next env1 (S fuel)) n it1)
         = outcome_keys (outcomes (rbs_next env0 (S fuel)) n it0).
Proof.
  intros env0 env1 dls0 dls1 w0 w1 it0 it1 l0 l1 Hnd Hp Hne Hf0 Hf1
    Hup0 Hup1 Hb0 Hb1 Hinit0 Hinit1 Hacc0 Hacc1 fuel n.
  assert (Hlen : length (sorted (keys dls0)) = length (keys dls0))
    by (apply Permutation_length, sorted_perm).
  assert (Hpos : length (keys dls0) <> 0)
    by (destruct dls0; [congruence | discriminate]).
  assert (Hnds : NoDup (sorted (keys dls0))).
  { eapply Permutation_NoDup; [apply Permutation_sym, sorted_perm|].
    assumption. }
  assert (Hne1 : dls1 <> []).
  { intros ->. apply Permutation_length in Hp. simpl in Hp.
    unfold keys in Hp. rewrite length_map in Hp.
    destruct dls0; [congruence | discriminate]. }
  assert (Hs : sorted (keys dls1) = sorted (keys dls0))
    by (symmetry; now apply sorted_Permutation).
  assert (Hr0 : broadcast_in_range env0 (sorted (keys dls0)))
    by (intros d i Hi; now rewrite Hb0).
  assert (Hr1 : broadcast_in_range env1 (sorted (keys dls1))).
  { intros d i Hi. rewrite Hb1, Hs, Hlen.
    now apply Nat.mod_upper_bound. }
  pose proof (RandomizedBatchSamplerIterator_init_wrapping env0 dls0 _ it0 l0
                Hinit0 eq_refl Hne Hf0 Hr0 Hacc0) as Hw0.
  pose proof (RandomizedBatchSamplerIterator_init_wrapping env1 dls1 _ it1 l1
                Hinit1 eq_refl Hne1 Hf1 Hr1 Hacc1) as Hw1.
  destruct (RandomizedBatchSamplerIterator_init_fields _ _ _ _ _ Hinit0)
    as (_ & _ & Hn0 & _ & _ & He0 & _).
  destruct (RandomizedBatchSamplerIterator_init_fields _ _ _ _ _ Hinit1)
    as (_ & _ & Hn1 & _ & _ & He1 & _).
  pose proof (RandomizedBatchSamplerIterator_init_draws _ _ _ _ _ Hinit0)
    as Hd0.
  pose proof (RandomizedBatchSamplerIterator_init_draws _ _ _ _ _ Hinit1)
    as Hd1.
  assert (Hk0 : outcome_keys (outcomes (rbs_next env0 (S fuel)) n it0)
                = map (fun d =>
                         nth (random_choices env0 d mod length (keys dls0))
                           (sorted (keys dls0)) "") (seq 0 n)).
  { rewrite (rbs_coordinated_keys env0 dls0 (sorted (keys dls0)) fuel n
               Hnds [] it0 Hw0).
    - rewrite Hd0. apply map_ext. intros d. unfold broadcast_key.
      now rewrite Hb0, Hlen.
    - unfold coordinated. rewrite He0. simpl. exact Hup0.
    - exact Hn0. }
  split; [exact Hk0|]. rewrite Hk0.
  rewrite (rbs_coordinated_keys env1 dls1 (sorted (keys dls0)) fuel n
             Hnds [] it1 Hw1).
  - rewrite Hd1. apply map_ext. intros d. unfold broadcast_key.
    now rewrite Hb1.
  - unfold coordinated. rewrite He1. simpl. exact Hup1.
  - now rewrite Hn1.
Qed.

Lemma rbs_coordinated_ranks_agree_witness :
  outcome_keys
    (outcomes (rbs_next (rank1_env [1; 0; 0] [0; 1; 1]) 1) 3
       (rbs_of (rank1_env [1; 0; 0] [0; 1; 1])
          [("b", [5; 6]); ("a", [7])]
          (mkRandomizedBatchSampler
             (Some [("a", PyInt 1); ("b", PyInt 3)])
             WRAP_AROUND_UNTIL_KILLED true)))
  = outcome_keys
      (outcomes (rbs_next (rank0_env [0; 1; 1]) 1) 3
         (rbs_of (rank0_env [0; 1; 1]) loaders_ab
            (mkRandomizedBatchSampler None WRAP_AROUND_UNTIL_KILLED true))).
Proof.
  refine (proj2 (rbs_coordinated_ranks_agree (rank0_env [0; 1; 1])
                   (rank1_env [1; 0; 0] [0; 1; 1]) loaders_ab
                   [("b", [5; 6]); ("a", [7])] None
                   (Some [("a", PyInt 1); ("b", PyInt 3)]) _ _
                   [EvNewGroup] [EvNewGroup]
                   _ _ _ _ _ eq_refl eq_refl _ _ eq_refl _ _ _ 0 3)).
  - simpl. repeat constructor; simpl; intuition discriminate.
  - simpl. apply perm_swap.
  - discriminate.
  - intros nd [<-|[<-|[]]]; discriminate.
  - intros nd [<-|[<-|[]]]; discriminate.
  - reflexivity.
  - reflexivity.
  - vm_compute. reflexivity.
  - intros ws Hws. discriminate.
  - intros ws Hws. vm_compute in Hws. inversion Hws; subst.
    vm_compute. reflexivity.
Defined.

(** ** What an in-order iterator asks of its sources *)

Section Traces.
Context {St : Type}.
Variable next : nat -> St -> outcome record * St * list event.

Lemma traces_step (st st' : St) (r : outcome record) (l evs : list event) :
  evals next st (r, st', l) ->
  traces next st' evs ->
  traces next st (l ++ evs).
Proof.
  intros [f0 H] [n Hn]. exists (S (f0 + n)). intros fuel calls Hf Hc.
  destruct calls as [|calls]; [lia|]. cbn [events].
  rewrite H by lia. now rewrite Hn by lia.
Qed.

Lemma traces_rest (st : St) :
  (forall fuel, next (S fuel) st = (Raise StopIteration, st, [])) ->
  traces next st [].
Proof.
  intros H. exists 1. intros fuel calls Hf _.
  destruct fuel as [|fuel]; [lia|].
  induction calls as [|calls IH]; [reflexivity|].
  cbn [events]. now rewrite H.
Qed.
End Traces.

(** The calls of an in-order iterator that stands on the key after
    [pre], with the handle [h] on its source, up to the end: the first
    call, and the calls after it. *)
Lemma io_traces_from (dls : dict dataloader) (order : list string) :
  incl order (keys dls) ->
  forall post pre k h,
    order = pre ++ k :: post ->
    exists r st' l evs,
      evals io_next
        (mkInOrderIterator dls order h (length pre) k (length order)
           (length pre)) (r, st', l)
      /\ traces io_next st' evs
      /\ l ++ evs = pass_events k (length h) ++ io_events dls post.
Proof.
  intros Hincl.
  induction post as [|k' post IH]; intros pre k h Ho.
  - induction h as [|b rest IHh].
    + exists (Raise StopIteration),
        (mkInOrderIterator dls order [] (length pre) k (length order)
           (S (length pre))), [EvNext k], [].
      split; [|split; [|reflexivity]].
      * exists 1. intros f Hf. destruct f as [|f]; [lia|].
        rewrite io_next_settled
          by (rewrite Ho; apply length_app_cons_neq).
        apply io_draw_last. rewrite Ho, length_app. simpl. lia.
      * apply traces_rest. intros fuel. apply io_next_ended. simpl.
        rewrite Ho, length_app. simpl. lia.
    + destruct IHh as (r & st' & l & evs & Hev & Htr & Heq).
      exists (Return [(k, b)]),
        (mkInOrderIterator dls order rest (length pre) k (length order)
           (length pre)), [EvNext k], (l ++ evs).
      split; [|split].
      * exists 1. intros f Hf. destruct f as [|f]; [lia|].
        rewrite io_next_settled
          by (rewrite Ho; apply length_app_cons_neq).
        apply io_draw_batch.
      * eapply traces_step; eassumption.
      * rewrite Heq. reflexivity.
  - assert (Hk' : nth_error order (S (length pre)) = Some k').
    { rewrite Ho. replace (pre ++ k :: k' :: post)
        with ((pre ++ [k]) ++ k' :: post) by now rewrite <- app_assoc.
      replace (S (length pre)) with (length (pre ++ [k]))
        by (rewrite length_app; simpl; lia).
      apply nth_error_middle. }
    assert (Hn : S (length pre) <> length order).
    { rewrite Ho, length_app. simpl. lia. }
    assert (Hin : In k' (keys dls)).
    { apply Hincl. rewrite Ho. apply in_or_app. right. right. now left. }
    destruct (lookup_In k' dls Hin) as [dl El].
    induction h as [|b rest IHh].
    + destruct (IH (pre ++ [k]) k' (iter dl)) as (r & st' & l & evs & Hev & Htr & Heq).
      { rewrite Ho, <- app_assoc. reflexivity. }
      rewrite length_app in Hev. simpl in Hev.
      replace (length pre + 1) with (S (length pre)) in Hev by lia.
      exists r, st', (EvNext k :: [EvIter k'] ++ l), evs.
      split; [|split; [assumption|]].
      * destruct Hev as [f0 Hev]. exists (S f0).
        intros f Hf. destruct f as [|f]; [lia|].
        rewrite io_next_settled
          by (rewrite Ho; apply length_app_cons_neq).
        rewrite (io_draw_open _ dls order _ k _ _ k' dl Hn Hk' El).
        rewrite (Hev f) by lia. reflexivity.
      * assert (Hdl : dl_of dls k' = dl) by (unfold dl_of; now rewrite El).
        simpl. rewrite Heq. unfold io_events. simpl.
        rewrite Hdl. reflexivity.
    + destruct IHh as (r & st' & l & evs & Hev & Htr & Heq).
      exists (Return [(k, b)]),
        (mkInOrderIterator dls order rest (length pre) k (length order)
           (length pre)), [EvNext k], (l ++ evs).
      split; [|split].
      * exists 1. intros f Hf. destruct f as [|f]; [lia|].
        rewrite io_next_settled
          by (rewrite Ho; apply length_app_cons_neq).
        apply io_draw_batch.
      * eapply traces_step; eassumption.
      * rewrite Heq. reflexivity.
Qed.

(** X19. An in-order iterator whose order names sources only has one
    source open at a time: over the whole run, however many calls are
    made after the end, it invokes [next] on the first source, opened by
    the constructor, until the source signals its exhaustion, and then,
    for each further key of the order in turn, [iter] on the source of the
    key, once, followed by [next] on it until it signals its exhaustion.
    A source is opened only when the one before is exhausted, and no call
    is made on any source after the end. *)
Theorem io_opens_one_source_at_a_time :
  forall (dls : dict dataloader) (s : InOrder) (it : InOrderIterator),
    InOrderIterator_init dls s = Return it ->
    incl (order_or_keys (io_strategy_iteration_order s) (keys dls))
      (keys dls) ->
    traces io_next it
      (pass_events (io_cur_iterator it) (length (io_cur_iter it))
       ++ io_events dls
            (tl (order_or_keys (io_strategy_iteration_order s) (keys dls)))).
Proof.
  intros dls s it Hinit Hincl.
  destruct (InOrderIterator_init_inv _ _ _ Hinit) as (k0 & r & dl0 & Ho & Hl & ->).
  rewrite Ho in *. cbn [tl io_cur_iterator io_cur_iter].
  destruct (io_traces_from dls (k0 :: r) Hincl r [] k0 (iter dl0) eq_refl)
    as (r0 & st' & l & evs & Hev & Htr & Heq).
  rewrite <- Heq. eapply traces_step; eassumption.
Qed.

Lemma io_opens_one_source_at_a_time_witness :
  traces io_next io_aba
    [EvNext "a"; EvNext "a";
     EvIter "b"; EvNext "b"; EvNext "b"; EvNext "b"; EvNext "b";
     EvIter "a"; EvNext "a"; EvNext "a"].
Proof.
  refine (io_opens_one_source_at_a_time loaders_ab
            (mkInOrder (Some ["a"; "b"; "a"])) io_aba eq_refl _).
  intros k Hk. simpl in *. intuition.
Defined.
